(** * Voxel open world: chunk maths, terrain columns, padded voxel buffers,
      the greedy mesher and the chunk manager.

    A shallow embedding of the TypeScript sources

      - [src/lib/chunkMath.ts]            (module [ChunkMath])
      - [src/lib/seed.ts], [seedToInt]    (module [Seed])
      - [src/world/getVoxel.ts]           (module [Terrain])
      - [src/world/buildChunkVoxels.ts]   (module [VoxelBuilder])
      - [greedyMesh] and its helpers      (module [GreedyMesher])
      - [src/engine/chunkManager.ts]      (module [Manager])
      - [src/world/destroyedVoxels.ts]    (module [DestroyedVoxels])
      - [meshChunk] and the message handler of [src/workers/mesh.worker.ts]
                                          (module [Worker])
      - [onShootVoxel] and its helpers of [src/game/Game.tsx]
                                          (module [Game])
      - [src/world/worldHash.ts]          (module [WorldHash])

    Conventions.  A JavaScript number that holds an integer (a coordinate, a
    size, an index, a voxel id) is a value of [Z]: the sources only add,
    subtract, multiply, compare and floor such numbers, which is exact on the
    safe integers.  A number read back from a string may be [NaN]; such
    numbers are values of [num].  The radii handed to the chunk manager may
    be fractional and are values of [Q].  Where a statement reaches past the
    safe integers or the finite radii, the same code is given on binary64
    numbers with NaN and the infinities (modules [Float], [Number],
    [ChunkMath64] and the radii of [Manager]), and the two readings are
    proved to agree where both apply.  The colours of a mesh are the binary32
    numbers of its [Float32Array].  A [throw] is the [Throw] constructor of
    [result].  Typed arrays are lists; a JavaScript [Map] keeps its entries
    in insertion order, so it is an association list (module [JsMap]). *)

From Stdlib Require Import ZArith QArith Qround Qabs Qpower Lia Lqa List String Ascii.
From Stdlib Require Import Bool.
From Stdlib Require Import DecimalString DecimalZ DecimalPos Sorted.
From Stdlib Require HexadecimalString HexadecimalFacts.
From stdpp Require Import base list strings gmap.

Local Open Scope Z_scope.

(** ** Exceptions *)

Inductive result (A : Type) : Type :=
| Ok (a : A)
| Throw (message : string).

Arguments Ok {A} a.
Arguments Throw {A} message.

Definition bind {A B : Type} (r : result A) (k : A -> result B) : result B :=
  match r with
  | Ok a => k a
  | Throw m => Throw m
  end.

Notation "'let!' x ':=' r 'in' k" := (bind r (fun x => k))
  (at level 10, x name, r at level 100, k at level 200).

(** ** Loops *)

(** [for (let i = lo; i < lo + n; i += 1) body]. *)
Definition forRange {S : Type} (lo n : Z) (body : Z -> S -> S) (s : S) : S :=
  foldl (fun acc i => body i acc) s (seqZ lo n).

(** [while (cond) body], run for at most [fuel] iterations: [None] when the
    condition still holds after [fuel] iterations. *)
Fixpoint while {S : Type} (fuel : nat) (cond : S -> bool)
    (body : S -> option S) (s : S) : option S :=
  if cond s then
    match fuel with
    | O => None
    | Datatypes.S fuel' =>
        match body s with
        | Some s' => while fuel' cond body s'
        | None => None
        end
    end
  else Some s.

(** [for (let i = lo; i < lo + n; i += 1) body], where the body contains a
    [while] loop and so may use up its fuel. *)
Definition forRangeM {S : Type} (lo n : Z) (body : Z -> S -> option S)
    (s : S) : option S :=
  foldl (fun acc i => match acc with Some a => body i a | None => None end)
        (Some s) (seqZ lo n).

(** ** Typed arrays *)

(** [a[i]]: [None] is [undefined], which is what a read outside the array
    gives. *)
Definition readAt {A : Type} (a : list A) (i : Z) : option A :=
  if i <? 0 then None else a !! Z.to_nat i.

(** [a[i] = x]: a typed array ignores a write outside its bounds. *)
Definition writeAt {A : Type} (a : list A) (i : Z) (x : A) : list A :=
  if i <? 0 then a else <[Z.to_nat i := x]> a.

(** [new Uint8Array(n)], [new Int32Array(n)]: [n] zeros. *)
Definition newArray (n : Z) : list Z := replicate (Z.to_nat n) 0.

(** ** Numbers that may be NaN or infinite *)

Module Num.

(** The integers, the two infinities and NaN. *)
Inductive num : Type :=
| NaN
| NegInf
| Int (z : Z)
| PosInf.

Definition neg (a : num) : num :=
  match a with
  | NaN => NaN
  | NegInf => PosInf
  | Int z => Int (- z)
  | PosInf => NegInf
  end.

Definition add (a b : num) : num :=
  match a, b with
  | NaN, _ | _, NaN => NaN
  | PosInf, NegInf | NegInf, PosInf => NaN
  | PosInf, _ | _, PosInf => PosInf
  | NegInf, _ | _, NegInf => NegInf
  | Int x, Int y => Int (x + y)
  end.

Definition sub (a b : num) : num := add a (neg b).

(** [Math.abs] *)
Definition abs (a : num) : num :=
  match a with
  | NaN => NaN
  | NegInf | PosInf => PosInf
  | Int z => Int (Z.abs z)
  end.

(** [a < b]; false as soon as one side is NaN. *)
Definition ltb (a b : num) : bool :=
  match a, b with
  | NaN, _ | _, NaN => false
  | _, NegInf => false
  | NegInf, _ => true
  | PosInf, _ => false
  | Int _, PosInf => true
  | Int x, Int y => x <? y
  end.

(** [a === b]; NaN differs from itself. *)
Definition eqb (a b : num) : bool :=
  match a, b with
  | NegInf, NegInf | PosInf, PosInf => true
  | Int x, Int y => x =? y
  | _, _ => false
  end.

(** [a <= b] *)
Definition leb (a b : num) : bool := ltb a b || eqb a b.

(** [Math.max(a, b)] *)
Definition max (a b : num) : num :=
  match a, b with
  | NaN, _ | _, NaN => NaN
  | _, _ => if ltb a b then b else a
  end.

(** [String(a)], as a template literal prints a number. *)
Definition toString (a : num) : string :=
  match a with
  | NaN => "NaN"
  | NegInf => "-Infinity"
  | Int z => NilZero.string_of_int (Z.to_int z)
  | PosInf => "Infinity"
  end.

(** [Number(s)] on the strings the chunk keys are made of: an optional minus
    sign followed by decimal digits is read as that integer, and every other
    string as NaN.  (JavaScript reads a few more strings as numbers, such as
    the empty string or one in exponent notation; no chunk key holds one, see
    [parseChunkKey_chunkKey].) *)
Definition ofString (s : string) : num :=
  match NilZero.int_of_string s with
  | Some d => Int (Z.of_int d)
  | None => NaN
  end.

(** [Number(s)] where [s] may be [undefined]. *)
Definition ofOptString (s : option string) : num :=
  match s with
  | Some s => ofString s
  | None => NaN
  end.

End Num.

(** ** Binary floating-point numbers

    JavaScript numbers are IEEE 754 binary64 values.  Where a claim reaches
    beyond the integers on which that arithmetic is exact, the operations are
    modelled with their rounding: [Float] is the rounding and [Number] the
    values and the operators. *)

Module Float.

(** The integer nearest to [q]; of two equally near ones, the even one. *)
Definition nearestEven (q : Q) : Z :=
  let f := Qfloor q in
  match (q - inject_Z f ?= 1 # 2)%Q with
  | Lt => f
  | Gt => f + 1
  | Eq => if Z.even f then f else f + 1
  end.

(** [floor (log2 |q|)], for [q] other than 0. *)
Definition exponent (q : Q) : Z :=
  let e := Z.log2 (Z.abs (Qnum q)) - Z.log2 (Z.pos (Qden q)) in
  if Qle_bool (2 ^ e) (Qabs q) then e else e - 1.

(** [q] rounded to the nearest number that has [precision] significant bits
    and an exponent of at least [emin], ties to the even significand; the
    exponent is not bounded above here (see [Number.rounded]).  The result
    is in lowest terms. *)
Definition round (precision emin : Z) (q : Q) : Q :=
  if Qeq_bool q 0 then 0%Q
  else
    let e := Z.max (exponent q) emin in
    let ulp := (2 ^ (e - precision + 1))%Q in
    Qred (inject_Z (nearestEven (q / ulp)) * ulp).

(** binary64: 53 significant bits, exponents from -1022 to 1023. *)
Definition round64 (q : Q) : Q := round 53 (-1022) q.

(** binary32: 24 significant bits, exponents from -126 to 127. *)
Definition round32 (q : Q) : Q := round 24 (-126) q.

(** What [new Float32Array([c])] holds for a number written [c] in the
    source, below the overflow threshold of binary32: the decimal [c] denotes
    the binary64 number nearest to it, and storing that rounds it to
    binary32. *)
Definition toFloat32 (c : Q) : Q := round32 (round64 c).

End Float.

Module Number.

(** A number: a finite value, NaN or an infinity.  The two zeros are not
    told apart; nothing modelled here depends on the sign of a zero. *)
Inductive number : Type :=
| Finite (q : Q)
| NaN
| PosInf
| NegInf.

Definition ofZ (z : Z) : number := Finite (inject_Z z).

(** The binary64 result of an operation whose exact result is [q]. *)
Definition rounded (q : Q) : number :=
  let r := Float.round64 q in
  if Qle_bool (2 ^ 1024) (Qabs r)
  then if Qle_bool 0 q then PosInf else NegInf
  else Finite r.

(** [a / b].  A zero divisor is read as +0. *)
Definition div (a b : number) : number :=
  match a, b with
  | NaN, _ | _, NaN => NaN
  | Finite x, Finite y =>
      if Qeq_bool y 0 then
        match (x ?= 0)%Q with
        | Eq => NaN
        | Gt => PosInf
        | Lt => NegInf
        end
      else rounded (x / y)
  | Finite _, PosInf | Finite _, NegInf => Finite 0
  | PosInf, Finite y => if Qle_bool 0 y then PosInf else NegInf
  | NegInf, Finite y => if Qle_bool 0 y then NegInf else PosInf
  | PosInf, PosInf | PosInf, NegInf | NegInf, PosInf | NegInf, NegInf => NaN
  end.

(** [a * b] *)
Definition mul (a b : number) : number :=
  match a, b with
  | NaN, _ | _, NaN => NaN
  | Finite x, Finite y => rounded (x * y)
  | Finite x, PosInf | PosInf, Finite x =>
      match (x ?= 0)%Q with
      | Eq => NaN
      | Gt => PosInf
      | Lt => NegInf
      end
  | Finite x, NegInf | NegInf, Finite x =>
      match (x ?= 0)%Q with
      | Eq => NaN
      | Gt => NegInf
      | Lt => PosInf
      end
  | PosInf, PosInf | NegInf, NegInf => PosInf
  | PosInf, NegInf | NegInf, PosInf => NegInf
  end.

(** [a - b] *)
Definition sub (a b : number) : number :=
  match a, b with
  | NaN, _ | _, NaN => NaN
  | Finite x, Finite y => rounded (x - y)
  | Finite _, PosInf => NegInf
  | Finite _, NegInf => PosInf
  | PosInf, PosInf | NegInf, NegInf => NaN
  | PosInf, _ => PosInf
  | NegInf, _ => NegInf
  end.

(** [- a] *)
Definition neg (a : number) : number :=
  match a with
  | Finite q => Finite (- q)
  | NaN => NaN
  | PosInf => NegInf
  | NegInf => PosInf
  end.

(** [Math.floor] *)
Definition floor (a : number) : number :=
  match a with
  | Finite q => Finite (inject_Z (Qfloor q))
  | _ => a
  end.

(** [a < b]; false as soon as one side is NaN. *)
Definition ltb (a b : number) : bool :=
  match a, b with
  | NaN, _ | _, NaN => false
  | _, NegInf => false
  | NegInf, _ => true
  | PosInf, _ => false
  | Finite _, PosInf => true
  | Finite x, Finite y => negb (Qle_bool y x)
  end.

(** [a <= b]; false as soon as one side is NaN. *)
Definition leb (a b : number) : bool :=
  match a, b with
  | NaN, _ | _, NaN => false
  | NegInf, _ => true
  | _, NegInf => false
  | _, PosInf => true
  | PosInf, _ => false
  | Finite x, Finite y => Qle_bool x y
  end.

(** [Math.max(a, b)] *)
Definition max (a b : number) : number :=
  match a, b with
  | NaN, _ | _, NaN => NaN
  | _, _ => if ltb a b then b else a
  end.

End Number.


Export Num(num).

(** [s.split(",")] *)
Fixpoint splitComma (s : string) : list string :=
  match s with
  | EmptyString => [EmptyString]
  | String c rest =>
      if Ascii.eqb c ","%char then EmptyString :: splitComma rest
      else match splitComma rest with
           | [] => [String c EmptyString]
           | piece :: pieces => String c piece :: pieces
           end
  end.

(** ** A JavaScript [Map] with string keys: entries in insertion order *)

Module JsMap.

Definition t (V : Type) : Type := list (string * V).

Definition empty {V : Type} : t V := [].

Fixpoint get {V : Type} (m : t V) (k : string) : option V :=
  match m with
  | [] => None
  | (k', v) :: rest => if String.eqb k' k then Some v else get rest k
  end.

Definition has {V : Type} (m : t V) (k : string) : bool :=
  match get m k with
  | Some _ => true
  | None => false
  end.

(** [m.set(k, v)]: a key that is present keeps its place, a new key goes to
    the end. *)
Fixpoint set {V : Type} (m : t V) (k : string) (v : V) : t V :=
  match m with
  | [] => [(k, v)]
  | (k', v') :: rest =>
      if String.eqb k' k then (k, v) :: rest else (k', v') :: set rest k v
  end.

(** [m.delete(k)]; a map holds a key at most once ([set] keeps it so). *)
Definition delete {V : Type} (m : t V) (k : string) : t V :=
  List.filter (fun e => negb (String.eqb (fst e) k)) m.

Definition keys {V : Type} (m : t V) : list string := List.map fst m.

Definition size {V : Type} (m : t V) : Z := Z.of_nat (length m).

(** [m.entries().next()] *)
Definition first {V : Type} (m : t V) : option (string * V) :=
  match m with
  | [] => None
  | e :: _ => Some e
  end.

End JsMap.

(** A JavaScript [Set] of strings: elements in insertion order, once each. *)
Module JsSet.

Definition StringSet : Type := list string.

(** [s.has(k)] *)
Definition contains (s : StringSet) (k : string) : bool :=
  existsb (String.eqb k) s.

(** [s.add(k)] *)
Definition insert (s : StringSet) (k : string) : StringSet :=
  if contains s k then s else s ++ [k].

(** [new Set(items)] *)
Definition ofList (items : list string) : StringSet :=
  foldl insert [] items.

End JsSet.

(** ** src/lib/chunkMath.ts *)

Module ChunkMath.

Record ChunkCoord : Type := { chunk : Z; local : Z }.

(** The functions of this module on integers: every operation is taken
    exactly.  That is what the binary64 operations of the source compute
    while the integers are small enough ([Z.abs a + b <= 2 ^ 53], see
    [ChunkMath64]); beyond that the source rounds, and [ChunkMath64] is the
    model. *)

(** [Math.floor(a / b)]: the quotient is taken in the rationals and then
    floored. *)
Definition floorDiv (a b : Z) : result Z :=
  if b <=? 0 then Throw "floorDiv requires b > 0"
  else Ok (Qfloor (inject_Z a / inject_Z b)).

Definition floorMod (a b : Z) : result Z :=
  if b <=? 0 then Throw "floorMod requires b > 0"
  else let! q := floorDiv a b in Ok (a - q * b).

Definition worldToChunk (x chunkSize : Z) : result ChunkCoord :=
  if chunkSize <=? 0 then Throw "worldToChunk requires chunkSize > 0"
  else
    let! c := floorDiv x chunkSize in
    let! l := floorMod x chunkSize in
    Ok {| chunk := c; local := l |}.

Definition chunkKey (cx cz : num) : string :=
  Num.toString cx +:+ "," +:+ Num.toString cz.

End ChunkMath.

(** ** src/lib/chunkMath.ts on binary64 numbers

    The same functions with the arithmetic of the source: [a / b], [q * b]
    and [a - p] are each rounded to binary64, and an argument may be any
    number. *)

Module ChunkMath64.

Import Number.

Record ChunkCoord : Type := { chunk : number; local : number }.

Definition floorDiv (a b : number) : result number :=
  if leb b (Finite 0) then Throw "floorDiv requires b > 0"
  else Ok (floor (div a b)).

Definition floorMod (a b : number) : result number :=
  if leb b (Finite 0) then Throw "floorMod requires b > 0"
  else let! q := floorDiv a b in Ok (sub a (mul q b)).

Definition worldToChunk (x chunkSize : number) : result ChunkCoord :=
  if leb chunkSize (Finite 0) then Throw "worldToChunk requires chunkSize > 0"
  else
    let! c := floorDiv x chunkSize in
    let! l := floorMod x chunkSize in
    Ok {| chunk := c; local := l |}.

End ChunkMath64.

(** ** src/lib/seed.ts: [seedToInt] *)

Module Seed.

Definition FNV_OFFSET_BASIS : Z := 0x811c9dc5.
Definition FNV_PRIME : Z := 0x01000193.

(** The 32-bit two's complement reading of an integer. *)
Definition toInt32 (z : Z) : Z := (z + 2 ^ 31) mod 2 ^ 32 - 2 ^ 31.

(** [Math.imul] *)
Definition imul (a b : Z) : Z := toInt32 (toInt32 a * toInt32 b).

(** [seedStr] is the sequence of UTF-8 bytes that [TextEncoder] yields. *)
Definition seedToInt (seedStr : string) : Z :=
  let hash :=
    foldl (fun hash c =>
             let hash := Z.lxor (toInt32 hash) (Z.of_nat (nat_of_ascii c)) in
             imul hash FNV_PRIME)
          FNV_OFFSET_BASIS (list_ascii_of_string seedStr) in
  hash mod 2 ^ 32.

End Seed.

(** ** src/world/getVoxel.ts *)

Module Terrain.

Inductive VoxelId : Type :=
| VOXEL_AIR
| VOXEL_GRASS
| VOXEL_DIRT
| VOXEL_STONE.

(** The number behind each voxel id, which is what a voxel buffer stores. *)
Definition voxelCode (id : VoxelId) : Z :=
  match id with
  | VOXEL_AIR => 0
  | VOXEL_GRASS => 1
  | VOXEL_DIRT => 2
  | VOXEL_STONE => 3
  end.

Definition DIRT_LAYER_DEPTH : Z := 3.

Inductive DoorSide : Type := south | west.

Record HutTemplate : Type := {
  offsetX : Z;
  offsetZ : Z;
  sizeX : Z;
  sizeZ : Z;
  door : DoorSide
}.

Definition HUT_TEMPLATES : list HutTemplate :=
  [ {| offsetX := -6; offsetZ := -4; sizeX := 5; sizeZ := 5; door := south |};
    {| offsetX := 6; offsetZ := 3; sizeX := 4; sizeZ := 6; door := west |} ].

Record SurfaceProfile : Type := {
  surfaceHeight : Z;
  baseHeight : Z;
  isRiver : bool;
  isVillage : bool;
  isVillageRoad : bool;
  localX : Z;
  localZ : Z;
  villageCenterX : Z;
  villageCenterZ : Z
}.

Definition isDoorSide (a b : DoorSide) : bool :=
  match a, b with
  | south, south | west, west => true
  | _, _ => false
  end.

(** One turn of the loop over [HUT_TEMPLATES]: [Some r] when the body
    returns [r], [None] when it runs into [continue]. *)
Definition hutVoxel (profile : SurfaceProfile) (y : Z) (hut : HutTemplate)
    : option VoxelId :=
  let wallBottom := surfaceHeight profile + 1 in
  let wallTop := surfaceHeight profile + 3 in
  let roofY := surfaceHeight profile + 4 in
  let centerX := villageCenterX profile + offsetX hut in
  let centerZ := villageCenterZ profile + offsetZ hut in
  let minX := centerX - sizeX hut / 2 in
  let maxX := minX + sizeX hut - 1 in
  let minZ := centerZ - sizeZ hut / 2 in
  let maxZ := minZ + sizeZ hut - 1 in
  let inside :=
    (minX <=? localX profile) && (localX profile <=? maxX) &&
    (minZ <=? localZ profile) && (localZ profile <=? maxZ) in
  if negb inside then None
  else if y =? surfaceHeight profile then Some VOXEL_STONE
  else if roofY <? y then Some VOXEL_AIR
  else if y =? roofY then Some VOXEL_DIRT
  else if (y <? wallBottom) || (wallTop <? y) then None
  else
    let onBoundary :=
      (localX profile =? minX) || (localX profile =? maxX) ||
      (localZ profile =? minZ) || (localZ profile =? maxZ) in
    if negb onBoundary then Some VOXEL_AIR
    else
      let doorX := (minX + maxX) / 2 in
      let doorZ := (minZ + maxZ) / 2 in
      let isDoor :=
        (isDoorSide (door hut) south && (localZ profile =? maxZ)
           && (localX profile =? doorX)) ||
        (isDoorSide (door hut) west && (localX profile =? minX)
           && (localZ profile =? doorZ)) in
      if isDoor && (y <=? wallBottom + 1) then Some VOXEL_AIR
      else Some VOXEL_STONE.

(** [for (const hut of huts) ...; return null]: the first template whose
    body returns decides. *)
Fixpoint firstHutVoxel (profile : SurfaceProfile) (y : Z)
    (huts : list HutTemplate) : option VoxelId :=
  match huts with
  | [] => None
  | hut :: rest =>
      match hutVoxel profile y hut with
      | Some v => Some v
      | None => firstHutVoxel profile y rest
      end
  end.

(** [None] is [null]. *)
Definition getVillageStructureVoxel (profile : SurfaceProfile) (y : Z)
    : option VoxelId :=
  if negb (isVillage profile) then None
  else firstHutVoxel profile y HUT_TEMPLATES.

Section WithNoise.

(** [getSurfaceProfile] samples simplex noise (packages [alea] and
    [simplex-noise]) in floating point and memoises the result per seed; it
    is taken here as the function of [(seedStr, x, z)] that it computes. *)
Variable getSurfaceProfile : string -> Z -> Z -> SurfaceProfile.

Definition getVoxel (seedStr : string) (x y z : Z) : VoxelId :=
  let profile := getSurfaceProfile seedStr x z in
  let surfaceHeight := surfaceHeight profile in
  if y <? surfaceHeight then
    if surfaceHeight - DIRT_LAYER_DEPTH <=? y then VOXEL_DIRT
    else VOXEL_STONE
  else
    match getVillageStructureVoxel profile y with
    | Some structureVoxel => structureVoxel
    | None =>
        if surfaceHeight <? y then VOXEL_AIR
        else if y =? surfaceHeight then
          if isRiver profile then VOXEL_DIRT
          else if isVillageRoad profile then VOXEL_STONE
          else if isVillage profile then VOXEL_DIRT
          else VOXEL_GRASS
        else VOXEL_DIRT
    end.

Definition getSurfaceHeight (seedStr : string) (x z : Z) : Z :=
  surfaceHeight (getSurfaceProfile seedStr x z).

Definition isSolidTerrainVoxel (seedStr : string) (x y z : Z) : bool :=
  y <=? getSurfaceHeight seedStr x z.

End WithNoise.

End Terrain.

(** ** src/world/buildChunkVoxels.ts *)

Module VoxelBuilder.

Import Terrain.

(** The constants of [src/world/chunkConstants.ts], a file that is not part
    of the sources at hand. *)
Record ChunkConstants : Type := {
  CHUNK_SIZE : Z;
  CHUNK_HEIGHT : Z;
  CHUNK_SIZE_PADDED : Z;
  CHUNK_HEIGHT_PADDED : Z
}.

Section WithConstants.

Variable K : ChunkConstants.
Variable getSurfaceProfile : string -> Z -> Z -> SurfaceProfile.

Definition PADDED_SLICE_AREA : Z := CHUNK_SIZE_PADDED K * CHUNK_SIZE_PADDED K.

(** Data layout: x is fastest, then z, then y. *)
Definition indexOf (px py pz : Z) : Z :=
  py * PADDED_SLICE_AREA + pz * CHUNK_SIZE_PADDED K + px.

(** [isDestroyed?.(x, y, z)] used as a condition: an absent predicate
    counts as false. *)
Definition callIsDestroyed (isDestroyed : option (Z -> Z -> Z -> bool))
    (x y z : Z) : bool :=
  match isDestroyed with
  | Some f => f x y z
  | None => false
  end.

Definition buildChunkVoxelsWithOverrides (seedStr : string) (cx cz : Z)
    (isDestroyed : option (Z -> Z -> Z -> bool)) : list Z :=
  let voxels :=
    newArray (CHUNK_SIZE_PADDED K * CHUNK_HEIGHT_PADDED K * CHUNK_SIZE_PADDED K) in
  let worldX0 := cx * CHUNK_SIZE K in
  let worldZ0 := cz * CHUNK_SIZE K in
  forRange 0 (CHUNK_HEIGHT_PADDED K) (fun py voxels =>
    let worldY := py - 1 in
    forRange 0 (CHUNK_SIZE_PADDED K) (fun pz voxels =>
      let worldZ := worldZ0 + (pz - 1) in
      forRange 0 (CHUNK_SIZE_PADDED K) (fun px voxels =>
        let worldX := worldX0 + (px - 1) in
        writeAt voxels (indexOf px py pz)
          (if callIsDestroyed isDestroyed worldX worldY worldZ then 0
           else voxelCode (getVoxel getSurfaceProfile seedStr worldX worldY worldZ)))
        voxels)
      voxels)
    voxels.

Definition buildChunkVoxels (seedStr : string) (cx cz : Z) : list Z :=
  buildChunkVoxelsWithOverrides seedStr cx cz None.

End WithConstants.

End VoxelBuilder.

(** ** [greedyMesh] *)

Module GreedyMesher.

Record PaddedChunkDims : Type := { x : Z; y : Z; z : Z }.

(** The payload of a mesh.  The source ends by copying the number arrays
    into [Float32Array]s and a [Uint32Array] of the same lengths; positions,
    normals and indices are small integers, which these hold exactly, and
    the colours are the binary32 numbers that the array holds. *)
Record GreedyMeshPayload : Type := {
  positions : list Z;
  normals : list Z;
  colors : list Q;
  indices : list Z;
  quadCount : Z;
  indexCount : Z
}.

Definition VOXEL_AIR : Z := 0.
Definition VOXEL_GRASS : Z := 1.
Definition VOXEL_DIRT : Z := 2.
Definition VOXEL_STONE : Z := 3.

Definition AXIS_U (d : Z) : Z :=
  if d =? 0 then 1 else if d =? 1 then 2 else 0.

Definition AXIS_V (d : Z) : Z :=
  if d =? 0 then 2 else if d =? 1 then 0 else 1.

(** The palette, as the decimals that the source writes.  They reach the
    payload through a [Float32Array] ([greedyMesh] below). *)
Definition colorForVoxel (id : Z) : Q * Q * Q :=
  if id =? VOXEL_GRASS then (0.36, 0.72, 0.31)%Q
  else if id =? VOXEL_DIRT then (0.49, 0.35, 0.22)%Q
  else if id =? VOXEL_STONE then (0.56, 0.56, 0.58)%Q
  else (0, 0, 0)%Q.

Definition indexOfPadded (px py pz : Z) (dims : PaddedChunkDims) : Z :=
  py * x dims * z dims + pz * x dims + px.

(** The arrays and the counter that the closures of [greedyMesh] append to. *)
Record Buffers : Type := {
  b_positions : list Z;
  b_normals : list Z;
  b_colors : list Q;
  b_indices : list Z;
  b_quadCount : Z
}.

Definition emptyBuffers : Buffers :=
  {| b_positions := []; b_normals := []; b_colors := []; b_indices := [];
     b_quadCount := 0 |}.

Section WithInput.

Variable voxels : list Z.
Variable dims : PaddedChunkDims.

(** [None] is [undefined], read when the buffer is shorter than [dims]
    says. *)
Definition sample (lx ly lz : Z) : option Z :=
  let px := lx + 1 in
  let py := ly + 1 in
  let pz := lz + 1 in
  if (px <? 0) || (py <? 0) || (pz <? 0)
     || (x dims <=? px) || (y dims <=? py) || (z dims <=? pz)
  then Some VOXEL_AIR
  else readAt voxels (indexOfPadded px py pz dims).

End WithInput.

Definition pushVertex (x y z nx ny nz : Z) (r g b : Q) (m : Buffers)
    : Buffers :=
  {| b_positions := b_positions m ++ [x; y; z];
     b_normals := b_normals m ++ [nx; ny; nz];
     b_colors := b_colors m ++ [r; g; b];
     b_indices := b_indices m;
     b_quadCount := b_quadCount m |}.

Definition pushIndices (new : list Z) (m : Buffers) : Buffers :=
  {| b_positions := b_positions m;
     b_normals := b_normals m;
     b_colors := b_colors m;
     b_indices := b_indices m ++ new;
     b_quadCount := b_quadCount m |}.

Definition incrQuadCount (m : Buffers) : Buffers :=
  {| b_positions := b_positions m;
     b_normals := b_normals m;
     b_colors := b_colors m;
     b_indices := b_indices m;
     b_quadCount := b_quadCount m + 1 |}.

Definition emitQuad (d w u v width height normalSign voxelId : Z)
    (m : Buffers) : Buffers :=
  let '(x0, y0, z0, (dux, duy, duz), (dvx, dvy, dvz)) :=
    if d =? 0 then (w, u, v, (0, width, 0), (0, 0, height))
    else if d =? 1 then (v, w, u, (0, 0, width), (height, 0, 0))
    else (u, v, w, (width, 0, 0), (0, height, 0)) in
  let nx := if d =? 0 then normalSign else 0 in
  let ny := if d =? 1 then normalSign else 0 in
  let nz := if d =? 2 then normalSign else 0 in
  let '(r, g, b) := colorForVoxel voxelId in
  let base := Z.of_nat (length (b_positions m)) / 3 in
  let m := pushVertex x0 y0 z0 nx ny nz r g b m in
  let m := pushVertex (x0 + dux) (y0 + duy) (z0 + duz) nx ny nz r g b m in
  let m := pushVertex (x0 + dux + dvx) (y0 + duy + dvy) (z0 + duz + dvz)
                      nx ny nz r g b m in
  let m := pushVertex (x0 + dvx) (y0 + dvy) (z0 + dvz) nx ny nz r g b m in
  let m :=
    if 0 <? normalSign
    then pushIndices [base; base + 1; base + 2; base; base + 2; base + 3] m
    else pushIndices [base; base + 2; base + 1; base; base + 3; base + 2] m in
  incrQuadCount m.

(** What an [Int32Array] keeps of a stored value: [undefined] is stored as
    0.  (The voxel ids are bytes, which it holds as they are.) *)
Definition storedInt32 (a : option Z) : Z :=
  match a with
  | Some n => n
  | None => 0
  end.

(** [-b] stored into an [Int32Array]: the negation of [undefined] is NaN,
    stored as 0. *)
Definition storedNegInt32 (b : option Z) : Z :=
  match b with
  | Some n => - n
  | None => 0
  end.

(** [a !== VOXEL_AIR] *)
Definition isSolid (a : option Z) : bool :=
  match a with
  | Some n => negb (n =? VOXEL_AIR)
  | None => true
  end.

(** [mask[i]] for an index inside the mask.  Every read of the mask in
    [greedyMesh] is inside it: the loops keep [u + width < sizeU] and
    [v + height < sizeV]. *)
Definition maskAt (mask : list Z) (i : Z) : Z :=
  match readAt mask i with
  | Some n => n
  | None => 0
  end.

(** The first pair of loops over [(v, u)] of one slice: fill the mask. *)
Definition fillMask (voxels : list Z) (dims : PaddedChunkDims)
    (d w sizeU sizeV : Z) (mask : list Z) : list Z :=
  snd
    (forRange 0 sizeV (fun v st =>
       forRange 0 sizeU (fun u '(maskIndex, mask) =>
         let '((ax, ay, az), (bx, by_, bz)) :=
           if d =? 0 then ((w - 1, u, v), (w, u, v))
           else if d =? 1 then ((v, w - 1, u), (v, w, u))
           else ((u, v, w - 1), (u, v, w)) in
         let a := sample voxels dims ax ay az in
         let b := sample voxels dims bx by_ bz in
         let aSolid := isSolid a in
         let bSolid := isSolid b in
         let mask :=
           if Bool.eqb aSolid bSolid then writeAt mask maskIndex 0
           else if aSolid then writeAt mask maskIndex (storedInt32 a)
           else writeAt mask maskIndex (storedNegInt32 b) in
         (maskIndex + 1, mask)) st)
       (0, mask)).

(** [while (u + width < sizeU && mask[start + width] === signedVoxel)
      width += 1] *)
Definition growWidth (mask : list Z) (sizeU u start signedVoxel : Z)
    : option Z :=
  while (Z.to_nat sizeU)
    (fun width =>
       (u + width <? sizeU) && (maskAt mask (start + width) =? signedVoxel))
    (fun width => Some (width + 1))
    1.

(** The [for (k ...)] loop with its [break]: does the whole row match? *)
Definition rowMatches (mask : list Z) (rowStart width signedVoxel : Z)
    : bool :=
  forallb (fun k => maskAt mask (rowStart + k) =? signedVoxel)
          (seqZ 0 width).

(** [while (v + height < sizeV && canGrow) ...]; the state is
    [(height, canGrow)]. *)
Definition growHeight (mask : list Z) (sizeU sizeV u v width signedVoxel : Z)
    : option (Z * bool) :=
  while (Z.to_nat sizeV)
    (fun '(height, canGrow) => (v + height <? sizeV) && canGrow)
    (fun '(height, canGrow) =>
       let rowStart := (v + height) * sizeU + u in
       let canGrow := rowMatches mask rowStart width signedVoxel in
       Some (if canGrow then (height + 1, canGrow) else (height, canGrow)))
    (1, true).

(** The loops that zero the merged cells. *)
Definition clearRect (sizeU u v width height : Z) (mask : list Z) : list Z :=
  forRange 0 height (fun y mask =>
    let rowStart := (v + y) * sizeU + u in
    forRange 0 width (fun x mask => writeAt mask (rowStart + x) 0) mask)
    mask.

(** The state of the loop over [u]. *)
Record Scan : Type := {
  s_u : Z;
  s_mask : list Z;
  s_buffers : Buffers
}.

(** The body of [while (u < sizeU)]. *)
Definition scanStep (d w sizeU sizeV v : Z) (s : Scan) : option Scan :=
  let u := s_u s in
  let mask := s_mask s in
  let start := v * sizeU + u in
  let signedVoxel := maskAt mask start in
  if signedVoxel =? 0 then
    Some {| s_u := u + 1; s_mask := mask; s_buffers := s_buffers s |}
  else
    match growWidth mask sizeU u start signedVoxel with
    | None => None
    | Some width =>
        match growHeight mask sizeU sizeV u v width signedVoxel with
        | None => None
        | Some (height, _) =>
            let normalSign := if 0 <? signedVoxel then 1 else -1 in
            let voxelId := Z.abs signedVoxel in
            let buffers :=
              emitQuad d w u v width height normalSign voxelId (s_buffers s) in
            let mask := clearRect sizeU u v width height mask in
            Some {| s_u := u + width; s_mask := mask; s_buffers := buffers |}
        end
    end.

(** The second pair of loops of one slice: merge and emit. *)
Definition mergeSlice (d w sizeU sizeV : Z) (mask : list Z) (m : Buffers)
    : option (list Z * Buffers) :=
  forRangeM 0 sizeV (fun v '(mask, m) =>
    match
      while (Z.to_nat sizeU) (fun s => s_u s <? sizeU)
            (scanStep d w sizeU sizeV v)
            {| s_u := 0; s_mask := mask; s_buffers := m |}
    with
    | Some s => Some (s_mask s, s_buffers s)
    | None => None
    end)
    (mask, m).

Definition innerSize (dims : PaddedChunkDims) (axis : Z) : Z :=
  if axis =? 0 then x dims - 2
  else if axis =? 1 then y dims - 2
  else z dims - 2.

(** The loop over the three axes with the loop over the slices inside. *)
Definition meshAxes (voxels : list Z) (dims : PaddedChunkDims)
    : option Buffers :=
  forRangeM 0 3 (fun d m =>
    let uAxis := AXIS_U d in
    let vAxis := AXIS_V d in
    let sizeD := innerSize dims d in
    let sizeU := innerSize dims uAxis in
    let sizeV := innerSize dims vAxis in
    let mask := newArray (sizeU * sizeV) in
    match
      forRangeM 0 (sizeD + 1) (fun w '(mask, m) =>
        let mask := fillMask voxels dims d w sizeU sizeV mask in
        mergeSlice d w sizeU sizeV mask m)
        (mask, m)
    with
    | Some (_, m) => Some m
    | None => None
    end)
    emptyBuffers.

(** [None]: a [while] loop of the model used up its fuel (which
    [meshAxes_returns] shows not to happen); [Some (Throw _)]: the source
    throws.  The payload holds typed arrays: the colours, which are written
    as decimals, are stored rounded to binary32 ([new Float32Array(colors)]);
    the positions and normals are integers of the grid, which a
    [Float32Array] holds as they are. *)
Definition greedyMesh (voxels : list Z) (dims : PaddedChunkDims)
    : option (result GreedyMeshPayload) :=
  if (x dims <? 3) || (y dims <? 3) || (z dims <? 3) then
    Some (Throw "greedyMesh requires padded dimensions >= 3 on all axes")
  else
    match meshAxes voxels dims with
    | None => None
    | Some m =>
        Some (Ok {| positions := b_positions m;
                    normals := b_normals m;
                    colors := List.map Float.toFloat32 (b_colors m);
                    indices := b_indices m;
                    quadCount := b_quadCount m;
                    indexCount := Z.of_nat (length (b_indices m)) |})
    end.

End GreedyMesher.

(** ** src/engine/chunkManager.ts *)

Module Manager.

Import ChunkMath.
Export Num(NaN, NegInf, Int, PosInf).

Definition DEFAULT_ACTIVE_RADIUS : Z := 4.
Definition DEFAULT_REMOVE_RADIUS : Z := 6.

Record ChunkCoord2D : Type := { cx : num; cz : num }.

Record MeshWorkerRequest : Type := {
  req_seedStr : string;
  req_seedInt : Z;
  req_cx : num;
  req_cz : num;
  req_destroyedDelta : option (list Z);
  req_forceApply : option bool
}.

Record MeshWorkerResponse : Type := {
  resp_key : string;
  resp_cx : num;
  resp_cz : num;
  resp_mesh : GreedyMesher.GreedyMeshPayload;
  resp_forceApply : option bool
}.

Record ChunkManagerTickParams : Type := {
  playerX : Z;
  playerZ : Z;
  p_seedStr : string;
  workerResponses : option (list MeshWorkerResponse)
}.

Record ChunkManagerTickResult : Type := {
  request : option MeshWorkerRequest;
  apply : option MeshWorkerResponse;
  unloadKeys : list string
}.

Record ChunkManagerStats : Type := {
  st_loaded : Z;
  st_queued : Z;
  st_inflight : Z;
  st_ready : Z
}.

Definition chebyshevDistance (cx cz centerCx centerCz : num) : num :=
  Num.max (Num.abs (Num.sub cx centerCx)) (Num.abs (Num.sub cz centerCz)).

Definition isInRadius (cx cz centerCx centerCz radius : num) : bool :=
  Num.leb (chebyshevDistance cx cz centerCx centerCz) radius.

Definition parseChunkKey (key : string) : ChunkCoord2D :=
  let pieces := splitComma key in
  {| cx := Num.ofOptString (pieces !! 0%nat);
     cz := Num.ofOptString (pieces !! 1%nat) |}.

(** The comparator handed to [coords.sort]. *)
Definition compareCoords (centerCx centerCz : num) (a b : ChunkCoord2D) : num :=
  let aDistance := chebyshevDistance (cx a) (cz a) centerCx centerCz in
  let bDistance := chebyshevDistance (cx b) (cz b) centerCx centerCz in
  if negb (Num.eqb aDistance bDistance) then Num.sub aDistance bDistance
  else if negb (Num.eqb (cz a) (cz b)) then Num.sub (cz a) (cz b)
  else Num.sub (cx a) (cx b).

(** [Array.prototype.sort] is a stable sort; it is modelled by the stable
    insertion sort: an element goes after those it compares greater than. *)
Fixpoint insertSorted {A : Type} (compare : A -> A -> num) (a : A)
    (sorted : list A) : list A :=
  match sorted with
  | [] => [a]
  | b :: rest =>
      if Num.ltb (Int 0) (compare a b) then b :: insertSorted compare a rest
      else a :: b :: rest
  end.

Definition sort {A : Type} (compare : A -> A -> num) (l : list A) : list A :=
  foldr (insertSorted compare) [] l.

(** [Math.max(0, Math.floor(r))] of a finite radius; [clampRadiusNumber]
    below is the same on every number. *)
Definition clampRadius (r : Q) : Z := Z.max 0 (Qfloor r).

Definition computeNeededChunkKeys (centerCx centerCz : Z) (activeRadius : Q)
    : list string :=
  let radius := clampRadius activeRadius in
  let coords :=
    forRange (- radius) (2 * radius + 1) (fun dz coords =>
      forRange (- radius) (2 * radius + 1) (fun dx coords =>
        coords ++ [ {| cx := Int (centerCx + dx); cz := Int (centerCz + dz) |} ])
        coords)
      [] in
  let coords := sort (compareCoords (Int centerCx) (Int centerCz)) coords in
  List.map (fun c => chunkKey (cx c) (cz c)) coords.

(** The object given to the constructor.  Its declared properties are
    [activeRadius] and [removeRadius]; [src/game/Game.tsx] and the tests also
    put [maxInflight] on it, which the constructor does not read. *)
Record Options : Type := {
  opt_activeRadius : option Q;
  opt_removeRadius : option Q;
  opt_maxInflight : option Q
}.

Record ChunkManager : Type := {
  activeRadius : Z;
  removeRadius : Z;
  loaded : JsMap.t MeshWorkerResponse;
  inflight : JsMap.t MeshWorkerRequest;
  queued : JsMap.t MeshWorkerRequest;
  readyToApply : JsMap.t MeshWorkerResponse;
  seedStr : option string;
  seedInt : option Z
}.

Definition with_loaded (v : JsMap.t MeshWorkerResponse) (s : ChunkManager) :=
  {| activeRadius := activeRadius s; removeRadius := removeRadius s;
     loaded := v; inflight := inflight s; queued := queued s;
     readyToApply := readyToApply s;
     seedStr := seedStr s; seedInt := seedInt s |}.

Definition with_inflight (v : JsMap.t MeshWorkerRequest) (s : ChunkManager) :=
  {| activeRadius := activeRadius s; removeRadius := removeRadius s;
     loaded := loaded s; inflight := v; queued := queued s;
     readyToApply := readyToApply s;
     seedStr := seedStr s; seedInt := seedInt s |}.

Definition with_queued (v : JsMap.t MeshWorkerRequest) (s : ChunkManager) :=
  {| activeRadius := activeRadius s; removeRadius := removeRadius s;
     loaded := loaded s; inflight := inflight s; queued := v;
     readyToApply := readyToApply s;
     seedStr := seedStr s; seedInt := seedInt s |}.

Definition with_readyToApply (v : JsMap.t MeshWorkerResponse)
    (s : ChunkManager) :=
  {| activeRadius := activeRadius s; removeRadius := removeRadius s;
     loaded := loaded s; inflight := inflight s; queued := queued s;
     readyToApply := v;
     seedStr := seedStr s; seedInt := seedInt s |}.

(** [options?.activeRadius ?? fallback] *)
Definition optionOr (options : option Options)
    (field : Options -> option Q) (fallback : Z) : Q :=
  match options with
  | Some o =>
      match field o with
      | Some r => r
      | None => inject_Z fallback
      end
  | None => inject_Z fallback
  end.

Definition constructor (options : option Options) : result ChunkManager :=
  let activeRadius :=
    clampRadius (optionOr options opt_activeRadius DEFAULT_ACTIVE_RADIUS) in
  let removeRadius :=
    clampRadius (optionOr options opt_removeRadius DEFAULT_REMOVE_RADIUS) in
  if removeRadius <? activeRadius
  then Throw "removeRadius must be >= activeRadius"
  else Ok {| activeRadius := activeRadius; removeRadius := removeRadius;
             loaded := JsMap.empty; inflight := JsMap.empty;
             queued := JsMap.empty; readyToApply := JsMap.empty;
             seedStr := None; seedInt := None |}.

(** *** Radii that are NaN or infinite

    [clampRadius], [constructor] and [computeNeededChunkKeys] above are on
    finite radii ([Q]).  The type of a radius is [number], which has NaN and
    the infinities too; what follows is the same code on every number.  On
    finite radii the two agree ([clampRadiusNumber_finite],
    [constructorRadii_finite]). *)







Definition handleWorkerResponse (response : MeshWorkerResponse)
    (s : ChunkManager) : ChunkManager :=
  let key := chunkKey (resp_cx response) (resp_cz response) in
  if negb (JsMap.has (inflight s) key) then s
  else
    let s := with_inflight (JsMap.delete (inflight s) key) s in
    with_readyToApply (JsMap.set (readyToApply s) key response) s.

Definition getStats (s : ChunkManager) : ChunkManagerStats :=
  {| st_loaded := JsMap.size (loaded s);
     st_queued := JsMap.size (queued s);
     st_inflight := JsMap.size (inflight s);
     st_ready := JsMap.size (readyToApply s) |}.

(** [this.seedStr === seedStr] *)
Definition sameSeed (tracked : option string) (seedStr : string) : bool :=
  match tracked with
  | Some t => String.eqb t seedStr
  | None => false
  end.

(** Returns the manager together with the grown [unloadKeys]. *)
Definition resetForSeedIfNeeded (seedStr' : string) (unloadKeys : list string)
    (s : ChunkManager) : ChunkManager * list string :=
  if sameSeed (seedStr s) seedStr' then (s, unloadKeys)
  else
    let unloadKeys :=
      foldl (fun keys key => keys ++ [key]) unloadKeys (JsMap.keys (loaded s)) in
    ({| activeRadius := activeRadius s; removeRadius := removeRadius s;
        loaded := JsMap.empty; inflight := JsMap.empty;
        queued := JsMap.empty; readyToApply := JsMap.empty;
        seedStr := Some seedStr';
        seedInt := Some (Seed.seedToInt seedStr') |},
     unloadKeys).

Definition keyInRadius (key : string) (centerCx centerCz radius : Z) : bool :=
  let coord := parseChunkKey key in
  isInRadius (cx coord) (cz coord) (Int centerCx) (Int centerCz) (Int radius).

(** The body of the loop of [pruneOutsideRemoveRadius]. *)
Definition pruneStep {T : Type} (removeRadius centerCx centerCz : Z)
    (map : JsMap.t T) (key : string) : JsMap.t T :=
  if keyInRadius key centerCx centerCz removeRadius then map
  else JsMap.delete map key.

Definition pruneOutsideRemoveRadius {T : Type} (removeRadius : Z)
    (map : JsMap.t T) (centerCx centerCz : Z) : JsMap.t T :=
  foldl (pruneStep removeRadius centerCx centerCz) map (JsMap.keys map).

(** The body of the loop of [unloadOutsideRemoveRadius], on the [loaded] map
    and the [unloadKeys] array. *)
Definition unloadStep (removeRadius centerCx centerCz : Z)
    (st : JsMap.t MeshWorkerResponse * list string) (key : string)
    : JsMap.t MeshWorkerResponse * list string :=
  if keyInRadius key centerCx centerCz removeRadius then st
  else (JsMap.delete (fst st) key, snd st ++ [key]).

Definition unloadOutsideRemoveRadius (centerCx centerCz : Z)
    (unloadKeys : list string) (s : ChunkManager)
    : ChunkManager * list string :=
  let st :=
    foldl (unloadStep (removeRadius s) centerCx centerCz)
          (loaded s, unloadKeys) (JsMap.keys (loaded s)) in
  (with_loaded (fst st) s, snd st).

Definition refreshQueue (centerCx centerCz : Z) (s : ChunkManager)
    : ChunkManager :=
  match seedStr s, seedInt s with
  | Some seedStr, Some seedInt =>
      let needed :=
        JsSet.ofList
          (computeNeededChunkKeys centerCx centerCz (inject_Z (activeRadius s))) in
      let queued' :=
        foldl (fun queued' key =>
                 if negb (JsSet.contains needed key)
                 then JsMap.delete queued' key
                 else queued')
              (queued s) (JsMap.keys (queued s)) in
      let queued' :=
        foldl (fun queued' key =>
                 if JsMap.has (loaded s) key || JsMap.has (inflight s) key
                    || JsMap.has queued' key || JsMap.has (readyToApply s) key
                 then queued'
                 else
                   let coord := parseChunkKey key in
                   JsMap.set queued' key
                     {| req_seedStr := seedStr; req_seedInt := seedInt;
                        req_cx := cx coord; req_cz := cz coord;
                        req_destroyedDelta := None; req_forceApply := None |})
              queued' needed in
      with_queued queued' s
  | _, _ => s
  end.

Definition dequeueRequest (s : ChunkManager)
    : ChunkManager * option MeshWorkerRequest :=
  match JsMap.first (queued s) with
  | None => (s, None)
  | Some (key, request) =>
      let s := with_queued (JsMap.delete (queued s) key) s in
      let s := with_inflight (JsMap.set (inflight s) key request) s in
      (s, Some request)
  end.

(** The local variables of [dequeueApply]. *)
Record Best : Type := {
  bestKey : option string;
  bestResponse : option MeshWorkerResponse;
  bestDistance : num;
  bestCx : num;
  bestCz : num
}.

(** A string is truthy when it is not empty. *)
Definition truthyKey (key : option string) : option string :=
  match key with
  | Some k => if String.eqb k "" then None else Some k
  | None => None
  end.

(** The body of the loop of [dequeueApply], on the [readyToApply] map and the
    local variables. *)
Definition applyStep (removeRadius centerCx centerCz : Z)
    (st : JsMap.t MeshWorkerResponse * Best)
    (entry : string * MeshWorkerResponse)
    : JsMap.t MeshWorkerResponse * Best :=
  let ready := fst st in
  let best := snd st in
  let key := fst entry in
  let response := snd entry in
  let coord := parseChunkKey key in
  if negb (isInRadius (cx coord) (cz coord) (Int centerCx) (Int centerCz)
             (Int removeRadius))
  then (JsMap.delete ready key, best)
  else
    let distance :=
      chebyshevDistance (cx coord) (cz coord) (Int centerCx) (Int centerCz) in
    if Num.ltb distance (bestDistance best)
       || (Num.eqb distance (bestDistance best)
           && (Num.ltb (cz coord) (bestCz best)
               || (Num.eqb (cz coord) (bestCz best)
                   && Num.ltb (cx coord) (bestCx best))))
    then (ready,
          {| bestKey := Some key; bestResponse := Some response;
             bestDistance := distance;
             bestCx := cx coord; bestCz := cz coord |})
    else (ready, best).

Definition noBest : Best :=
  {| bestKey := None; bestResponse := None; bestDistance := PosInf;
     bestCx := Int 0; bestCz := Int 0 |}.

Definition dequeueApply (centerCx centerCz : Z) (s : ChunkManager)
    : ChunkManager * option MeshWorkerResponse :=
  let st :=
    foldl (applyStep (removeRadius s) centerCx centerCz)
          (readyToApply s, noBest) (readyToApply s) in
  let best := snd st in
  let s := with_readyToApply (fst st) s in
  match truthyKey (bestKey best), bestResponse best with
  | Some key, Some response =>
      let s := with_readyToApply (JsMap.delete (readyToApply s) key) s in
      let s := with_loaded (JsMap.set (loaded s) key response) s in
      (s, Some response)
  | _, _ => (s, None)
  end.

(** [tick], for the chunk size [CHUNK_SIZE] of [chunkConstants.ts] (not part
    of the sources at hand).  The player position is taken at integer
    coordinates; every centre chunk is reached from one.  [tick] throws when
    [worldToChunk] does, which is when [CHUNK_SIZE] is not positive. *)
Definition tick (CHUNK_SIZE : Z) (params : ChunkManagerTickParams)
    (s : ChunkManager) : result (ChunkManager * ChunkManagerTickResult) :=
  let unloadKeys := [] in
  let reset := resetForSeedIfNeeded (p_seedStr params) unloadKeys s in
  let s := fst reset in
  let unloadKeys := snd reset in
  let s :=
    foldl (fun s response => handleWorkerResponse response s) s
          (match workerResponses params with
           | Some responses => responses
           | None => []
           end) in
  let! centerX := worldToChunk (playerX params) CHUNK_SIZE in
  let centerCx := chunk centerX in
  let! centerZ := worldToChunk (playerZ params) CHUNK_SIZE in
  let centerCz := chunk centerZ in
  let s :=
    with_queued
      (pruneOutsideRemoveRadius (removeRadius s) (queued s) centerCx centerCz) s in
  let s :=
    with_inflight
      (pruneOutsideRemoveRadius (removeRadius s) (inflight s) centerCx centerCz) s in
  let s :=
    with_readyToApply
      (pruneOutsideRemoveRadius (removeRadius s) (readyToApply s)
         centerCx centerCz) s in
  let unloaded := unloadOutsideRemoveRadius centerCx centerCz unloadKeys s in
  let s := fst unloaded in
  let unloadKeys := snd unloaded in
  let s := refreshQueue centerCx centerCz s in
  let requested := dequeueRequest s in
  let s := fst requested in
  let request := snd requested in
  let applied := dequeueApply centerCx centerCz s in
  let s := fst applied in
  let apply := snd applied in
  Ok (s, {| request := request; apply := apply; unloadKeys := unloadKeys |}).

End Manager.

(** ** Predicates used in the statements *)

(** A [Map] holds each key once. *)
Definition uniqueKeys {V : Type} (m : JsMap.t V) : Prop :=
  List.NoDup (JsMap.keys m).

(** A string without a comma. *)
Fixpoint commaFree (s : string) : bool :=
  match s with
  | EmptyString => true
  | String c rest => negb (Ascii.eqb c ","%char) && commaFree rest
  end.

(** A sample world for the examples: flat ground at height 20, every column
    part of a village whose centre is the middle of its 72 by 72 cell. *)
Definition flatVillageWorld (seedStr : string) (x z : Z)
    : Terrain.SurfaceProfile :=
  {| Terrain.surfaceHeight := 20;
     Terrain.baseHeight := 20;
     Terrain.isRiver := false;
     Terrain.isVillage := true;
     Terrain.isVillageRoad := false;
     Terrain.localX := x mod 72;
     Terrain.localZ := z mod 72;
     Terrain.villageCenterX := 36;
     Terrain.villageCenterZ := 36 |}.

(** Chunks of 16 by 64 by 16 voxels. *)
Definition sampleConstants : VoxelBuilder.ChunkConstants :=
  {| VoxelBuilder.CHUNK_SIZE := 16;
     VoxelBuilder.CHUNK_HEIGHT := 64;
     VoxelBuilder.CHUNK_SIZE_PADDED := 18;
     VoxelBuilder.CHUNK_HEIGHT_PADDED := 66 |}.

(** What [buildChunkVoxelsWithOverrides] is to store in the padded cell
    [(px, py, pz)] of chunk [(cx, cz)]. *)
Definition paddedCellValue (K : VoxelBuilder.ChunkConstants)
    (getSurfaceProfile : string -> Z -> Z -> Terrain.SurfaceProfile)
    (seedStr : string) (cx cz : Z)
    (isDestroyed : option (Z -> Z -> Z -> bool)) (px py pz : Z) : Z :=
  let worldX := cx * VoxelBuilder.CHUNK_SIZE K + (px - 1) in
  let worldY := py - 1 in
  let worldZ := cz * VoxelBuilder.CHUNK_SIZE K + (pz - 1) in
  if VoxelBuilder.callIsDestroyed isDestroyed worldX worldY worldZ
  then Terrain.voxelCode Terrain.VOXEL_AIR
  else Terrain.voxelCode
         (Terrain.getVoxel getSurfaceProfile seedStr worldX worldY worldZ).

(** Cell [(px, py, pz)] is written before cell [(qx, qy, qz)]: the loops run
    over y, then z, then x. *)
Definition writtenBefore (px py pz qx qy qz : Z) : Prop :=
  py < qy \/ (py = qy /\ (pz < qz \/ (pz = qz /\ px < qx))).

(** The invariant of the three loops of [buildChunkVoxelsWithOverrides],
    before cell [(qx, qy, qz)] is written: the buffer has its full length and
    every cell written so far holds its [value]. *)
Definition builderInvariant (K : VoxelBuilder.ChunkConstants)
    (value : Z -> Z -> Z -> Z) (qx qy qz : Z) (voxels : list Z) : Prop :=
  let S := VoxelBuilder.CHUNK_SIZE_PADDED K in
  let H := VoxelBuilder.CHUNK_HEIGHT_PADDED K in
  length voxels = Z.to_nat (S * H * S) /\
  forall px py pz,
    0 <= px < S -> 0 <= py < H -> 0 <= pz < S ->
    writtenBefore px py pz qx qy qz ->
    readAt voxels (VoxelBuilder.indexOf K px py pz) = Some (value px py pz).

(** An air predicate for the examples: everything at or above y = 18 has been
    destroyed. *)
Definition destroyedAbove18 (x y z : Z) : bool := 18 <=? y.

(** The invariant of the arrays that [greedyMesh] appends to: four vertices
    of three coordinates and six indices per quad, every index that of a
    vertex pushed so far. *)
Definition meshInvariant (m : GreedyMesher.Buffers) : Prop :=
  0 <= GreedyMesher.b_quadCount m /\
  Z.of_nat (length (GreedyMesher.b_positions m))
  = 12 * GreedyMesher.b_quadCount m /\
  length (GreedyMesher.b_normals m) = length (GreedyMesher.b_positions m) /\
  length (GreedyMesher.b_colors m) = length (GreedyMesher.b_positions m) /\
  Z.of_nat (length (GreedyMesher.b_indices m))
  = GreedyMesher.b_quadCount m * 6 /\
  Forall (fun i => 0 <= i < 4 * GreedyMesher.b_quadCount m)
         (GreedyMesher.b_indices m).

(** The measure of the loop that grows the height of a rectangle. *)
Definition growHeightMeasure (sizeV v : Z) (st : Z * bool) : nat :=
  if snd st then S (Z.to_nat (sizeV - v - fst st)) else O.

(** The 5 by 5 by 5 padded buffer with the one inner voxel [(ix, iy, iz)]
    set to [id] and air everywhere else. *)
Definition dims555 : GreedyMesher.PaddedChunkDims :=
  {| GreedyMesher.x := 5; GreedyMesher.y := 5; GreedyMesher.z := 5 |}.

Definition singleVoxelBuffer (ix iy iz id : Z) : list Z :=
  writeAt (newArray 125)
    (GreedyMesher.indexOfPadded (ix + 1) (iy + 1) (iz + 1) dims555) id.

(** Does [greedyMesh] return 6 quads and 36 indices on that buffer? *)
Definition singleVoxelYieldsCube (ix iy iz id : Z) : bool :=
  match GreedyMesher.greedyMesh (singleVoxelBuffer ix iy iz id) dims555 with
  | Some (Ok payload) =>
      (GreedyMesher.quadCount payload =? 6)
      && (GreedyMesher.indexCount payload =? 36)
  | _ => false
  end.

(** *** Runs of the chunk manager *)

(** [ticks CHUNK_SIZE ps s]: the calls [tick(p)] for [p] in [ps], one after
    the other, on the manager [s]; the result lists, for each call, the
    manager after it and what it returned. *)
Fixpoint ticks (CHUNK_SIZE : Z) (ps : list Manager.ChunkManagerTickParams)
    (s : Manager.ChunkManager)
    : result (list (Manager.ChunkManager * Manager.ChunkManagerTickResult)) :=
  match ps with
  | [] => Ok []
  | p :: rest =>
      let! step := Manager.tick CHUNK_SIZE p s in
      let! later := ticks CHUNK_SIZE rest (fst step) in
      Ok (step :: later)
  end.

(** The managers that a program can hold when it constructs them with
    finite radii (or none): a new one, and one on which the public methods
    [tick] and [handleWorkerResponse] have been called. *)
Inductive reachable (CHUNK_SIZE : Z) : Manager.ChunkManager -> Prop :=
| reachable_new (options : option Manager.Options) (s : Manager.ChunkManager) :
    Manager.constructor options = Ok s -> reachable CHUNK_SIZE s
| reachable_tick (p : Manager.ChunkManagerTickParams)
    (s s' : Manager.ChunkManager) (t : Manager.ChunkManagerTickResult) :
    reachable CHUNK_SIZE s ->
    Manager.tick CHUNK_SIZE p s = Ok (s', t) ->
    reachable CHUNK_SIZE s'
| reachable_response (response : Manager.MeshWorkerResponse)
    (s : Manager.ChunkManager) :
    reachable CHUNK_SIZE s ->
    reachable CHUNK_SIZE (Manager.handleWorkerResponse response s).

(** The Chebyshev distance of chunk [(cx, cz)] from the centre chunk of a
    tick, which is the chunk of the player position. *)
Definition distanceFromCenter (CHUNK_SIZE : Z)
    (p : Manager.ChunkManagerTickParams) (cx cz : Z) : Z :=
  Z.max (Z.abs (cx - Manager.playerX p / CHUNK_SIZE))
        (Z.abs (cz - Manager.playerZ p / CHUNK_SIZE)).

(** A tick keeps the chunk [(cx, cz)] of manager [s] when it names the seed
    that [s] tracks and leaves the chunk within [removeRadius]. *)
Definition keepsChunk (CHUNK_SIZE : Z) (s : Manager.ChunkManager)
    (cx cz : Z) (p : Manager.ChunkManagerTickParams) : Prop :=
  Manager.sameSeed (Manager.seedStr s) (Manager.p_seedStr p) = true /\
  distanceFromCenter CHUNK_SIZE p cx cz <= Manager.removeRadius s.

(** The number of times [key] occurs in a list of keys. *)
Definition occurrences (key : string) (keys : list string) : nat :=
  length (List.filter (String.eqb key) keys).

(** Sample data for the examples. *)
Definition emptyMesh : GreedyMesher.GreedyMeshPayload :=
  {| GreedyMesher.positions := []; GreedyMesher.normals := [];
     GreedyMesher.colors := []; GreedyMesher.indices := [];
     GreedyMesher.quadCount := 0; GreedyMesher.indexCount := 0 |}.

Definition makeResponse (cx cz : Z) : Manager.MeshWorkerResponse :=
  {| Manager.resp_key := ChunkMath.chunkKey (Num.Int cx) (Num.Int cz);
     Manager.resp_cx := Num.Int cx;
     Manager.resp_cz := Num.Int cz;
     Manager.resp_mesh := emptyMesh;
     Manager.resp_forceApply := None |}.

Definition tickAt (x z : Z) (seed : string)
    (responses : option (list Manager.MeshWorkerResponse))
    : Manager.ChunkManagerTickParams :=
  {| Manager.playerX := x; Manager.playerZ := z; Manager.p_seedStr := seed;
     Manager.workerResponses := responses |}.

Definition newManager (activeRadius removeRadius : Z) : Manager.ChunkManager :=
  {| Manager.activeRadius := activeRadius;
     Manager.removeRadius := removeRadius;
     Manager.loaded := JsMap.empty; Manager.inflight := JsMap.empty;
     Manager.queued := JsMap.empty; Manager.readyToApply := JsMap.empty;
     Manager.seedStr := None; Manager.seedInt := None |}.

(** The manager [s] after the ticks [ps] ([s] itself should one throw). *)
Definition managerAfter (CHUNK_SIZE : Z)
    (ps : list Manager.ChunkManagerTickParams) (s : Manager.ChunkManager)
    : Manager.ChunkManager :=
  foldl (fun s p =>
           match Manager.tick CHUNK_SIZE p s with
           | Ok (s', _) => s'
           | Throw _ => s
           end) s ps.

(** The manager of the tests once chunk (0, 0) is loaded: radii 0 and 1,
    seed "demo", one tick to request the chunk and one to apply it. *)
Definition managerWithOrigin : Manager.ChunkManager :=
  managerAfter 16
    [tickAt 0 0 "demo" None; tickAt 0 0 "demo" (Some [makeResponse 0 0])]
    (newManager 0 1).

(** Manager [s'] has the loaded chunks, the radii and the seed of [s]: what
    the steps of a tick that work on the other three maps leave alone. *)
Definition sameLoaded (s s' : Manager.ChunkManager) : Prop :=
  Manager.loaded s' = Manager.loaded s /\
  Manager.removeRadius s' = Manager.removeRadius s /\
  Manager.activeRadius s' = Manager.activeRadius s /\
  Manager.seedStr s' = Manager.seedStr s.

(** The invariant of the loop of [dequeueApply]: the best key so far, if
    any, is within [removeRadius] of the centre. *)
Definition bestInRadius (removeRadius centerCx centerCz : Z)
    (best : Manager.Best) : Prop :=
  forall key,
    Manager.bestKey best = Some key ->
    Manager.keyInRadius key centerCx centerCz removeRadius = true.

(** The same manager one tick earlier: chunk (0, 0) is in flight. *)
Definition managerAwaitingOrigin : Manager.ChunkManager :=
  managerAfter 16 [tickAt 0 0 "demo" None] (newManager 0 1).

(** ** Further predicates and reference definitions *)

(** FNV-1a on unsigned 32-bit numbers, as the algorithm is usually stated:
    start from the offset basis and, for each byte, xor it in and multiply by
    the prime modulo 2^32.  [Seed.seedToInt] is compared with it. *)
Definition fnv1a32 (bytes : list Z) : Z :=
  foldl (fun hash byte => (Z.lxor hash byte * Seed.FNV_PRIME) mod 2 ^ 32)
        Seed.FNV_OFFSET_BASIS bytes.

(** The bytes of a string. *)
Definition bytesOf (s : string) : list Z :=
  List.map (fun c => Z.of_nat (nat_of_ascii c)) (list_ascii_of_string s).

(** The footprint of a hut template in the village cell of a column, as
    [getVillageStructureVoxel] computes it. *)
Definition hutMinX (profile : Terrain.SurfaceProfile)
    (hut : Terrain.HutTemplate) : Z :=
  Terrain.villageCenterX profile + Terrain.offsetX hut
  - Terrain.sizeX hut / 2.

Definition hutMaxX (profile : Terrain.SurfaceProfile)
    (hut : Terrain.HutTemplate) : Z :=
  hutMinX profile hut + Terrain.sizeX hut - 1.

Definition hutMinZ (profile : Terrain.SurfaceProfile)
    (hut : Terrain.HutTemplate) : Z :=
  Terrain.villageCenterZ profile + Terrain.offsetZ hut
  - Terrain.sizeZ hut / 2.

Definition hutMaxZ (profile : Terrain.SurfaceProfile)
    (hut : Terrain.HutTemplate) : Z :=
  hutMinZ profile hut + Terrain.sizeZ hut - 1.

(** The column lies in the footprint of the hut. *)
Definition insideHut (profile : Terrain.SurfaceProfile)
    (hut : Terrain.HutTemplate) : Prop :=
  hutMinX profile hut <= Terrain.localX profile <= hutMaxX profile hut /\
  hutMinZ profile hut <= Terrain.localZ profile <= hutMaxZ profile hut.

(** The column lies on the rim of the footprint. *)
Definition onHutBoundary (profile : Terrain.SurfaceProfile)
    (hut : Terrain.HutTemplate) : Prop :=
  Terrain.localX profile = hutMinX profile hut \/
  Terrain.localX profile = hutMaxX profile hut \/
  Terrain.localZ profile = hutMinZ profile hut \/
  Terrain.localZ profile = hutMaxZ profile hut.

(** The column is the door column of the hut: the middle of its south side
    or of its west side. *)
Definition inDoorway (profile : Terrain.SurfaceProfile)
    (hut : Terrain.HutTemplate) : Prop :=
  match Terrain.door hut with
  | Terrain.south =>
      Terrain.localZ profile = hutMaxZ profile hut /\
      Terrain.localX profile
      = (hutMinX profile hut + hutMaxX profile hut) / 2
  | Terrain.west =>
      Terrain.localX profile = hutMinX profile hut /\
      Terrain.localZ profile
      = (hutMinZ profile hut + hutMaxZ profile hut) / 2
  end.

(** The answer of [getVillageStructureVoxel] is from one hut template. *)
Definition hutVoxelIn (profile : Terrain.SurfaceProfile) (y : Z)
    (v : Terrain.VoxelId) : Prop :=
  exists hut,
    In hut Terrain.HUT_TEMPLATES /\ Terrain.hutVoxel profile y hut = Some v.

(** A buffer of voxel ids. *)
Definition voxelIds (voxels : list Z) : Prop :=
  Forall (fun v => 0 <= v <= 3) voxels.

(** ** The faces that the greedy mesher covers *)

(** What the first pair of loops of [greedyMesh] stores in the mask for the
    cell [(u, v)] of slice [w] of axis [d]: 0 when the two voxels on either
    side of the face are both solid or both air, the id of the voxel behind
    the face when only that one is solid, minus the id of the voxel in front
    when only that one is. *)
Definition faceValue (voxels : list Z) (dims : GreedyMesher.PaddedChunkDims)
    (d w u v : Z) : Z :=
  let '((ax, ay, az), (bx, by_, bz)) :=
    if d =? 0 then ((w - 1, u, v), (w, u, v))
    else if d =? 1 then ((v, w - 1, u), (v, w, u))
    else ((u, v, w - 1), (u, v, w)) in
  let a := GreedyMesher.sample voxels dims ax ay az in
  let b := GreedyMesher.sample voxels dims bx by_ bz in
  let aSolid := GreedyMesher.isSolid a in
  let bSolid := GreedyMesher.isSolid b in
  if Bool.eqb aSolid bSolid then 0
  else if aSolid then GreedyMesher.storedInt32 a
  else GreedyMesher.storedNegInt32 b.

(** A face of the grid: axis, slice and cell. *)
Definition faceIn (dims : GreedyMesher.PaddedChunkDims) (d w u v : Z)
    : Prop :=
  0 <= d < 3 /\
  0 <= w <= GreedyMesher.innerSize dims d /\
  0 <= u < GreedyMesher.innerSize dims (GreedyMesher.AXIS_U d) /\
  0 <= v < GreedyMesher.innerSize dims (GreedyMesher.AXIS_V d).

(** One call of [emitQuad]: the rectangle and the mask value it was merged
    from. *)
Record Quad : Type := {
  q_d : Z;
  q_w : Z;
  q_u : Z;
  q_v : Z;
  q_width : Z;
  q_height : Z;
  q_signed : Z
}.

(** The call of [emitQuad] that [greedyMesh] makes for a merged rectangle. *)
Definition emitOne (m : GreedyMesher.Buffers) (q : Quad)
    : GreedyMesher.Buffers :=
  GreedyMesher.emitQuad (q_d q) (q_w q) (q_u q) (q_v q) (q_width q)
    (q_height q) (if 0 <? q_signed q then 1 else -1) (Z.abs (q_signed q)) m.

(** The arrays after a sequence of such calls. *)
Definition emitQuads (quads : list Quad) : GreedyMesher.Buffers :=
  foldl emitOne GreedyMesher.emptyBuffers quads.

(** The payload that [greedyMesh] returns for these arrays. *)
Definition renderQuads (quads : list Quad) : GreedyMesher.GreedyMeshPayload :=
  let m := emitQuads quads in
  {| GreedyMesher.positions := GreedyMesher.b_positions m;
     GreedyMesher.normals := GreedyMesher.b_normals m;
     GreedyMesher.colors :=
       List.map Float.toFloat32 (GreedyMesher.b_colors m);
     GreedyMesher.indices := GreedyMesher.b_indices m;
     GreedyMesher.quadCount := GreedyMesher.b_quadCount m;
     GreedyMesher.indexCount :=
       Z.of_nat (length (GreedyMesher.b_indices m)) |}.

(** The rectangle of a quad contains the face. *)
Definition covers (q : Quad) (d w u v : Z) : bool :=
  (q_d q =? d) && (q_w q =? w)
  && (q_u q <=? u) && (u <? q_u q + q_width q)
  && (q_v q <=? v) && (v <? q_v q + q_height q).

(** How many of the quads contain the face. *)
Definition coverCount (quads : list Quad) (d w u v : Z) : nat :=
  length (List.filter (fun q => covers q d w u v) quads).

(** A quad lies in a slice of the grid and all the faces in its rectangle
    have the mask value it was merged from, which is not 0. *)
Definition quadOnBoundary (voxels : list Z)
    (dims : GreedyMesher.PaddedChunkDims) (q : Quad) : Prop :=
  0 <= q_d q < 3 /\
  0 <= q_w q <= GreedyMesher.innerSize dims (q_d q) /\
  0 <= q_u q /\ 1 <= q_width q /\
  q_u q + q_width q
  <= GreedyMesher.innerSize dims (GreedyMesher.AXIS_U (q_d q)) /\
  0 <= q_v q /\ 1 <= q_height q /\
  q_v q + q_height q
  <= GreedyMesher.innerSize dims (GreedyMesher.AXIS_V (q_d q)) /\
  q_signed q <> 0 /\
  forall j k,
    0 <= j < q_height q -> 0 <= k < q_width q ->
    faceValue voxels dims (q_d q) (q_w q) (q_u q + k) (q_v q + j)
    = q_signed q.

(** How many quads are to cover a face, by the value first stored for it and
    the value the mask holds now: one when the face is a boundary and its
    mask cell has been cleared. *)
Definition expectedCover (value maskValue : Z) : nat :=
  if (value =? 0) || negb (maskValue =? 0) then 0%nat else 1%nat.

(** Slice [w'] of axis [d'] is done when the loops are at slice [w] of axis
    [d]. *)
Definition sliceDone (d w d' w' : Z) : bool :=
  (d' <? d) || ((d' =? d) && (w' <? w)).

(** Between slices: each face of a slice that is done is covered once if it
    is a boundary and not at all otherwise, and no face of the other slices
    is covered. *)
Definition coverInvariant (voxels : list Z)
    (dims : GreedyMesher.PaddedChunkDims) (d w : Z) (quads : list Quad)
    : Prop :=
  Forall (quadOnBoundary voxels dims) quads /\
  forall d' w' u' v',
    faceIn dims d' w' u' v' ->
    coverCount quads d' w' u' v'
    = if sliceDone d w d' w'
      then expectedCover (faceValue voxels dims d' w' u' v') 0
      else 0%nat.

(** Inside slice [w] of axis [d]: every mask cell holds 0 or the value first
    stored, and the faces of the slice are covered as [expectedCover]
    says. *)
Definition sliceInvariant (voxels : list Z)
    (dims : GreedyMesher.PaddedChunkDims) (d w : Z) (mask : list Z)
    (quads : list Quad) : Prop :=
  let sizeU := GreedyMesher.innerSize dims (GreedyMesher.AXIS_U d) in
  let sizeV := GreedyMesher.innerSize dims (GreedyMesher.AXIS_V d) in
  length mask = Z.to_nat (sizeU * sizeV) /\
  Forall (quadOnBoundary voxels dims) quads /\
  (forall u v,
     0 <= u < sizeU -> 0 <= v < sizeV ->
     (GreedyMesher.maskAt mask (v * sizeU + u) = 0 \/
      GreedyMesher.maskAt mask (v * sizeU + u)
      = faceValue voxels dims d w u v) /\
     coverCount quads d w u v
     = expectedCover (faceValue voxels dims d w u v)
         (GreedyMesher.maskAt mask (v * sizeU + u))) /\
  (forall d' w' u' v',
     faceIn dims d' w' u' v' -> (d' <> d \/ w' <> w) ->
     coverCount quads d' w' u' v'
     = if sliceDone d w d' w'
       then expectedCover (faceValue voxels dims d' w' u' v') 0
       else 0%nat).

(** The mask cells before cell [(u, v)] in scan order have been cleared. *)
Definition clearedBefore (sizeU sizeV u v : Z) (mask : list Z) : Prop :=
  forall u' v',
    0 <= u' < sizeU -> 0 <= v' < sizeV ->
    v' < v \/ (v' = v /\ u' < u) ->
    GreedyMesher.maskAt mask (v' * sizeU + u') = 0.

(** The invariant of the loop over [u] in row [v] of slice [w] of axis
    [d]. *)
Definition scanInvariant (voxels : list Z)
    (dims : GreedyMesher.PaddedChunkDims) (d w v : Z) (s : GreedyMesher.Scan)
    : Prop :=
  let sizeU := GreedyMesher.innerSize dims (GreedyMesher.AXIS_U d) in
  let sizeV := GreedyMesher.innerSize dims (GreedyMesher.AXIS_V d) in
  0 <= GreedyMesher.s_u s <= sizeU /\
  clearedBefore sizeU sizeV (GreedyMesher.s_u s) v (GreedyMesher.s_mask s) /\
  exists quads,
    GreedyMesher.s_buffers s = emitQuads quads /\
    sliceInvariant voxels dims d w (GreedyMesher.s_mask s) quads.

(** The invariant of the loop over the rows of a slice. *)
Definition rowInvariant (voxels : list Z)
    (dims : GreedyMesher.PaddedChunkDims) (d w v : Z)
    (st : list Z * GreedyMesher.Buffers) : Prop :=
  let sizeU := GreedyMesher.innerSize dims (GreedyMesher.AXIS_U d) in
  let sizeV := GreedyMesher.innerSize dims (GreedyMesher.AXIS_V d) in
  clearedBefore sizeU sizeV 0 v (fst st) /\
  exists quads,
    snd st = emitQuads quads /\
    sliceInvariant voxels dims d w (fst st) quads.

(** The invariant of the loop over the slices of an axis. *)
Definition axisInvariant (voxels : list Z)
    (dims : GreedyMesher.PaddedChunkDims) (d w : Z)
    (st : list Z * GreedyMesher.Buffers) : Prop :=
  length (fst st)
  = Z.to_nat (GreedyMesher.innerSize dims (GreedyMesher.AXIS_U d)
              * GreedyMesher.innerSize dims (GreedyMesher.AXIS_V d)) /\
  exists quads,
    snd st = emitQuads quads /\ coverInvariant voxels dims d w quads.

(** An array read three numbers at a time. *)
Inductive Triples {A : Type} (P : A -> A -> A -> Prop) : list A -> Prop :=
  | Triples_nil : Triples P []
  | Triples_cons (a b c : A) (rest : list A) :
      P a b c -> Triples P rest -> Triples P (a :: b :: c :: rest).

(** A corner of the grid of unpadded voxels. *)
Definition gridCorner (dims : GreedyMesher.PaddedChunkDims) (px py pz : Z)
    : Prop :=
  0 <= px <= GreedyMesher.x dims - 2 /\
  0 <= py <= GreedyMesher.y dims - 2 /\
  0 <= pz <= GreedyMesher.z dims - 2.

(** A unit vector along an axis. *)
Definition axisUnit (nx ny nz : Z) : Prop :=
  Z.abs nx + Z.abs ny + Z.abs nz = 1.

(** The colour of grass, dirt or stone as the buffers hold it: the decimals
    that [colorForVoxel] returns. *)
Definition paletteColor (r g b : Q) : Prop :=
  exists id, 1 <= id <= 3 /\ GreedyMesher.colorForVoxel id = (r, g, b).

(** The colour of grass, dirt or stone as a [Float32Array] holds it: each
    component of the palette colour rounded to binary32. *)
Definition paletteColor32 (r g b : Q) : Prop :=
  exists id pr pg pb,
    1 <= id <= 3 /\
    GreedyMesher.colorForVoxel id = (pr, pg, pb) /\
    r = Float.toFloat32 pr /\ g = Float.toFloat32 pg /\
    b = Float.toFloat32 pb.

(** ** src/world/destroyedVoxels.ts *)

Module DestroyedVoxels.

(** [Map<number, Map<number, Set<number>>>], on integer coordinates. *)
Abbreviation DestroyedVoxelIndex := (gmap Z (gmap Z (gset Z))).

Definition createDestroyedVoxelIndex : DestroyedVoxelIndex := ∅.

(** The source fetches or creates the inner map and the set and adds [z] to
    the set in place; here the changed set and inner map are written back
    along the path they were reached by. *)
Definition addDestroyedVoxel (index : DestroyedVoxelIndex) (x y z : Z)
    : DestroyedVoxelIndex :=
  let '(byY, index) :=
    match index !! x with
    | Some byY => (byY, index)
    | None => (∅, <[x := ∅]> index)
    end in
  let '(byZ, byY) :=
    match byY !! y with
    | Some byZ => (byZ, byY)
    | None => (∅, <[y := ∅]> byY)
    end in
  let byZ := byZ ∪ {[z]} in
  <[x := <[y := byZ]> byY]> index.

(** [index.get(x)?.get(y)?.has(z) ?? false] *)
Definition hasDestroyedVoxel (index : DestroyedVoxelIndex) (x y z : Z)
    : bool :=
  match index !! x with
  | Some byY =>
      match byY !! y with
      | Some byZ => bool_decide (z ∈ byZ)
      | None => false
      end
  | None => false
  end.

Definition clearDestroyedVoxelIndex (index : DestroyedVoxelIndex)
    : DestroyedVoxelIndex := ∅.

End DestroyedVoxels.

(** ** src/engine/meshChunk.ts and the handler of src/workers/mesh.worker.ts *)

Module Worker.

Import DestroyedVoxels.

Section WithWorld.

Variable K : VoxelBuilder.ChunkConstants.
Variable getSurfaceProfile : string -> Z -> Z -> Terrain.SurfaceProfile.

(** The payload is the mesh with [key], [cx] and [cz] added; it has no
    [forceApply].  [None] is as for [greedyMesh]. *)
Definition meshChunk (seedStr : string) (cx cz : Z)
    (isDestroyed : option (Z -> Z -> Z -> bool))
    : option (result Manager.MeshWorkerResponse) :=
  let voxels :=
    VoxelBuilder.buildChunkVoxelsWithOverrides K getSurfaceProfile seedStr
      cx cz isDestroyed in
  match
    GreedyMesher.greedyMesh voxels
      {| GreedyMesher.x := VoxelBuilder.CHUNK_SIZE_PADDED K;
         GreedyMesher.y := VoxelBuilder.CHUNK_HEIGHT_PADDED K;
         GreedyMesher.z := VoxelBuilder.CHUNK_SIZE_PADDED K |}
  with
  | None => None
  | Some (Throw message) => Some (Throw message)
  | Some (Ok mesh) =>
      Some (Ok {| Manager.resp_key :=
                    ChunkMath.chunkKey (Num.Int cx) (Num.Int cz);
                  Manager.resp_cx := Num.Int cx;
                  Manager.resp_cz := Num.Int cz;
                  Manager.resp_mesh := mesh;
                  Manager.resp_forceApply := None |})
  end.

(** [applyDestroyedDelta], with the index of the worker passed along.  The
    state of the loop is [(i, index)].  [None]: the loop used up its fuel or
    read outside the array, neither of which happens
    ([applyDestroyedDelta_spec]). *)
Definition applyDestroyedDelta (index : DestroyedVoxelIndex)
    (delta : option (list Z)) : option DestroyedVoxelIndex :=
  match delta with
  | None => Some index
  | Some delta =>
      if Z.of_nat (length delta) =? 0 then Some index
      else
        match
          while (length delta)
            (fun '(i, _) => i + 2 <? Z.of_nat (length delta))
            (fun '(i, index) =>
               match
                 readAt delta i, readAt delta (i + 1), readAt delta (i + 2)
               with
               | Some x, Some y, Some z =>
                   Some (i + 3, addDestroyedVoxel index x y z)
               | _, _, _ => None
               end)
            (0, index)
        with
        | Some (_, index) => Some index
        | None => None
        end
  end.

(** The message handler on the fields of the request, for integer chunk
    coordinates: the index after the message and what is posted, or thrown
    by [meshChunk].  [None] is as above. *)
Definition onmessage (index : DestroyedVoxelIndex) (seedStr : string)
    (cx cz : Z) (destroyedDelta : option (list Z))
    (forceApply : option bool)
    : option (DestroyedVoxelIndex * result Manager.MeshWorkerResponse) :=
  match applyDestroyedDelta index destroyedDelta with
  | None => None
  | Some index =>
      match
        meshChunk seedStr cx cz (Some (hasDestroyedVoxel index))
      with
      | None => None
      | Some (Throw message) => Some (index, Throw message)
      | Some (Ok payload) =>
          Some (index,
                Ok {| Manager.resp_key := Manager.resp_key payload;
                      Manager.resp_cx := Manager.resp_cx payload;
                      Manager.resp_cz := Manager.resp_cz payload;
                      Manager.resp_mesh := Manager.resp_mesh payload;
                      Manager.resp_forceApply := forceApply |})
      end
  end.

(** The handler on a message as it is posted.  The game and the manager
    post integer chunk coordinates; for others this model has no answer
    ([None]). *)
Definition onmessageRequest (index : DestroyedVoxelIndex)
    (request : Manager.MeshWorkerRequest)
    : option (DestroyedVoxelIndex * result Manager.MeshWorkerResponse) :=
  match Manager.req_cx request, Manager.req_cz request with
  | Num.Int cx, Num.Int cz =>
      onmessage index (Manager.req_seedStr request) cx cz
        (Manager.req_destroyedDelta request)
        (Manager.req_forceApply request)
  | _, _ => None
  end.

(** The messages of a list handled one after the other, each on the index
    that the one before left: the index at the end and what each message
    was answered with.  A throw of [meshChunk] ends the handling of that
    message only. *)
Fixpoint handleAll (index : DestroyedVoxelIndex)
    (requests : list Manager.MeshWorkerRequest)
    : option (DestroyedVoxelIndex
              * list (result Manager.MeshWorkerResponse)) :=
  match requests with
  | [] => Some (index, [])
  | request :: requests =>
      match onmessageRequest index request with
      | None => None
      | Some (index, response) =>
          match handleAll index requests with
          | None => None
          | Some (index, responses) => Some (index, response :: responses)
          end
      end
  end.

End WithWorld.

End Worker.

(** The chunk coordinates of a message are integers. *)
Definition integerRequest (request : Manager.MeshWorkerRequest) : Prop :=
  exists cx cz,
    Manager.req_cx request = Num.Int cx /\
    Manager.req_cz request = Num.Int cz.

(** [response] is a payload for the chunk of [request], meshed from the
    buffer that [isDestroyed] gives, with the [forceApply] of the request. *)
Definition answers (K : VoxelBuilder.ChunkConstants)
    (getSurfaceProfile : string -> Z -> Z -> Terrain.SurfaceProfile)
    (isDestroyed : Z -> Z -> Z -> bool)
    (request : Manager.MeshWorkerRequest)
    (response : result Manager.MeshWorkerResponse) : Prop :=
  exists cx cz payload,
    Manager.req_cx request = Num.Int cx /\
    Manager.req_cz request = Num.Int cz /\
    response = Ok payload /\
    Manager.resp_key payload
    = ChunkMath.chunkKey (Num.Int cx) (Num.Int cz) /\
    Manager.resp_cx payload = Num.Int cx /\
    Manager.resp_cz payload = Num.Int cz /\
    Manager.resp_forceApply payload = Manager.req_forceApply request /\
    GreedyMesher.greedyMesh
      (VoxelBuilder.buildChunkVoxelsWithOverrides K getSurfaceProfile
         (Manager.req_seedStr request) cx cz (Some isDestroyed))
      {| GreedyMesher.x := VoxelBuilder.CHUNK_SIZE_PADDED K;
         GreedyMesher.y := VoxelBuilder.CHUNK_HEIGHT_PADDED K;
         GreedyMesher.z := VoxelBuilder.CHUNK_SIZE_PADDED K |}
    = Some (Ok (Manager.resp_mesh payload)).

(** The triple number [k] of a delta is [(x, y, z)]. *)
Definition tripleAt (delta : list Z) (k x y z : Z) : Prop :=
  0 <= k /\ 3 * k + 2 < Z.of_nat (length delta) /\
  readAt delta (3 * k) = Some x /\
  readAt delta (3 * k + 1) = Some y /\
  readAt delta (3 * k + 2) = Some z.

(** ** The chunks that the manager tracks *)

(** A chunk, as a pair [(x, z)] of chunk coordinates. *)
Definition coordOf (cell : Z * Z) : Manager.ChunkCoord2D :=
  {| Manager.cx := Num.Int (fst cell); Manager.cz := Num.Int (snd cell) |}.

Definition keyOf (cell : Z * Z) : string :=
  ChunkMath.chunkKey (Num.Int (fst cell)) (Num.Int (snd cell)).

(** The Chebyshev distance of a chunk from the centre chunk. *)
Definition chebyshev (centerCx centerCz : Z) (cell : Z * Z) : Z :=
  Z.max (Z.abs (fst cell - centerCx)) (Z.abs (snd cell - centerCz)).

(** The order in which chunks are asked for and applied: the nearer one
    first, then the one with the smaller z, then the one with the smaller
    x. *)
Definition nearerThan (centerCx centerCz : Z) (a b : Z * Z) : Prop :=
  chebyshev centerCx centerCz a < chebyshev centerCx centerCz b \/
  (chebyshev centerCx centerCz a = chebyshev centerCx centerCz b /\
   (snd a < snd b \/ (snd a = snd b /\ fst a < fst b))).

(** The comparator of [computeNeededChunkKeys] on such pairs. *)
Definition cellCompare (centerCx centerCz : Z) (a b : Z * Z) : num :=
  Manager.compareCoords (Num.Int centerCx) (Num.Int centerCz)
    (coordOf a) (coordOf b).

(** The square of chunks around the centre, row by row, as the two loops of
    [computeNeededChunkKeys] push it. *)
Definition squareAround (centerCx centerCz radius : Z) : list (Z * Z) :=
  flat_map (fun dz =>
              List.map (fun dx => (centerCx + dx, centerCz + dz))
                       (seqZ (- radius) (2 * radius + 1)))
           (seqZ (- radius) (2 * radius + 1)).

(** ** The state of the chunk manager *)

(** A key that [chunkKey] prints for a chunk. *)
Definition canonicalKey (key : string) : Prop := exists cell, key = keyOf cell.

(** An entry of [queued] or [inflight]: the key is that of the chunk the
    request is for, and the request carries the seed of the manager and no
    delta. *)
Definition requestFor (s : Manager.ChunkManager) (key : string)
    (request : Manager.MeshWorkerRequest) : Prop :=
  exists cell,
    key = keyOf cell /\
    Manager.req_cx request = Num.Int (fst cell) /\
    Manager.req_cz request = Num.Int (snd cell) /\
    Manager.seedStr s = Some (Manager.req_seedStr request) /\
    Manager.seedInt s = Some (Manager.req_seedInt request) /\
    Manager.req_destroyedDelta request = None /\
    Manager.req_forceApply request = None.

(** An entry of [readyToApply] or [loaded]: the key is that of a chunk and
    is the key of the coordinates the response carries. *)
Definition responseFor (key : string)
    (response : Manager.MeshWorkerResponse) : Prop :=
  canonicalKey key /\
  key = ChunkMath.chunkKey (Manager.resp_cx response)
          (Manager.resp_cz response).

(** In how many of the four maps a key is. *)
Definition stageCount (s : Manager.ChunkManager) (key : string) : nat :=
  (Nat.b2n (JsMap.has (Manager.loaded s) key)
   + Nat.b2n (JsMap.has (Manager.inflight s) key)
   + Nat.b2n (JsMap.has (Manager.queued s) key)
   + Nat.b2n (JsMap.has (Manager.readyToApply s) key))%nat.

(** The key is in one of the four maps. *)
Definition tracked (s : Manager.ChunkManager) (key : string) : bool :=
  JsMap.has (Manager.loaded s) key || JsMap.has (Manager.inflight s) key
  || JsMap.has (Manager.queued s) key
  || JsMap.has (Manager.readyToApply s) key.

(** What holds of every manager that a program can hold. *)
Definition managerInvariant (s : Manager.ChunkManager) : Prop :=
  0 <= Manager.activeRadius s <= Manager.removeRadius s /\
  (forall seed,
     Manager.seedStr s = Some seed ->
     Manager.seedInt s = Some (Seed.seedToInt seed)) /\
  (uniqueKeys (Manager.loaded s) /\ uniqueKeys (Manager.inflight s) /\
   uniqueKeys (Manager.queued s) /\ uniqueKeys (Manager.readyToApply s)) /\
  (forall key request,
     JsMap.get (Manager.queued s) key = Some request ->
     requestFor s key request) /\
  (forall key request,
     JsMap.get (Manager.inflight s) key = Some request ->
     requestFor s key request) /\
  (forall key response,
     JsMap.get (Manager.readyToApply s) key = Some response ->
     responseFor key response) /\
  (forall key response,
     JsMap.get (Manager.loaded s) key = Some response ->
     responseFor key response) /\
  (forall key, (stageCount s key <= 1)%nat).

(** Every entry of the first map is an entry of the second. *)
Definition subMap {V : Type} (m' m : JsMap.t V) : Prop :=
  forall key value, JsMap.get m' key = Some value -> JsMap.get m key = Some value.

(** The manager has the radii and the seed of another one. *)
Definition sameSettings (s s' : Manager.ChunkManager) : Prop :=
  Manager.activeRadius s' = Manager.activeRadius s /\
  Manager.removeRadius s' = Manager.removeRadius s /\
  Manager.seedStr s' = Manager.seedStr s /\
  Manager.seedInt s' = Manager.seedInt s.

(** The steps of [tick] once the centre chunk is known. *)
Definition tickResponses (params : Manager.ChunkManagerTickParams)
    (s : Manager.ChunkManager) : Manager.ChunkManager :=
  foldl (fun s response => Manager.handleWorkerResponse response s)
        (fst (Manager.resetForSeedIfNeeded (Manager.p_seedStr params) [] s))
        (match Manager.workerResponses params with
         | Some responses => responses
         | None => []
         end).

Definition tickPrune (centerCx centerCz : Z) (s : Manager.ChunkManager)
    : Manager.ChunkManager :=
  let s :=
    Manager.with_queued
      (Manager.pruneOutsideRemoveRadius (Manager.removeRadius s)
         (Manager.queued s) centerCx centerCz) s in
  let s :=
    Manager.with_inflight
      (Manager.pruneOutsideRemoveRadius (Manager.removeRadius s)
         (Manager.inflight s) centerCx centerCz) s in
  Manager.with_readyToApply
    (Manager.pruneOutsideRemoveRadius (Manager.removeRadius s)
       (Manager.readyToApply s) centerCx centerCz) s.

Definition tickUnloaded (centerCx centerCz : Z)
    (params : Manager.ChunkManagerTickParams) (s : Manager.ChunkManager)
    : Manager.ChunkManager * list string :=
  Manager.unloadOutsideRemoveRadius centerCx centerCz
    (snd (Manager.resetForSeedIfNeeded (Manager.p_seedStr params) [] s))
    (tickPrune centerCx centerCz (tickResponses params s)).

Definition tickQueued (centerCx centerCz : Z)
    (params : Manager.ChunkManagerTickParams) (s : Manager.ChunkManager)
    : Manager.ChunkManager :=
  Manager.refreshQueue centerCx centerCz
    (fst (tickUnloaded centerCx centerCz params s)).

Definition tickRequested (centerCx centerCz : Z)
    (params : Manager.ChunkManagerTickParams) (s : Manager.ChunkManager)
    : Manager.ChunkManager * option Manager.MeshWorkerRequest :=
  Manager.dequeueRequest (tickQueued centerCx centerCz params s).

Definition tickApplied (centerCx centerCz : Z)
    (params : Manager.ChunkManagerTickParams) (s : Manager.ChunkManager)
    : Manager.ChunkManager * option Manager.MeshWorkerResponse :=
  Manager.dequeueApply centerCx centerCz
    (fst (tickRequested centerCx centerCz params s)).

(** The manager after the tick and what the tick returns. *)
Definition tickState (centerCx centerCz : Z)
    (params : Manager.ChunkManagerTickParams) (s : Manager.ChunkManager)
    : Manager.ChunkManager :=
  fst (tickApplied centerCx centerCz params s).

Definition tickResult (centerCx centerCz : Z)
    (params : Manager.ChunkManagerTickParams) (s : Manager.ChunkManager)
    : Manager.ChunkManagerTickResult :=
  {| Manager.request := snd (tickRequested centerCx centerCz params s);
     Manager.apply := snd (tickApplied centerCx centerCz params s);
     Manager.unloadKeys := snd (tickUnloaded centerCx centerCz params s) |}.

(** Every key of the map is within [radius] of the centre. *)
Definition keysWithin {V : Type} (centerCx centerCz radius : Z)
    (m : JsMap.t V) : Prop :=
  forall key,
    JsMap.has m key = true ->
    Manager.keyInRadius key centerCx centerCz radius = true.

(** The request that [refreshQueue] queues for a key. *)
Definition freshRequest (seedStr : string) (seedInt : Z) (key : string)
    : Manager.MeshWorkerRequest :=
  let coord := Manager.parseChunkKey key in
  {| Manager.req_seedStr := seedStr; Manager.req_seedInt := seedInt;
     Manager.req_cx := Manager.cx coord; Manager.req_cz := Manager.cz coord;
     Manager.req_destroyedDelta := None; Manager.req_forceApply := None |}.

(** The invariant of the loop of [dequeueApply] once it has run over the
    entries [processed] of the map [ready0]: the entries outside the radius
    have been deleted, and the best entry so far is one of those within the
    radius that no other one comes before. *)
Definition applyLoopInvariant (removeRadius centerCx centerCz : Z)
    (ready0 : JsMap.t Manager.MeshWorkerResponse)
    (processed : list (string * Manager.MeshWorkerResponse))
    (st : JsMap.t Manager.MeshWorkerResponse * Manager.Best) : Prop :=
  fst st
  = foldl (fun q key =>
             if Manager.keyInRadius key centerCx centerCz removeRadius
             then q else JsMap.delete q key)
          ready0 (List.map fst processed) /\
  match Manager.bestKey (snd st), Manager.bestResponse (snd st) with
  | Some key, Some response =>
      In (key, response) processed /\
      exists cell,
        Manager.parseChunkKey key = coordOf cell /\
        chebyshev centerCx centerCz cell <= removeRadius /\
        Manager.bestDistance (snd st)
        = Num.Int (chebyshev centerCx centerCz cell) /\
        Manager.bestCx (snd st) = Num.Int (fst cell) /\
        Manager.bestCz (snd st) = Num.Int (snd cell) /\
        forall key' response' cell',
          In (key', response') processed ->
          Manager.parseChunkKey key' = coordOf cell' ->
          chebyshev centerCx centerCz cell' <= removeRadius ->
          cell' = cell \/ nearerThan centerCx centerCz cell cell'
  | None, None =>
      snd st = Manager.noBest /\
      forall key' response',
        In (key', response') processed ->
        Manager.keyInRadius key' centerCx centerCz removeRadius = false
  | _, _ => False
  end.

(** Every key of the four maps is within [removeRadius] of the centre. *)
Definition allWithin (centerCx centerCz : Z) (s : Manager.ChunkManager)
    : Prop :=
  keysWithin centerCx centerCz (Manager.removeRadius s) (Manager.loaded s) /\
  keysWithin centerCx centerCz (Manager.removeRadius s)
    (Manager.inflight s) /\
  keysWithin centerCx centerCz (Manager.removeRadius s) (Manager.queued s) /\
  keysWithin centerCx centerCz (Manager.removeRadius s)
    (Manager.readyToApply s).

(** The keys of the four maps, one map after the other. *)
Definition trackedKeys (s : Manager.ChunkManager) : list string :=
  JsMap.keys (Manager.loaded s) ++ JsMap.keys (Manager.inflight s)
  ++ JsMap.keys (Manager.queued s) ++ JsMap.keys (Manager.readyToApply s).

(** ** The cells of the buffer that a mesh is read from *)

(** A padded cell with at most one coordinate in the halo: the inner cells
    and the six faces of the halo without its edges and corners. *)
Definition meshedCell (dims : GreedyMesher.PaddedChunkDims) (px py pz : Z)
    : Prop :=
  0 <= px < GreedyMesher.x dims /\
  0 <= py < GreedyMesher.y dims /\
  0 <= pz < GreedyMesher.z dims /\
  ((0 < px < GreedyMesher.x dims - 1 /\ 0 < py < GreedyMesher.y dims - 1) \/
   (0 < px < GreedyMesher.x dims - 1 /\ 0 < pz < GreedyMesher.z dims - 1) \/
   (0 < py < GreedyMesher.y dims - 1 /\ 0 < pz < GreedyMesher.z dims - 1)).

(** The buffer of chunk [(cx, cz)] holds the column of voxels at [(x, z)] in
    cells with at most one coordinate in the halo: the padded coordinates of
    the column are in range and at most one of the two is on the rim. *)
Definition meshReadsColumn (K : VoxelBuilder.ChunkConstants)
    (cx cz x z : Z) : bool :=
  let px := x - cx * VoxelBuilder.CHUNK_SIZE K + 1 in
  let pz := z - cz * VoxelBuilder.CHUNK_SIZE K + 1 in
  (0 <=? px) && (px <? VoxelBuilder.CHUNK_SIZE_PADDED K) &&
  (0 <=? pz) && (pz <? VoxelBuilder.CHUNK_SIZE_PADDED K) &&
  ((0 <? px) && (px <? VoxelBuilder.CHUNK_SIZE_PADDED K - 1)
   || (0 <? pz) && (pz <? VoxelBuilder.CHUNK_SIZE_PADDED K - 1)).

(** A message of [posted] asks for the mesh of chunk [(cx, cz)]. *)
Definition postedFor (posted : list Manager.MeshWorkerRequest) (cx cz : Z)
    : Prop :=
  exists request,
    In request posted /\
    Manager.req_cx request = Num.Int cx /\
    Manager.req_cz request = Num.Int cz.

(** ** src/game/Game.tsx: shooting a voxel *)

Module Game.

Import DestroyedVoxels.

Section WithWorld.

Variable K : VoxelBuilder.ChunkConstants.
Variable getSurfaceProfile : string -> Z -> Z -> Terrain.SurfaceProfile.
Variable seedStr : string.

(** [isSolidAtVoxel], on the index that [destroyedVoxelIndexRef] holds. *)
Definition isSolidAtVoxel (index : DestroyedVoxelIndex) (ix iy iz : Z)
    : bool :=
  if hasDestroyedVoxel index ix iy iz then false
  else Terrain.isSolidTerrainVoxel getSurfaceProfile seedStr ix iy iz.

(** [requestChunkRemesh], with a worker present: the message is appended to
    those posted so far. *)
Definition requestChunkRemesh (cx cz : Z) (destroyedDelta : option (list Z))
    (posted : list Manager.MeshWorkerRequest)
    : list Manager.MeshWorkerRequest :=
  posted ++
  [{| Manager.req_seedStr := seedStr;
      Manager.req_seedInt := Seed.seedToInt seedStr;
      Manager.req_cx := Num.Int cx;
      Manager.req_cz := Num.Int cz;
      Manager.req_destroyedDelta := destroyedDelta;
      Manager.req_forceApply := Some true |}].

(** [onShootVoxel] on integer voxel coordinates: the index of the game
    afterwards and the messages posted to the worker, in order, or what
    [worldToChunk] throws (after the index has been changed).  The delta is
    [new Int32Array([x, y, z])], which holds each coordinate as a signed
    32-bit integer.  The list of impact markers, which nothing here reads,
    is left out. *)
Definition onShootVoxel (index : DestroyedVoxelIndex) (x y z : Z)
    : DestroyedVoxelIndex * result (list Manager.MeshWorkerRequest) :=
  if hasDestroyedVoxel index x y z then (index, Ok [])
  else
    let index := addDestroyedVoxel index x y z in
    let destroyedDelta := [Seed.toInt32 x; Seed.toInt32 y; Seed.toInt32 z] in
    (index,
     let! centerX := ChunkMath.worldToChunk x (VoxelBuilder.CHUNK_SIZE K) in
     let centerCx := ChunkMath.chunk centerX in
     let! centerZ := ChunkMath.worldToChunk z (VoxelBuilder.CHUNK_SIZE K) in
     let centerCz := ChunkMath.chunk centerZ in
     let posted :=
       requestChunkRemesh centerCx centerCz (Some destroyedDelta) [] in
     let localX := x - centerCx * VoxelBuilder.CHUNK_SIZE K in
     let localZ := z - centerCz * VoxelBuilder.CHUNK_SIZE K in
     let posted :=
       if localX =? 0 then
         requestChunkRemesh (centerCx - 1) centerCz None posted
       else if localX =? VoxelBuilder.CHUNK_SIZE K - 1 then
         requestChunkRemesh (centerCx + 1) centerCz None posted
       else posted in
     let posted :=
       if localZ =? 0 then
         requestChunkRemesh centerCx (centerCz - 1) None posted
       else if localZ =? VoxelBuilder.CHUNK_SIZE K - 1 then
         requestChunkRemesh centerCx (centerCz + 1) None posted
       else posted in
     Ok posted).

End WithWorld.

End Game.

(** ** src/world/worldHash.ts *)

Module WorldHash.

(** [typedArray.subarray(begin, end)]: a negative position counts from the
    end, and both positions are clamped to the array. *)
Definition subarray (a : list Z) (begin end_ : Z) : list Z :=
  let len := Z.of_nat (length a) in
  let from := if begin <? 0 then Z.max (len + begin) 0 else Z.min begin len in
  let to := if end_ <? 0 then Z.max (len + end_) 0 else Z.min end_ len in
  take (Z.to_nat (Z.max (to - from) 0)) (drop (Z.to_nat from) a).

(** The bitwise operators, which read their operands as signed 32-bit
    integers, and [>>>], which reads its left operand as an unsigned one. *)
Definition xor32 (a b : Z) : Z := Z.lxor (Seed.toInt32 a) (Seed.toInt32 b).
Definition and32 (a b : Z) : Z := Z.land (Seed.toInt32 a) (Seed.toInt32 b).
Definition or32 (a b : Z) : Z := Z.lor (Seed.toInt32 a) (Seed.toInt32 b).
Definition shl32 (a n : Z) : Z := Seed.toInt32 (Seed.toInt32 a * 2 ^ n).
Definition shru32 (a n : Z) : Z := (a mod 2 ^ 32) / 2 ^ n.

(** The two accumulators that the closures of [createRollingHash] share. *)
Record RollingHash : Type := { h1 : Z; h2 : Z }.

Definition createRollingHash : RollingHash :=
  {| h1 := 0x811c9dc5; h2 := xor32 0x811c9dc5 0x9e3779b9 |}.

(** [hash.update(bytes)].  A byte read outside the array would be
    [undefined], which the operators read as 0. *)
Definition update (bytes : list Z) (hash : RollingHash) : RollingHash :=
  forRange 0 (Z.of_nat (length bytes)) (fun i hash =>
    let b := match readAt bytes i with Some b => b | None => 0 end in
    let h1 := xor32 (h1 hash) b in
    let h1 := shru32 (Seed.imul h1 0x01000193) 0 in
    let h2 := xor32 (h2 hash) (xor32 b (and32 (i * 131) 0xff)) in
    let h2 := shru32 (Seed.imul h2 0x85ebca6b) 0 in
    let h2 := shru32 (or32 (shl32 h2 13) (shru32 h2 19)) 0 in
    {| h1 := h1; h2 := h2 |}) hash.

(** [s.padStart(targetLength, pad)] for a pad of one character. *)
Definition padStart (targetLength : nat) (pad : ascii) (s : string)
    : string :=
  string_of_list_ascii (replicate (targetLength - String.length s) pad)
  +:+ s.

(** [value.toString(16).padStart(8, "0")], for a value that is not
    negative. *)
Definition toHex32 (value : Z) : string :=
  padStart 8 "0"
    (HexadecimalString.NilZero.string_of_uint
       (N.to_hex_uint (Z.to_N value))).

Definition digestHex (hash : RollingHash) : string :=
  toHex32 (h1 hash) +:+ toHex32 (h2 hash).

Section WithWorld.

Variable K : VoxelBuilder.ChunkConstants.
Variable getSurfaceProfile : string -> Z -> Z -> Terrain.SurfaceProfile.

(** [radius] is any finite number. *)
Definition worldHash (seedStr : string) (radius : Q) : result string :=
  if negb (Qeq_bool (inject_Z (Qfloor radius)) radius)
     || negb (Qle_bool 0 radius)
  then Throw "radius must be a non-negative integer"
  else
    let radius := Qfloor radius in
    let hash :=
      forRange (- radius) (2 * radius + 1) (fun cz hash =>
        forRange (- radius) (2 * radius + 1) (fun cx hash =>
          let voxels :=
            VoxelBuilder.buildChunkVoxels K getSurfaceProfile seedStr cx cz in
          forRange 1 (VoxelBuilder.CHUNK_HEIGHT K) (fun py hash =>
            forRange 1 (VoxelBuilder.CHUNK_SIZE K) (fun pz hash =>
              let rowStart := VoxelBuilder.indexOf K 1 py pz in
              let rowEnd := rowStart + VoxelBuilder.CHUNK_SIZE K in
              update (subarray voxels rowStart rowEnd) hash)
              hash)
            hash)
          hash)
        createRollingHash in
    Ok (digestHex hash).

End WithWorld.

End WorldHash.

(** The bytes of one row of the world along x: the voxels
    [(cx * CHUNK_SIZE + i, y, z)] for [i] from 0 to [CHUNK_SIZE - 1]. *)
Definition worldRow (K : VoxelBuilder.ChunkConstants)
    (getSurfaceProfile : string -> Z -> Z -> Terrain.SurfaceProfile)
    (seedStr : string) (cx y z : Z) : list Z :=
  List.map
    (fun i =>
       Terrain.voxelCode
         (Terrain.getVoxel getSurfaceProfile seedStr
            (cx * VoxelBuilder.CHUNK_SIZE K + i) y z))
    (seqZ 0 (VoxelBuilder.CHUNK_SIZE K)).

(** The rows of the chunks within [r] of the origin, chunk after chunk (by
    cz, then cx), and within a chunk by y from 0 to [CHUNK_HEIGHT - 1], then
    by z. *)
Definition worldRows (K : VoxelBuilder.ChunkConstants)
    (getSurfaceProfile : string -> Z -> Z -> Terrain.SurfaceProfile)
    (seedStr : string) (r : Z) : list (list Z) :=
  flat_map (fun cz =>
    flat_map (fun cx =>
      flat_map (fun y =>
        List.map (fun i =>
          worldRow K getSurfaceProfile seedStr cx y
            (cz * VoxelBuilder.CHUNK_SIZE K + i))
          (seqZ 0 (VoxelBuilder.CHUNK_SIZE K)))
        (seqZ 0 (VoxelBuilder.CHUNK_HEIGHT K)))
      (seqZ (- r) (2 * r + 1)))
    (seqZ (- r) (2 * r + 1)).

(** The value of a hexadecimal number with its lowest digit first. *)
Fixpoint littleValue (d : Hexadecimal.uint) : Z :=
  match d with
  | Hexadecimal.Nil => 0
  | Hexadecimal.D0 d => 16 * littleValue d
  | Hexadecimal.D1 d => 1 + 16 * littleValue d
  | Hexadecimal.D2 d => 2 + 16 * littleValue d
  | Hexadecimal.D3 d => 3 + 16 * littleValue d
  | Hexadecimal.D4 d => 4 + 16 * littleValue d
  | Hexadecimal.D5 d => 5 + 16 * littleValue d
  | Hexadecimal.D6 d => 6 + 16 * littleValue d
  | Hexadecimal.D7 d => 7 + 16 * littleValue d
  | Hexadecimal.D8 d => 8 + 16 * littleValue d
  | Hexadecimal.D9 d => 9 + 16 * littleValue d
  | Hexadecimal.Da d => 10 + 16 * littleValue d
  | Hexadecimal.Db d => 11 + 16 * littleValue d
  | Hexadecimal.Dc d => 12 + 16 * littleValue d
  | Hexadecimal.Dd d => 13 + 16 * littleValue d
  | Hexadecimal.De d => 14 + 16 * littleValue d
  | Hexadecimal.Df d => 15 + 16 * littleValue d
  end.

(** The highest digit, which comes last, is not 0. *)
Fixpoint normalLittle (d : Hexadecimal.uint) : bool :=
  match d with
  | Hexadecimal.Nil => false
  | Hexadecimal.D0 d => normalLittle d
  | Hexadecimal.D1 d | Hexadecimal.D2 d | Hexadecimal.D3 d
  | Hexadecimal.D4 d | Hexadecimal.D5 d | Hexadecimal.D6 d
  | Hexadecimal.D7 d | Hexadecimal.D8 d | Hexadecimal.D9 d
  | Hexadecimal.Da d | Hexadecimal.Db d | Hexadecimal.Dc d
  | Hexadecimal.Dd d | Hexadecimal.De d | Hexadecimal.Df d =>
      match d with
      | Hexadecimal.Nil => true
      | _ => normalLittle d
      end
  end.

(** * Proofs *)

(** ** Loops *)

Lemma forRange_nil {S : Type} (lo n : Z) (body : Z -> S -> S) (s : S) :
  n <= 0 -> forRange lo n body s = s.
Proof. intros Hn. unfold forRange. now rewrite seqZ_nil. Qed.

Lemma forRange_snoc {S : Type} (lo n : Z) (body : Z -> S -> S) (s : S) :
  0 <= n ->
  forRange lo (n + 1) body s = body (lo + n) (forRange lo n body s).
Proof.
  intros Hn. unfold forRange.
  rewrite seqZ_app by lia. rewrite foldl_app.
  change (seqZ (lo + n) 1) with [lo + n]. reflexivity.
Qed.

(** Loop invariant rule for [forRange]: [P i s] holds before turn [i]. *)
Lemma forRange_invariant {S : Type} (P : Z -> S -> Prop) (lo n : Z)
    (body : Z -> S -> S) (s : S) :
  0 <= n ->
  P lo s ->
  (forall i st, lo <= i < lo + n -> P i st -> P (i + 1) (body i st)) ->
  P (lo + n) (forRange lo n body s).
Proof.
  intros Hn H0 Hstep.
  assert (Hk : forall k : nat,
             Z.of_nat k <= n ->
             P (lo + Z.of_nat k) (forRange lo (Z.of_nat k) body s)).
  { induction k as [|k IH]; intros Hle.
    - rewrite forRange_nil by lia. now rewrite Z.add_0_r.
    - rewrite Nat2Z.inj_succ, <- Z.add_1_r.
      rewrite forRange_snoc by lia.
      rewrite Z.add_assoc. apply Hstep; [lia|]. apply IH. lia. }
  specialize (Hk (Z.to_nat n)). rewrite Z2Nat.id in Hk by assumption.
  apply Hk. lia.
Qed.

(** The same rule for an invariant that does not mention the counter. *)
Lemma forRange_preserves {S : Type} (P : S -> Prop) (lo n : Z)
    (body : Z -> S -> S) (s : S) :
  P s ->
  (forall i st, lo <= i < lo + n -> P st -> P (body i st)) ->
  P (forRange lo n body s).
Proof.
  intros H0 Hstep.
  destruct (Z.le_gt_cases 0 n) as [Hn|Hn].
  - apply (forRange_invariant (fun _ => P)); auto.
  - now rewrite forRange_nil by lia.
Qed.

Lemma forRangeM_nil {S : Type} (lo n : Z) (body : Z -> S -> option S) (s : S) :
  n <= 0 -> forRangeM lo n body s = Some s.
Proof. intros Hn. unfold forRangeM. now rewrite seqZ_nil. Qed.

Lemma forRangeM_snoc {S : Type} (lo n : Z) (body : Z -> S -> option S)
    (s : S) :
  0 <= n ->
  forRangeM lo (n + 1) body s
  = match forRangeM lo n body s with
    | Some a => body (lo + n) a
    | None => None
    end.
Proof.
  intros Hn. unfold forRangeM.
  rewrite seqZ_app by lia. rewrite foldl_app.
  change (seqZ (lo + n) 1) with [lo + n]. reflexivity.
Qed.

(** A loop whose every turn returns and keeps [P] returns and keeps [P]. *)
Lemma forRangeM_preserves {S : Type} (P : S -> Prop) (lo n : Z)
    (body : Z -> S -> option S) (s : S) :
  P s ->
  (forall i st, lo <= i < lo + n -> P st ->
     exists st', body i st = Some st' /\ P st') ->
  exists s', forRangeM lo n body s = Some s' /\ P s'.
Proof.
  intros H0 Hstep.
  destruct (Z.le_gt_cases 0 n) as [Hn|Hn].
  - assert (Hk : forall k : nat,
               Z.of_nat k <= n ->
               exists s', forRangeM lo (Z.of_nat k) body s = Some s' /\ P s').
    { induction k as [|k IH]; intros Hle.
      - rewrite forRangeM_nil by lia. eauto.
      - rewrite Nat2Z.inj_succ, <- Z.add_1_r.
        rewrite forRangeM_snoc by lia.
        destruct IH as (s1 & -> & H1); [lia|].
        apply Hstep; [lia|assumption]. }
    specialize (Hk (Z.to_nat n)). rewrite Z2Nat.id in Hk by assumption.
    apply Hk. lia.
  - rewrite forRangeM_nil by lia. eauto.
Qed.

(** Total correctness of [while]: with a measure that the body decreases and
    fuel for the measure, the loop returns, keeps the invariant and ends with
    its condition false. *)
Lemma while_terminates {S : Type} (measure : S -> nat) (P : S -> Prop)
    (cond : S -> bool) (body : S -> option S) :
  (forall s, P s -> cond s = true ->
     exists s', body s = Some s' /\ P s' /\ (measure s' < measure s)%nat) ->
  forall fuel s,
    P s -> (measure s <= fuel)%nat ->
    exists s', while fuel cond body s = Some s' /\ P s' /\ cond s' = false.
Proof.
  intros Hstep fuel.
  induction fuel as [|fuel IH]; intros s Hs Hm; simpl.
  - destruct (cond s) eqn:Hc; [|eauto].
    destruct (Hstep s Hs Hc) as (s' & _ & _ & Hlt). lia.
  - destruct (cond s) eqn:Hc; [|eauto].
    destruct (Hstep s Hs Hc) as (s' & -> & Hs' & Hlt).
    apply IH; [assumption|lia].
Qed.

(** ** Typed arrays *)

Lemma readAt_writeAt_eq {A : Type} (a : list A) (i : Z) (x : A) :
  0 <= i < Z.of_nat (length a) -> readAt (writeAt a i x) i = Some x.
Proof.
  intros Hi. unfold readAt, writeAt.
  destruct (Z.ltb_spec i 0); [lia|].
  apply list_lookup_insert_eq. lia.
Qed.

Lemma readAt_writeAt_ne {A : Type} (a : list A) (i j : Z) (x : A) :
  i <> j -> readAt (writeAt a i x) j = readAt a j.
Proof.
  intros Hij. unfold readAt, writeAt.
  destruct (Z.ltb_spec j 0); [reflexivity|].
  destruct (Z.ltb_spec i 0); [reflexivity|].
  apply list_lookup_insert_ne. lia.
Qed.

Lemma length_writeAt {A : Type} (a : list A) (i : Z) (x : A) :
  length (writeAt a i x) = length a.
Proof.
  unfold writeAt. destruct (i <? 0); [reflexivity|apply length_insert].
Qed.

Lemma length_newArray (n : Z) : length (newArray n) = Z.to_nat n.
Proof. apply length_replicate. Qed.

Lemma readAt_newArray (n i : Z) : 0 <= i < n -> readAt (newArray n) i = Some 0.
Proof.
  intros Hi. unfold readAt, newArray.
  destruct (Z.ltb_spec i 0); [lia|].
  apply lookup_replicate_2. lia.
Qed.

Lemma readAt_Some_lt {A : Type} (a : list A) (i : Z) (x : A) :
  readAt a i = Some x -> 0 <= i < Z.of_nat (length a).
Proof.
  unfold readAt. destruct (Z.ltb_spec i 0); [discriminate|].
  intros Hl. apply lookup_lt_Some in Hl. lia.
Qed.

(** ** chunkMath *)

Lemma Qfloor_div_pos (a b : Z) :
  0 < b -> Qfloor (inject_Z a / inject_Z b) = a / b.
Proof.
  intros Hb. destruct b as [|p|p]; try lia.
  unfold Qdiv, Qmult, Qinv, inject_Z, Qfloor. simpl.
  rewrite Z.mul_1_r. reflexivity.
Qed.

Lemma floorDiv_pos (a b : Z) : 0 < b -> ChunkMath.floorDiv a b = Ok (a / b).
Proof.
  intros Hb. unfold ChunkMath.floorDiv.
  destruct (Z.leb_spec b 0); [lia|]. now rewrite Qfloor_div_pos.
Qed.

Lemma floorMod_pos (a b : Z) : 0 < b -> ChunkMath.floorMod a b = Ok (a mod b).
Proof.
  intros Hb. unfold ChunkMath.floorMod.
  destruct (Z.leb_spec b 0); [lia|].
  rewrite floorDiv_pos by assumption. simpl. f_equal.
  rewrite Z.mod_eq by lia. lia.
Qed.

Lemma worldToChunk_pos (x size : Z) :
  0 < size ->
  ChunkMath.worldToChunk x size
  = Ok {| ChunkMath.chunk := x / size; ChunkMath.local := x mod size |}.
Proof.
  intros Hs. unfold ChunkMath.worldToChunk.
  destruct (Z.leb_spec size 0); [lia|].
  rewrite floorDiv_pos, floorMod_pos by assumption. reflexivity.
Qed.

(** On integers, [floorDiv] and [floorMod] return the quotient and the
    remainder of floor division. *)
Lemma floorDiv_floorMod_exact (a b : Z) :
  0 < b ->
  ChunkMath.floorDiv a b = Ok (a / b) /\
  ChunkMath.floorMod a b = Ok (a mod b) /\
  a / b * b + a mod b = a /\ 0 <= a mod b < b.
Proof.
  intros Hb. rewrite floorDiv_pos, floorMod_pos by assumption.
  split; [reflexivity|]. split; [reflexivity|].
  split; [rewrite Z.mod_eq by lia; lia|].
  apply Z.mod_pos_bound; assumption.
Qed.

(** *** Chunk keys read back *)

Lemma commaFree_string_of_uint (d : Decimal.uint) :
  commaFree (NilEmpty.string_of_uint d) = true.
Proof. induction d; simpl; auto. Qed.

Lemma commaFree_toString_Int (n : Z) : commaFree (Num.toString (Num.Int n)) = true.
Proof.
  unfold Num.toString, NilZero.string_of_int, NilZero.string_of_uint.
  destruct (Z.to_int n) as [d|d]; destruct d; simpl;
    auto using commaFree_string_of_uint.
Qed.

Lemma splitComma_commaFree (s : string) :
  commaFree s = true -> splitComma s = [s].
Proof.
  induction s as [|c s IH]; simpl; [reflexivity|].
  intros [Hc Hs]%andb_prop.
  destruct (Ascii.eqb c ","); [discriminate|].
  now rewrite IH.
Qed.

Lemma splitComma_app (s1 s2 : string) :
  commaFree s1 = true ->
  splitComma (s1 +:+ "," +:+ s2) = s1 :: splitComma s2.
Proof.
  induction s1 as [|c s1 IH]; intros H.
  - reflexivity.
  - simpl in H. apply andb_prop in H as [Hc Hs].
    change (splitComma (String c (s1 +:+ "," +:+ s2))
            = String c s1 :: splitComma s2).
    cbn [splitComma].
    destruct (Ascii.eqb c ","); [discriminate|].
    now rewrite IH.
Qed.

Lemma ofString_toString_Int (n : Z) :
  Num.ofString (Num.toString (Num.Int n)) = Num.Int n.
Proof.
  unfold Num.ofString, Num.toString.
  rewrite NilZero.isi.
  - now rewrite DecimalZ.of_to.
  - destruct n; simpl; try discriminate;
      intros [= H]; now apply Unsigned.to_uint_nonnil in H.
  - destruct n; simpl; try discriminate;
      intros [= H]; now apply Unsigned.to_uint_nonnil in H.
Qed.

(** [parseChunkKey] reads back what [chunkKey] printed. *)
Lemma parseChunkKey_chunkKey (a b : Z) :
  Manager.parseChunkKey (ChunkMath.chunkKey (Num.Int a) (Num.Int b))
  = {| Manager.cx := Num.Int a; Manager.cz := Num.Int b |}.
Proof.
  unfold Manager.parseChunkKey, ChunkMath.chunkKey.
  rewrite splitComma_app by apply commaFree_toString_Int.
  rewrite splitComma_commaFree by apply commaFree_toString_Int.
  cbv [lookup list_lookup Num.ofOptString].
  now rewrite !ofString_toString_Int.
Qed.

Lemma chunkKey_inj (a b a' b' : Z) :
  ChunkMath.chunkKey (Num.Int a) (Num.Int b)
  = ChunkMath.chunkKey (Num.Int a') (Num.Int b') ->
  a = a' /\ b = b'.
Proof.
  intros H. apply (f_equal Manager.parseChunkKey) in H.
  rewrite !parseChunkKey_chunkKey in H. now inversion H.
Qed.

(** ** Terrain *)

Section TerrainFacts.

Import Terrain.

Variable getSurfaceProfile : string -> Z -> Z -> SurfaceProfile.

(** Inside the footprint of the first hut template, the row four above the
    surface is the roof: dirt. *)
Lemma getVoxel_hut_roof (seedStr : string) (x z : Z) :
  let profile := getSurfaceProfile seedStr x z in
  isVillage profile = true ->
  villageCenterX profile - 8 <= localX profile <= villageCenterX profile - 4 ->
  villageCenterZ profile - 6 <= localZ profile <= villageCenterZ profile - 2 ->
  getVoxel getSurfaceProfile seedStr x (surfaceHeight profile + 4) z
  = VOXEL_DIRT.
Proof.
  intros profile Hv Hx Hz. unfold getVoxel. fold profile.
  rewrite (proj2 (Z.ltb_ge _ _)) by lia.
  unfold getVillageStructureVoxel. rewrite Hv.
  cbn [negb HUT_TEMPLATES firstHutVoxel].
  assert (Hhut : hutVoxel profile (surfaceHeight profile + 4)
                   {| offsetX := -6; offsetZ := -4; sizeX := 5; sizeZ := 5;
                      door := south |} = Some VOXEL_DIRT).
  { unfold hutVoxel. cbn [offsetX offsetZ sizeX sizeZ door].
    change (5 / 2) with 2.
    rewrite !(proj2 (Z.leb_le _ _)) by lia. cbn [andb negb].
    rewrite (proj2 (Z.eqb_neq _ _)) by lia.
    rewrite (proj2 (Z.ltb_ge _ _)) by lia.
    now rewrite Z.eqb_refl. }
  now rewrite Hhut.
Qed.

(** On the north wall of that hut, the three rows above the surface are
    stone. *)
Lemma getVoxel_hut_wall (seedStr : string) (x y z : Z) :
  let profile := getSurfaceProfile seedStr x z in
  isVillage profile = true ->
  villageCenterX profile - 8 <= localX profile <= villageCenterX profile - 4 ->
  localZ profile = villageCenterZ profile - 6 ->
  surfaceHeight profile + 1 <= y <= surfaceHeight profile + 3 ->
  getVoxel getSurfaceProfile seedStr x y z = VOXEL_STONE.
Proof.
  intros profile Hv Hx Hz Hy. unfold getVoxel. fold profile.
  rewrite (proj2 (Z.ltb_ge _ _)) by lia.
  unfold getVillageStructureVoxel. rewrite Hv.
  cbn [negb HUT_TEMPLATES firstHutVoxel].
  assert (Hhut : hutVoxel profile y
                   {| offsetX := -6; offsetZ := -4; sizeX := 5; sizeZ := 5;
                      door := south |} = Some VOXEL_STONE).
  { unfold hutVoxel. cbn [offsetX offsetZ sizeX sizeZ door].
    change (5 / 2) with 2.
    rewrite !(proj2 (Z.leb_le _ _)) by lia. cbn [andb negb].
    rewrite (proj2 (Z.eqb_neq y _)) by lia.
    rewrite (proj2 (Z.ltb_ge _ y)) by lia.
    rewrite (proj2 (Z.eqb_neq y _)) by lia.
    rewrite (proj2 (Z.ltb_ge y _)) by lia.
    rewrite (proj2 (Z.ltb_ge _ y)) by lia. cbn [orb].
    rewrite (proj2 (Z.eqb_eq (localZ profile) (villageCenterZ profile + -4 - 2)))
      by lia.
    rewrite (proj2 (Z.eqb_neq (localZ profile)
                      (villageCenterZ profile + -4 - 2 + 5 - 1))) by lia.
    rewrite !orb_true_r. cbn [negb isDoorSide andb orb].
    reflexivity. }
  now rewrite Hhut.
Qed.

End TerrainFacts.

(** ** The padded voxel buffer *)

Section BuilderFacts.

Import VoxelBuilder.

Variable K : ChunkConstants.
Variable getSurfaceProfile : string -> Z -> Z -> Terrain.SurfaceProfile.
Variable seedStr : string.
Variables cx cz : Z.
Variable isDestroyed : option (Z -> Z -> Z -> bool).

Local Abbreviation S := (CHUNK_SIZE_PADDED K).
Local Abbreviation H := (CHUNK_HEIGHT_PADDED K).
Local Abbreviation value :=
  (paddedCellValue K getSurfaceProfile seedStr cx cz isDestroyed).
Local Abbreviation builderInv := (builderInvariant K value).

Lemma indexOf_inj (px py pz qx qy qz : Z) :
  0 <= px < S -> 0 <= pz < S -> 0 <= qx < S -> 0 <= qz < S ->
  indexOf K px py pz = indexOf K qx qy qz ->
  px = qx /\ py = qy /\ pz = qz.
Proof.
  unfold indexOf, PADDED_SLICE_AREA. intros Hpx Hpz Hqx Hqz E.
  assert (E1 : (py * S + pz) * S + px = (qy * S + qz) * S + qx) by lia.
  assert (E2 : py * S + pz = qy * S + qz) by nia.
  assert (E3 : py = qy) by nia.
  subst. lia.
Qed.

Lemma indexOf_range (px py pz : Z) :
  0 <= px < S -> 0 <= py < H -> 0 <= pz < S ->
  0 <= indexOf K px py pz < S * H * S.
Proof.
  unfold indexOf, PADDED_SLICE_AREA. intros Hpx Hpy Hpz. nia.
Qed.

Lemma builderInv_write (qx qy qz : Z) (voxels : list Z) :
  0 <= qx < S -> 0 <= qy < H -> 0 <= qz < S ->
  builderInv qx qy qz voxels ->
  builderInv (qx + 1) qy qz
    (writeAt voxels (indexOf K qx qy qz) (value qx qy qz)).
Proof.
  intros Hqx Hqy Hqz [Hlen Hcells]. split.
  - now rewrite length_writeAt.
  - intros px py pz Hpx Hpy Hpz Hbefore.
    destruct (Z.eq_dec (indexOf K qx qy qz) (indexOf K px py pz)) as [E|E].
    + apply indexOf_inj in E as (-> & -> & ->); try assumption.
      apply readAt_writeAt_eq. rewrite Hlen.
      pose proof (indexOf_range px py pz Hpx Hpy Hpz). lia.
    + rewrite readAt_writeAt_ne by assumption.
      apply Hcells; try assumption.
      unfold writtenBefore in *.
      destruct (Z.eq_dec px qx) as [->|]; [|lia].
      destruct (Z.eq_dec py qy) as [->|]; [|lia].
      destruct (Z.eq_dec pz qz) as [->|]; [|lia].
      contradiction.
Qed.

Lemma builderInv_row_end (qy qz : Z) (voxels : list Z) :
  builderInv (0 + S) qy qz voxels -> builderInv 0 qy (qz + 1) voxels.
Proof.
  intros [Hlen Hcells]. split; [assumption|].
  intros px py pz Hpx Hpy Hpz Hbefore. apply Hcells; try assumption.
  unfold writtenBefore in *. lia.
Qed.

Lemma builderInv_slice_end (qy : Z) (voxels : list Z) :
  builderInv 0 qy (0 + S) voxels -> builderInv 0 (qy + 1) 0 voxels.
Proof.
  intros [Hlen Hcells]. split; [assumption|].
  intros px py pz Hpx Hpy Hpz Hbefore. apply Hcells; try assumption.
  unfold writtenBefore in *. lia.
Qed.

(** C3.  For every seed, chunk and destruction predicate (or none), the
    buffer of [buildChunkVoxelsWithOverrides] holds, in every padded cell
    [(px, py, pz)], Air when the world voxel
    [(cx * CHUNK_SIZE + (px - 1), py - 1, cz * CHUNK_SIZE + (pz - 1))] is
    destroyed and the voxel [getVoxel] gives there otherwise. *)
Theorem buildChunkVoxelsWithOverrides_cell (px py pz : Z) :
  0 <= px < CHUNK_SIZE_PADDED K ->
  0 <= py < CHUNK_HEIGHT_PADDED K ->
  0 <= pz < CHUNK_SIZE_PADDED K ->
  readAt (buildChunkVoxelsWithOverrides K getSurfaceProfile seedStr cx cz
            isDestroyed)
         (indexOf K px py pz)
  = Some
      (if callIsDestroyed isDestroyed
            (cx * CHUNK_SIZE K + (px - 1)) (py - 1)
            (cz * CHUNK_SIZE K + (pz - 1))
       then Terrain.voxelCode Terrain.VOXEL_AIR
       else Terrain.voxelCode
              (Terrain.getVoxel getSurfaceProfile seedStr
                 (cx * CHUNK_SIZE K + (px - 1)) (py - 1)
                 (cz * CHUNK_SIZE K + (pz - 1)))).
Proof.
  intros Hpx Hpy Hpz.
  assert (Hall : builderInv 0 (0 + H) 0
            (buildChunkVoxelsWithOverrides K getSurfaceProfile seedStr cx cz
               isDestroyed)).
  { unfold buildChunkVoxelsWithOverrides.
    apply (forRange_invariant (fun qy => builderInv 0 qy 0)); [lia| |].
    - split; [apply length_newArray|].
      intros ? ? ? ? ? ? Hb. unfold writtenBefore in Hb. lia.
    - intros qy voxels Hqy Hinv. apply builderInv_slice_end.
      apply (forRange_invariant (fun qz => builderInv 0 qy qz));
        [lia|assumption|].
      intros qz voxels' Hqz Hinv'. apply builderInv_row_end.
      apply (forRange_invariant (fun qx => builderInv qx qy qz));
        [lia|assumption|].
      intros qx voxels'' Hqx Hinv''.
      apply (builderInv_write qx qy qz); auto; lia. }
  destruct Hall as [_ Hcells].
  apply (Hcells px py pz); try assumption.
  unfold writtenBefore. lia.
Qed.

End BuilderFacts.

(** Two cells of chunk [(-1, 2)] of the sample world, one destroyed and one
    not. *)
Lemma buildChunkVoxelsWithOverrides_cell_witness :
  readAt (VoxelBuilder.buildChunkVoxelsWithOverrides sampleConstants
            flatVillageWorld "demo" (-1) 2 (Some destroyedAbove18))
         (VoxelBuilder.indexOf sampleConstants 0 18 17)
  = Some 2 /\
  readAt (VoxelBuilder.buildChunkVoxelsWithOverrides sampleConstants
            flatVillageWorld "demo" (-1) 2 (Some destroyedAbove18))
         (VoxelBuilder.indexOf sampleConstants 3 19 4)
  = Some 0.
Proof.
  split.
  - apply (buildChunkVoxelsWithOverrides_cell sampleConstants flatVillageWorld
             "demo" (-1) 2 (Some destroyedAbove18) 0 18 17);
      simpl; lia.
  - apply (buildChunkVoxelsWithOverrides_cell sampleConstants flatVillageWorld
             "demo" (-1) 2 (Some destroyedAbove18) 3 19 4);
      simpl; lia.
Defined.

(** ** The greedy mesher *)

Section MesherFacts.

Import GreedyMesher.

Lemma meshInvariant_empty : meshInvariant emptyBuffers.
Proof.
  unfold meshInvariant, emptyBuffers; simpl.
  repeat split; try lia. constructor.
Qed.

Lemma emitQuad_invariant (d w u v width height normalSign voxelId : Z)
    (m : Buffers) :
  meshInvariant m ->
  meshInvariant (emitQuad d w u v width height normalSign voxelId m).
Proof.
  intros (Hq & Hpos & Hnor & Hcol & Hidx & Hall).
  assert (Hbase : Z.of_nat (length (b_positions m)) / 3 = 4 * b_quadCount m).
  { rewrite Hpos. replace (12 * b_quadCount m) with (4 * b_quadCount m * 3)
      by lia. apply Z.div_mul. lia. }
  unfold emitQuad. rewrite Hbase.
  destruct (colorForVoxel voxelId) as [[r g] b].
  assert (Hgrow : forall i, 0 <= i < 4 * b_quadCount m ->
                            0 <= i < 4 * (b_quadCount m + 1)) by (intros; lia).
  destruct (d =? 0); [|destruct (d =? 1)];
    destruct (0 <? normalSign);
    unfold meshInvariant, incrQuadCount, pushIndices, pushVertex; simpl;
    repeat rewrite ?length_app, ?Nat2Z.inj_add; simpl;
    (repeat split; try lia;
     rewrite Forall_app; split;
     [ eapply Forall_impl; [exact Hall|exact Hgrow]
     | repeat constructor; lia ]).
Qed.

Lemma growWidth_returns (mask : list Z) (sizeU u start signedVoxel : Z) :
  0 <= u ->
  exists width,
    growWidth mask sizeU u start signedVoxel = Some width /\ 1 <= width.
Proof.
  intros Hu. unfold growWidth.
  destruct (while_terminates
              (fun width => Z.to_nat (sizeU - u - width))
              (fun width => 1 <= width)
              (fun width =>
                 (u + width <? sizeU)
                 && (maskAt mask (start + width) =? signedVoxel))
              (fun width => Some (width + 1)))
    with (fuel := Z.to_nat sizeU) (s := 1) as (width & Hw & Hge & _).
  - intros width Hge Hcond. apply andb_prop in Hcond as [Hlt _].
    apply Z.ltb_lt in Hlt. exists (width + 1). repeat split; lia.
  - lia.
  - lia.
  - eauto.
Qed.

Lemma growHeight_returns (mask : list Z)
    (sizeU sizeV u v width signedVoxel : Z) :
  0 <= v < sizeV ->
  exists height canGrow,
    growHeight mask sizeU sizeV u v width signedVoxel
    = Some (height, canGrow) /\ 1 <= height.
Proof.
  intros Hv. unfold growHeight.
  destruct (while_terminates
              (growHeightMeasure sizeV v)
              (fun st : Z * bool => 1 <= fst st)
              (fun '(height, canGrow) => (v + height <? sizeV) && canGrow)
              (fun '(height, canGrow) =>
                 let rowStart := (v + height) * sizeU + u in
                 let canGrow := rowMatches mask rowStart width signedVoxel in
                 Some (if canGrow then (height + 1, canGrow)
                       else (height, canGrow))))
    with (fuel := Z.to_nat sizeV) (s := (1, true))
    as ([height canGrow] & Hw & Hge & _).
  - intros [height canGrow] Hge Hcond. simpl in Hge.
    apply andb_prop in Hcond as [Hlt ->]. apply Z.ltb_lt in Hlt.
    destruct (rowMatches mask ((v + height) * sizeU + u) width signedVoxel)
      eqn:Hrow.
    + exists (height + 1, true). cbv zeta. rewrite Hrow.
      unfold growHeightMeasure; simpl. repeat split; lia.
    + exists (height, false). cbv zeta. rewrite Hrow.
      unfold growHeightMeasure; simpl. repeat split; lia.
  - simpl. lia.
  - unfold growHeightMeasure; simpl. lia.
  - eauto.
Qed.

Lemma scanStep_returns (d w sizeU sizeV v : Z) (s : Scan) :
  0 <= v < sizeV ->
  0 <= s_u s ->
  meshInvariant (s_buffers s) ->
  exists s',
    scanStep d w sizeU sizeV v s = Some s' /\
    s_u s < s_u s' /\ meshInvariant (s_buffers s').
Proof.
  intros Hv Hu Hinv. unfold scanStep.
  destruct (maskAt (s_mask s) (v * sizeU + s_u s) =? 0).
  - eexists. split; [reflexivity|]. simpl. split; [lia|assumption].
  - destruct (growWidth_returns (s_mask s) sizeU (s_u s)
                (v * sizeU + s_u s)
                (maskAt (s_mask s) (v * sizeU + s_u s)) Hu)
      as (width & -> & Hwidth).
    destruct (growHeight_returns (s_mask s) sizeU sizeV (s_u s) v width
                (maskAt (s_mask s) (v * sizeU + s_u s)) Hv)
      as (height & canGrow & -> & Hheight).
    eexists. split; [reflexivity|]. simpl. split; [lia|].
    now apply emitQuad_invariant.
Qed.

Lemma scanRow_returns (d w sizeU sizeV v : Z) (mask : list Z) (m : Buffers) :
  0 <= v < sizeV ->
  meshInvariant m ->
  exists s,
    while (Z.to_nat sizeU) (fun s => s_u s <? sizeU)
          (scanStep d w sizeU sizeV v)
          {| s_u := 0; s_mask := mask; s_buffers := m |} = Some s /\
    meshInvariant (s_buffers s).
Proof.
  intros Hv Hinv.
  destruct (while_terminates
              (fun s => Z.to_nat (sizeU - s_u s))
              (fun s => 0 <= s_u s /\ meshInvariant (s_buffers s))
              (fun s => s_u s <? sizeU)
              (scanStep d w sizeU sizeV v))
    with (fuel := Z.to_nat sizeU)
         (s := {| s_u := 0; s_mask := mask; s_buffers := m |})
    as (s & Hs & [_ Hm] & _).
  - intros s [Hu Hm] Hcond. apply Z.ltb_lt in Hcond.
    destruct (scanStep_returns d w sizeU sizeV v s Hv Hu Hm)
      as (s' & Hs' & Hlt & Hm').
    exists s'. split; [assumption|]. split; [split; [lia|assumption]|lia].
  - simpl. split; [lia|assumption].
  - simpl. lia.
  - eauto.
Qed.

Lemma mergeSlice_returns (d w sizeU sizeV : Z) (mask : list Z) (m : Buffers) :
  meshInvariant m ->
  exists mask' m',
    mergeSlice d w sizeU sizeV mask m = Some (mask', m') /\ meshInvariant m'.
Proof.
  intros Hinv. unfold mergeSlice.
  destruct (forRangeM_preserves
              (fun st : list Z * Buffers => meshInvariant (snd st))
              0 sizeV
              (fun v '(mask, m) =>
                 match
                   while (Z.to_nat sizeU) (fun s => s_u s <? sizeU)
                         (scanStep d w sizeU sizeV v)
                         {| s_u := 0; s_mask := mask; s_buffers := m |}
                 with
                 | Some s => Some (s_mask s, s_buffers s)
                 | None => None
                 end)
              (mask, m))
    as ([mask' m'] & Hr & Hm'); [assumption| |eauto].
  intros v [mask1 m1] Hv Hm1. simpl in Hm1.
  destruct (scanRow_returns d w sizeU sizeV v mask1 m1) as (s & -> & Hs);
    [lia|assumption|].
  eauto.
Qed.

(** The loops of [greedyMesh] return, with the arrays consistent. *)
Lemma meshAxes_returns (voxels : list Z) (dims : PaddedChunkDims) :
  exists m, meshAxes voxels dims = Some m /\ meshInvariant m.
Proof.
  unfold meshAxes.
  apply forRangeM_preserves; [apply meshInvariant_empty|].
  intros d m Hd Hm.
  destruct (forRangeM_preserves
              (fun st : list Z * Buffers => meshInvariant (snd st))
              0 (innerSize dims d + 1)
              (fun w '(mask, m) =>
                 let mask :=
                   fillMask voxels dims d w (innerSize dims (AXIS_U d))
                     (innerSize dims (AXIS_V d)) mask in
                 mergeSlice d w (innerSize dims (AXIS_U d))
                   (innerSize dims (AXIS_V d)) mask m)
              (newArray (innerSize dims (AXIS_U d) * innerSize dims (AXIS_V d)),
               m))
    as ([mask' m'] & Hr & Hm'); [assumption| |].
  - intros w [mask1 m1] Hw Hm1. simpl in Hm1. cbv zeta.
    destruct (mergeSlice_returns d w (innerSize dims (AXIS_U d))
                (innerSize dims (AXIS_V d))
                (fillMask voxels dims d w (innerSize dims (AXIS_U d))
                   (innerSize dims (AXIS_V d)) mask1) m1 Hm1)
      as (mask2 & m2 & -> & Hm2).
    eauto.
  - cbv zeta in Hr |- *. rewrite Hr. eauto.
Qed.

End MesherFacts.

(** C8.  [greedyMesh] throws exactly when a padded dimension is below 3; on
    dimensions that are all at least 3 it returns a payload, whatever the
    buffer (so also for a buffer of the matching size). *)
Theorem greedyMesh_throws_iff_small (voxels : list Z)
    (dims : GreedyMesher.PaddedChunkDims) :
  ((exists message,
      GreedyMesher.greedyMesh voxels dims = Some (Throw message))
   <-> (GreedyMesher.x dims < 3 \/ GreedyMesher.y dims < 3
        \/ GreedyMesher.z dims < 3)) /\
  (3 <= GreedyMesher.x dims ->
   3 <= GreedyMesher.y dims ->
   3 <= GreedyMesher.z dims ->
   exists payload, GreedyMesher.greedyMesh voxels dims = Some (Ok payload)).
Proof.
  unfold GreedyMesher.greedyMesh.
  destruct (meshAxes_returns voxels dims) as (m & -> & _).
  destruct (Z.ltb_spec (GreedyMesher.x dims) 3);
    destruct (Z.ltb_spec (GreedyMesher.y dims) 3);
    destruct (Z.ltb_spec (GreedyMesher.z dims) 3); simpl;
    (split; [split; [intros [message Hm]; try discriminate; lia
                    |intros Hsmall; try lia; eauto]
            |intros; try lia; eauto]).
Qed.

Lemma greedyMesh_throws_iff_small_witness :
  (exists payload,
     GreedyMesher.greedyMesh (newArray 27)
       {| GreedyMesher.x := 3; GreedyMesher.y := 3; GreedyMesher.z := 3 |}
     = Some (Ok payload)) /\
  (exists message,
     GreedyMesher.greedyMesh (newArray 18)
       {| GreedyMesher.x := 3; GreedyMesher.y := 2; GreedyMesher.z := 3 |}
     = Some (Throw message)).
Proof.
  split.
  - apply (proj2 (greedyMesh_throws_iff_small (newArray 27)
             {| GreedyMesher.x := 3; GreedyMesher.y := 3;
                GreedyMesher.z := 3 |})); simpl; lia.
  - apply (proj1 (greedyMesh_throws_iff_small (newArray 18)
             {| GreedyMesher.x := 3; GreedyMesher.y := 2;
                GreedyMesher.z := 3 |})). simpl. lia.
Defined.

(** C4.  Every payload that [greedyMesh] returns has as many normals and
    colours as positions, six indices per quad, and only indices below the
    number of vertices, [positions.length / 3] (the length is a multiple of
    3, so the division is exact). *)
Theorem greedyMesh_payload_consistent (voxels : list Z)
    (dims : GreedyMesher.PaddedChunkDims)
    (payload : GreedyMesher.GreedyMeshPayload) :
  GreedyMesher.greedyMesh voxels dims = Some (Ok payload) ->
  length (GreedyMesher.positions payload)
  = length (GreedyMesher.normals payload) /\
  length (GreedyMesher.normals payload)
  = length (GreedyMesher.colors payload) /\
  Z.of_nat (length (GreedyMesher.indices payload))
  = GreedyMesher.quadCount payload * 6 /\
  GreedyMesher.indexCount payload
  = Z.of_nat (length (GreedyMesher.indices payload)) /\
  Z.of_nat (length (GreedyMesher.positions payload)) mod 3 = 0 /\
  Forall (fun index =>
            0 <= index
            < Z.of_nat (length (GreedyMesher.positions payload)) / 3)
         (GreedyMesher.indices payload).
Proof.
  unfold GreedyMesher.greedyMesh.
  destruct (meshAxes_returns voxels dims)
    as (m & -> & Hq & Hpos & Hnor & Hcol & Hidx & Hall).
  destruct (_ || _); [discriminate|].
  intros [= <-]. simpl. rewrite ?List.length_map.
  assert (Hbase : Z.of_nat (length (GreedyMesher.b_positions m)) / 3
                  = 4 * GreedyMesher.b_quadCount m).
  { rewrite Hpos.
    replace (12 * GreedyMesher.b_quadCount m)
      with (4 * GreedyMesher.b_quadCount m * 3) by lia.
    apply Z.div_mul. lia. }
  repeat split; try congruence.
  - rewrite Hpos.
    replace (12 * GreedyMesher.b_quadCount m)
      with (4 * GreedyMesher.b_quadCount m * 3) by lia.
    apply Z.mod_mul. lia.
  - now rewrite Hbase.
Qed.

Lemma greedyMesh_payload_consistent_witness :
  exists payload,
    GreedyMesher.greedyMesh
      (writeAt (newArray 125) 62 GreedyMesher.VOXEL_STONE)
      {| GreedyMesher.x := 5; GreedyMesher.y := 5; GreedyMesher.z := 5 |}
    = Some (Ok payload) /\
    length (GreedyMesher.positions payload) = 72%nat /\
    Forall (fun index =>
              0 <= index
              < Z.of_nat (length (GreedyMesher.positions payload)) / 3)
           (GreedyMesher.indices payload).
Proof.
  eexists. split; [vm_compute; reflexivity|]. split; [reflexivity|].
  eapply (greedyMesh_payload_consistent
            (writeAt (newArray 125) 62 GreedyMesher.VOXEL_STONE)
            {| GreedyMesher.x := 5; GreedyMesher.y := 5;
               GreedyMesher.z := 5 |}).
  vm_compute. reflexivity.
Defined.

(** *** A single voxel *)

Lemma forallb_seqZ (f : Z -> bool) (lo n : Z) :
  forallb f (seqZ lo n) = true -> forall k, lo <= k < lo + n -> f k = true.
Proof.
  intros Hall k Hk. rewrite forallb_forall in Hall. apply Hall.
  apply list_elem_of_In, elem_of_seqZ. exact Hk.
Qed.

(** Each of the 27 inner voxels, set to each of the 255 solid bytes, is
    meshed into 6 quads and 36 indices: by running [greedyMesh]. *)
Lemma everySingleVoxelYieldsCube :
  forallb (fun ix =>
    forallb (fun iy =>
      forallb (fun iz =>
        forallb (fun id => singleVoxelYieldsCube ix iy iz id) (seqZ 1 255))
        (seqZ 0 3))
      (seqZ 0 3))
    (seqZ 0 3) = true.
Proof. vm_compute. reflexivity. Qed.

Lemma singleVoxelYieldsCube_true (ix iy iz id : Z) :
  0 <= ix < 3 -> 0 <= iy < 3 -> 0 <= iz < 3 -> 1 <= id <= 255 ->
  singleVoxelYieldsCube ix iy iz id = true.
Proof.
  intros Hx Hy Hz Hid.
  pose proof (forallb_seqZ _ _ _ everySingleVoxelYieldsCube ix Hx) as H1.
  pose proof (forallb_seqZ _ _ _ H1 iy Hy) as H2.
  pose proof (forallb_seqZ _ _ _ H2 iz Hz) as H3.
  exact (forallb_seqZ _ _ _ H3 id ltac:(lia)).
Qed.

Lemma singleVoxelYieldsCube_spec (ix iy iz id : Z) :
  singleVoxelYieldsCube ix iy iz id = true ->
  exists payload,
    GreedyMesher.greedyMesh (singleVoxelBuffer ix iy iz id) dims555
    = Some (Ok payload) /\
    GreedyMesher.quadCount payload = 6 /\
    GreedyMesher.indexCount payload = 36.
Proof.
  unfold singleVoxelYieldsCube.
  destruct (GreedyMesher.greedyMesh (singleVoxelBuffer ix iy iz id) dims555)
    as [[payload|]|]; try discriminate.
  intros [Hq Hi]%andb_prop.
  exists payload. repeat split; [now apply Z.eqb_eq|now apply Z.eqb_eq].
Qed.

Lemma singleVoxelBuffer_bytes (ix iy iz id : Z) :
  0 <= id <= 255 ->
  forall i v, readAt (singleVoxelBuffer ix iy iz id) i = Some v ->
              0 <= v <= 255.
Proof.
  intros Hid i v Hv. unfold singleVoxelBuffer in Hv.
  pose proof (readAt_Some_lt _ _ _ Hv) as Hi.
  rewrite length_writeAt, length_newArray in Hi.
  destruct (Z.eq_dec
              (GreedyMesher.indexOfPadded (ix + 1) (iy + 1) (iz + 1) dims555)
              i) as [E|E].
  - rewrite E in Hv. rewrite readAt_writeAt_eq in Hv.
    + injection Hv as <-. exact Hid.
    + rewrite length_newArray. exact Hi.
  - rewrite readAt_writeAt_ne in Hv by assumption.
    rewrite readAt_newArray in Hv by lia.
    injection Hv as <-. lia.
Qed.

(** A buffer of 125 bytes whose only non-zero cell is [index] is
    [newArray 125] with that cell written. *)
Lemma single_cell_buffer (voxels : list Z) (index : Z) :
  length voxels = 125%nat ->
  0 <= index < 125 ->
  (forall i, 0 <= i < 125 -> i <> index -> readAt voxels i = Some 0) ->
  exists id,
    readAt voxels index = Some id /\
    voxels = writeAt (newArray 125) index id.
Proof.
  intros Hlen Hindex Hair.
  destruct (voxels !! Z.to_nat index) as [id|] eqn:Hid.
  2:{ apply lookup_ge_None in Hid. lia. }
  exists id. split.
  - unfold readAt. destruct (Z.ltb_spec index 0); [lia|assumption].
  - apply list_eq. intros i.
    unfold writeAt. destruct (Z.ltb_spec index 0); [lia|].
    destruct (Nat.eq_dec i (Z.to_nat index)) as [->|Hne].
    + rewrite list_lookup_insert_eq; [assumption|].
      rewrite length_newArray. lia.
    + rewrite list_lookup_insert_ne by congruence.
      destruct (Nat.lt_ge_cases i 125) as [Hlt|Hge].
      * specialize (Hair (Z.of_nat i)). unfold readAt in Hair.
        destruct (Z.ltb_spec (Z.of_nat i) 0); [lia|].
        rewrite Nat2Z.id in Hair. rewrite Hair by lia.
        symmetry. apply lookup_replicate_2. lia.
      * rewrite (proj2 (lookup_ge_None _ _)) by lia.
        symmetry. apply lookup_ge_None. rewrite length_newArray. lia.
Qed.

(** C2.  A padded buffer of 5 by 5 by 5 bytes in which exactly one inner
    voxel is solid and every other cell is Air is meshed into 6 quads and 36
    indices. *)
Theorem greedyMesh_single_voxel (voxels : list Z) (ix iy iz : Z) :
  length voxels = 125%nat ->
  (forall i v, readAt voxels i = Some v -> 0 <= v <= 255) ->
  0 <= ix < 3 -> 0 <= iy < 3 -> 0 <= iz < 3 ->
  readAt voxels
    (GreedyMesher.indexOfPadded (ix + 1) (iy + 1) (iz + 1) dims555)
  <> Some GreedyMesher.VOXEL_AIR ->
  (forall i,
     0 <= i < 125 ->
     i <> GreedyMesher.indexOfPadded (ix + 1) (iy + 1) (iz + 1) dims555 ->
     readAt voxels i = Some GreedyMesher.VOXEL_AIR) ->
  exists payload,
    GreedyMesher.greedyMesh voxels dims555 = Some (Ok payload) /\
    GreedyMesher.quadCount payload = 6 /\
    GreedyMesher.indexCount payload = 36.
Proof.
  intros Hlen Hbytes Hx Hy Hz Hsolid Hair.
  assert (Hindex :
            0 <= GreedyMesher.indexOfPadded (ix + 1) (iy + 1) (iz + 1) dims555
            < 125).
  { unfold GreedyMesher.indexOfPadded, dims555; simpl. lia. }
  destruct (single_cell_buffer voxels _ Hlen Hindex Hair) as (id & Hid & Heq).
  assert (Hrange : 1 <= id <= 255).
  { pose proof (Hbytes _ _ Hid). rewrite Hid in Hsolid.
    unfold GreedyMesher.VOXEL_AIR in Hsolid.
    destruct (Z.eq_dec id 0) as [->|]; [contradiction|lia]. }
  fold (singleVoxelBuffer ix iy iz id) in Heq.
  rewrite Heq.
  apply singleVoxelYieldsCube_spec.
  now apply singleVoxelYieldsCube_true.
Qed.

Lemma greedyMesh_single_voxel_witness :
  exists payload,
    GreedyMesher.greedyMesh (singleVoxelBuffer 1 1 1 GreedyMesher.VOXEL_STONE)
      dims555 = Some (Ok payload) /\
    GreedyMesher.quadCount payload = 6 /\
    GreedyMesher.indexCount payload = 36.
Proof.
  apply (greedyMesh_single_voxel
           (singleVoxelBuffer 1 1 1 GreedyMesher.VOXEL_STONE) 1 1 1).
  - reflexivity.
  - apply singleVoxelBuffer_bytes. unfold GreedyMesher.VOXEL_STONE. lia.
  - lia.
  - lia.
  - lia.
  - vm_compute. discriminate.
  - intros i Hi Hne. unfold singleVoxelBuffer.
    rewrite readAt_writeAt_ne by congruence.
    now apply readAt_newArray.
Defined.

(** ** Maps in insertion order *)

Section JsMapFacts.

Context {V : Type}.
Implicit Types (m : JsMap.t V) (k : string) (v : V).

Lemma get_set_eq m k v : JsMap.get (JsMap.set m k v) k = Some v.
Proof.
  induction m as [|[k' v'] m IH]; simpl.
  - now rewrite String.eqb_refl.
  - destruct (String.eqb_spec k' k) as [->|Hne]; simpl.
    + now rewrite String.eqb_refl.
    + destruct (String.eqb_spec k' k); [contradiction|assumption].
Qed.

Lemma get_set_ne m k k' v :
  k <> k' -> JsMap.get (JsMap.set m k v) k' = JsMap.get m k'.
Proof.
  intros Hne. induction m as [|[k0 v0] m IH]; simpl.
  - destruct (String.eqb_spec k k'); [contradiction|reflexivity].
  - destruct (String.eqb_spec k0 k) as [->|Hk0]; simpl.
    + destruct (String.eqb_spec k k'); [contradiction|reflexivity].
    + destruct (String.eqb_spec k0 k'); [reflexivity|assumption].
Qed.

Lemma get_delete_eq m k : JsMap.get (JsMap.delete m k) k = None.
Proof.
  induction m as [|[k' v'] m IH]; simpl; [reflexivity|].
  destruct (String.eqb_spec k' k) as [->|Hne]; simpl; [assumption|].
  destruct (String.eqb_spec k' k); [contradiction|assumption].
Qed.

Lemma get_delete_ne m k k' :
  k <> k' -> JsMap.get (JsMap.delete m k) k' = JsMap.get m k'.
Proof.
  intros Hne. induction m as [|[k0 v0] m IH]; simpl; [reflexivity|].
  destruct (String.eqb_spec k0 k) as [->|Hk0]; simpl.
  - destruct (String.eqb_spec k k'); [contradiction|assumption].
  - destruct (String.eqb_spec k0 k'); [reflexivity|assumption].
Qed.

Lemma has_set_eq m k v : JsMap.has (JsMap.set m k v) k = true.
Proof. unfold JsMap.has. now rewrite get_set_eq. Qed.

Lemma has_set_ne m k k' v :
  k <> k' -> JsMap.has (JsMap.set m k v) k' = JsMap.has m k'.
Proof. intros Hne. unfold JsMap.has. now rewrite get_set_ne. Qed.

Lemma has_delete_eq m k : JsMap.has (JsMap.delete m k) k = false.
Proof. unfold JsMap.has. now rewrite get_delete_eq. Qed.

Lemma has_delete_ne m k k' :
  k <> k' -> JsMap.has (JsMap.delete m k) k' = JsMap.has m k'.
Proof. intros Hne. unfold JsMap.has. now rewrite get_delete_ne. Qed.

(** [set] never removes a key. *)
Lemma has_set_mono m k k' v :
  JsMap.has m k' = true -> JsMap.has (JsMap.set m k v) k' = true.
Proof.
  intros H. destruct (string_dec k k') as [->|Hne].
  - apply has_set_eq.
  - now rewrite has_set_ne.
Qed.

(** [delete] never adds a key. *)
Lemma has_delete_false m k k' :
  JsMap.has m k' = false -> JsMap.has (JsMap.delete m k) k' = false.
Proof.
  intros H. destruct (string_dec k k') as [->|Hne].
  - apply has_delete_eq.
  - now rewrite has_delete_ne.
Qed.

Lemma has_In_keys m k : JsMap.has m k = true <-> In k (JsMap.keys m).
Proof.
  unfold JsMap.has.
  induction m as [|[k' v'] m IH]; simpl.
  - split; [discriminate|contradiction].
  - destruct (String.eqb_spec k' k) as [->|Hne].
    + split; auto.
    + rewrite IH. split; [auto|]. intros [E|H]; [contradiction|assumption].
Qed.

Lemma keys_delete m k :
  JsMap.keys (JsMap.delete m k)
  = List.filter (fun k' => negb (String.eqb k' k)) (JsMap.keys m).
Proof.
  induction m as [|[k' v'] m IH]; simpl; [reflexivity|].
  destruct (String.eqb k' k); simpl; now rewrite IH.
Qed.

Lemma uniqueKeys_delete m k : uniqueKeys m -> uniqueKeys (JsMap.delete m k).
Proof.
  unfold uniqueKeys. rewrite keys_delete. apply List.NoDup_filter.
Qed.

Lemma keys_set m k v :
  JsMap.keys (JsMap.set m k v)
  = if JsMap.has m k then JsMap.keys m else JsMap.keys m ++ [k].
Proof.
  unfold JsMap.has.
  induction m as [|[k' v'] m IH]; simpl; [reflexivity|].
  destruct (String.eqb_spec k' k) as [->|Hne]; simpl; [reflexivity|].
  rewrite IH. now destruct (JsMap.get m k).
Qed.

Lemma uniqueKeys_set m k v : uniqueKeys m -> uniqueKeys (JsMap.set m k v).
Proof.
  unfold uniqueKeys. intros Hm. rewrite keys_set.
  destruct (JsMap.has m k) eqn:Hk; [assumption|].
  apply List.NoDup_app; repeat split.
  - assumption.
  - constructor; [intros []|constructor].
  - intros x Hx [<-|[]]. apply has_In_keys in Hx. congruence.
Qed.

Lemma uniqueKeys_empty : uniqueKeys (@JsMap.empty V).
Proof. constructor. Qed.

End JsMapFacts.

(** The keys of a list of keys, counted. *)
Lemma occurrences_app (key : string) (l1 l2 : list string) :
  occurrences key (l1 ++ l2) = (occurrences key l1 + occurrences key l2)%nat.
Proof. unfold occurrences. now rewrite List.filter_app, length_app. Qed.

Lemma occurrences_not_In (key : string) (l : list string) :
  ~ In key l -> occurrences key l = 0%nat.
Proof.
  unfold occurrences. induction l as [|k l IH]; simpl; [reflexivity|].
  intros Hn. destruct (String.eqb_spec key k) as [->|Hne].
  - exfalso. apply Hn. now left.
  - apply IH. intros H. apply Hn. now right.
Qed.

Lemma occurrences_NoDup (key : string) (l : list string) :
  List.NoDup l -> In key l -> occurrences key l = 1%nat.
Proof.
  unfold occurrences. induction l as [|k l IH]; simpl; [contradiction|].
  intros Hnd Hin. apply List.NoDup_cons_iff in Hnd as [Hk Hnd].
  destruct (String.eqb_spec key k) as [->|Hne]; simpl.
  - f_equal. now apply occurrences_not_In.
  - destruct Hin as [E|Hin]; [congruence|]. now apply IH.
Qed.

(** ** The chunk manager: worker responses *)

(** C7.  A worker response whose chunk key is not in [inflight] leaves the
    manager (so all four maps) as it is; one whose key is in [inflight] moves
    that key from [inflight] to [readyToApply], with the response as its
    entry, and leaves the other keys and the other two maps alone.
    [handleWorkerResponse] has no way to throw. *)
Theorem handleWorkerResponse_spec (response : Manager.MeshWorkerResponse)
    (s : Manager.ChunkManager) :
  let key :=
    ChunkMath.chunkKey (Manager.resp_cx response) (Manager.resp_cz response) in
  let s' := Manager.handleWorkerResponse response s in
  (JsMap.has (Manager.inflight s) key = false -> s' = s) /\
  (JsMap.has (Manager.inflight s) key = true ->
   JsMap.has (Manager.inflight s') key = false /\
   JsMap.get (Manager.readyToApply s') key = Some response /\
   Manager.inflight s' = JsMap.delete (Manager.inflight s) key /\
   Manager.readyToApply s' = JsMap.set (Manager.readyToApply s) key response /\
   Manager.queued s' = Manager.queued s /\
   Manager.loaded s' = Manager.loaded s /\
   forall other,
     other <> key ->
     JsMap.has (Manager.inflight s') other
     = JsMap.has (Manager.inflight s) other /\
     JsMap.get (Manager.readyToApply s') other
     = JsMap.get (Manager.readyToApply s) other).
Proof.
  intros key s'. subst s'. unfold Manager.handleWorkerResponse. fold key.
  split; intros Hkey; rewrite Hkey; simpl; [reflexivity|].
  repeat split.
  - apply has_delete_eq.
  - apply get_set_eq.
  - apply has_delete_ne. congruence.
  - apply get_set_ne. congruence.
Qed.

(** With chunk (0, 0) in flight: its response makes it ready, and a response
    for chunk (5, 5), which was never requested, changes nothing. *)
Lemma handleWorkerResponse_spec_witness :
  (JsMap.has
     (Manager.inflight
        (Manager.handleWorkerResponse (makeResponse 0 0) managerAwaitingOrigin))
     "0,0" = false /\
   JsMap.get
     (Manager.readyToApply
        (Manager.handleWorkerResponse (makeResponse 0 0) managerAwaitingOrigin))
     "0,0" = Some (makeResponse 0 0)) /\
  Manager.handleWorkerResponse (makeResponse 5 5) managerAwaitingOrigin
  = managerAwaitingOrigin.
Proof.
  split.
  - destruct (proj2 (handleWorkerResponse_spec (makeResponse 0 0)
                       managerAwaitingOrigin)) as (Hgone & Hready & _).
    + vm_compute. reflexivity.
    + split; [exact Hgone|exact Hready].
  - apply (proj1 (handleWorkerResponse_spec (makeResponse 5 5)
                    managerAwaitingOrigin)).
    vm_compute. reflexivity.
Defined.

(** ** The chunk manager: requests *)

(** [dequeueRequest] takes the first queued request whenever there is one:
    it does not look at [inflight]. *)
Lemma dequeueRequest_first (s : Manager.ChunkManager) (key : string)
    (request : Manager.MeshWorkerRequest) :
  JsMap.first (Manager.queued s) = Some (key, request) ->
  snd (Manager.dequeueRequest s) = Some request /\
  JsMap.has (Manager.inflight (fst (Manager.dequeueRequest s))) key = true.
Proof.
  intros Hfirst. unfold Manager.dequeueRequest. rewrite Hfirst. simpl.
  split; [reflexivity|apply has_set_eq].
Qed.

(** C1, on the code.  The manager of the test "limits inflight requests"
    (radii 1 and 2, [maxInflight] 1), ticked twice at the origin with no
    worker response in between: the second tick returns a request again, for
    chunk (-1, -1), and two requests are in flight. *)
Theorem second_tick_exceeds_maxInflight :
  exists s0 s1 t1 s2 t2,
    Manager.constructor
      (Some {| Manager.opt_activeRadius := Some 1%Q;
               Manager.opt_removeRadius := Some 2%Q;
               Manager.opt_maxInflight := Some 1%Q |}) = Ok s0 /\
    Manager.tick 16 (tickAt 0 0 "demo" None) s0 = Ok (s1, t1) /\
    Manager.st_inflight (Manager.getStats s1) = 1 /\
    Manager.tick 16 (tickAt 0 0 "demo" None) s1 = Ok (s2, t2) /\
    Manager.request t2
    = Some {| Manager.req_seedStr := "demo";
              Manager.req_seedInt := 2935829814;
              Manager.req_cx := Num.Int (-1);
              Manager.req_cz := Num.Int (-1);
              Manager.req_destroyedDelta := None;
              Manager.req_forceApply := None |} /\
    Manager.st_inflight (Manager.getStats s2) = 2.
Proof.
  do 5 eexists.
  split; [reflexivity|].
  split; [vm_compute; reflexivity|].
  split; [reflexivity|].
  split; [vm_compute; reflexivity|].
  split; reflexivity.
Qed.

(** ** The chunk manager: radii and the needed chunks *)

Lemma clampRadius_nonneg (r : Q) : 0 <= Manager.clampRadius r.
Proof. unfold Manager.clampRadius. lia. Qed.

Lemma clampRadius_negative (r : Q) : (r < 0)%Q -> Manager.clampRadius r = 0.
Proof.
  intros Hr. unfold Manager.clampRadius.
  assert (Qfloor r <= Qfloor 0).
  { apply Qfloor_resp_le. now apply Qlt_le_weak. }
  change (Qfloor 0) with 0 in *. lia.
Qed.




Lemma In_insertSorted {A : Type} (compare : A -> A -> num) (a x : A)
    (l : list A) :
  In x (Manager.insertSorted compare a l) <-> x = a \/ In x l.
Proof.
  induction l as [|b l IH]; cbn [Manager.insertSorted].
  - simpl. intuition congruence.
  - destruct (Num.ltb (Num.Int 0) (compare a b)); cbn [In].
    + rewrite IH. intuition congruence.
    + intuition congruence.
Qed.

Lemma In_sort {A : Type} (compare : A -> A -> num) (x : A) (l : list A) :
  In x (Manager.sort compare l) <-> In x l.
Proof.
  unfold Manager.sort. induction l as [|a l IH]; simpl; [reflexivity|].
  rewrite In_insertSorted, IH. intuition congruence.
Qed.




(** ** The chunk manager: the life of a loaded chunk *)

Lemma keyInRadius_chunkKey (cx cz centerCx centerCz radius : Z) :
  Manager.keyInRadius (ChunkMath.chunkKey (Num.Int cx) (Num.Int cz))
    centerCx centerCz radius
  = (Z.max (Z.abs (cx - centerCx)) (Z.abs (cz - centerCz)) <=? radius).
Proof.
  unfold Manager.keyInRadius. rewrite parseChunkKey_chunkKey.
  unfold Manager.isInRadius, Manager.chebyshevDistance. simpl.
  unfold Num.leb, Num.max, Num.ltb, Num.eqb.
  destruct (Z.ltb_spec (Z.abs (cx + - centerCx)) (Z.abs (cz + - centerCz)));
    match goal with
    | |- (?a <? ?b) || (?a =? ?b) = (?c <=? ?b) =>
        destruct (Z.ltb_spec a b); destruct (Z.eqb_spec a b);
        destruct (Z.leb_spec c b); simpl; try reflexivity; lia
    end.
Qed.

Section PruneFacts.

Context {T : Type}.
Variables removeRadius centerCx centerCz : Z.

Local Abbreviation inRadius key :=
  (Manager.keyInRadius key centerCx centerCz removeRadius).
Local Abbreviation step := (Manager.pruneStep removeRadius centerCx centerCz).

Lemma prune_has_kept (keys : list string) (m : JsMap.t T) (k : string) :
  inRadius k = true -> JsMap.has (foldl step m keys) k = JsMap.has m k.
Proof.
  intros Hk. revert m.
  induction keys as [|k' keys IH]; intros m; simpl; [reflexivity|].
  rewrite IH. unfold Manager.pruneStep.
  destruct (Manager.keyInRadius k' centerCx centerCz removeRadius) eqn:Hk';
    [reflexivity|].
  apply has_delete_ne. intros ->. congruence.
Qed.

Lemma prune_has_mono (keys : list string) (m : JsMap.t T) (k : string) :
  JsMap.has m k = false -> JsMap.has (foldl step m keys) k = false.
Proof.
  revert m. induction keys as [|k' keys IH]; intros m Hm; simpl;
    [assumption|].
  apply IH. unfold Manager.pruneStep.
  destruct (Manager.keyInRadius k' centerCx centerCz removeRadius);
    [assumption|].
  now apply has_delete_false.
Qed.

Lemma prune_has_removed (keys : list string) (m : JsMap.t T) (k : string) :
  inRadius k = false -> In k keys -> JsMap.has (foldl step m keys) k = false.
Proof.
  intros Hk. revert m.
  induction keys as [|k' keys IH]; intros m Hin; simpl; [contradiction|].
  destruct Hin as [->|Hin]; [|now apply IH].
  apply prune_has_mono. unfold Manager.pruneStep.
  rewrite Hk. apply has_delete_eq.
Qed.

Lemma prune_unique (keys : list string) (m : JsMap.t T) :
  uniqueKeys m -> uniqueKeys (foldl step m keys).
Proof.
  revert m. induction keys as [|k' keys IH]; intros m Hm; simpl;
    [assumption|].
  apply IH. unfold Manager.pruneStep.
  destruct (Manager.keyInRadius k' centerCx centerCz removeRadius);
    [assumption|].
  now apply uniqueKeys_delete.
Qed.

(** The loop of [unloadOutsideRemoveRadius] prunes [loaded] and appends the
    pruned keys. *)
Lemma unload_fold (keys unloadKeys : list string)
    (m : JsMap.t Manager.MeshWorkerResponse) :
  foldl (Manager.unloadStep removeRadius centerCx centerCz)
        (m, unloadKeys) keys
  = (foldl (Manager.pruneStep removeRadius centerCx centerCz) m keys,
     unloadKeys
       ++ List.filter
            (fun key =>
               negb (Manager.keyInRadius key centerCx centerCz removeRadius))
            keys).
Proof.
  revert m unloadKeys.
  induction keys as [|k keys IH]; intros m unloadKeys; simpl.
  - now rewrite app_nil_r.
  - unfold Manager.unloadStep at 2, Manager.pruneStep at 2.
    destruct (Manager.keyInRadius k centerCx centerCz removeRadius); simpl.
    + apply IH.
    + rewrite IH. now rewrite <- app_assoc.
Qed.

End PruneFacts.

(** *** Steps that leave [loaded] alone *)

Lemma sameLoaded_refl (s : Manager.ChunkManager) : sameLoaded s s.
Proof. repeat split. Qed.

Lemma sameLoaded_trans (s1 s2 s3 : Manager.ChunkManager) :
  sameLoaded s1 s2 -> sameLoaded s2 s3 -> sameLoaded s1 s3.
Proof.
  intros (A1 & B1 & C1 & D1) (A2 & B2 & C2 & D2).
  repeat split; congruence.
Qed.

Lemma sameLoaded_handleWorkerResponse (response : Manager.MeshWorkerResponse)
    (s : Manager.ChunkManager) :
  sameLoaded s (Manager.handleWorkerResponse response s).
Proof.
  unfold Manager.handleWorkerResponse.
  destruct (negb _); repeat split.
Qed.

Lemma sameLoaded_responses (responses : list Manager.MeshWorkerResponse)
    (s : Manager.ChunkManager) :
  sameLoaded s
    (foldl (fun s response => Manager.handleWorkerResponse response s)
           s responses).
Proof.
  revert s. induction responses as [|r rs IH]; intros s; simpl.
  - apply sameLoaded_refl.
  - eapply sameLoaded_trans; [apply sameLoaded_handleWorkerResponse|apply IH].
Qed.

Lemma sameLoaded_refreshQueue (centerCx centerCz : Z)
    (s : Manager.ChunkManager) :
  sameLoaded s (Manager.refreshQueue centerCx centerCz s).
Proof.
  unfold Manager.refreshQueue.
  destruct (Manager.seedStr s), (Manager.seedInt s); repeat split.
Qed.

Lemma sameLoaded_dequeueRequest (s : Manager.ChunkManager) :
  sameLoaded s (fst (Manager.dequeueRequest s)).
Proof.
  unfold Manager.dequeueRequest.
  destruct (JsMap.first (Manager.queued s)) as [[key request]|];
    repeat split.
Qed.

(** *** [dequeueApply] *)

Lemma applyStep_bestInRadius (removeRadius centerCx centerCz : Z)
    (st : JsMap.t Manager.MeshWorkerResponse * Manager.Best)
    (entry : string * Manager.MeshWorkerResponse) :
  bestInRadius removeRadius centerCx centerCz (snd st) ->
  bestInRadius removeRadius centerCx centerCz
    (snd (Manager.applyStep removeRadius centerCx centerCz st entry)).
Proof.
  intros Hbest. unfold Manager.applyStep.
  destruct (Manager.isInRadius _ _ _ _ _) eqn:Hin; simpl; [|assumption].
  destruct (_ || _); simpl; [|assumption].
  intros key [= <-]. exact Hin.
Qed.

Lemma applyLoop_bestInRadius (removeRadius centerCx centerCz : Z)
    (entries : list (string * Manager.MeshWorkerResponse))
    (st : JsMap.t Manager.MeshWorkerResponse * Manager.Best) :
  bestInRadius removeRadius centerCx centerCz (snd st) ->
  bestInRadius removeRadius centerCx centerCz
    (snd (foldl (Manager.applyStep removeRadius centerCx centerCz) st entries)).
Proof.
  revert st. induction entries as [|e entries IH]; intros st Hst; simpl;
    [assumption|].
  apply IH. now apply applyStep_bestInRadius.
Qed.

Lemma truthyKey_Some (key : option string) (k : string) :
  Manager.truthyKey key = Some k -> key = Some k.
Proof.
  destruct key as [k'|]; simpl; [|discriminate].
  destruct (String.eqb k' ""); [discriminate|congruence].
Qed.

(** [dequeueApply] either leaves [loaded] as it is or sets one key that is
    within [removeRadius] of the centre. *)
Lemma dequeueApply_loaded (centerCx centerCz : Z) (s : Manager.ChunkManager) :
  let s' := fst (Manager.dequeueApply centerCx centerCz s) in
  Manager.removeRadius s' = Manager.removeRadius s /\
  Manager.activeRadius s' = Manager.activeRadius s /\
  Manager.seedStr s' = Manager.seedStr s /\
  (Manager.loaded s' = Manager.loaded s \/
   exists key response,
     Manager.keyInRadius key centerCx centerCz (Manager.removeRadius s) = true
     /\ Manager.loaded s' = JsMap.set (Manager.loaded s) key response).
Proof.
  unfold Manager.dequeueApply.
  pose proof (applyLoop_bestInRadius (Manager.removeRadius s) centerCx centerCz
                (Manager.readyToApply s) (Manager.readyToApply s, Manager.noBest))
    as Hbest.
  destruct (foldl _ _ _) as [ready best]. simpl in *.
  destruct (Manager.truthyKey (Manager.bestKey best)) as [key|] eqn:Hkey;
    [|simpl; auto].
  destruct (Manager.bestResponse best) as [response|]; [|simpl; auto].
  simpl. repeat split. right. exists key, response. split; [|reflexivity].
  apply Hbest; [intros k [=]|now apply truthyKey_Some].
Qed.

(** *** [resetForSeedIfNeeded] *)

Lemma foldl_push (keys unloadKeys : list string) :
  foldl (fun keys key => keys ++ [key]) unloadKeys keys = unloadKeys ++ keys.
Proof.
  revert unloadKeys. induction keys as [|k keys IH]; intros unloadKeys; simpl.
  - now rewrite app_nil_r.
  - rewrite IH. now rewrite <- app_assoc.
Qed.

Lemma sameSeed_true (tracked : option string) (seedStr : string) :
  Manager.sameSeed tracked seedStr = true <-> tracked = Some seedStr.
Proof.
  destruct tracked as [t|]; simpl.
  - rewrite String.eqb_eq. split; congruence.
  - split; discriminate.
Qed.

(** *** What a tick does to [loaded] and to [unloadKeys] *)

(** The loaded chunks once [tick] has reset for the seed ([kept]), has
    pruned them ([pruned]), and at its end. *)
Lemma tick_loaded (CHUNK_SIZE : Z) (p : Manager.ChunkManagerTickParams)
    (s s' : Manager.ChunkManager) (t : Manager.ChunkManagerTickResult) :
  0 < CHUNK_SIZE ->
  Manager.tick CHUNK_SIZE p s = Ok (s', t) ->
  let centerCx := Manager.playerX p / CHUNK_SIZE in
  let centerCz := Manager.playerZ p / CHUNK_SIZE in
  let same := Manager.sameSeed (Manager.seedStr s) (Manager.p_seedStr p) in
  let kept := if same then Manager.loaded s else JsMap.empty in
  let pruned :=
    foldl (Manager.pruneStep (Manager.removeRadius s) centerCx centerCz)
          kept (JsMap.keys kept) in
  Manager.removeRadius s' = Manager.removeRadius s /\
  Manager.activeRadius s' = Manager.activeRadius s /\
  Manager.seedStr s' = Some (Manager.p_seedStr p) /\
  Manager.unloadKeys t
  = (if same then [] else JsMap.keys (Manager.loaded s))
    ++ List.filter
         (fun key =>
            negb (Manager.keyInRadius key centerCx centerCz
                    (Manager.removeRadius s)))
         (JsMap.keys kept) /\
  (Manager.loaded s' = pruned \/
   exists key response,
     Manager.keyInRadius key centerCx centerCz (Manager.removeRadius s) = true
     /\ Manager.loaded s' = JsMap.set pruned key response).
Proof.
  intros Hsize Htick centerCx centerCz same kept pruned. revert Htick.
  unfold Manager.tick.
  rewrite !worldToChunk_pos by assumption. cbn [bind ChunkMath.chunk].
  fold centerCx centerCz.
  set (reset := Manager.resetForSeedIfNeeded (Manager.p_seedStr p) [] s).
  assert (Hreset :
            Manager.loaded (fst reset) = kept /\
            Manager.removeRadius (fst reset) = Manager.removeRadius s /\
            Manager.activeRadius (fst reset) = Manager.activeRadius s /\
            Manager.seedStr (fst reset) = Some (Manager.p_seedStr p) /\
            snd reset = if same then [] else JsMap.keys (Manager.loaded s)).
  { subst reset kept same. unfold Manager.resetForSeedIfNeeded.
    destruct (Manager.sameSeed (Manager.seedStr s) (Manager.p_seedStr p))
      eqn:Hsame; simpl.
    - apply sameSeed_true in Hsame. repeat split. assumption.
    - rewrite foldl_push. repeat split. }
  destruct Hreset as (Hl0 & Hr0 & Ha0 & Hs0 & Hu0). clearbody reset.
  set (sB := foldl _ (fst reset) _).
  destruct (sameLoaded_responses
              (match Manager.workerResponses p with
               | Some responses => responses
               | None => []
               end) (fst reset)) as (HlB & HrB & HaB & HsB).
  fold sB in HlB, HrB, HaB, HsB. clearbody sB.
  set (sE := Manager.with_readyToApply _ _).
  assert (HE : sameLoaded sB sE) by (repeat split).
  destruct HE as (HlE & HrE & HaE & HsE). clearbody sE.
  set (unloaded :=
         Manager.unloadOutsideRemoveRadius centerCx centerCz (snd reset) sE).
  assert (Hunl :
            Manager.loaded (fst unloaded) = pruned /\
            Manager.removeRadius (fst unloaded) = Manager.removeRadius sE /\
            Manager.activeRadius (fst unloaded) = Manager.activeRadius sE /\
            Manager.seedStr (fst unloaded) = Manager.seedStr sE /\
            snd unloaded
            = snd reset
              ++ List.filter
                   (fun key =>
                      negb (Manager.keyInRadius key centerCx centerCz
                              (Manager.removeRadius s)))
                   (JsMap.keys kept)).
  { subst unloaded. unfold Manager.unloadOutsideRemoveRadius.
    rewrite unload_fold. simpl.
    rewrite HrE, HrB, Hr0, HlE, HlB, Hl0. repeat split. }
  destruct Hunl as (HlF & HrF & HaF & HsF & HuF). clearbody unloaded.
  set (sG := Manager.refreshQueue centerCx centerCz (fst unloaded)).
  destruct (sameLoaded_refreshQueue centerCx centerCz (fst unloaded))
    as (HlG & HrG & HaG & HsG). fold sG in HlG, HrG, HaG, HsG. clearbody sG.
  destruct (sameLoaded_dequeueRequest sG) as (HlH & HrH & HaH & HsH).
  set (sH := fst (Manager.dequeueRequest sG)) in *. clearbody sH.
  destruct (dequeueApply_loaded centerCx centerCz sH)
    as (HrI & HaI & HsI & HlI).
  intros [= <- <-]. simpl.
  assert (Hradius : Manager.removeRadius sH = Manager.removeRadius s)
    by congruence.
  assert (Hloaded : Manager.loaded sH = pruned) by congruence.
  repeat split.
  - congruence.
  - congruence.
  - congruence.
  - rewrite HuF, Hu0. reflexivity.
  - rewrite Hradius, Hloaded in HlI. exact HlI.
Qed.

(** With positive chunk size, [tick] returns. *)
Lemma tick_returns (CHUNK_SIZE : Z) (p : Manager.ChunkManagerTickParams)
    (s : Manager.ChunkManager) :
  0 < CHUNK_SIZE -> exists s' t, Manager.tick CHUNK_SIZE p s = Ok (s', t).
Proof.
  intros Hsize. unfold Manager.tick.
  rewrite !worldToChunk_pos by assumption. cbn [bind]. eauto.
Qed.

(** Without, it throws. *)
Lemma tick_throws (CHUNK_SIZE : Z) (p : Manager.ChunkManagerTickParams)
    (s : Manager.ChunkManager) :
  CHUNK_SIZE <= 0 ->
  Manager.tick CHUNK_SIZE p s = Throw "worldToChunk requires chunkSize > 0".
Proof.
  intros Hsize. unfold Manager.tick, ChunkMath.worldToChunk.
  now rewrite (proj2 (Z.leb_le _ _) Hsize).
Qed.

Lemma tick_uniqueKeys (CHUNK_SIZE : Z) (p : Manager.ChunkManagerTickParams)
    (s s' : Manager.ChunkManager) (t : Manager.ChunkManagerTickResult) :
  Manager.tick CHUNK_SIZE p s = Ok (s', t) ->
  uniqueKeys (Manager.loaded s) -> uniqueKeys (Manager.loaded s').
Proof.
  intros Htick Hs.
  destruct (Z.lt_ge_cases 0 CHUNK_SIZE) as [Hsize|Hsize].
  - destruct (tick_loaded CHUNK_SIZE p s s' t Hsize Htick)
      as (_ & _ & _ & _ & Hloaded).
    assert (Hpruned :
              uniqueKeys
                (foldl (Manager.pruneStep (Manager.removeRadius s)
                          (Manager.playerX p / CHUNK_SIZE)
                          (Manager.playerZ p / CHUNK_SIZE))
                   (if Manager.sameSeed (Manager.seedStr s)
                         (Manager.p_seedStr p)
                    then Manager.loaded s else JsMap.empty)
                   (JsMap.keys
                      (if Manager.sameSeed (Manager.seedStr s)
                            (Manager.p_seedStr p)
                       then Manager.loaded s else JsMap.empty)))).
    { apply prune_unique. destruct (Manager.sameSeed _ _);
        [assumption|apply uniqueKeys_empty]. }
    destruct Hloaded as [->|(key & response & _ & ->)];
      [assumption|now apply uniqueKeys_set].
  - rewrite tick_throws in Htick by lia. discriminate.
Qed.

(** Every manager a program can hold has each loaded key once. *)
Lemma reachable_uniqueKeys (CHUNK_SIZE : Z) (s : Manager.ChunkManager) :
  reachable CHUNK_SIZE s -> uniqueKeys (Manager.loaded s).
Proof.
  induction 1 as [options s Hnew|p s s' t _ IH Htick|response s _ IH].
  - unfold Manager.constructor in Hnew.
    destruct (_ <? _); [discriminate|]. injection Hnew as <-.
    apply uniqueKeys_empty.
  - eapply tick_uniqueKeys; eassumption.
  - destruct (sameLoaded_handleWorkerResponse response s) as (-> & _).
    assumption.
Qed.

Lemma reachable_managerAfter (CHUNK_SIZE : Z)
    (ps : list Manager.ChunkManagerTickParams) (s : Manager.ChunkManager) :
  reachable CHUNK_SIZE s -> reachable CHUNK_SIZE (managerAfter CHUNK_SIZE ps s).
Proof.
  unfold managerAfter. revert s.
  induction ps as [|p ps IH]; intros s Hs; simpl; [assumption|].
  apply IH.
  destruct (Manager.tick CHUNK_SIZE p s) as [[s' t]|] eqn:Htick;
    [|assumption].
  eapply reachable_tick; eassumption.
Qed.

(** *** A tick that changes the seed empties [loaded] *)

Lemma handleWorkerResponse_no_inflight (response : Manager.MeshWorkerResponse)
    (s : Manager.ChunkManager) :
  Manager.inflight s = JsMap.empty ->
  Manager.handleWorkerResponse response s = s.
Proof.
  intros H. unfold Manager.handleWorkerResponse. now rewrite H.
Qed.

Lemma responses_no_inflight (responses : list Manager.MeshWorkerResponse)
    (s : Manager.ChunkManager) :
  Manager.inflight s = JsMap.empty ->
  foldl (fun s response => Manager.handleWorkerResponse response s)
        s responses = s.
Proof.
  intros H. induction responses as [|r rs IH]; simpl; [reflexivity|].
  now rewrite handleWorkerResponse_no_inflight.
Qed.

Lemma readyToApply_refreshQueue (centerCx centerCz : Z)
    (s : Manager.ChunkManager) :
  Manager.readyToApply (Manager.refreshQueue centerCx centerCz s)
  = Manager.readyToApply s.
Proof.
  unfold Manager.refreshQueue.
  now destruct (Manager.seedStr s), (Manager.seedInt s).
Qed.

Lemma readyToApply_dequeueRequest (s : Manager.ChunkManager) :
  Manager.readyToApply (fst (Manager.dequeueRequest s))
  = Manager.readyToApply s.
Proof.
  unfold Manager.dequeueRequest.
  now destruct (JsMap.first (Manager.queued s)) as [[key request]|].
Qed.

Lemma loaded_refreshQueue (centerCx centerCz : Z) (s : Manager.ChunkManager) :
  Manager.loaded (Manager.refreshQueue centerCx centerCz s)
  = Manager.loaded s.
Proof. apply sameLoaded_refreshQueue. Qed.

Lemma loaded_dequeueRequest (s : Manager.ChunkManager) :
  Manager.loaded (fst (Manager.dequeueRequest s)) = Manager.loaded s.
Proof. apply sameLoaded_dequeueRequest. Qed.

Lemma dequeueApply_nothing_ready (centerCx centerCz : Z)
    (s : Manager.ChunkManager) :
  Manager.readyToApply s = JsMap.empty ->
  Manager.loaded (fst (Manager.dequeueApply centerCx centerCz s))
  = Manager.loaded s.
Proof.
  intros H. unfold Manager.dequeueApply. now rewrite H.
Qed.

Lemma tick_new_seed (CHUNK_SIZE : Z) (p : Manager.ChunkManagerTickParams)
    (s s' : Manager.ChunkManager) (t : Manager.ChunkManagerTickResult) :
  0 < CHUNK_SIZE ->
  Manager.tick CHUNK_SIZE p s = Ok (s', t) ->
  Manager.sameSeed (Manager.seedStr s) (Manager.p_seedStr p) = false ->
  Manager.loaded s' = JsMap.empty /\
  Manager.unloadKeys t = JsMap.keys (Manager.loaded s).
Proof.
  intros Hsize Htick Hseed. split.
  - revert Htick. unfold Manager.tick.
    rewrite !worldToChunk_pos by assumption. cbn [bind ChunkMath.chunk].
    unfold Manager.resetForSeedIfNeeded. rewrite Hseed. cbn [fst snd].
    rewrite responses_no_inflight by reflexivity.
    intros [= <- _].
    rewrite dequeueApply_nothing_ready.
    + rewrite loaded_dequeueRequest, loaded_refreshQueue. reflexivity.
    + rewrite readyToApply_dequeueRequest, readyToApply_refreshQueue.
      reflexivity.
  - destruct (tick_loaded CHUNK_SIZE p s s' t Hsize Htick)
      as (_ & _ & _ & -> & _).
    rewrite Hseed. simpl. now rewrite app_nil_r.
Qed.

(** *** One tick on a loaded chunk *)

(** A tick that keeps the chunk leaves it loaded and does not report it. *)
Lemma tick_keeps (CHUNK_SIZE : Z) (p : Manager.ChunkManagerTickParams)
    (s s' : Manager.ChunkManager) (t : Manager.ChunkManagerTickResult)
    (cx cz : Z) :
  0 < CHUNK_SIZE ->
  Manager.tick CHUNK_SIZE p s = Ok (s', t) ->
  JsMap.has (Manager.loaded s) (ChunkMath.chunkKey (Num.Int cx) (Num.Int cz))
  = true ->
  keepsChunk CHUNK_SIZE s cx cz p ->
  JsMap.has (Manager.loaded s') (ChunkMath.chunkKey (Num.Int cx) (Num.Int cz))
  = true /\
  ~ In (ChunkMath.chunkKey (Num.Int cx) (Num.Int cz)) (Manager.unloadKeys t) /\
  Manager.seedStr s' = Manager.seedStr s /\
  Manager.removeRadius s' = Manager.removeRadius s.
Proof.
  intros Hsize Htick Hloaded [Hseed Hdist].
  set (key := ChunkMath.chunkKey (Num.Int cx) (Num.Int cz)) in *.
  assert (Hin : Manager.keyInRadius key (Manager.playerX p / CHUNK_SIZE)
                  (Manager.playerZ p / CHUNK_SIZE) (Manager.removeRadius s)
                = true).
  { subst key. rewrite keyInRadius_chunkKey. apply Z.leb_le. exact Hdist. }
  destruct (tick_loaded CHUNK_SIZE p s s' t Hsize Htick)
    as (Hr & _ & Hs & Hu & Hl).
  rewrite Hseed in Hu, Hl. simpl in Hu.
  assert (Hpruned :
            JsMap.has
              (foldl (Manager.pruneStep (Manager.removeRadius s)
                        (Manager.playerX p / CHUNK_SIZE)
                        (Manager.playerZ p / CHUNK_SIZE))
                 (Manager.loaded s) (JsMap.keys (Manager.loaded s))) key
            = true).
  { rewrite prune_has_kept; assumption. }
  repeat split.
  - destruct Hl as [->|(key' & response & _ & ->)];
      [assumption|now apply has_set_mono].
  - rewrite Hu. intros Hk. apply filter_In in Hk as [_ Hk].
    rewrite Hin in Hk. discriminate.
  - apply sameSeed_true in Hseed. congruence.
  - assumption.
Qed.

(** A tick that does not keep the chunk reports it once and leaves it not
    loaded. *)
Lemma tick_evicts (CHUNK_SIZE : Z) (p : Manager.ChunkManagerTickParams)
    (s s' : Manager.ChunkManager) (t : Manager.ChunkManagerTickResult)
    (cx cz : Z) :
  0 < CHUNK_SIZE ->
  uniqueKeys (Manager.loaded s) ->
  Manager.tick CHUNK_SIZE p s = Ok (s', t) ->
  JsMap.has (Manager.loaded s) (ChunkMath.chunkKey (Num.Int cx) (Num.Int cz))
  = true ->
  ~ keepsChunk CHUNK_SIZE s cx cz p ->
  JsMap.has (Manager.loaded s') (ChunkMath.chunkKey (Num.Int cx) (Num.Int cz))
  = false /\
  occurrences (ChunkMath.chunkKey (Num.Int cx) (Num.Int cz))
    (Manager.unloadKeys t) = 1%nat.
Proof.
  intros Hsize Hunique Htick Hloaded Hnot.
  set (key := ChunkMath.chunkKey (Num.Int cx) (Num.Int cz)) in *.
  destruct (Manager.sameSeed (Manager.seedStr s) (Manager.p_seedStr p))
    eqn:Hseed.
  - assert (Hout : Manager.keyInRadius key (Manager.playerX p / CHUNK_SIZE)
                     (Manager.playerZ p / CHUNK_SIZE) (Manager.removeRadius s)
                   = false).
    { subst key. rewrite keyInRadius_chunkKey. apply Z.leb_gt.
      destruct (Z_le_gt_dec (distanceFromCenter CHUNK_SIZE p cx cz)
                  (Manager.removeRadius s)) as [Hle|Hgt].
      - exfalso. apply Hnot. split; assumption.
      - unfold distanceFromCenter in Hgt. lia. }
    destruct (tick_loaded CHUNK_SIZE p s s' t Hsize Htick)
      as (_ & _ & _ & Hu & Hl).
    rewrite Hseed in Hu, Hl. simpl in Hu.
    assert (Hpruned :
              JsMap.has
                (foldl (Manager.pruneStep (Manager.removeRadius s)
                          (Manager.playerX p / CHUNK_SIZE)
                          (Manager.playerZ p / CHUNK_SIZE))
                   (Manager.loaded s) (JsMap.keys (Manager.loaded s))) key
              = false).
    { apply prune_has_removed; [assumption|now apply has_In_keys]. }
    split.
    + destruct Hl as [->|(key' & response & Hin' & ->)]; [assumption|].
      rewrite has_set_ne; [assumption|]. intros ->. congruence.
    + rewrite Hu. apply occurrences_NoDup.
      * apply List.NoDup_filter. exact Hunique.
      * apply filter_In. split; [now apply has_In_keys|].
        now rewrite Hout.
  - destruct (tick_new_seed CHUNK_SIZE p s s' t Hsize Htick Hseed)
      as [-> ->].
    split; [reflexivity|].
    apply occurrences_NoDup; [exact Hunique|now apply has_In_keys].
Qed.

Lemma keepsChunk_after (CHUNK_SIZE : Z) (s s' : Manager.ChunkManager)
    (cx cz : Z) (p : Manager.ChunkManagerTickParams) :
  Manager.seedStr s' = Manager.seedStr s ->
  Manager.removeRadius s' = Manager.removeRadius s ->
  keepsChunk CHUNK_SIZE s cx cz p <-> keepsChunk CHUNK_SIZE s' cx cz p.
Proof. intros Hs Hr. unfold keepsChunk. now rewrite Hs, Hr. Qed.

(** The same over a run of ticks, for a manager with each loaded key once. *)
Lemma loaded_chunk_run (CHUNK_SIZE : Z) (cx cz : Z)
    (ps : list Manager.ChunkManagerTickParams)
    (last : Manager.ChunkManagerTickParams) :
  0 < CHUNK_SIZE ->
  forall s,
    uniqueKeys (Manager.loaded s) ->
    JsMap.has (Manager.loaded s)
      (ChunkMath.chunkKey (Num.Int cx) (Num.Int cz)) = true ->
    Forall (keepsChunk CHUNK_SIZE s cx cz) ps ->
    ~ keepsChunk CHUNK_SIZE s cx cz last ->
    exists run s' t,
      ticks CHUNK_SIZE (ps ++ [last]) s = Ok (run ++ [(s', t)]) /\
      length run = length ps /\
      Forall (fun step =>
                JsMap.has (Manager.loaded (fst step))
                  (ChunkMath.chunkKey (Num.Int cx) (Num.Int cz)) = true /\
                ~ In (ChunkMath.chunkKey (Num.Int cx) (Num.Int cz))
                     (Manager.unloadKeys (snd step)))
             run /\
      JsMap.has (Manager.loaded s')
        (ChunkMath.chunkKey (Num.Int cx) (Num.Int cz)) = false /\
      occurrences (ChunkMath.chunkKey (Num.Int cx) (Num.Int cz))
        (Manager.unloadKeys t) = 1%nat.
Proof.
  intros Hsize.
  induction ps as [|p ps IH]; intros s Hunique Hloaded Hkeep Hlast.
  - destruct (tick_returns CHUNK_SIZE last s Hsize) as (s' & t & Htick).
    destruct (tick_evicts CHUNK_SIZE last s s' t cx cz Hsize Hunique Htick
                Hloaded Hlast) as [Hgone Honce].
    exists [], s', t. simpl. rewrite Htick. simpl.
    repeat split; try assumption. constructor.
  - apply List.Forall_cons_iff in Hkeep as [Hp Hps].
    destruct (tick_returns CHUNK_SIZE p s Hsize) as (s1 & t1 & Htick).
    destruct (tick_keeps CHUNK_SIZE p s s1 t1 cx cz Hsize Htick Hloaded Hp)
      as (Hloaded1 & Hquiet & Hseed & Hradius).
    destruct (IH s1) as (run & s' & t & Hrun & Hlen & Hall & Hgone & Honce).
    + eapply tick_uniqueKeys; eassumption.
    + assumption.
    + eapply List.Forall_impl; [|exact Hps].
      intros q.
      apply (proj1 (keepsChunk_after CHUNK_SIZE s s1 cx cz q Hseed Hradius)).
    + intros H. apply Hlast.
      apply (proj2 (keepsChunk_after CHUNK_SIZE s s1 cx cz last Hseed Hradius)).
      exact H.
    + exists ((s1, t1) :: run), s', t.
      cbn [app ticks]. rewrite Htick. cbn [bind fst]. rewrite Hrun.
      cbn [bind]. repeat split; try assumption.
      * simpl. now rewrite Hlen.
      * constructor; [split; assumption|assumption].
Qed.

(** C6, as the code has it.  Take a manager that a program can hold and a
    chunk [(cx, cz)] that it has loaded.  Over ticks that keep the chunk
    (they name the tracked seed and leave the chunk within [removeRadius] of
    the centre chunk) the chunk stays loaded and is in no [unloadKeys]; the
    first tick that does not keep it (the chunk is farther than
    [removeRadius], or the seed is another one) reports its key exactly once
    in [unloadKeys] and leaves it not loaded. *)
Theorem loaded_chunk_lifetime (CHUNK_SIZE : Z) (s : Manager.ChunkManager)
    (cx cz : Z) (ps : list Manager.ChunkManagerTickParams)
    (last : Manager.ChunkManagerTickParams) :
  0 < CHUNK_SIZE ->
  reachable CHUNK_SIZE s ->
  JsMap.has (Manager.loaded s)
    (ChunkMath.chunkKey (Num.Int cx) (Num.Int cz)) = true ->
  Forall (keepsChunk CHUNK_SIZE s cx cz) ps ->
  ~ keepsChunk CHUNK_SIZE s cx cz last ->
  exists run s' t,
    ticks CHUNK_SIZE (ps ++ [last]) s = Ok (run ++ [(s', t)]) /\
    length run = length ps /\
    Forall (fun step =>
              JsMap.has (Manager.loaded (fst step))
                (ChunkMath.chunkKey (Num.Int cx) (Num.Int cz)) = true /\
              ~ In (ChunkMath.chunkKey (Num.Int cx) (Num.Int cz))
                   (Manager.unloadKeys (snd step)))
           run /\
    JsMap.has (Manager.loaded s')
      (ChunkMath.chunkKey (Num.Int cx) (Num.Int cz)) = false /\
    occurrences (ChunkMath.chunkKey (Num.Int cx) (Num.Int cz))
      (Manager.unloadKeys t) = 1%nat.
Proof.
  intros Hsize Hreach. apply loaded_chunk_run; [assumption|].
  eapply reachable_uniqueKeys. eassumption.
Qed.

Lemma reachable_managerWithOrigin : reachable 16 managerWithOrigin.
Proof.
  apply reachable_managerAfter.
  apply (reachable_new 16
           (Some {| Manager.opt_activeRadius := Some 0%Q;
                    Manager.opt_removeRadius := Some 1%Q;
                    Manager.opt_maxInflight := None |})).
  reflexivity.
Qed.

(** The manager of the tests with chunk (0, 0) loaded: the player walks to
    chunk (1, 0) and back, then on to chunk (2, 0). *)
Lemma loaded_chunk_lifetime_witness :
  exists run s' t,
    ticks 16
      ([tickAt 16 0 "demo" None; tickAt 0 0 "demo" None]
         ++ [tickAt 32 0 "demo" None])
      managerWithOrigin
    = Ok (run ++ [(s', t)]) /\
    length run = 2%nat /\
    Forall (fun step =>
              JsMap.has (Manager.loaded (fst step)) "0,0" = true /\
              ~ In "0,0" (Manager.unloadKeys (snd step)))
           run /\
    JsMap.has (Manager.loaded s') "0,0" = false /\
    occurrences "0,0" (Manager.unloadKeys t) = 1%nat.
Proof.
  apply (loaded_chunk_lifetime 16 managerWithOrigin 0 0
           [tickAt 16 0 "demo" None; tickAt 0 0 "demo" None]
           (tickAt 32 0 "demo" None)).
  - lia.
  - apply reachable_managerWithOrigin.
  - vm_compute. reflexivity.
  - repeat constructor; vm_compute; discriminate.
  - intros [_ H]. vm_compute in H. apply H. reflexivity.
Defined.

(** C6, as stated, does not hold: a tick that names another seed unloads a
    chunk that is still within [removeRadius].  Here chunk (0, 0) is loaded
    and the player stands in it. *)
Lemma seed_change_unloads_chunk_in_radius :
  ~ (forall (s s' : Manager.ChunkManager) (p : Manager.ChunkManagerTickParams)
            (t : Manager.ChunkManagerTickResult) (cx cz : Z),
       reachable 16 s ->
       JsMap.has (Manager.loaded s)
         (ChunkMath.chunkKey (Num.Int cx) (Num.Int cz)) = true ->
       Manager.tick 16 p s = Ok (s', t) ->
       distanceFromCenter 16 p cx cz <= Manager.removeRadius s ->
       JsMap.has (Manager.loaded s')
         (ChunkMath.chunkKey (Num.Int cx) (Num.Int cz)) = true /\
       ~ In (ChunkMath.chunkKey (Num.Int cx) (Num.Int cz))
            (Manager.unloadKeys t)).
Proof.
  intros Hclaim.
  destruct (tick_returns 16 (tickAt 0 0 "other" None) managerWithOrigin)
    as (s' & t & Htick); [lia|].
  destruct (Hclaim managerWithOrigin s' (tickAt 0 0 "other" None) t 0 0)
    as [Hloaded _].
  - apply reachable_managerWithOrigin.
  - vm_compute. reflexivity.
  - exact Htick.
  - vm_compute. discriminate.
  - vm_compute in Htick. injection Htick as <- _.
    vm_compute in Hloaded. discriminate.
Qed.

(** * Binary floating-point arithmetic *)

Section FloatFacts.

Local Open Scope Q_scope.

Lemma Qred_inject_Z (z : Z) : Qred (inject_Z z) = inject_Z z.
Proof.
  unfold Qred, inject_Z.
  pose proof (Z.ggcd_gcd z 1) as Hg.
  pose proof (Z.ggcd_correct_divisors z 1) as Hd.
  destruct (Z.ggcd z 1) as [g [aa bb]]. cbn [fst snd] in *.
  rewrite Z.gcd_1_r in Hg. subst g. destruct Hd as [Ha Hb].
  rewrite Z.mul_1_l in Ha, Hb. now subst aa bb.
Qed.

Lemma inject_Z_sub (a b : Z) : inject_Z (a - b) == inject_Z a - inject_Z b.
Proof. unfold Z.sub. rewrite inject_Z_plus, inject_Z_opp. reflexivity. Qed.

Lemma pow2_pos (k : Z) : 0 < 2 ^ k.
Proof. apply Qpower_0_lt. reflexivity. Qed.

Lemma pow2_add (a b : Z) : 2 ^ (a + b) == 2 ^ a * 2 ^ b.
Proof. apply Qpower_plus. discriminate. Qed.

Lemma pow2_Z (k : Z) : (0 <= k)%Z -> 2 ^ k == inject_Z (2 ^ k).
Proof. intros Hk. symmetry. apply (Zpower_Qpower 2 k Hk). Qed.

Lemma pow2_opp (k : Z) : 2 ^ (- k) * 2 ^ k == 1.
Proof.
  rewrite <- pow2_add. replace (- k + k)%Z with 0%Z by lia. reflexivity.
Qed.

Lemma pow2_le (a b : Z) : (a <= b)%Z -> 2 ^ a <= 2 ^ b.
Proof. intros Hab. apply Qpower_le_compat_l; [assumption|discriminate]. Qed.

Lemma pow2_lt_inv (a b : Z) : 2 ^ a < 2 ^ b -> (a < b)%Z.
Proof.
  intros Hlt. destruct (Z.lt_ge_cases a b) as [H|H]; [assumption|].
  apply pow2_le in H. lra.
Qed.

(** *** Rounding to an integer *)

Lemma nearestEven_comp (x y : Q) :
  x == y -> Float.nearestEven x = Float.nearestEven y.
Proof.
  intros Hxy. unfold Float.nearestEven.
  rewrite (Qfloor_comp x y Hxy).
  assert (Hc : (x - inject_Z (Qfloor y) ?= 1 # 2)
               = (y - inject_Z (Qfloor y) ?= 1 # 2))
    by (apply Qcompare_comp; [now rewrite Hxy|reflexivity]).
  cbv zeta. now rewrite Hc.
Qed.

Lemma nearestEven_floor (x : Q) :
  (Qfloor x <= Float.nearestEven x <= Qfloor x + 1)%Z.
Proof.
  unfold Float.nearestEven. cbv zeta.
  destruct (x - inject_Z (Qfloor x) ?= 1 # 2); [|lia|lia].
  destruct (Z.even (Qfloor x)); lia.
Qed.

Lemma nearestEven_Z (n : Z) : Float.nearestEven (inject_Z n) = n.
Proof.
  unfold Float.nearestEven. cbv zeta. rewrite Qfloor_Z.
  destruct (Qcompare_spec (inject_Z n - inject_Z n) (1 # 2)) as [H|H|H];
    [lra|reflexivity|lra].
Qed.

Lemma nearestEven_lower (n : Z) (x : Q) :
  inject_Z n <= x -> (n <= Float.nearestEven x)%Z.
Proof.
  intros Hn. pose proof (nearestEven_floor x) as Hf.
  apply Qfloor_resp_le in Hn. rewrite Qfloor_Z in Hn. lia.
Qed.

Lemma nearestEven_upper (n : Z) (x : Q) :
  x + (1 # 2) < inject_Z n -> (Float.nearestEven x < n)%Z.
Proof.
  intros Hn. pose proof (Qfloor_le x) as Hfloor.
  assert (Hf : (Qfloor x < n)%Z).
  { rewrite Zlt_Qlt. lra. }
  destruct (Z.eq_dec (Qfloor x) (n - 1)%Z) as [E|E].
  - unfold Float.nearestEven. cbv zeta.
    assert (Hlt : x - inject_Z (Qfloor x) < 1 # 2).
    { rewrite E, inject_Z_sub. change (inject_Z 1) with 1. lra. }
    destruct (Qcompare_spec (x - inject_Z (Qfloor x)) (1 # 2)) as [H|H|H];
      [lra|lia|lra].
  - pose proof (nearestEven_floor x). lia.
Qed.

Lemma Qfloor_between (n : Z) (x : Q) :
  inject_Z n <= x -> x < inject_Z (n + 1) -> Qfloor x = n.
Proof.
  intros Hlo Hhi.
  pose proof (Qfloor_le x) as H1. pose proof (Qlt_floor x) as H2.
  assert (Ha : (n < Qfloor x + 1)%Z) by (rewrite Zlt_Qlt; lra).
  assert (Hb : (Qfloor x < n + 1)%Z) by (rewrite Zlt_Qlt; lra).
  lia.
Qed.

(** *** The exponent *)

Lemma log2_bounds (N : Z) :
  (0 < N)%Z ->
  2 ^ Z.log2 N <= inject_Z N /\ inject_Z N < 2 * 2 ^ Z.log2 N.
Proof.
  intros HN. destruct (Z.log2_spec N HN) as [H1 H2].
  pose proof (Z.log2_nonneg N) as H0.
  rewrite (pow2_Z (Z.log2 N) H0). split.
  - now rewrite <- Zle_Qle.
  - rewrite Z.pow_succ_r in H2 by assumption.
    rewrite Zlt_Qlt, inject_Z_mult in H2. exact H2.
Qed.

Lemma exponent_spec (q : Q) :
  ~ q == 0 ->
  2 ^ Float.exponent q <= Qabs q /\ Qabs q < 2 ^ (Float.exponent q + 1).
Proof.
  intros Hq. destruct q as [n d]. unfold Float.exponent.
  cbn [Qnum Qden]. cbv zeta.
  assert (HN : (0 < Z.abs n)%Z).
  { destruct n; [exfalso; apply Hq; reflexivity|lia|lia]. }
  assert (HX : Qabs (n # d) * inject_Z (Z.pos d) == inject_Z (Z.abs n)).
  { unfold Qabs, Qeq, inject_Z, Qmult. cbn [Qnum Qden].
    rewrite Pos.mul_1_r. lia. }
  destruct (log2_bounds (Z.abs n) HN) as [HA1 HA2].
  destruct (log2_bounds (Z.pos d) ltac:(lia)) as [HB1 HB2].
  assert (HE : 2 ^ (Z.log2 (Z.abs n) - Z.log2 (Z.pos d))
               * 2 ^ Z.log2 (Z.pos d) == 2 ^ Z.log2 (Z.abs n)).
  { rewrite <- pow2_add.
    now replace (Z.log2 (Z.abs n) - Z.log2 (Z.pos d) + Z.log2 (Z.pos d))%Z
      with (Z.log2 (Z.abs n)) by lia. }
  assert (HE1 : 2 ^ (Z.log2 (Z.abs n) - Z.log2 (Z.pos d) + 1)
                == 2 ^ (Z.log2 (Z.abs n) - Z.log2 (Z.pos d)) * 2)
    by (now rewrite pow2_add).
  assert (HE2 : 2 ^ (Z.log2 (Z.abs n) - Z.log2 (Z.pos d) - 1 + 1)
                == 2 ^ (Z.log2 (Z.abs n) - Z.log2 (Z.pos d) - 1) * 2)
    by (now rewrite pow2_add).
  replace (Z.log2 (Z.abs n) - Z.log2 (Z.pos d) - 1 + 1)%Z
    with (Z.log2 (Z.abs n) - Z.log2 (Z.pos d))%Z in HE2 at 1 by lia.
  pose proof (pow2_pos (Z.log2 (Z.abs n) - Z.log2 (Z.pos d))) as HpE.
  pose proof (pow2_pos (Z.log2 (Z.abs n) - Z.log2 (Z.pos d) - 1)) as HpE'.
  pose proof (pow2_pos (Z.log2 (Z.pos d))) as HpB.
  pose proof (Qabs_nonneg (n # d)) as HX0.
  destruct (Qle_bool (2 ^ (Z.log2 (Z.abs n) - Z.log2 (Z.pos d)))
              (Qabs (n # d))) eqn:Htest.
  - apply Qle_bool_iff in Htest. split; [exact Htest|].
    rewrite HE1.
    set (X := Qabs (n # d)) in *.
    set (A := inject_Z (Z.abs n)) in *. set (B := inject_Z (Z.pos d)) in *.
    set (E := 2 ^ (Z.log2 (Z.abs n) - Z.log2 (Z.pos d))) in *.
    set (PA := 2 ^ Z.log2 (Z.abs n)) in *.
    set (PB := 2 ^ Z.log2 (Z.pos d)) in *.
    clearbody X A B E PA PB.
    destruct (Qlt_le_dec X (E * 2)) as [Hlt|Hge]; [assumption|exfalso].
    assert (H1 : E * 2 * B <= X * B) by nra.
    assert (H2 : E * 2 * PB <= E * 2 * B) by nra.
    nra.
  - assert (Hlt : Qabs (n # d)
                  < 2 ^ (Z.log2 (Z.abs n) - Z.log2 (Z.pos d))).
    { apply Qnot_le_lt. intros Hle. apply Qle_bool_iff in Hle. congruence. }
    split.
    + set (X := Qabs (n # d)) in *.
      set (A := inject_Z (Z.abs n)) in *. set (B := inject_Z (Z.pos d)) in *.
      set (E := 2 ^ (Z.log2 (Z.abs n) - Z.log2 (Z.pos d))) in *.
      set (E' := 2 ^ (Z.log2 (Z.abs n) - Z.log2 (Z.pos d) - 1)) in *.
      set (PA := 2 ^ Z.log2 (Z.abs n)) in *.
      set (PB := 2 ^ Z.log2 (Z.pos d)) in *.
      clearbody X A B E E' PA PB.
      destruct (Qlt_le_dec X E') as [Hlt'|Hge]; [exfalso|assumption].
      assert (H1 : X * B <= E' * B) by nra.
      assert (H2 : E' * B < E' * (2 * PB)) by nra.
      nra.
    + now replace (Z.log2 (Z.abs n) - Z.log2 (Z.pos d) - 1 + 1)%Z
        with (Z.log2 (Z.abs n) - Z.log2 (Z.pos d))%Z by lia.
Qed.

(** The exponent is determined by the two bounds. *)
Lemma exponent_unique (q : Q) (e : Z) :
  2 ^ e <= Qabs q -> Qabs q < 2 ^ (e + 1) -> Float.exponent q = e.
Proof.
  intros Hlo Hhi.
  assert (Hq : ~ q == 0).
  { intros E0. rewrite E0 in Hlo. pose proof (pow2_pos e).
    change (Qabs 0) with 0 in Hlo. lra. }
  destruct (exponent_spec q Hq) as [Hlo' Hhi'].
  assert (H1 : (e < Float.exponent q + 1)%Z) by (apply pow2_lt_inv; lra).
  assert (H2 : (Float.exponent q < e + 1)%Z) by (apply pow2_lt_inv; lra).
  lia.
Qed.

Lemma exponent_comp (x y : Q) :
  ~ x == 0 -> x == y -> Float.exponent x = Float.exponent y.
Proof.
  intros Hx Hxy. destruct (exponent_spec x Hx) as [Hlo Hhi].
  symmetry. apply exponent_unique; now rewrite <- Hxy.
Qed.

Lemma round_comp (precision emin : Z) (x y : Q) :
  x == y -> Float.round precision emin x = Float.round precision emin y.
Proof.
  intros Hxy. unfold Float.round.
  rewrite (Qeqb_comp x y Hxy 0 0 ltac:(reflexivity)).
  destruct (Qeq_bool y 0) eqn:Hy; [reflexivity|].
  assert (Hx : ~ x == 0).
  { intros E0. apply Qeq_bool_neq in Hy. apply Hy. now rewrite <- Hxy. }
  cbv zeta. rewrite (exponent_comp x y Hx Hxy).
  apply Qred_complete.
  rewrite (nearestEven_comp
             (x / 2 ^ (Z.max (Float.exponent y) emin - precision + 1))
             (y / 2 ^ (Z.max (Float.exponent y) emin - precision + 1)))
    by now rewrite Hxy.
  reflexivity.
Qed.

(** *** Rounding *)

(** A multiple of the unit in the last place is not changed. *)
Lemma round_exact (precision emin : Z) (q : Q) (m : Z) :
  ~ q == 0 ->
  q == inject_Z m
       * 2 ^ (Z.max (Float.exponent q) emin - precision + 1) ->
  Float.round precision emin q = Qred q.
Proof.
  intros Hq Hm. unfold Float.round.
  destruct (Qeq_bool q 0) eqn:H0;
    [apply Qeq_bool_iff in H0; contradiction|].
  cbv zeta. apply Qred_complete.
  pose proof (pow2_pos (Z.max (Float.exponent q) emin - precision + 1))
    as Hulp.
  rewrite (nearestEven_comp _ (inject_Z m)).
  - rewrite nearestEven_Z. now symmetry.
  - rewrite Hm at 1. field. lra.
Qed.

Lemma Qabs_inject_Z (z : Z) : Qabs (inject_Z z) = inject_Z (Z.abs z).
Proof. reflexivity. Qed.

Lemma exponent_inject_Z (z : Z) :
  z <> 0%Z -> Float.exponent (inject_Z z) = Z.log2 (Z.abs z).
Proof.
  intros Hz. destruct (log2_bounds (Z.abs z) ltac:(lia)) as [H1 H2].
  apply exponent_unique; rewrite Qabs_inject_Z; [assumption|].
  rewrite pow2_add. change (2 ^ 1) with 2. lra.
Qed.

(** An integer of at most [precision] bits, or the power of two after them,
    is not changed. *)
Lemma round_integer (precision emin z : Z) :
  (0 < precision)%Z -> (emin <= 0)%Z ->
  (Z.abs z <= 2 ^ precision)%Z ->
  Float.round precision emin (inject_Z z) = inject_Z z.
Proof.
  intros Hp Hemin Hz.
  destruct (Z.eq_dec z 0%Z) as [->|Hz0]; [reflexivity|].
  assert (Hq : ~ inject_Z z == 0).
  { intros E. apply Hz0. apply (proj1 (inject_Z_injective z 0%Z) E). }
  pose proof (exponent_inject_Z z Hz0) as He.
  pose proof (Z.log2_nonneg (Z.abs z)) as Hl0.
  assert (Hl : (Z.log2 (Z.abs z) <= precision)%Z).
  { rewrite <- (Z.log2_pow2 precision) by lia. now apply Z.log2_le_mono. }
  destruct (Z.log2_spec (Z.abs z) ltac:(lia)) as [Hlo Hhi].
  rewrite <- Qred_inject_Z at 2.
  destruct (Z.eq_dec (Z.log2 (Z.abs z)) precision) as [E|E].
  - (* [|z| = 2 ^ precision]: the unit in the last place is 2 *)
    rewrite E in Hlo.
    assert (Habs : Z.abs z = (2 ^ precision)%Z) by lia.
    assert (Heven : z = (2 * (z / 2))%Z).
    { assert (H2 : (2 ^ precision = 2 * 2 ^ (precision - 1))%Z).
      { rewrite <- Z.pow_succ_r by lia. f_equal. lia. }
      destruct (Z.abs_spec z) as [[_ Ha]|[_ Ha]].
      - rewrite Ha in Habs. rewrite Habs, H2.
        now rewrite Z.mul_comm, Z.div_mul, Z.mul_comm by lia.
      - assert (Hz' : z = (- 2 ^ precision)%Z) by lia.
        rewrite Hz', H2.
        replace (- (2 * 2 ^ (precision - 1)))%Z
          with (- 2 ^ (precision - 1) * 2)%Z by lia.
        rewrite Z.div_mul by lia. lia. }
    apply (round_exact precision emin (inject_Z z) (z / 2)); [assumption|].
    rewrite He, E.
    replace (Z.max precision emin - precision + 1)%Z with 1%Z by lia.
    change (2 ^ 1) with 2. rewrite Heven at 1.
    rewrite inject_Z_mult. change (inject_Z 2) with 2. lra.
  - apply (round_exact precision emin (inject_Z z)
             (z * 2 ^ (precision - 1 - Z.log2 (Z.abs z)))); [assumption|].
    rewrite He.
    replace (Z.max (Z.log2 (Z.abs z)) emin - precision + 1)%Z
      with (- (precision - 1 - Z.log2 (Z.abs z)))%Z by lia.
    rewrite inject_Z_mult, <- pow2_Z by lia.
    rewrite <- Qmult_assoc, (Qmult_comm (2 ^ _)), pow2_opp. lra.
Qed.

(** *** The quotient of two integers *)

Lemma Qabs_quotient (a b : Z) :
  (0 < b)%Z ->
  Qabs (inject_Z a / inject_Z b) * inject_Z b == inject_Z (Z.abs a).
Proof.
  intros Hb. destruct b as [|p|p]; try lia.
  assert (E : inject_Z a / inject_Z (Z.pos p) == a # p)
    by (symmetry; apply Qmake_Qdiv).
  rewrite E. unfold Qabs, Qeq, inject_Z, Qmult. cbn [Qnum Qden].
  rewrite Pos.mul_1_r. lia.
Qed.

(** The quotient of an integer below 2^53 in size by a positive integer of
    at most 2^53, rounded to binary64, has the floor of the exact
    quotient. *)
Lemma round64_quotient (a b : Z) :
  (0 < b)%Z -> (Z.abs a < 2 ^ 53)%Z -> (b <= 2 ^ 53)%Z ->
  inject_Z (a / b) <= Float.round64 (inject_Z a / inject_Z b) /\
  Float.round64 (inject_Z a / inject_Z b) < inject_Z (a / b + 1).
Proof.
  intros Hb Ha Hb53.
  assert (HB : 0 < inject_Z b) by (change 0 with (inject_Z 0); now rewrite <- Zlt_Qlt).
  assert (HB1 : 1 <= inject_Z b)
    by (change 1 with (inject_Z 1); rewrite <- Zle_Qle; lia).
  assert (HQB : inject_Z a / inject_Z b * inject_Z b == inject_Z a)
    by (field; lra).
  pose proof (Qabs_quotient a b Hb) as HabsB.
  (* the exact quotient lies in [n, n + 1 - 1/b] *)
  assert (Hlo : inject_Z (a / b) <= inject_Z a / inject_Z b).
  { rewrite Zdiv_Qdiv. apply Qfloor_le. }
  assert (Hgap : 1 <= (inject_Z (a / b + 1) - inject_Z a / inject_Z b)
                      * inject_Z b).
  { assert (Hz : (a + 1 <= (a / b + 1) * b)%Z).
    { pose proof (Z.mod_pos_bound a b Hb). pose proof (Z.div_mod a b).
      lia. }
    rewrite Zle_Qle, inject_Z_plus, inject_Z_mult in Hz.
    change (inject_Z 1) with 1 in Hz.
    rewrite inject_Z_plus. change (inject_Z 1) with 1.
    rewrite inject_Z_plus in Hz. change (inject_Z 1) with 1 in Hz.
    set (q := inject_Z a / inject_Z b) in *. clearbody q. nra. }
  destruct (Z.eq_dec a 0%Z) as [->|Ha0].
  { assert (E : inject_Z 0 / inject_Z b == 0) by (field; lra).
    unfold Float.round64. rewrite (round_comp 53 (-1022) _ 0 E).
    rewrite Z.div_0_l by lia. split; [discriminate|reflexivity]. }
  assert (Hq : ~ inject_Z a / inject_Z b == 0).
  { intros E. rewrite E in HQB.
    assert (E' : inject_Z a == inject_Z 0)
      by (change (inject_Z 0) with 0; lra).
    exact (Ha0 (proj1 (inject_Z_injective a 0%Z) E')). }
  destruct (exponent_spec _ Hq) as [He1 He2].
  set (q := inject_Z a / inject_Z b) in *.
  set (e := Float.exponent q) in *.
  assert (HA53 : inject_Z (Z.abs a) < 2 ^ 53).
  { rewrite (pow2_Z 53) by lia. now rewrite <- Zlt_Qlt. }
  assert (HA1 : 1 <= inject_Z (Z.abs a))
    by (change 1 with (inject_Z 1); rewrite <- Zle_Qle; lia).
  assert (HB53 : inject_Z b <= 2 ^ 53).
  { rewrite (pow2_Z 53) by lia. now rewrite <- Zle_Qle. }
  pose proof (Qabs_nonneg q) as Hq0.
  pose proof (pow2_pos e) as HpE.
  assert (Hehi : (e < 53)%Z).
  { apply pow2_lt_inv.
    assert (Qabs q <= inject_Z (Z.abs a)) by nra. lra. }
  assert (Helo : (-54 < e)%Z).
  { assert (H53 : 2 ^ (-53) * 2 ^ 53 == 1) by exact (pow2_opp 53).
    pose proof (pow2_pos (-53)) as Hp53.
    assert (Hlow : 2 ^ (-53) <= Qabs q).
    { destruct (Qlt_le_dec (Qabs q) (2 ^ (-53))) as [Hlt|Hge];
        [exfalso|assumption].
      assert (Qabs q * inject_Z b < 1) by nra. lra. }
    assert (H : (-53 < e + 1)%Z) by (apply pow2_lt_inv; lra).
    lia. }
  (* the unit in the last place is [1 / 2 ^ k] *)
  assert (HP : 2 ^ (e - 52) * 2 ^ (52 - e) == 1).
  { rewrite <- pow2_add. now replace (e - 52 + (52 - e))%Z with 0%Z by lia. }
  assert (HEP : 2 ^ e * 2 ^ (52 - e) * 2 == 2 ^ 53).
  { rewrite <- pow2_add. replace (e + (52 - e))%Z with 52%Z by lia.
    reflexivity. }
  pose proof (pow2_pos (52 - e)) as HpP.
  pose proof (pow2_pos (e - 52)) as HpU.
  assert (HBP : inject_Z b < 2 * 2 ^ (52 - e)).
  { destruct (Qlt_le_dec (inject_Z b) (2 * 2 ^ (52 - e))) as [Hlt|Hge];
      [assumption|exfalso].
    assert (H1 : 2 ^ e * (2 * 2 ^ (52 - e)) <= 2 ^ e * inject_Z b) by nra.
    assert (H2 : 2 ^ e * inject_Z b <= Qabs q * inject_Z b) by nra.
    lra. }
  assert (HPZ : 2 ^ (52 - e) == inject_Z (2 ^ (52 - e)))
    by (apply pow2_Z; lia).
  unfold Float.round64, Float.round.
  destruct (Qeq_bool q 0) eqn:H0;
    [apply Qeq_bool_iff in H0; contradiction|].
  cbv zeta. fold e.
  replace (Z.max e (-1022) - 53 + 1)%Z with (e - 52)%Z by lia.
  assert (Hx : q / 2 ^ (e - 52) == q * 2 ^ (52 - e)).
  { unfold Qdiv. replace (52 - e)%Z with (- (e - 52))%Z by lia.
    now rewrite Qpower_opp. }
  rewrite (nearestEven_comp _ _ Hx).
  assert (HNlo : (a / b * 2 ^ (52 - e)
                  <= Float.nearestEven (q * 2 ^ (52 - e)))%Z).
  { apply nearestEven_lower. rewrite inject_Z_mult, <- HPZ. nra. }
  assert (HNhi : (Float.nearestEven (q * 2 ^ (52 - e))
                  < (a / b + 1) * 2 ^ (52 - e))%Z).
  { apply nearestEven_upper. rewrite inject_Z_mult, <- HPZ.
    set (M := inject_Z (a / b + 1)) in *.
    set (P := 2 ^ (52 - e)) in *. set (B := inject_Z b) in *.
    clearbody M P B q.
    assert (H1 : (M - q) * B < (M - q) * (2 * P)).
    { assert (0 < M - q) by nra. nra. }
    nra. }
  rewrite Zle_Qle, inject_Z_mult, <- HPZ in HNlo.
  assert (HNhi' : (Float.nearestEven (q * 2 ^ (52 - e)) + 1
                   <= (a / b + 1) * 2 ^ (52 - e))%Z) by lia.
  rewrite Zle_Qle, inject_Z_plus, inject_Z_mult, <- HPZ in HNhi'.
  change (inject_Z 1) with 1 in HNhi'.
  rewrite !Qred_correct.
  set (N := inject_Z (Float.nearestEven (q * 2 ^ (52 - e)))) in *.
  set (M := inject_Z (a / b + 1)) in *. set (n := inject_Z (a / b)) in *.
  set (P := 2 ^ (52 - e)) in *. set (U := 2 ^ (e - 52)) in *.
  clearbody N M n P U. split.
  - assert (H1 : n * P * U <= N * U) by nra.
    assert (H2 : n * P * U == n * (U * P)) by ring.
    rewrite H2, HP in H1. lra.
  - assert (H1 : (N + 1) * U <= M * P * U) by nra.
    assert (H2 : M * P * U == M * (U * P)) by ring.
    rewrite H2, HP in H1. lra.
Qed.

End FloatFacts.

(** ** chunkMath on binary64 numbers *)

Section Binary64Facts.

Local Open Scope Q_scope.

Lemma below_overflow (r : Q) :
  Qabs r <= 2 ^ 54 -> Qle_bool (2 ^ 1024) (Qabs r) = false.
Proof.
  intros Hr. destruct (Qle_bool (2 ^ 1024) (Qabs r)) eqn:H; [|reflexivity].
  apply Qle_bool_iff in H.
  assert (Hlt : 2 ^ 54 < 2 ^ 1024)
    by (apply Qpower_lt_compat_l; [lia|reflexivity]).
  lra.
Qed.

Lemma pow2_53_54 : inject_Z (2 ^ 53 + 1) <= 2 ^ 54.
Proof. rewrite (pow2_Z 54) by lia. rewrite <- Zle_Qle. lia. Qed.

(** An operation whose exact result is an integer of at most 2^53 in size
    gives that integer. *)
Lemma rounded_exact (q : Q) (z : Z) :
  q == inject_Z z -> (Z.abs z <= 2 ^ 53)%Z ->
  Number.rounded q = Number.ofZ z.
Proof.
  intros Hq Hz. unfold Number.rounded, Float.round64. cbv zeta.
  rewrite (round_comp 53 (-1022) q (inject_Z z) Hq).
  rewrite round_integer by lia.
  rewrite below_overflow; [reflexivity|].
  rewrite Qabs_inject_Z. apply Qle_trans with (inject_Z (2 ^ 53 + 1)).
  - rewrite <- Zle_Qle. lia.
  - apply pow2_53_54.
Qed.

Lemma mul_ofZ (x y : Z) :
  (Z.abs (x * y) <= 2 ^ 53)%Z ->
  Number.mul (Number.ofZ x) (Number.ofZ y) = Number.ofZ (x * y).
Proof.
  intros H. unfold Number.mul, Number.ofZ.
  apply rounded_exact; [|assumption].
  now rewrite inject_Z_mult.
Qed.

Lemma sub_ofZ (x y : Z) :
  (Z.abs (x - y) <= 2 ^ 53)%Z ->
  Number.sub (Number.ofZ x) (Number.ofZ y) = Number.ofZ (x - y).
Proof.
  intros H. unfold Number.sub, Number.ofZ.
  apply rounded_exact; [|assumption].
  now rewrite inject_Z_sub.
Qed.

Lemma leb_ofZ_0 (b : Z) :
  Number.leb (Number.ofZ b) (Number.Finite 0) = (b <=? 0)%Z.
Proof.
  unfold Number.leb, Number.ofZ.
  destruct (Z.leb_spec b 0) as [H|H].
  - apply Qle_bool_iff. change 0 with (inject_Z 0). now rewrite <- Zle_Qle.
  - destruct (Qle_bool (inject_Z b) 0) eqn:E; [|reflexivity].
    apply Qle_bool_iff in E. change 0 with (inject_Z 0) in E.
    rewrite <- Zle_Qle in E. lia.
Qed.

(** [Math.floor(a / b)] on integers that binary64 holds exactly. *)
Lemma floor_div_ofZ (a b : Z) :
  (0 < b)%Z -> (Z.abs a < 2 ^ 53)%Z -> (b <= 2 ^ 53)%Z ->
  Number.floor (Number.div (Number.ofZ a) (Number.ofZ b))
  = Number.ofZ (a / b).
Proof.
  intros Hb Ha Hb53.
  destruct (round64_quotient a b Hb Ha Hb53) as [Hlo Hhi].
  unfold Number.div, Number.ofZ.
  destruct (Qeq_bool (inject_Z b) 0) eqn:E.
  { apply Qeq_bool_iff in E. change 0 with (inject_Z 0) in E.
    pose proof (proj1 (inject_Z_injective b 0%Z) E). lia. }
  unfold Number.rounded. cbv zeta.
  rewrite below_overflow.
  - cbn [Number.floor]. now rewrite (Qfloor_between (a / b) _ Hlo Hhi).
  - apply Qle_trans with (inject_Z (2 ^ 53 + 1)); [|apply pow2_53_54].
    assert (Hn : (Z.abs (a / b) <= Z.abs a)%Z).
    { destruct (Z.abs_spec a) as [[Ha0 ->]|[Ha0 ->]].
      - pose proof (Z.div_pos a b ltac:(lia) Hb).
        rewrite Z.abs_eq by assumption.
        apply Z.div_le_upper_bound; [assumption|]. nia.
      - assert (a / b < 0)%Z by (apply Z.div_lt_upper_bound; lia).
        rewrite Z.abs_neq by lia.
        assert (a <= a / b)%Z
          by (apply Z.div_le_lower_bound; [assumption|nia]).
        lia. }
    apply Qabs_Qle_condition.
    rewrite inject_Z_plus in *. change (inject_Z 1) with 1 in *.
    assert (H1 : inject_Z (Z.abs (a / b)) <= inject_Z (2 ^ 53))
      by (rewrite <- Zle_Qle; lia).
    pose proof (Zabs_Qabs (a / b)) as Habs.
    pose proof (Qle_Qabs (inject_Z (a / b))) as H2.
    pose proof (Qle_Qabs (- inject_Z (a / b))) as H3.
    rewrite Qabs_opp in H3. rewrite Qabs_inject_Z in H2, H3.
    split; lra.
Qed.

Lemma floorDiv64_exact (a b : Z) :
  (0 < b)%Z -> (Z.abs a < 2 ^ 53)%Z -> (b <= 2 ^ 53)%Z ->
  ChunkMath64.floorDiv (Number.ofZ a) (Number.ofZ b)
  = Ok (Number.ofZ (a / b)).
Proof.
  intros Hb Ha Hb53. unfold ChunkMath64.floorDiv.
  rewrite leb_ofZ_0, (proj2 (Z.leb_gt b 0) Hb).
  now rewrite floor_div_ofZ.
Qed.

Lemma floorMod64_exact (a b : Z) :
  (0 < b)%Z -> (Z.abs a + b <= 2 ^ 53)%Z ->
  ChunkMath64.floorMod (Number.ofZ a) (Number.ofZ b)
  = Ok (Number.ofZ (a mod b)).
Proof.
  intros Hb Hab. unfold ChunkMath64.floorMod.
  rewrite leb_ofZ_0, (proj2 (Z.leb_gt b 0) Hb).
  rewrite floorDiv64_exact by lia. cbn [bind].
  pose proof (Z.mod_pos_bound a b Hb) as Hmod.
  pose proof (Z.div_mod a b ltac:(lia)) as Hdiv.
  rewrite mul_ofZ by lia. rewrite sub_ofZ by lia.
  do 2 f_equal. rewrite Z.mod_eq by lia. lia.
Qed.

End Binary64Facts.

(** C5.  For all integers [a] and [b > 0] with [|a| + b <= 2^53], the
    binary64 operations of [floorDiv] and [floorMod] are exact: the calls
    return the quotient [q] and the remainder [r] of floor division, with
    [q * b + r = a] and [0 <= r < b], and [worldToChunk(-1, 16)] is chunk
    [-1] with local coordinate [15].  (Beyond that bound the operations
    round.) *)
Theorem floorDiv_floorMod_spec :
  (forall a b : Z,
     0 < b -> Z.abs a + b <= 2 ^ 53 ->
     exists q r : Z,
       ChunkMath64.floorDiv (Number.ofZ a) (Number.ofZ b)
       = Ok (Number.ofZ q) /\
       ChunkMath64.floorMod (Number.ofZ a) (Number.ofZ b)
       = Ok (Number.ofZ r) /\
       ChunkMath.floorDiv a b = Ok q /\ ChunkMath.floorMod a b = Ok r /\
       q * b + r = a /\ 0 <= r < b) /\
  ChunkMath64.worldToChunk (Number.ofZ (-1)) (Number.ofZ 16)
  = Ok {| ChunkMath64.chunk := Number.ofZ (-1);
          ChunkMath64.local := Number.ofZ 15 |}.
Proof.
  split.
  - intros a b Hb Hab. exists (a / b), (a mod b).
    destruct (floorDiv_floorMod_exact a b Hb) as (Hq & Hr & Heq & Hrange).
    rewrite floorDiv64_exact, floorMod64_exact by lia.
    repeat split; try assumption; lia.
  - unfold ChunkMath64.worldToChunk.
    rewrite leb_ofZ_0. cbn [Z.leb Z.compare].
    rewrite floorDiv64_exact, floorMod64_exact by lia. reflexivity.
Qed.

Lemma floorDiv_floorMod_spec_witness :
  exists q r : Z,
    ChunkMath64.floorDiv (Number.ofZ (-5)) (Number.ofZ 4)
    = Ok (Number.ofZ q) /\
    ChunkMath64.floorMod (Number.ofZ (-5)) (Number.ofZ 4)
    = Ok (Number.ofZ r) /\
    ChunkMath.floorDiv (-5) 4 = Ok q /\ ChunkMath.floorMod (-5) 4 = Ok r /\
    q * 4 + r = -5 /\ 0 <= r < 4.
Proof.
  apply (proj1 floorDiv_floorMod_spec (-5) 4); lia.
Defined.

(** The integer [3 * 2^59 + 256] is a binary64 number.  Divided by 3 it
    gives [2^59 + 85 + 1/3], which rounds to [2^59 + 128]; three times that
    is [3 * 2^59 + 384], which rounds to [3 * 2^59 + 512]; so [floorMod]
    returns [-256], which is not in [0, 3), and [floorDiv * 3 + floorMod]
    falls 128 short of the argument. *)
Lemma floorMod_rounds_above_2_53 :
  Float.round64 (inject_Z (3 * 2 ^ 59 + 256)) = inject_Z (3 * 2 ^ 59 + 256) /\
  ChunkMath64.floorDiv (Number.ofZ (3 * 2 ^ 59 + 256)) (Number.ofZ 3)
  = Ok (Number.ofZ (2 ^ 59 + 128)) /\
  ChunkMath64.floorMod (Number.ofZ (3 * 2 ^ 59 + 256)) (Number.ofZ 3)
  = Ok (Number.ofZ (-256)) /\
  ~ (exists q r : Z,
       ChunkMath64.floorDiv (Number.ofZ (3 * 2 ^ 59 + 256)) (Number.ofZ 3)
       = Ok (Number.ofZ q) /\
       ChunkMath64.floorMod (Number.ofZ (3 * 2 ^ 59 + 256)) (Number.ofZ 3)
       = Ok (Number.ofZ r) /\
       q * 3 + r = 3 * 2 ^ 59 + 256 /\ 0 <= r < 3).
Proof.
  assert (Hmod : ChunkMath64.floorMod (Number.ofZ (3 * 2 ^ 59 + 256))
                   (Number.ofZ 3) = Ok (Number.ofZ (-256)))
    by (vm_compute; reflexivity).
  split; [vm_compute; reflexivity|].
  split; [vm_compute; reflexivity|].
  split; [exact Hmod|].
  intros (q & r & _ & Hr & _ & Hrange).
  rewrite Hmod in Hr. injection Hr as Hr.
  assert (r = -256) by (symmetry; exact Hr). lia.
Qed.

(** ** Radii that are NaN or infinite *)









(** * Further properties *)

(** ** chunkMath *)

Ltac decide_comparisons :=
  repeat match goal with
    | |- context [?a <=? ?b] =>
        first [ rewrite (proj2 (Z.leb_le a b)) by lia
              | rewrite (proj2 (Z.leb_gt a b)) by lia ]
    | |- context [?a <? ?b] =>
        first [ rewrite (proj2 (Z.ltb_lt a b)) by lia
              | rewrite (proj2 (Z.ltb_ge a b)) by lia ]
    | |- context [?a =? ?b] =>
        first [ rewrite (proj2 (Z.eqb_eq a b)) by lia
              | rewrite (proj2 (Z.eqb_neq a b)) by lia ]
    end.

(** X1.  [worldToChunk], with the binary64 arithmetic of the source, throws
    exactly when the test [chunkSize <= 0] holds (which it does not for a
    size that is NaN).  On integers with [|x| + size <= 2^53] the arithmetic
    is exact: there it is the inverse of [(chunk, local) |-> chunk * size +
    local] on local coordinates in [0, size), and its result rebuilds the
    world coordinate.  Beyond the bound the operations round: the local
    coordinate of [3 * 2^59 + 256] for size 3 is [-256]. *)
Theorem worldToChunk_roundtrip :
  (forall x size : Number.number,
     ChunkMath64.worldToChunk x size
     = Throw "worldToChunk requires chunkSize > 0"
     <-> Number.leb size (Number.Finite 0) = true) /\
  (forall size c l : Z,
     0 < size -> 0 <= l < size -> Z.abs (c * size + l) + size <= 2 ^ 53 ->
     ChunkMath64.worldToChunk (Number.ofZ (c * size + l)) (Number.ofZ size)
     = Ok {| ChunkMath64.chunk := Number.ofZ c;
             ChunkMath64.local := Number.ofZ l |}) /\
  (forall x size : Z,
     0 < size -> Z.abs x + size <= 2 ^ 53 ->
     exists c l,
       ChunkMath64.worldToChunk (Number.ofZ x) (Number.ofZ size)
       = Ok {| ChunkMath64.chunk := Number.ofZ c;
               ChunkMath64.local := Number.ofZ l |} /\
       ChunkMath.worldToChunk x size
       = Ok {| ChunkMath.chunk := c; ChunkMath.local := l |} /\
       c * size + l = x /\ 0 <= l < size) /\
  ChunkMath64.worldToChunk (Number.ofZ (3 * 2 ^ 59 + 256)) (Number.ofZ 3)
  = Ok {| ChunkMath64.chunk := Number.ofZ (2 ^ 59 + 128);
          ChunkMath64.local := Number.ofZ (-256) |}.
Proof.
  assert (Hexact : forall x size : Z,
            0 < size -> Z.abs x + size <= 2 ^ 53 ->
            ChunkMath64.worldToChunk (Number.ofZ x) (Number.ofZ size)
            = Ok {| ChunkMath64.chunk := Number.ofZ (x / size);
                    ChunkMath64.local := Number.ofZ (x mod size) |}).
  { intros x size Hsize Hx. unfold ChunkMath64.worldToChunk.
    rewrite leb_ofZ_0, (proj2 (Z.leb_gt size 0) Hsize).
    rewrite floorDiv64_exact, floorMod64_exact by lia. reflexivity. }
  split; [|split; [|split]].
  - intros x size. unfold ChunkMath64.worldToChunk, ChunkMath64.floorMod,
      ChunkMath64.floorDiv.
    destruct (Number.leb size (Number.Finite 0)).
    + split; reflexivity.
    + cbn [bind]. split; discriminate.
  - intros size c l Hsize Hl Hx. rewrite Hexact by assumption.
    f_equal. f_equal; f_equal.
    + rewrite Z.div_add_l by lia. rewrite Z.div_small by lia. lia.
    + rewrite Z.add_comm, Z.mod_add by lia. apply Z.mod_small. lia.
  - intros x size Hsize Hx. exists (x / size), (x mod size).
    rewrite Hexact by assumption. rewrite worldToChunk_pos by assumption.
    pose proof (Z.mod_pos_bound x size Hsize).
    pose proof (Z.div_mod x size). repeat split; lia.
  - vm_compute. reflexivity.
Qed.

Lemma worldToChunk_roundtrip_witness :
  ChunkMath64.worldToChunk (Number.ofZ (-3 * 16 + 5)) (Number.ofZ 16)
  = Ok {| ChunkMath64.chunk := Number.ofZ (-3);
          ChunkMath64.local := Number.ofZ 5 |}.
Proof.
  apply (proj1 (proj2 worldToChunk_roundtrip) 16 (-3) 5); lia.
Defined.

(** X2.  A chunk key reads back as the chunk it was printed from, so two
    chunks with the same key are the same chunk. *)
Theorem chunkKey_roundtrip (cx cz : Z) :
  Manager.parseChunkKey (ChunkMath.chunkKey (Num.Int cx) (Num.Int cz))
  = {| Manager.cx := Num.Int cx; Manager.cz := Num.Int cz |} /\
  forall cx' cz',
    ChunkMath.chunkKey (Num.Int cx) (Num.Int cz)
    = ChunkMath.chunkKey (Num.Int cx') (Num.Int cz') ->
    cx = cx' /\ cz = cz'.
Proof.
  split; [apply parseChunkKey_chunkKey|].
  intros cx' cz'. apply chunkKey_inj.
Qed.

Lemma chunkKey_roundtrip_witness :
  ChunkMath.chunkKey (Num.Int (-3)) (Num.Int 9) = "-3,9" /\
  Manager.parseChunkKey "-3,9"
  = {| Manager.cx := Num.Int (-3); Manager.cz := Num.Int 9 |}.
Proof.
  split; [reflexivity|].
  exact (proj1 (chunkKey_roundtrip (-3) 9)).
Defined.

(** ** seedToInt *)

Lemma toInt32_small (z : Z) : - 2 ^ 31 <= z < 2 ^ 31 -> Seed.toInt32 z = z.
Proof.
  intros Hz. unfold Seed.toInt32. rewrite Z.mod_small by lia. lia.
Qed.

Lemma toInt32_mod (z : Z) : Seed.toInt32 z mod 2 ^ 32 = z mod 2 ^ 32.
Proof.
  unfold Seed.toInt32.
  rewrite Zminus_mod, Z.mod_mod by lia.
  rewrite <- Zminus_mod. f_equal. lia.
Qed.

Lemma lxor_mod_pow2 (a b n : Z) :
  0 <= n ->
  Z.lxor a b mod 2 ^ n = Z.lxor (a mod 2 ^ n) (b mod 2 ^ n).
Proof.
  intros Hn. apply Z.bits_inj'. intros i Hi.
  rewrite Z.lxor_spec.
  destruct (Z.lt_ge_cases i n) as [Hlt|Hge].
  - rewrite !Z.mod_pow2_bits_low by lia. apply Z.lxor_spec.
  - rewrite !Z.mod_pow2_bits_high by lia. reflexivity.
Qed.

Lemma imul_mod (a b : Z) :
  Seed.imul a b mod 2 ^ 32 = (a mod 2 ^ 32 * (b mod 2 ^ 32)) mod 2 ^ 32.
Proof.
  unfold Seed.imul. rewrite toInt32_mod.
  rewrite Z.mul_mod by lia. rewrite !toInt32_mod.
  reflexivity.
Qed.

Lemma fnv_step_mod (hash hash' byte : Z) :
  0 <= byte < 256 ->
  hash mod 2 ^ 32 = hash' mod 2 ^ 32 ->
  Seed.imul (Z.lxor (Seed.toInt32 hash) byte) Seed.FNV_PRIME mod 2 ^ 32
  = (Z.lxor hash' byte * Seed.FNV_PRIME) mod 2 ^ 32 mod 2 ^ 32.
Proof.
  intros Hbyte Hhash.
  assert (Hxor : Z.lxor (Seed.toInt32 hash) byte mod 2 ^ 32
                 = Z.lxor hash' byte mod 2 ^ 32).
  { rewrite (lxor_mod_pow2 (Seed.toInt32 hash) byte 32) by lia.
    rewrite (lxor_mod_pow2 hash' byte 32) by lia.
    rewrite toInt32_mod. congruence. }
  rewrite imul_mod, Z.mod_mod by lia.
  rewrite Hxor. symmetry. apply Z.mul_mod. lia.
Qed.

Lemma fnv_fold_mod (bytes : list ascii) (hash hash' : Z) :
  hash mod 2 ^ 32 = hash' mod 2 ^ 32 ->
  foldl (fun hash c =>
           let hash :=
             Z.lxor (Seed.toInt32 hash) (Z.of_nat (nat_of_ascii c)) in
           Seed.imul hash Seed.FNV_PRIME) hash bytes mod 2 ^ 32
  = foldl (fun hash byte =>
             (Z.lxor hash byte * Seed.FNV_PRIME) mod 2 ^ 32) hash'
          (List.map (fun c => Z.of_nat (nat_of_ascii c)) bytes) mod 2 ^ 32.
Proof.
  revert hash hash'.
  induction bytes as [|c bytes IH]; intros hash hash' Hhash; simpl;
    [assumption|].
  apply IH. apply fnv_step_mod; [|assumption].
  pose proof (nat_ascii_bounded c). lia.
Qed.

Lemma fnv1a32_range (bytes : list Z) : 0 <= fnv1a32 bytes < 2 ^ 32.
Proof.
  unfold fnv1a32.
  assert (H : forall hash, 0 <= hash < 2 ^ 32 ->
              0 <= foldl (fun hash byte =>
                            (Z.lxor hash byte * Seed.FNV_PRIME) mod 2 ^ 32)
                         hash bytes < 2 ^ 32).
  { induction bytes as [|b bytes IH]; intros hash Hh; simpl; [assumption|].
    apply IH. apply Z.mod_pos_bound. lia. }
  apply H. unfold Seed.FNV_OFFSET_BASIS. lia.
Qed.

(** X3.  [seedToInt], which works with signed 32-bit operations ([^=],
    [Math.imul]) and ends with [>>> 0], computes the unsigned 32-bit FNV-1a
    hash of the bytes of the seed; its result is below 2^32. *)
Theorem seedToInt_is_fnv1a (seedStr : string) :
  Seed.seedToInt seedStr = fnv1a32 (bytesOf seedStr) /\
  0 <= Seed.seedToInt seedStr < 2 ^ 32.
Proof.
  assert (E : Seed.seedToInt seedStr = fnv1a32 (bytesOf seedStr)).
  { unfold Seed.seedToInt. cbv zeta.
    rewrite (fnv_fold_mod _ _ Seed.FNV_OFFSET_BASIS) by reflexivity.
    apply Z.mod_small. apply fnv1a32_range. }
  split; [exact E|]. rewrite E. apply fnv1a32_range.
Qed.

(** ** Terrain columns *)

Section ColumnFacts.

Import Terrain.

Variable getSurfaceProfile : string -> Z -> Z -> SurfaceProfile.

Lemma insideHut_true (profile : SurfaceProfile) (hut : HutTemplate) :
  insideHut profile hut ->
  (hutMinX profile hut <=? localX profile)
  && (localX profile <=? hutMaxX profile hut)
  && (hutMinZ profile hut <=? localZ profile)
  && (localZ profile <=? hutMaxZ profile hut) = true.
Proof. intros [[? ?] [? ?]]. decide_comparisons. reflexivity. Qed.

Lemma insideHut_false (profile : SurfaceProfile) (hut : HutTemplate) :
  ~ insideHut profile hut ->
  (hutMinX profile hut <=? localX profile)
  && (localX profile <=? hutMaxX profile hut)
  && (hutMinZ profile hut <=? localZ profile)
  && (localZ profile <=? hutMaxZ profile hut) = false.
Proof.
  intros Hout. unfold insideHut in Hout.
  destruct (Z.leb_spec (hutMinX profile hut) (localX profile));
    destruct (Z.leb_spec (localX profile) (hutMaxX profile hut));
    destruct (Z.leb_spec (hutMinZ profile hut) (localZ profile));
    destruct (Z.leb_spec (localZ profile) (hutMaxZ profile hut));
    simpl; try reflexivity.
  exfalso. apply Hout. lia.
Qed.

(** What one hut template answers: nothing outside its footprint, and
    inside it the floor, the roof, the air above, and the walls with their
    door. *)
Lemma hutVoxel_cases (profile : SurfaceProfile) (y : Z) (hut : HutTemplate) :
  (~ insideHut profile hut -> hutVoxel profile y hut = None) /\
  (insideHut profile hut ->
   (y = surfaceHeight profile ->
    hutVoxel profile y hut = Some VOXEL_STONE) /\
   (surfaceHeight profile + 4 < y ->
    hutVoxel profile y hut = Some VOXEL_AIR) /\
   (y = surfaceHeight profile + 4 ->
    hutVoxel profile y hut = Some VOXEL_DIRT) /\
   (y < surfaceHeight profile -> hutVoxel profile y hut = None) /\
   (surfaceHeight profile + 1 <= y <= surfaceHeight profile + 3 ->
    (~ onHutBoundary profile hut ->
     hutVoxel profile y hut = Some VOXEL_AIR) /\
    (inDoorway profile hut -> y <= surfaceHeight profile + 2 ->
     hutVoxel profile y hut = Some VOXEL_AIR) /\
    (onHutBoundary profile hut ->
     ~ (inDoorway profile hut /\ y <= surfaceHeight profile + 2) ->
     hutVoxel profile y hut = Some VOXEL_STONE))).
Proof.
  unfold hutVoxel.
  fold (hutMinX profile hut). fold (hutMaxX profile hut).
  fold (hutMinZ profile hut). fold (hutMaxZ profile hut).
  split.
  - intros Hout. now rewrite insideHut_false.
  - intros Hin. rewrite insideHut_true by assumption. cbn [negb].
    split; [|split; [|split; [|split]]].
    + intros ->. now rewrite Z.eqb_refl.
    + intros Hy. decide_comparisons. reflexivity.
    + intros ->. decide_comparisons. reflexivity.
    + intros Hy. decide_comparisons. reflexivity.
    + intros Hy.
      rewrite (proj2 (Z.eqb_neq y (surfaceHeight profile))) by lia.
      rewrite (proj2 (Z.ltb_ge (surfaceHeight profile + 4) y)) by lia.
      rewrite (proj2 (Z.eqb_neq y (surfaceHeight profile + 4))) by lia.
      rewrite (proj2 (Z.ltb_ge y (surfaceHeight profile + 1))) by lia.
      rewrite (proj2 (Z.ltb_ge (surfaceHeight profile + 3) y)) by lia.
      cbn [orb].
      unfold onHutBoundary, inDoorway.
      destruct (Z.eqb_spec (localX profile) (hutMinX profile hut));
        destruct (Z.eqb_spec (localX profile) (hutMaxX profile hut));
        destruct (Z.eqb_spec (localZ profile) (hutMinZ profile hut));
        destruct (Z.eqb_spec (localZ profile) (hutMaxZ profile hut));
        destruct (Z.eqb_spec (localX profile)
                    ((hutMinX profile hut + hutMaxX profile hut) / 2));
        destruct (Z.eqb_spec (localZ profile)
                    ((hutMinZ profile hut + hutMaxZ profile hut) / 2));
        destruct (Z.leb_spec y (surfaceHeight profile + 1 + 1));
        destruct (door hut); cbn [orb andb negb isDoorSide];
        (split; [|split]); intros; try reflexivity;
        try (exfalso; intuition lia).
Qed.

Lemma firstHutVoxel_Some (profile : SurfaceProfile) (y : Z)
    (huts : list HutTemplate) (v : VoxelId) :
  firstHutVoxel profile y huts = Some v ->
  exists hut, In hut huts /\ hutVoxel profile y hut = Some v.
Proof.
  induction huts as [|hut huts IH]; simpl; [discriminate|].
  destruct (hutVoxel profile y hut) as [v'|] eqn:Hhut.
  - intros [= <-]. exists hut. auto.
  - intros H. destruct (IH H) as (hut' & Hin & Hv). exists hut'. auto.
Qed.

Lemma getVillageStructureVoxel_Some (profile : SurfaceProfile) (y : Z)
    (v : VoxelId) :
  getVillageStructureVoxel profile y = Some v ->
  isVillage profile = true /\ hutVoxelIn profile y v.
Proof.
  unfold getVillageStructureVoxel.
  destruct (isVillage profile); simpl; [|discriminate].
  intros H. split; [reflexivity|]. now apply firstHutVoxel_Some.
Qed.

(** A hut template never answers grass, answers stone on the surface row and
    air above the roof. *)
Lemma hutVoxel_Some (profile : SurfaceProfile) (y : Z) (hut : HutTemplate)
    (v : VoxelId) :
  hutVoxel profile y hut = Some v ->
  insideHut profile hut /\
  v <> VOXEL_GRASS /\
  surfaceHeight profile <= y /\
  (y = surfaceHeight profile -> v = VOXEL_STONE) /\
  (surfaceHeight profile + 4 < y -> v = VOXEL_AIR).
Proof.
  intros Hv.
  destruct (hutVoxel_cases profile y hut) as [Hout Hin].
  assert (Hinside : insideHut profile hut).
  { unfold insideHut. destruct (Z_le_dec (hutMinX profile hut) (localX profile));
      destruct (Z_le_dec (localX profile) (hutMaxX profile hut));
      destruct (Z_le_dec (hutMinZ profile hut) (localZ profile));
      destruct (Z_le_dec (localZ profile) (hutMaxZ profile hut));
      try (split; split; assumption);
      rewrite Hout in Hv by (unfold insideHut; lia); discriminate. }
  destruct (Hin Hinside) as (Hfloor & Habove & Hroof & Hbelow & Hwall).
  split; [assumption|].
  assert (Hy : surfaceHeight profile <= y).
  { destruct (Z_lt_le_dec y (surfaceHeight profile)) as [Hlt|Hle];
      [|assumption].
    rewrite Hbelow in Hv by assumption. discriminate. }
  repeat split.
  - intros ->.
    destruct (Z.eq_dec y (surfaceHeight profile)) as [E|E];
      [rewrite Hfloor in Hv by assumption; discriminate|].
    destruct (Z_lt_le_dec (surfaceHeight profile + 4) y) as [Hhigh|Hlow];
      [rewrite Habove in Hv by assumption; discriminate|].
    destruct (Z.eq_dec y (surfaceHeight profile + 4)) as [E4|E4];
      [rewrite Hroof in Hv by assumption; discriminate|].
    destruct Hwall as (Hinner & Hdoor & Hstone); [lia|].
    revert Hv. unfold hutVoxel.
    repeat match goal with
           | |- context [if ?c then _ else _] => destruct c
           end; discriminate.
  - assumption.
  - intros E. rewrite Hfloor in Hv by assumption. congruence.
  - intros Hhigh. rewrite Habove in Hv by assumption. congruence.
Qed.

(** X4.  Grass is only ever the surface voxel of a column that is neither
    river, nor village road, nor village: [getVoxel] returns grass exactly
    there. *)
Theorem getVoxel_grass_iff (seedStr : string) (x y z : Z) :
  getVoxel getSurfaceProfile seedStr x y z = VOXEL_GRASS
  <-> y = surfaceHeight (getSurfaceProfile seedStr x z) /\
      isRiver (getSurfaceProfile seedStr x z) = false /\
      isVillageRoad (getSurfaceProfile seedStr x z) = false /\
      isVillage (getSurfaceProfile seedStr x z) = false.
Proof.
  unfold getVoxel.
  set (profile := getSurfaceProfile seedStr x z).
  destruct (Z.ltb_spec y (surfaceHeight profile)) as [Hlt|Hge].
  - destruct (_ <=? _); split; try discriminate; intros [-> _]; lia.
  - destruct (getVillageStructureVoxel profile y) as [v|] eqn:Hs.
    + apply getVillageStructureVoxel_Some in Hs as [Hvillage (hut & _ & Hv)].
      apply hutVoxel_Some in Hv as (_ & Hgrass & _).
      split; [intros ->; contradiction|].
      intros (_ & _ & _ & Hno). congruence.
    + destruct (Z.ltb_spec (surfaceHeight profile) y) as [Hgt|Hle].
      * split; [discriminate|]. intros [-> _]. lia.
      * rewrite (proj2 (Z.eqb_eq y (surfaceHeight profile))) by lia.
        destruct (isRiver profile), (isVillageRoad profile),
          (isVillage profile); split; try discriminate;
          try (intros (_ & ? & ? & ?); discriminate);
          intros _; repeat split; lia.
Qed.

(** X5.  Every voxel at or below the surface is solid.  Above the surface a
    voxel is solid only in a village column inside the footprint of a hut,
    and at most four above the surface; below the surface the three rows
    under it are dirt and everything deeper is stone. *)
Theorem getVoxel_solid_cells (seedStr : string) (x y z : Z) :
  let profile := getSurfaceProfile seedStr x z in
  (y <= surfaceHeight profile ->
   getVoxel getSurfaceProfile seedStr x y z <> VOXEL_AIR) /\
  (surfaceHeight profile < y ->
   getVoxel getSurfaceProfile seedStr x y z <> VOXEL_AIR ->
   isVillage profile = true /\
   y <= surfaceHeight profile + 4 /\
   exists hut, In hut HUT_TEMPLATES /\ insideHut profile hut) /\
  (surfaceHeight profile - 3 <= y < surfaceHeight profile ->
   getVoxel getSurfaceProfile seedStr x y z = VOXEL_DIRT) /\
  (y < surfaceHeight profile - 3 ->
   getVoxel getSurfaceProfile seedStr x y z = VOXEL_STONE).
Proof.
  intros profile. unfold getVoxel. fold profile. unfold DIRT_LAYER_DEPTH.
  split; [|split; [|split]].
  - intros Hy.
    destruct (Z.ltb_spec y (surfaceHeight profile)) as [Hlt|Hge].
    + destruct (_ <=? _); discriminate.
    + assert (E : y = surfaceHeight profile) by lia.
      destruct (getVillageStructureVoxel profile y) as [v|] eqn:Hs.
      * apply getVillageStructureVoxel_Some in Hs as [_ (hut & _ & Hv)].
        apply hutVoxel_Some in Hv as (_ & _ & _ & Hfloor & _).
        rewrite (Hfloor E). discriminate.
      * decide_comparisons.
        destruct (isRiver profile), (isVillageRoad profile),
          (isVillage profile); discriminate.
  - intros Hy Hsolid.
    rewrite (proj2 (Z.ltb_ge y (surfaceHeight profile))) in Hsolid by lia.
    destruct (getVillageStructureVoxel profile y) as [v|] eqn:Hs.
    + apply getVillageStructureVoxel_Some in Hs as [Hvillage (hut & Hin & Hv)].
      apply hutVoxel_Some in Hv as (Hinside & _ & _ & _ & Habove).
      split; [assumption|]. split; [|eauto].
      destruct (Z_lt_le_dec (surfaceHeight profile + 4) y) as [Hhigh|Hlow];
        [|assumption].
      exfalso. apply Hsolid. now apply Habove.
    + rewrite (proj2 (Z.ltb_lt (surfaceHeight profile) y)) in Hsolid by lia.
      contradiction.
  - intros Hy. decide_comparisons. reflexivity.
  - intros Hy. decide_comparisons. reflexivity.
Qed.

Lemma hut_footprints_disjoint (profile : SurfaceProfile)
    (hut hut' : HutTemplate) :
  In hut HUT_TEMPLATES -> In hut' HUT_TEMPLATES ->
  insideHut profile hut -> insideHut profile hut' -> hut = hut'.
Proof.
  unfold HUT_TEMPLATES.
  intros [<-|[<-|[]]] [<-|[<-|[]]]; try reflexivity;
    unfold insideHut, hutMaxX, hutMinX; cbn [offsetX sizeX];
    change (5 / 2) with 2; change (4 / 2) with 2; lia.
Qed.

Lemma firstHutVoxel_inside (profile : SurfaceProfile) (y : Z)
    (hut : HutTemplate) :
  In hut HUT_TEMPLATES -> insideHut profile hut ->
  firstHutVoxel profile y HUT_TEMPLATES = hutVoxel profile y hut.
Proof.
  intros Hin Hinside.
  assert (Hother : forall hut', In hut' HUT_TEMPLATES -> hut' <> hut ->
                                hutVoxel profile y hut' = None).
  { intros hut' Hin' Hne. apply (proj1 (hutVoxel_cases profile y hut')).
    intros Hinside'.
    apply Hne. eapply hut_footprints_disjoint; eassumption. }
  revert Hin Hother. unfold HUT_TEMPLATES.
  intros [<-|[<-|[]]] Hother; cbn [firstHutVoxel].
  - destruct (hutVoxel profile y _) eqn:E; [reflexivity|].
    rewrite Hother; [reflexivity|simpl; auto|discriminate].
  - rewrite Hother; [|simpl; auto|discriminate].
    now destruct (hutVoxel profile y _).
Qed.

(** X6.  The huts of a village.  In a village column inside the footprint
    of a hut template, [getVoxel] gives stone on the surface row, dirt on the
    roof row four above it and air above the roof; on the three rows between
    them it gives air inside the hut and in the two lower rows of the door
    column, and stone on the rest of the rim. *)
Theorem getVoxel_hut (seedStr : string) (x y z : Z) (hut : HutTemplate) :
  let profile := getSurfaceProfile seedStr x z in
  In hut HUT_TEMPLATES ->
  isVillage profile = true ->
  insideHut profile hut ->
  (y = surfaceHeight profile ->
   getVoxel getSurfaceProfile seedStr x y z = VOXEL_STONE) /\
  (y = surfaceHeight profile + 4 ->
   getVoxel getSurfaceProfile seedStr x y z = VOXEL_DIRT) /\
  (surfaceHeight profile + 4 < y ->
   getVoxel getSurfaceProfile seedStr x y z = VOXEL_AIR) /\
  (surfaceHeight profile + 1 <= y <= surfaceHeight profile + 3 ->
   (~ onHutBoundary profile hut ->
    getVoxel getSurfaceProfile seedStr x y z = VOXEL_AIR) /\
   (inDoorway profile hut -> y <= surfaceHeight profile + 2 ->
    getVoxel getSurfaceProfile seedStr x y z = VOXEL_AIR) /\
   (onHutBoundary profile hut ->
    ~ (inDoorway profile hut /\ y <= surfaceHeight profile + 2) ->
    getVoxel getSurfaceProfile seedStr x y z = VOXEL_STONE)).
Proof.
  intros profile Hin Hvillage Hinside.
  assert (Hget : surfaceHeight profile <= y ->
                 forall v, hutVoxel profile y hut = Some v ->
                           getVoxel getSurfaceProfile seedStr x y z = v).
  { intros Hy v Hv. unfold getVoxel. fold profile.
    rewrite (proj2 (Z.ltb_ge y (surfaceHeight profile))) by lia.
    unfold getVillageStructureVoxel. rewrite Hvillage. cbn [negb].
    rewrite (firstHutVoxel_inside profile y hut Hin Hinside), Hv.
    reflexivity. }
  destruct (proj2 (hutVoxel_cases profile y hut) Hinside)
    as (Hfloor & Habove & Hroof & _ & Hwall).
  split; [|split; [|split]].
  - intros E. apply Hget; [lia|auto].
  - intros E. apply Hget; [lia|auto].
  - intros E. apply Hget; [lia|auto].
  - intros Hy. destruct (Hwall Hy) as (Hinner & Hdoor & Hstone).
    split; [|split]; intros; apply Hget; auto; lia.
Qed.

End ColumnFacts.

(** In the sample world: the door column (30, 34) of the first hut is open
    on its two lower rows and closed by stone on the third. *)
Lemma getVoxel_hut_witness :
  (Terrain.getVoxel flatVillageWorld "demo" 30 22 34 = Terrain.VOXEL_AIR /\
   Terrain.getVoxel flatVillageWorld "demo" 30 23 34 = Terrain.VOXEL_STONE) /\
  Terrain.getVoxel flatVillageWorld "demo" 30 24 34 = Terrain.VOXEL_DIRT.
Proof.
  assert (Hin : In {| Terrain.offsetX := -6; Terrain.offsetZ := -4;
                      Terrain.sizeX := 5; Terrain.sizeZ := 5;
                      Terrain.door := Terrain.south |}
                   Terrain.HUT_TEMPLATES) by (left; reflexivity).
  assert (Hinside : insideHut (flatVillageWorld "demo" 30 34)
                      {| Terrain.offsetX := -6; Terrain.offsetZ := -4;
                         Terrain.sizeX := 5; Terrain.sizeZ := 5;
                         Terrain.door := Terrain.south |}).
  { vm_compute. repeat split; discriminate. }
  destruct (getVoxel_hut flatVillageWorld "demo" 30 22 34 _ Hin eq_refl
              Hinside) as (_ & _ & _ & Hrow22).
  destruct (getVoxel_hut flatVillageWorld "demo" 30 23 34 _ Hin eq_refl
              Hinside) as (_ & _ & _ & Hrow23).
  destruct (getVoxel_hut flatVillageWorld "demo" 30 24 34 _ Hin eq_refl
              Hinside) as (_ & Hroof & _).
  destruct Hrow22 as (_ & Hdoor & _); [simpl; lia|].
  destruct Hrow23 as (_ & _ & Hstone); [simpl; lia|].
  split; [split|].
  - apply Hdoor; [vm_compute; split; reflexivity|simpl; lia].
  - apply Hstone; [right; right; right; reflexivity|].
    intros [_ H]. simpl in H. lia.
  - apply Hroof. reflexivity.
Defined.

Lemma getVoxel_solid_cells_witness :
  Terrain.getVoxel flatVillageWorld "demo" 5 20 5 <> Terrain.VOXEL_AIR /\
  Terrain.getVoxel flatVillageWorld "demo" 5 18 5 = Terrain.VOXEL_DIRT.
Proof.
  split.
  - apply (proj1 (getVoxel_solid_cells flatVillageWorld "demo" 5 20 5)).
    simpl. lia.
  - apply (proj1 (proj2 (proj2
             (getVoxel_solid_cells flatVillageWorld "demo" 5 18 5)))).
    simpl. lia.
Defined.

(** ** Solidity and the huts *)

Section SolidFacts.

Import Terrain.

Variable getSurfaceProfile : string -> Z -> Z -> SurfaceProfile.

(** In a village column inside a hut's footprint, at or above the surface,
    [getVoxel] is what the template of that hut answers. *)
Lemma getVoxel_inside_hut (seedStr : string) (x y z : Z) (hut : HutTemplate)
    (v : VoxelId) :
  let profile := getSurfaceProfile seedStr x z in
  In hut HUT_TEMPLATES -> isVillage profile = true ->
  insideHut profile hut -> surfaceHeight profile <= y ->
  hutVoxel profile y hut = Some v ->
  getVoxel getSurfaceProfile seedStr x y z = v.
Proof.
  intros profile Hin Hvillage Hinside Hy Hv. unfold getVoxel. fold profile.
  rewrite (proj2 (Z.ltb_ge y (surfaceHeight profile))) by lia.
  unfold getVillageStructureVoxel. rewrite Hvillage. cbn [negb].
  now rewrite (firstHutVoxel_inside profile y hut Hin Hinside), Hv.
Qed.

(** Above the surface, a voxel that is not air is a voxel of a hut. *)
Lemma getVoxel_above_surface (seedStr : string) (x y z : Z) :
  let profile := getSurfaceProfile seedStr x z in
  surfaceHeight profile < y ->
  getVoxel getSurfaceProfile seedStr x y z <> VOXEL_AIR ->
  isVillage profile = true /\
  exists hut,
    In hut HUT_TEMPLATES /\ insideHut profile hut /\
    hutVoxel profile y hut
    = Some (getVoxel getSurfaceProfile seedStr x y z).
Proof.
  intros profile Hy. unfold getVoxel. fold profile.
  rewrite (proj2 (Z.ltb_ge y (surfaceHeight profile))) by lia.
  destruct (getVillageStructureVoxel profile y) as [v|] eqn:Hs.
  - intros _.
    apply getVillageStructureVoxel_Some in Hs as [Hvillage (hut & Hin & Hv)].
    split; [assumption|]. exists hut.
    split; [assumption|]. split; [|assumption].
    now apply hutVoxel_Some in Hv.
  - rewrite (proj2 (Z.ltb_lt (surfaceHeight profile) y)) by lia.
    contradiction.
Qed.

Lemma onHutBoundary_dec (profile : SurfaceProfile) (hut : HutTemplate) :
  onHutBoundary profile hut \/ ~ onHutBoundary profile hut.
Proof. unfold onHutBoundary. lia. Qed.

Lemma inDoorway_dec (profile : SurfaceProfile) (hut : HutTemplate) :
  inDoorway profile hut \/ ~ inDoorway profile hut.
Proof.
  unfold inDoorway. destruct (door hut).
  - destruct (Z.eq_dec (localZ profile) (hutMaxZ profile hut));
      destruct (Z.eq_dec (localX profile)
                  ((hutMinX profile hut + hutMaxX profile hut) / 2));
      tauto.
  - destruct (Z.eq_dec (localX profile) (hutMinX profile hut));
      destruct (Z.eq_dec (localZ profile)
                  ((hutMinZ profile hut + hutMaxZ profile hut) / 2));
      tauto.
Qed.

(** C10.  [isSolidTerrainVoxel(seed, x, y, z)] is true exactly when
    [y <= getSurfaceHeight(seed, x, z)], the surface height of the profile of
    the column, whatever the village structures are.  So a roof cell of a
    hut, four above the surface, where [getVoxel] gives dirt, and a wall cell
    of a hut, one to three above the surface, where [getVoxel] gives stone,
    are not solid to it; and these are all the cells between one and four
    above the surface where [getVoxel] gives stone or dirt. *)
Theorem isSolidTerrainVoxel_ignores_structures (seedStr : string)
    (x y z : Z) :
  let profile := getSurfaceProfile seedStr x z in
  getSurfaceHeight getSurfaceProfile seedStr x z = surfaceHeight profile /\
  (isSolidTerrainVoxel getSurfaceProfile seedStr x y z = true
   <-> y <= surfaceHeight profile) /\
  (forall hut : HutTemplate,
     In hut HUT_TEMPLATES -> isVillage profile = true ->
     insideHut profile hut ->
     (y = surfaceHeight profile + 4 ->
      getVoxel getSurfaceProfile seedStr x y z = VOXEL_DIRT /\
      isSolidTerrainVoxel getSurfaceProfile seedStr x y z = false) /\
     (surfaceHeight profile + 1 <= y <= surfaceHeight profile + 3 ->
      onHutBoundary profile hut ->
      ~ (inDoorway profile hut /\ y <= surfaceHeight profile + 2) ->
      getVoxel getSurfaceProfile seedStr x y z = VOXEL_STONE /\
      isSolidTerrainVoxel getSurfaceProfile seedStr x y z = false)) /\
  (surfaceHeight profile + 1 <= y <= surfaceHeight profile + 4 ->
   getVoxel getSurfaceProfile seedStr x y z = VOXEL_STONE \/
   getVoxel getSurfaceProfile seedStr x y z = VOXEL_DIRT ->
   isSolidTerrainVoxel getSurfaceProfile seedStr x y z = false /\
   isVillage profile = true /\
   exists hut : HutTemplate,
     In hut HUT_TEMPLATES /\ insideHut profile hut /\
     (y = surfaceHeight profile + 4 \/
      onHutBoundary profile hut /\
      ~ (inDoorway profile hut /\ y <= surfaceHeight profile + 2))).
Proof.
  intros profile.
  assert (Hsolid : isSolidTerrainVoxel getSurfaceProfile seedStr x y z = true
                   <-> y <= surfaceHeight profile).
  { unfold isSolidTerrainVoxel, getSurfaceHeight. fold profile.
    apply Z.leb_le. }
  assert (Hnot : surfaceHeight profile < y ->
                 isSolidTerrainVoxel getSurfaceProfile seedStr x y z = false).
  { intros Hy.
    destruct (isSolidTerrainVoxel getSurfaceProfile seedStr x y z);
      [|reflexivity].
    pose proof (proj1 Hsolid eq_refl). lia. }
  split; [reflexivity|]. split; [exact Hsolid|]. split.
  - intros hut Hin Hvillage Hinside.
    destruct (proj2 (hutVoxel_cases profile y hut) Hinside)
      as (_ & _ & Hroof & _ & Hwall).
    split.
    + intros Hy. split; [|apply Hnot; lia].
      apply (getVoxel_inside_hut seedStr x y z hut); auto. fold profile. lia.
    + intros Hy Hrim Hdoor. split; [|apply Hnot; lia].
      apply (getVoxel_inside_hut seedStr x y z hut); auto;
        [fold profile; lia|].
      now apply Hwall.
  - intros Hy Hv. split; [apply Hnot; lia|].
    destruct (getVoxel_above_surface seedStr x y z)
      as (Hvillage & hut & Hin & Hinside & Hhut).
    { fold profile. lia. }
    { destruct Hv as [-> | ->]; discriminate. }
    fold profile in Hvillage, Hinside, Hhut.
    split; [assumption|]. exists hut. split; [assumption|].
    split; [assumption|].
    destruct (Z.eq_dec y (surfaceHeight profile + 4)) as [E|E]; [now left|].
    right.
    destruct (proj2 (hutVoxel_cases profile y hut) Hinside)
      as (_ & _ & _ & _ & Hwall).
    destruct Hwall as (Hinner & Hdoor & _); [lia|].
    assert (Hair : hutVoxel profile y hut <> Some VOXEL_AIR).
    { rewrite Hhut. destruct Hv as [-> | ->]; discriminate. }
    split.
    + destruct (onHutBoundary_dec profile hut) as [Hrim|Hrim];
        [assumption|].
      exfalso. now apply Hair, Hinner.
    + intros [Hd Hlow]. now apply Hair, Hdoor.
Qed.

End SolidFacts.

(** In the sample world the cell (28, 21, 30) is in the north wall of the
    first hut, one above the surface, and the cell (28, 24, 30) in its roof:
    stone and dirt to [getVoxel], not solid to [isSolidTerrainVoxel]. *)
Lemma isSolidTerrainVoxel_ignores_structures_witness :
  (Terrain.getVoxel flatVillageWorld "demo" 28 21 30 = Terrain.VOXEL_STONE /\
   Terrain.isSolidTerrainVoxel flatVillageWorld "demo" 28 21 30 = false) /\
  (Terrain.getVoxel flatVillageWorld "demo" 28 24 30 = Terrain.VOXEL_DIRT /\
   Terrain.isSolidTerrainVoxel flatVillageWorld "demo" 28 24 30 = false) /\
  Terrain.isSolidTerrainVoxel flatVillageWorld "demo" 28 20 30 = true.
Proof.
  assert (Hin : In {| Terrain.offsetX := -6; Terrain.offsetZ := -4;
                      Terrain.sizeX := 5; Terrain.sizeZ := 5;
                      Terrain.door := Terrain.south |}
                   Terrain.HUT_TEMPLATES) by (left; reflexivity).
  assert (Hinside : insideHut (flatVillageWorld "demo" 28 30)
                      {| Terrain.offsetX := -6; Terrain.offsetZ := -4;
                         Terrain.sizeX := 5; Terrain.sizeZ := 5;
                         Terrain.door := Terrain.south |}).
  { vm_compute. repeat split; discriminate. }
  destruct (isSolidTerrainVoxel_ignores_structures flatVillageWorld "demo"
              28 21 30) as (_ & _ & Hwall & _).
  destruct (isSolidTerrainVoxel_ignores_structures flatVillageWorld "demo"
              28 24 30) as (_ & _ & Hroof & _).
  destruct (isSolidTerrainVoxel_ignores_structures flatVillageWorld "demo"
              28 20 30) as (_ & Hsurface & _).
  split; [|split].
  - apply (proj2 (Hwall _ Hin eq_refl Hinside)).
    + simpl. lia.
    + right. right. left. reflexivity.
    + intros [[Hz _] _]. vm_compute in Hz. discriminate.
  - apply (proj1 (Hroof _ Hin eq_refl Hinside)). reflexivity.
  - apply Hsurface. simpl. lia.
Defined.

(** ** More on the padded voxel buffer *)

Section BuilderMore.

Import VoxelBuilder.

Variable K : ChunkConstants.
Variable getSurfaceProfile : string -> Z -> Z -> Terrain.SurfaceProfile.
Variable seedStr : string.
Variable isDestroyed : option (Z -> Z -> Z -> bool).

(** The cell [(px, py, pz)] of the buffer of chunk [(cx, cz)] holds
    [paddedCellValue]. *)
Lemma paddedCell_value (cx cz px py pz : Z) :
  0 <= px < CHUNK_SIZE_PADDED K ->
  0 <= py < CHUNK_HEIGHT_PADDED K ->
  0 <= pz < CHUNK_SIZE_PADDED K ->
  readAt (buildChunkVoxelsWithOverrides K getSurfaceProfile seedStr cx cz
            isDestroyed)
         (indexOf K px py pz)
  = Some (paddedCellValue K getSurfaceProfile seedStr cx cz isDestroyed
            px py pz).
Proof.
  intros Hpx Hpy Hpz.
  assert (Hall :
            builderInvariant K
              (paddedCellValue K getSurfaceProfile seedStr cx cz isDestroyed)
              0 (0 + CHUNK_HEIGHT_PADDED K) 0
              (buildChunkVoxelsWithOverrides K getSurfaceProfile seedStr
                 cx cz isDestroyed)).
  { unfold buildChunkVoxelsWithOverrides.
    apply (forRange_invariant
             (fun qy => builderInvariant K
                          (paddedCellValue K getSurfaceProfile seedStr cx cz
                             isDestroyed) 0 qy 0)); [lia| |].
    - split; [apply length_newArray|].
      intros ? ? ? ? ? ? Hb. unfold writtenBefore in Hb. lia.
    - intros qy voxels Hqy Hinv. apply builderInv_slice_end.
      apply (forRange_invariant
               (fun qz => builderInvariant K
                            (paddedCellValue K getSurfaceProfile seedStr
                               cx cz isDestroyed) 0 qy qz));
        [lia|assumption|].
      intros qz voxels' Hqz Hinv'. apply builderInv_row_end.
      apply (forRange_invariant
               (fun qx => builderInvariant K
                            (paddedCellValue K getSurfaceProfile seedStr
                               cx cz isDestroyed) qx qy qz));
        [lia|assumption|].
      intros qx voxels'' Hqx Hinv''.
      apply (builderInv_write K getSurfaceProfile seedStr cx cz isDestroyed
               qx qy qz); auto; lia. }
  destruct Hall as [_ Hcells].
  apply (Hcells px py pz); try assumption.
  unfold writtenBefore. lia.
Qed.

Lemma buildChunkVoxels_cells (cx cz : Z) :
  length (buildChunkVoxelsWithOverrides K getSurfaceProfile seedStr cx cz
            isDestroyed)
  = Z.to_nat (CHUNK_SIZE_PADDED K * CHUNK_HEIGHT_PADDED K
              * CHUNK_SIZE_PADDED K) /\
  voxelIds (buildChunkVoxelsWithOverrides K getSurfaceProfile seedStr cx cz
              isDestroyed).
Proof.
  unfold buildChunkVoxelsWithOverrides.
  set (shape := fun voxels : list Z =>
         length voxels
         = Z.to_nat (CHUNK_SIZE_PADDED K * CHUNK_HEIGHT_PADDED K
                     * CHUNK_SIZE_PADDED K) /\ voxelIds voxels).
  change (shape
            (forRange 0 (CHUNK_HEIGHT_PADDED K)
               (fun py voxels =>
                  let worldY := py - 1 in
                  forRange 0 (CHUNK_SIZE_PADDED K)
                    (fun pz voxels0 =>
                       let worldZ := cz * CHUNK_SIZE K + (pz - 1) in
                       forRange 0 (CHUNK_SIZE_PADDED K)
                         (fun px voxels1 =>
                            let worldX := cx * CHUNK_SIZE K + (px - 1) in
                            writeAt voxels1 (indexOf K px py pz)
                              (if callIsDestroyed isDestroyed worldX worldY
                                    worldZ
                               then 0
                               else Terrain.voxelCode
                                      (Terrain.getVoxel getSurfaceProfile
                                         seedStr worldX worldY worldZ)))
                         voxels0) voxels)
               (newArray (CHUNK_SIZE_PADDED K * CHUNK_HEIGHT_PADDED K
                          * CHUNK_SIZE_PADDED K)))).
  apply forRange_preserves.
  - split; [apply length_newArray|]. apply Forall_replicate. lia.
  - intros py voxels _ Hshape. cbv zeta.
    apply forRange_preserves; [assumption|].
    intros pz voxels' _ Hshape'. cbv zeta.
    apply forRange_preserves; [assumption|].
    intros px voxels'' _ [Hlen Hids]. split.
    + now rewrite length_writeAt.
    + unfold writeAt. destruct (_ <? 0); [assumption|].
      apply Forall_insert; [assumption|].
      destruct (callIsDestroyed _ _ _ _); [lia|].
      destruct (Terrain.getVoxel _ _ _ _ _); simpl; lia.
Qed.

(** X7.  The buffer has one cell per padded position and every cell holds a
    voxel id, 0 to 3. *)
Theorem buildChunkVoxels_shape (cx cz : Z) :
  length (buildChunkVoxelsWithOverrides K getSurfaceProfile seedStr cx cz
            isDestroyed)
  = Z.to_nat (CHUNK_SIZE_PADDED K * CHUNK_HEIGHT_PADDED K
              * CHUNK_SIZE_PADDED K) /\
  voxelIds (buildChunkVoxelsWithOverrides K getSurfaceProfile seedStr cx cz
              isDestroyed).
Proof. apply buildChunkVoxels_cells. Qed.

(** X8.  Chunks agree where their buffers overlap: two padded cells, of any
    two chunks, that stand for the same world voxel hold the same voxel.  In
    particular the halo of a chunk repeats the border cells of its
    neighbours. *)
Theorem overlapping_cells_agree (cx cz cx' cz' px py pz px' pz' : Z) :
  0 <= px < CHUNK_SIZE_PADDED K -> 0 <= px' < CHUNK_SIZE_PADDED K ->
  0 <= py < CHUNK_HEIGHT_PADDED K ->
  0 <= pz < CHUNK_SIZE_PADDED K -> 0 <= pz' < CHUNK_SIZE_PADDED K ->
  cx * CHUNK_SIZE K + px = cx' * CHUNK_SIZE K + px' ->
  cz * CHUNK_SIZE K + pz = cz' * CHUNK_SIZE K + pz' ->
  readAt (buildChunkVoxelsWithOverrides K getSurfaceProfile seedStr cx cz
            isDestroyed)
         (indexOf K px py pz)
  = readAt (buildChunkVoxelsWithOverrides K getSurfaceProfile seedStr cx' cz'
              isDestroyed)
           (indexOf K px' py pz').
Proof.
  intros Hpx Hpx' Hpy Hpz Hpz' Hx Hz.
  rewrite !paddedCell_value by assumption.
  unfold paddedCellValue.
  replace (cx * CHUNK_SIZE K + (px - 1))
    with (cx' * CHUNK_SIZE K + (px' - 1)) by lia.
  replace (cz * CHUNK_SIZE K + (pz - 1))
    with (cz' * CHUNK_SIZE K + (pz' - 1)) by lia.
  reflexivity.
Qed.

End BuilderMore.

(** With chunks of 16: the halo column 17 of chunk (0, 0) is the first inner
    column of chunk (1, 0). *)
Lemma overlapping_cells_agree_witness :
  readAt (VoxelBuilder.buildChunkVoxelsWithOverrides sampleConstants
            flatVillageWorld "demo" 0 0 (Some destroyedAbove18))
         (VoxelBuilder.indexOf sampleConstants 17 20 5)
  = readAt (VoxelBuilder.buildChunkVoxelsWithOverrides sampleConstants
              flatVillageWorld "demo" 1 0 (Some destroyedAbove18))
           (VoxelBuilder.indexOf sampleConstants 1 20 5).
Proof.
  apply (overlapping_cells_agree sampleConstants flatVillageWorld "demo"
           (Some destroyedAbove18) 0 0 1 0 17 20 5 1 5); simpl; lia.
Defined.

(** ** The greedy mesher covers every boundary face once *)

(** A loop whose every turn returns and takes the invariant from one turn
    to the next returns with the invariant of its end. *)
Lemma forRangeM_invariant {S : Type} (P : Z -> S -> Prop) (lo n : Z)
    (body : Z -> S -> option S) (s : S) :
  0 <= n ->
  P lo s ->
  (forall i st, lo <= i < lo + n -> P i st ->
     exists st', body i st = Some st' /\ P (i + 1) st') ->
  exists s', forRangeM lo n body s = Some s' /\ P (lo + n) s'.
Proof.
  intros Hn H0 Hstep.
  assert (Hk : forall k : nat,
             Z.of_nat k <= n ->
             exists s', forRangeM lo (Z.of_nat k) body s = Some s' /\
                        P (lo + Z.of_nat k) s').
  { induction k as [|k IH]; intros Hle.
    - rewrite forRangeM_nil by lia. exists s. split; [reflexivity|].
      now rewrite Z.add_0_r.
    - rewrite Nat2Z.inj_succ, <- Z.add_1_r.
      rewrite forRangeM_snoc by lia.
      destruct IH as (s1 & -> & H1); [lia|].
      rewrite Z.add_assoc. apply Hstep; [lia|assumption]. }
  specialize (Hk (Z.to_nat n)). rewrite Z2Nat.id in Hk by assumption.
  apply Hk. lia.
Qed.

Section CoverFacts.

Import GreedyMesher.

Variable voxels : list Z.
Variable dims : PaddedChunkDims.

Lemma maskAt_writeAt_eq (mask : list Z) (i value : Z) :
  0 <= i < Z.of_nat (length mask) -> maskAt (writeAt mask i value) i = value.
Proof. intros Hi. unfold maskAt. now rewrite readAt_writeAt_eq. Qed.

Lemma maskAt_writeAt_ne (mask : list Z) (i j value : Z) :
  i <> j -> maskAt (writeAt mask i value) j = maskAt mask j.
Proof. intros Hij. unfold maskAt. now rewrite readAt_writeAt_ne. Qed.

Lemma cell_index_range (sizeU sizeV u v : Z) :
  0 <= u < sizeU -> 0 <= v < sizeV ->
  0 <= v * sizeU + u < sizeU * sizeV.
Proof. intros Hu Hv. nia. Qed.

Lemma cell_index_inj (sizeU u v u' v' : Z) :
  0 <= u < sizeU -> 0 <= u' < sizeU ->
  v * sizeU + u = v' * sizeU + u' -> u = u' /\ v = v'.
Proof.
  intros Hu Hu' Heq.
  assert (Hdiff : (v' - v) * sizeU = u - u') by lia.
  assert (v = v') by nia. subst v'. lia.
Qed.

(** The first pair of loops stores [faceValue] in every cell of the mask. *)
Lemma fillMask_spec (d w sizeU sizeV : Z) (mask : list Z) :
  0 <= sizeU -> 0 <= sizeV ->
  length mask = Z.to_nat (sizeU * sizeV) ->
  length (fillMask voxels dims d w sizeU sizeV mask)
  = Z.to_nat (sizeU * sizeV) /\
  forall u v,
    0 <= u < sizeU -> 0 <= v < sizeV ->
    maskAt (fillMask voxels dims d w sizeU sizeV mask) (v * sizeU + u)
    = faceValue voxels dims d w u v.
Proof.
  intros HU HV Hlen. unfold fillMask.
  pose (inv := fun (qu qv : Z) (st : Z * list Z) =>
          fst st = qv * sizeU + qu /\
          length (snd st) = Z.to_nat (sizeU * sizeV) /\
          forall u v,
            0 <= u < sizeU -> 0 <= v < sizeV ->
            v < qv \/ (v = qv /\ u < qu) ->
            maskAt (snd st) (v * sizeU + u) = faceValue voxels dims d w u v).
  match goal with
  | |- context [forRange 0 sizeV ?body ?s] =>
      assert (Hall : inv 0 (0 + sizeV) (forRange 0 sizeV body s))
  end.
  { apply (forRange_invariant (fun qv => inv 0 qv)); [assumption| |].
    - unfold inv; simpl. repeat split; [assumption|]. intros; lia.
    - intros qv st Hqv Hinv.
      assert (Hrow : inv (0 + sizeU) qv
                (forRange 0 sizeU
                   (fun u '(maskIndex, mask0) =>
                      let '(ax, ay, az, (bx, by_, bz)) :=
                        if d =? 0 then (w - 1, u, qv, (w, u, qv))
                        else if d =? 1 then (qv, w - 1, u, (qv, w, u))
                        else (u, qv, w - 1, (u, qv, w)) in
                      let a := sample voxels dims ax ay az in
                      let b := sample voxels dims bx by_ bz in
                      let aSolid := isSolid a in
                      let bSolid := isSolid b in
                      let mask1 :=
                        if Bool.eqb aSolid bSolid
                        then writeAt mask0 maskIndex 0
                        else if aSolid
                             then writeAt mask0 maskIndex (storedInt32 a)
                             else writeAt mask0 maskIndex (storedNegInt32 b)
                      in (maskIndex + 1, mask1)) st)).
      { apply (forRange_invariant (fun qu => inv qu qv)); [assumption| |].
        - destruct Hinv as (Hi & Hl & Hc). repeat split; auto; lia.
        - intros qu [maskIndex mask0] Hqu (Hi & Hl & Hc). simpl in Hi, Hl, Hc.
          assert (Hbody :
                    (let '(ax, ay, az, (bx, by_, bz)) :=
                       if d =? 0 then (w - 1, qu, qv, (w, qu, qv))
                       else if d =? 1 then (qv, w - 1, qu, (qv, w, qu))
                       else (qu, qv, w - 1, (qu, qv, w)) in
                     let a := sample voxels dims ax ay az in
                     let b := sample voxels dims bx by_ bz in
                     let aSolid := isSolid a in
                     let bSolid := isSolid b in
                     let mask1 :=
                       if Bool.eqb aSolid bSolid
                       then writeAt mask0 maskIndex 0
                       else if aSolid
                            then writeAt mask0 maskIndex (storedInt32 a)
                            else writeAt mask0 maskIndex (storedNegInt32 b)
                     in (maskIndex + 1, mask1))
                    = (maskIndex + 1,
                       writeAt mask0 maskIndex
                         (faceValue voxels dims d w qu qv))).
          { unfold faceValue.
            destruct (d =? 0); [|destruct (d =? 1)]; cbv zeta;
              (destruct (Bool.eqb _ _); [reflexivity|];
               destruct (isSolid _); reflexivity). }
          rewrite Hbody. clear Hbody.
          assert (Hrange : 0 <= maskIndex < Z.of_nat (length mask0)).
          { rewrite Hl, Z2Nat.id by nia. subst maskIndex.
            apply cell_index_range; lia. }
          unfold inv; simpl. repeat split.
          + lia.
          + now rewrite length_writeAt.
          + intros u v Hu Hv Hbefore.
            destruct (Z.eq_dec (v * sizeU + u) maskIndex) as [Heq|Hne].
            * rewrite Heq, maskAt_writeAt_eq by assumption.
              rewrite Hi in Heq.
              apply cell_index_inj in Heq as [-> ->]; [reflexivity|lia|lia].
            * rewrite maskAt_writeAt_ne by congruence.
              apply Hc; try assumption.
              destruct Hbefore as [Hlt|[-> Hlt]]; [now left|].
              right. split; [reflexivity|].
              assert (u <> qu) by (intros ->; apply Hne; now rewrite Hi).
              lia. }
      destruct Hrow as (Hi & Hl & Hc). repeat split.
      + etransitivity; [exact Hi|lia].
      + exact Hl.
      + intros u v Hu Hv Hbefore. apply Hc; try assumption.
        destruct Hbefore as [Hlt|[-> Hlt]]; lia. }
  destruct Hall as (_ & Hl & Hc). split; [assumption|].
  intros u v Hu Hv. apply Hc; try assumption. lia.
Qed.

(** The width grows over cells that hold the value of the first one and
    stays inside the row. *)
Lemma growWidth_spec (mask : list Z) (sizeU u start signedVoxel : Z) :
  0 <= u < sizeU ->
  exists width,
    growWidth mask sizeU u start signedVoxel = Some width /\
    1 <= width /\ u + width <= sizeU /\
    forall k, 1 <= k < width -> maskAt mask (start + k) = signedVoxel.
Proof.
  intros Hu. unfold growWidth.
  destruct (while_terminates
              (fun width => Z.to_nat (sizeU - u - width))
              (fun width =>
                 1 <= width /\ u + width <= sizeU /\
                 forall k, 1 <= k < width ->
                           maskAt mask (start + k) = signedVoxel)
              (fun width =>
                 (u + width <? sizeU)
                 && (maskAt mask (start + width) =? signedVoxel))
              (fun width => Some (width + 1)))
    with (fuel := Z.to_nat sizeU) (s := 1) as (width & Hw & Hinv & _).
  - intros width (Hge & Hle & Hcells) Hcond.
    apply andb_prop in Hcond as [Hlt Heq].
    apply Z.ltb_lt in Hlt. apply Z.eqb_eq in Heq.
    exists (width + 1). split; [reflexivity|]. split; [|lia].
    split; [lia|]. split; [lia|].
    intros k Hk. destruct (Z.eq_dec k width) as [->|Hne]; [assumption|].
    apply Hcells. lia.
  - split; [lia|]. split; [lia|]. intros k Hk. lia.
  - lia.
  - exists width. split; [assumption|]. exact Hinv.
Qed.

(** The height grows over rows that hold the value all along the width and
    stays inside the slice. *)
Lemma growHeight_spec (mask : list Z)
    (sizeU sizeV u v width signedVoxel : Z) :
  0 <= v < sizeV ->
  exists height canGrow,
    growHeight mask sizeU sizeV u v width signedVoxel
    = Some (height, canGrow) /\
    1 <= height /\ v + height <= sizeV /\
    forall j k,
      1 <= j < height -> 0 <= k < width ->
      maskAt mask ((v + j) * sizeU + u + k) = signedVoxel.
Proof.
  intros Hv. unfold growHeight.
  destruct (while_terminates
              (growHeightMeasure sizeV v)
              (fun st : Z * bool =>
                 1 <= fst st /\ v + fst st <= sizeV /\
                 forall j k,
                   1 <= j < fst st -> 0 <= k < width ->
                   maskAt mask ((v + j) * sizeU + u + k) = signedVoxel)
              (fun '(height, canGrow) => (v + height <? sizeV) && canGrow)
              (fun '(height, canGrow) =>
                 let rowStart := (v + height) * sizeU + u in
                 let canGrow := rowMatches mask rowStart width signedVoxel in
                 Some (if canGrow then (height + 1, canGrow)
                       else (height, canGrow))))
    with (fuel := Z.to_nat sizeV) (s := (1, true))
    as ([height canGrow] & Hw & Hinv & _).
  - intros [height canGrow] (Hge & Hle & Hcells) Hcond.
    simpl in Hge, Hle, Hcells.
    apply andb_prop in Hcond as [Hlt ->]. apply Z.ltb_lt in Hlt.
    destruct (rowMatches mask ((v + height) * sizeU + u) width signedVoxel)
      eqn:Hrow.
    + exists (height + 1, true). cbv zeta. rewrite Hrow.
      unfold growHeightMeasure; simpl. split; [reflexivity|].
      split; [|lia]. split; [lia|]. split; [lia|].
      intros j k Hj Hk.
      destruct (Z.eq_dec j height) as [->|Hne]; [|apply Hcells; lia].
      unfold rowMatches in Hrow.
      apply Z.eqb_eq.
      exact (forallb_seqZ _ _ _ Hrow k ltac:(lia)).
    + exists (height, false). cbv zeta. rewrite Hrow.
      unfold growHeightMeasure; simpl. split; [reflexivity|].
      split; [|lia]. split; [lia|]. split; [lia|]. exact Hcells.
  - simpl. split; [lia|]. split; [lia|]. intros j k Hj Hk. lia.
  - unfold growHeightMeasure; simpl. lia.
  - exists height, canGrow. split; [assumption|]. exact Hinv.
Qed.

(** The cells of the merged rectangle are zeroed and no other cell is
    touched. *)
Lemma clearRect_spec (sizeU sizeV u v width height : Z) (mask : list Z) :
  0 <= u -> 0 <= width -> u + width <= sizeU ->
  0 <= v -> 0 <= height -> v + height <= sizeV ->
  length mask = Z.to_nat (sizeU * sizeV) ->
  length (clearRect sizeU u v width height mask)
  = Z.to_nat (sizeU * sizeV) /\
  forall u' v',
    0 <= u' < sizeU -> 0 <= v' < sizeV ->
    (u <= u' < u + width /\ v <= v' < v + height ->
     maskAt (clearRect sizeU u v width height mask) (v' * sizeU + u') = 0) /\
    (~ (u <= u' < u + width /\ v <= v' < v + height) ->
     maskAt (clearRect sizeU u v width height mask) (v' * sizeU + u')
     = maskAt mask (v' * sizeU + u')).
Proof.
  intros Hu Hwidth HuU Hv Hheight HvV Hlen. unfold clearRect.
  pose (cleared := fun (qx qy u' v' : Z) =>
          u <= u' < u + width /\
          (v <= v' < v + qy \/ (v' = v + qy /\ u' < u + qx))).
  pose (inv := fun (qx qy : Z) (mask' : list Z) =>
          length mask' = Z.to_nat (sizeU * sizeV) /\
          forall u' v',
            0 <= u' < sizeU -> 0 <= v' < sizeV ->
            (cleared qx qy u' v' -> maskAt mask' (v' * sizeU + u') = 0) /\
            (~ cleared qx qy u' v' ->
             maskAt mask' (v' * sizeU + u') = maskAt mask (v' * sizeU + u'))).
  match goal with
  | |- context [forRange 0 height ?body ?s] =>
      assert (Hall : inv 0 (0 + height) (forRange 0 height body s))
  end.
  { apply (forRange_invariant (fun qy => inv 0 qy)); [assumption| |].
    - split; [assumption|]. intros u' v' Hu' Hv'. unfold cleared.
      split; [lia|reflexivity].
    - intros qy mask1 Hqy Hinv. cbv zeta.
      assert (Hrow : inv (0 + width) qy
                (forRange 0 width
                   (fun x mask0 => writeAt mask0 ((v + qy) * sizeU + u + x) 0)
                   mask1)).
      { apply (forRange_invariant (fun qx => inv qx qy));
          [assumption|assumption|].
        intros qx mask2 Hqx [Hl Hc]. split; [now rewrite length_writeAt|].
        intros u' v' Hu' Hv'.
        destruct (Z.eq_dec ((v + qy) * sizeU + u + qx) (v' * sizeU + u'))
          as [Heq|Hne].
        - assert (Hcell : u + qx = u' /\ v + qy = v').
          { apply (cell_index_inj sizeU); lia. }
          destruct Hcell as [<- <-]. split.
          + intros _. rewrite <- Heq. apply maskAt_writeAt_eq.
            rewrite Hl, Z2Nat.id by nia.
            replace ((v + qy) * sizeU + u + qx)
              with ((v + qy) * sizeU + (u + qx)) by lia.
            apply cell_index_range; lia.
          + intros Hnot. exfalso. apply Hnot. unfold cleared. lia.
        - rewrite maskAt_writeAt_ne by assumption.
          destruct (Hc u' v' Hu' Hv') as [Hin Hout]. split.
          + intros Hcl. apply Hin. unfold cleared in *.
            destruct Hcl as [Hx [Hy|[-> Hy]]]; [lia|].
            assert (u' <> u + qx) by (intros ->; apply Hne; lia). lia.
          + intros Hnot. apply Hout. unfold cleared in *. lia. }
      destruct Hrow as [Hl Hc]. split; [assumption|].
      intros u' v' Hu' Hv'. destruct (Hc u' v' Hu' Hv') as [Hin Hout]. split.
      + intros Hcl. apply Hin. unfold cleared in *. lia.
      + intros Hnot. apply Hout. unfold cleared in *. lia. }
  destruct Hall as [Hl Hc]. split; [assumption|].
  intros u' v' Hu' Hv'. destruct (Hc u' v' Hu' Hv') as [Hin Hout]. split.
  - intros Hrect. apply Hin. unfold cleared. lia.
  - intros Hnot. apply Hout. unfold cleared. lia.
Qed.

Lemma covers_spec (q : Quad) (d w u v : Z) :
  covers q d w u v = true
  <-> q_d q = d /\ q_w q = w /\
      q_u q <= u < q_u q + q_width q /\
      q_v q <= v < q_v q + q_height q.
Proof.
  unfold covers.
  rewrite !andb_true_iff, !Z.eqb_eq, !Z.leb_le, !Z.ltb_lt. lia.
Qed.

Lemma coverCount_snoc (quads : list Quad) (q : Quad) (d w u v : Z) :
  coverCount (quads ++ [q]) d w u v
  = (coverCount quads d w u v + if covers q d w u v then 1 else 0)%nat.
Proof.
  unfold coverCount. rewrite List.filter_app, length_app. simpl.
  now destruct (covers q d w u v).
Qed.

Lemma emitQuads_snoc (quads : list Quad) (q : Quad) :
  emitQuads (quads ++ [q]) = emitOne (emitQuads quads) q.
Proof. unfold emitQuads. now rewrite foldl_app. Qed.

Lemma expectedCover_filled (value : Z) : expectedCover value value = 0%nat.
Proof. unfold expectedCover. now destruct (value =? 0). Qed.

Section Slice.

Variable d w : Z.

Local Abbreviation sizeU := (innerSize dims (AXIS_U d)).
Local Abbreviation sizeV := (innerSize dims (AXIS_V d)).

Hypothesis d_range : 0 <= d < 3.
Hypothesis w_range : 0 <= w <= innerSize dims d.

(** One turn of the loop over [u]: either the cell is empty and skipped, or
    a rectangle of boundary faces not covered so far is emitted and
    cleared. *)
Lemma scanStep_cover (v : Z) (s : Scan) :
  0 <= v < sizeV ->
  scanInvariant voxels dims d w v s ->
  s_u s < sizeU ->
  exists s',
    scanStep d w sizeU sizeV v s = Some s' /\
    s_u s < s_u s' /\ scanInvariant voxels dims d w v s'.
Proof.
  intros Hv (Hu & Hcleared & quads & Hm & Hlen & Hquads & Hcells & Hother)
    Hlt.
  unfold scanStep.
  destruct (Z.eqb_spec (maskAt (s_mask s) (v * sizeU + s_u s)) 0)
    as [Hzero|Hsolid].
  - eexists. split; [reflexivity|]. simpl. split; [lia|].
    unfold scanInvariant; simpl.
    split; [lia|]. split.
    + intros u' v' Hu' Hv' Hbefore.
      destruct (Z.eq_dec u' (s_u s)) as [->|Hne].
      * destruct Hbefore as [Hb|[-> _]]; [|assumption].
        apply Hcleared; auto.
      * apply Hcleared; auto. lia.
    + exists quads. split; [assumption|]. split; [assumption|].
      split; [assumption|]. split; assumption.
  - set (signedVoxel := maskAt (s_mask s) (v * sizeU + s_u s)) in *.
    destruct (growWidth_spec (s_mask s) sizeU (s_u s) (v * sizeU + s_u s)
                signedVoxel ltac:(lia))
      as (width & -> & Hwidth & HwidthU & Hrow).
    destruct (growHeight_spec (s_mask s) sizeU sizeV (s_u s) v width
                signedVoxel Hv)
      as (height & canGrow & -> & Hheight & HheightV & Hrows).
    set (q := {| q_d := d; q_w := w; q_u := s_u s; q_v := v;
                 q_width := width; q_height := height;
                 q_signed := signedVoxel |}).
    assert (Hrect : forall u' v',
               s_u s <= u' < s_u s + width -> v <= v' < v + height ->
               maskAt (s_mask s) (v' * sizeU + u') = signedVoxel).
    { intros u' v' Hu' Hv'.
      destruct (Z.eq_dec v' v) as [->|Hnv].
      - destruct (Z.eq_dec u' (s_u s)) as [->|Hnu]; [reflexivity|].
        replace (v * sizeU + u')
          with (v * sizeU + s_u s + (u' - s_u s)) by lia.
        apply Hrow. lia.
      - replace (v' * sizeU + u')
          with ((v + (v' - v)) * sizeU + s_u s + (u' - s_u s)) by lia.
        apply Hrows; lia. }
    assert (Hface : forall u' v',
               s_u s <= u' < s_u s + width -> v <= v' < v + height ->
               faceValue voxels dims d w u' v' = signedVoxel).
    { intros u' v' Hu' Hv'.
      destruct (Hcells u' v' ltac:(lia) ltac:(lia)) as [[Hz|Hf] _].
      - rewrite Hrect in Hz by assumption. contradiction.
      - rewrite Hrect in Hf by assumption. now symmetry. }
    destruct (clearRect_spec sizeU sizeV (s_u s) v width height (s_mask s))
      as [Hlen' Hclear]; try lia; try assumption.
    eexists. split; [reflexivity|]. simpl. split; [lia|].
    unfold scanInvariant; simpl.
    split; [lia|]. split.
    + intros u' v' Hu' Hv' Hbefore.
      destruct (Hclear u' v' Hu' Hv') as [Hin Hout].
      destruct Hbefore as [Hup|[-> Hleft]].
      * rewrite Hout by lia. apply Hcleared; auto.
      * destruct (Z_le_gt_dec (s_u s) u') as [Hge|Hlow].
        -- apply Hin. lia.
        -- rewrite Hout by lia. apply Hcleared; auto; lia.
    + exists (quads ++ [q]). split.
      { rewrite emitQuads_snoc, <- Hm. reflexivity. }
      split; [assumption|]. split.
      { rewrite Forall_app. split; [assumption|].
        constructor; [|constructor].
        unfold quadOnBoundary; simpl.
        do 8 (split; [lia|]). split; [assumption|].
        intros j k Hj Hk. apply Hface; lia. }
      split.
      * intros u' v' Hu' Hv'.
        destruct (Hclear u' v' Hu' Hv') as [Hin Hout].
        destruct (Hcells u' v' Hu' Hv') as [Hmask Hcount].
        rewrite coverCount_snoc, Hcount.
        destruct (covers q d w u' v') eqn:Hcov.
        -- apply covers_spec in Hcov. simpl in Hcov.
           rewrite Hin by lia. split; [now left|].
           rewrite Hrect, Hface by lia.
           unfold expectedCover.
           destruct (Z.eqb_spec signedVoxel 0); [contradiction|].
           reflexivity.
        -- assert (Hnot : ~ (s_u s <= u' < s_u s + width
                              /\ v <= v' < v + height)).
           { intros Hin'.
             assert (Hc : covers q d w u' v' = true)
               by (apply covers_spec; simpl; lia).
             congruence. }
           rewrite Hout by assumption. split; [assumption|]. lia.
      * intros d' w' u' v' Hin' Hne.
        rewrite coverCount_snoc, Hother by assumption.
        destruct (covers q d' w' u' v') eqn:Hcov; [|lia].
        apply covers_spec in Hcov. simpl in Hcov. lia.
Qed.

(** The loop over [u] ends with the whole row cleared. *)
Lemma scanRow_cover (v : Z) (mask : list Z) (m : Buffers) :
  0 <= sizeU ->
  0 <= v < sizeV ->
  rowInvariant voxels dims d w v (mask, m) ->
  exists s,
    while (Z.to_nat sizeU) (fun s => s_u s <? sizeU)
          (scanStep d w sizeU sizeV v)
          {| s_u := 0; s_mask := mask; s_buffers := m |} = Some s /\
    rowInvariant voxels dims d w (v + 1) (s_mask s, s_buffers s).
Proof.
  intros HU Hv [Hcleared Hquads]. simpl in Hcleared, Hquads.
  destruct (while_terminates
              (fun s => Z.to_nat (sizeU - s_u s))
              (scanInvariant voxels dims d w v)
              (fun s => s_u s <? sizeU)
              (scanStep d w sizeU sizeV v))
    with (fuel := Z.to_nat sizeU)
         (s := {| s_u := 0; s_mask := mask; s_buffers := m |})
    as (s & Hs & Hinv & Hend).
  - intros s Hinv Hcond. apply Z.ltb_lt in Hcond.
    destruct (scanStep_cover v s Hv Hinv Hcond) as (s' & Hs' & Hlt & Hinv').
    exists s'. split; [assumption|]. split; [assumption|].
    destruct Hinv' as [Hu' _]. lia.
  - unfold scanInvariant; simpl. split; [lia|]. split; assumption.
  - simpl. lia.
  - exists s. split; [assumption|].
    apply Z.ltb_ge in Hend.
    destruct Hinv as (Hu & Hcl & Hq).
    split; [|exact Hq]. simpl.
    intros u' v' Hu' Hv' Hbefore. apply Hcl; try assumption. lia.
Qed.

(** The second pair of loops of a slice ends with the whole mask cleared. *)
Lemma mergeSlice_cover (mask : list Z) (m : Buffers) :
  0 <= sizeU -> 0 <= sizeV ->
  rowInvariant voxels dims d w 0 (mask, m) ->
  exists mask' m',
    mergeSlice d w sizeU sizeV mask m = Some (mask', m') /\
    rowInvariant voxels dims d w sizeV (mask', m').
Proof.
  intros HU HV Hinv. unfold mergeSlice.
  destruct (forRangeM_invariant
              (rowInvariant voxels dims d w)
              0 sizeV
              (fun v '(mask, m) =>
                 match
                   while (Z.to_nat sizeU) (fun s => s_u s <? sizeU)
                         (scanStep d w sizeU sizeV v)
                         {| s_u := 0; s_mask := mask; s_buffers := m |}
                 with
                 | Some s => Some (s_mask s, s_buffers s)
                 | None => None
                 end)
              (mask, m))
    as ([mask' m'] & Hr & Hinv'); [assumption|assumption| |eauto].
  intros v [mask1 m1] Hv Hinv1.
  destruct (scanRow_cover v mask1 m1) as (s & -> & Hs);
    [assumption|lia|assumption|].
  eauto.
Qed.

(** One slice: fill the mask, then merge.  Afterwards the slice is done. *)
Lemma slice_cover (mask : list Z) (m : Buffers) :
  0 <= sizeU -> 0 <= sizeV ->
  axisInvariant voxels dims d w (mask, m) ->
  exists mask' m',
    mergeSlice d w sizeU sizeV (fillMask voxels dims d w sizeU sizeV mask) m
    = Some (mask', m') /\
    axisInvariant voxels dims d (w + 1) (mask', m').
Proof.
  intros HU HV (Hlen & quads & Hm & Hquads & Hcover).
  simpl in Hlen, Hm.
  destruct (fillMask_spec d w sizeU sizeV mask HU HV Hlen) as [Hlen1 Hfill].
  destruct (mergeSlice_cover (fillMask voxels dims d w sizeU sizeV mask) m
              HU HV)
    as (mask' & m' & Hr & Hcl & quads' & Hm' & Hlen' & Hquads' & Hcells
        & Hother).
  { split; simpl.
    - intros u' v' Hu' Hv' Hbefore. lia.
    - exists quads. split; [assumption|]. split; [assumption|].
      split; [assumption|]. split.
      + intros u v Hu Hv. rewrite Hfill by assumption.
        split; [now right|].
        rewrite expectedCover_filled.
        rewrite Hcover by (unfold faceIn; lia).
        unfold sliceDone.
        rewrite !Z.ltb_irrefl, Z.eqb_refl. reflexivity.
      + intros d' w' u' v' Hin _. now apply Hcover. }
  cbn [fst snd] in Hcl, Hm', Hlen', Hcells, Hother.
  exists mask', m'. split; [assumption|].
  split; [assumption|]. exists quads'. split; [assumption|].
  split; [assumption|].
  intros d' w' u' v' Hin.
  destruct (Z.eq_dec d' d) as [->|Hd]; [destruct (Z.eq_dec w' w) as [->|Hw]|].
  - destruct Hin as (_ & _ & Hu & Hv).
    destruct (Hcells u' v' Hu Hv) as [_ ->].
    rewrite (Hcl u' v' Hu Hv) by lia.
    unfold sliceDone. rewrite Z.eqb_refl.
    destruct (Z.ltb_spec w (w + 1)); [|lia].
    simpl. now rewrite orb_true_r.
  - rewrite Hother by auto.
    unfold sliceDone. rewrite Z.eqb_refl, Z.ltb_irrefl. simpl.
    destruct (Z.ltb_spec w' w); destruct (Z.ltb_spec w' (w + 1));
      try reflexivity; lia.
  - rewrite Hother by auto.
    unfold sliceDone.
    destruct (Z.eqb_spec d' d); [contradiction|].
    reflexivity.
Qed.

End Slice.

Lemma innerSize_positive (axis : Z) :
  3 <= x dims -> 3 <= y dims -> 3 <= z dims -> 1 <= innerSize dims axis.
Proof.
  intros Hx Hy Hz. unfold innerSize.
  destruct (axis =? 0); [lia|]. destruct (axis =? 1); lia.
Qed.

(** The loops of [greedyMesh] return the arrays of a list of quads that
    covers each boundary face once and no other face. *)
Lemma meshAxes_cover :
  3 <= x dims -> 3 <= y dims -> 3 <= z dims ->
  exists quads,
    meshAxes voxels dims = Some (emitQuads quads) /\
    coverInvariant voxels dims 3 0 quads.
Proof.
  intros Hx Hy Hz.
  assert (Hsize : forall axis, 1 <= innerSize dims axis)
    by (intros; now apply innerSize_positive).
  unfold meshAxes.
  destruct (forRangeM_invariant
              (fun d m =>
                 exists quads,
                   m = emitQuads quads /\ coverInvariant voxels dims d 0 quads)
              0 3
              (fun d m =>
                 let uAxis := AXIS_U d in
                 let vAxis := AXIS_V d in
                 let sizeD := innerSize dims d in
                 let sizeU := innerSize dims uAxis in
                 let sizeV := innerSize dims vAxis in
                 let mask := newArray (sizeU * sizeV) in
                 match
                   forRangeM 0 (sizeD + 1) (fun w '(mask, m) =>
                     let mask := fillMask voxels dims d w sizeU sizeV mask in
                     mergeSlice d w sizeU sizeV mask m)
                     (mask, m)
                 with
                 | Some (_, m) => Some m
                 | None => None
                 end)
              emptyBuffers)
    as (m & Hr & quads & -> & Hcover); [lia| | |eauto].
  - exists []. split; [reflexivity|]. split; [constructor|].
    intros d' w' u' v' (Hd & Hw & _). unfold sliceDone.
    destruct (Z.ltb_spec d' 0); [lia|].
    destruct (Z.ltb_spec w' 0); [lia|].
    now rewrite andb_false_r.
  - intros d m Hd (quads & -> & Hquads & Hcover). cbv zeta.
    destruct (forRangeM_invariant
                (axisInvariant voxels dims d)
                0 (innerSize dims d + 1)
                (fun w '(mask, m) =>
                   mergeSlice d w (innerSize dims (AXIS_U d))
                     (innerSize dims (AXIS_V d))
                     (fillMask voxels dims d w (innerSize dims (AXIS_U d))
                        (innerSize dims (AXIS_V d)) mask) m)
                (newArray (innerSize dims (AXIS_U d)
                           * innerSize dims (AXIS_V d)),
                 emitQuads quads))
      as ([mask' m'] & Hr & Hlen & quads' & Hm' & Hquads' & Hcover').
    + specialize (Hsize d). lia.
    + split; [apply length_newArray|].
      exists quads. split; [reflexivity|]. split; assumption.
    + intros w [mask1 m1] Hw Hinv.
      destruct (slice_cover d w ltac:(lia) ltac:(lia) mask1 m1)
        as (mask2 & m2 & Hr2 & Hinv2); try assumption.
      * specialize (Hsize (AXIS_U d)). lia.
      * specialize (Hsize (AXIS_V d)). lia.
      * exists (mask2, m2). split; assumption.
    + rewrite Hr. simpl in Hm'. subst m'.
      exists (emitQuads quads'). split; [reflexivity|].
      exists quads'. split; [reflexivity|]. split; [assumption|].
      intros d' w' u' v' Hin. rewrite Hcover' by assumption.
      destruct Hin as (Hd' & Hw' & _). unfold sliceDone.
      destruct (Z.ltb_spec d' d); destruct (Z.ltb_spec d' (d + 1));
        destruct (Z.eqb_spec d' d); destruct (Z.eqb_spec d' (d + 1));
        destruct (Z.ltb_spec w' (0 + (innerSize dims d + 1)));
        destruct (Z.ltb_spec w' 0);
        simpl; try reflexivity; try (subst; lia).
Qed.

End CoverFacts.

(** ** What the mesh of a chunk is made of *)

Section MeshTheorems.

Import GreedyMesher.

Variable voxels : list Z.
Variable dims : PaddedChunkDims.

Lemma greedyMesh_renderQuads (quads : list Quad) :
  3 <= x dims -> 3 <= y dims -> 3 <= z dims ->
  meshAxes voxels dims = Some (emitQuads quads) ->
  greedyMesh voxels dims = Some (Ok (renderQuads quads)).
Proof.
  intros Hx Hy Hz Hm. unfold greedyMesh. rewrite Hm.
  destruct (Z.ltb_spec (x dims) 3); [lia|].
  destruct (Z.ltb_spec (y dims) 3); [lia|].
  destruct (Z.ltb_spec (z dims) 3); [lia|].
  reflexivity.
Qed.

Lemma coverInvariant_end (quads : list Quad) (d w u v : Z) :
  coverInvariant voxels dims 3 0 quads ->
  faceIn dims d w u v ->
  coverCount quads d w u v
  = if faceValue voxels dims d w u v =? 0 then 0%nat else 1%nat.
Proof.
  intros [_ Hcover] Hin. rewrite Hcover by assumption.
  destruct Hin as (Hd & _). unfold sliceDone, expectedCover.
  destruct (Z.ltb_spec d 3); [|lia]. simpl.
  now rewrite orb_false_r.
Qed.

Lemma quadCount_emitQuads (quads : list Quad) :
  b_quadCount (emitQuads quads) = Z.of_nat (length quads).
Proof.
  induction quads as [|q quads IH] using rev_ind; [reflexivity|].
  rewrite emitQuads_snoc, length_app, Nat2Z.inj_add. simpl.
  rewrite <- IH. unfold emitOne, emitQuad.
  destruct (colorForVoxel _) as [[r g] b].
  destruct (q_d q =? 0); [|destruct (q_d q =? 1)];
    destruct (0 <? (if 0 <? q_signed q then 1 else -1)); reflexivity.
Qed.

(** The first cell of a quad is a face of the grid, and a boundary. *)
Lemma quadOnBoundary_face (q : Quad) :
  quadOnBoundary voxels dims q ->
  faceIn dims (q_d q) (q_w q) (q_u q) (q_v q) /\
  faceValue voxels dims (q_d q) (q_w q) (q_u q) (q_v q) <> 0.
Proof.
  intros (Hd & Hw & Hu & Hwidth & HuU & Hv & Hheight & HvV & Hs & Hfaces).
  split; [unfold faceIn; lia|].
  specialize (Hfaces 0 0 ltac:(lia) ltac:(lia)).
  rewrite !Z.add_0_r in Hfaces. congruence.
Qed.

(** No face of a buffer of zeros is a boundary, whatever the length of the
    buffer. *)
Lemma faceValue_air (d w u v : Z) :
  Forall (fun voxel => voxel = 0) voxels -> faceValue voxels dims d w u v = 0.
Proof.
  intros Hair.
  assert (Hsample : forall lx ly lz,
             sample voxels dims lx ly lz = Some 0
             \/ sample voxels dims lx ly lz = None).
  { intros lx ly lz. unfold sample.
    destruct (_ || _); [now left|].
    unfold readAt. destruct (_ <? 0); [now right|].
    destruct (voxels !! _) as [voxel|] eqn:Hl; [|now right].
    left. f_equal. exact (Forall_lookup_1 _ _ _ _ Hair Hl). }
  unfold faceValue.
  destruct (d =? 0); [|destruct (d =? 1)]; cbv zeta;
    match goal with
    | |- context [Bool.eqb (isSolid (sample voxels dims ?a ?b ?c))
                           (isSolid (sample voxels dims ?a' ?b' ?c'))] =>
        destruct (Hsample a b c) as [-> | ->];
        destruct (Hsample a' b' c') as [-> | ->]; reflexivity
    end.
Qed.

(** In a buffer of voxel ids every face value is an id or minus an id. *)
Lemma faceValue_range (d w u v : Z) :
  voxelIds voxels -> -3 <= faceValue voxels dims d w u v <= 3.
Proof.
  intros Hids.
  assert (Hsample : forall lx ly lz,
             match sample voxels dims lx ly lz with
             | Some voxel => 0 <= voxel <= 3
             | None => True
             end).
  { intros lx ly lz. unfold sample.
    destruct (_ || _); [unfold VOXEL_AIR; lia|].
    unfold readAt. destruct (_ <? 0); [exact I|].
    destruct (voxels !! _) as [voxel|] eqn:Hl; [|exact I].
    exact (Forall_lookup_1 _ _ _ _ Hids Hl). }
  unfold faceValue.
  destruct (d =? 0); [|destruct (d =? 1)]; cbv zeta;
    match goal with
    | |- context [Bool.eqb (isSolid (sample voxels dims ?a ?b ?c))
                           (isSolid (sample voxels dims ?a' ?b' ?c'))] =>
        pose proof (Hsample a b c) as Ha;
        pose proof (Hsample a' b' c') as Hb;
        destruct (sample voxels dims a b c);
        destruct (sample voxels dims a' b' c');
        destruct (Bool.eqb _ _); try lia;
        destruct (isSolid _); simpl; lia
    end.
Qed.

Lemma Triples_app {A : Type} (P : A -> A -> A -> Prop) (l1 l2 : list A) :
  Triples P l1 -> Triples P l2 -> Triples P (l1 ++ l2).
Proof.
  intros H1 H2. induction H1 as [|a b c rest Habc _ IH]; [assumption|].
  simpl. now constructor.
Qed.

(** The vertices of a quad are corners of the grid, its normals unit
    vectors along an axis, and its colour that of its voxel. *)
Lemma emitOne_geometry (m : Buffers) (q : Quad) :
  quadOnBoundary voxels dims q ->
  Triples (gridCorner dims) (b_positions m) ->
  Triples axisUnit (b_normals m) ->
  Triples (gridCorner dims) (b_positions (emitOne m q)) /\
  Triples axisUnit (b_normals (emitOne m q)).
Proof.
  intros (Hd & Hw & Hu & Hwidth & HuU & Hv & Hheight & HvV & Hs & _)
    Hpos Hnor.
  unfold emitOne, emitQuad.
  destruct (colorForVoxel _) as [[r g] b].
  assert (Hsign : Z.abs (if 0 <? q_signed q then 1 else -1) = 1)
    by (destruct (0 <? q_signed q); reflexivity).
  unfold innerSize, AXIS_U, AXIS_V in *.
  destruct (Z.eqb_spec (q_d q) 0) as [H0|H0];
    [|destruct (Z.eqb_spec (q_d q) 1) as [H1|H1];
      [|destruct (Z.eqb_spec (q_d q) 2) as [H2|H2]; [|lia]]];
    (try rewrite H0 in *; try rewrite H1 in *; try rewrite H2 in *);
    simpl in *;
    destruct (0 <? (if 0 <? q_signed q then 1 else -1));
    simpl; rewrite <- !app_assoc; simpl;
    (split; apply Triples_app; try assumption;
     repeat constructor; unfold gridCorner, axisUnit; simpl; lia).
Qed.

Lemma emitQuads_geometry (quads : list Quad) :
  Forall (quadOnBoundary voxels dims) quads ->
  Triples (gridCorner dims) (b_positions (emitQuads quads)) /\
  Triples axisUnit (b_normals (emitQuads quads)).
Proof.
  induction quads as [|q quads IH] using rev_ind; intros Hall.
  - split; constructor.
  - apply Forall_app in Hall as [Hall Hq].
    apply Forall_inv in Hq.
    destruct (IH Hall) as [Hpos Hnor].
    rewrite emitQuads_snoc. now apply emitOne_geometry.
Qed.

Lemma emitQuads_colors (quads : list Quad) :
  voxelIds voxels ->
  Forall (quadOnBoundary voxels dims) quads ->
  Triples paletteColor (b_colors (emitQuads quads)).
Proof.
  intros Hids.
  induction quads as [|q quads IH] using rev_ind; intros Hall.
  - constructor.
  - apply Forall_app in Hall as [Hall Hq].
    apply Forall_inv in Hq. specialize (IH Hall).
    rewrite emitQuads_snoc.
    assert (Hid : 1 <= Z.abs (q_signed q) <= 3).
    { destruct Hq as (_ & _ & _ & Hwidth & _ & _ & Hheight & _ & Hs & Hf).
      specialize (Hf 0 0 ltac:(lia) ltac:(lia)).
      pose proof (faceValue_range (q_d q) (q_w q) (q_u q + 0) (q_v q + 0)
                    Hids).
      lia. }
    assert (Hcolor : paletteColor
                       (fst (fst (colorForVoxel (Z.abs (q_signed q)))))
                       (snd (fst (colorForVoxel (Z.abs (q_signed q)))))
                       (snd (colorForVoxel (Z.abs (q_signed q))))).
    { exists (Z.abs (q_signed q)). split; [assumption|].
      now destruct (colorForVoxel _) as [[r g] b]. }
    unfold emitOne, emitQuad.
    destruct (colorForVoxel _) as [[r g] b]. simpl in Hcolor.
    destruct (q_d q =? 0); [|destruct (q_d q =? 1)];
      destruct (0 <? (if 0 <? q_signed q then 1 else -1));
      simpl; rewrite <- !app_assoc; simpl;
      (apply Triples_app; [assumption|]; repeat constructor; assumption).
Qed.

(** What the [Float32Array] of colours holds: the palette rounded. *)
Lemma Triples_toFloat32 (colors : list Q) :
  Triples paletteColor colors ->
  Triples paletteColor32 (List.map Float.toFloat32 colors).
Proof.
  induction 1 as [|r g b rest (id & Hid & Hcolor) _ IH]; simpl;
    constructor; try assumption.
  exists id, r, g, b. repeat split; try assumption; lia.
Qed.

End MeshTheorems.

(** The nine numbers of the palette in binary32. *)
Lemma palette_toFloat32 :
  List.map Float.toFloat32 [0.36; 0.72; 0.31; 0.49; 0.35; 0.22; 0.56; 0.58]%Q
  = [3019899 # 8388608; 3019899 # 4194304; 5200937 # 16777216;
     2055209 # 4194304; 11744051 # 33554432; 7381975 # 33554432;
     9395241 # 16777216; 9730785 # 16777216]%Q.
Proof. vm_compute. reflexivity. Qed.

(** X9.  Greedy meshing covers exactly the boundary faces, each once.  On
    padded dimensions of at least 3 [greedyMesh] returns the arrays of a
    list of rectangles (its calls of [emitQuad]) such that every rectangle
    lies in one slice of the grid and all the faces in it have the same,
    non-zero face value (the same voxel on the same side, nothing or a solid
    voxel on both sides being 0), and such that every face of the grid with
    a non-zero value lies in exactly one rectangle and every other face in
    none. *)
Theorem greedyMesh_exact_cover (voxels : list Z)
    (dims : GreedyMesher.PaddedChunkDims) :
  3 <= GreedyMesher.x dims ->
  3 <= GreedyMesher.y dims ->
  3 <= GreedyMesher.z dims ->
  exists quads,
    GreedyMesher.greedyMesh voxels dims = Some (Ok (renderQuads quads)) /\
    Forall (quadOnBoundary voxels dims) quads /\
    forall d w u v,
      faceIn dims d w u v ->
      coverCount quads d w u v
      = if faceValue voxels dims d w u v =? 0 then 0%nat else 1%nat.
Proof.
  intros Hx Hy Hz.
  destruct (meshAxes_cover voxels dims Hx Hy Hz) as (quads & Hm & Hcover).
  exists quads. split; [now apply greedyMesh_renderQuads|].
  split; [apply Hcover|].
  intros d w u v Hin. now apply coverInvariant_end.
Qed.

Lemma greedyMesh_exact_cover_witness :
  exists quads,
    GreedyMesher.greedyMesh (singleVoxelBuffer 1 1 1 3) dims555
    = Some (Ok (renderQuads quads)) /\
    Forall (quadOnBoundary (singleVoxelBuffer 1 1 1 3) dims555) quads /\
    forall d w u v,
      faceIn dims555 d w u v ->
      coverCount quads d w u v
      = if faceValue (singleVoxelBuffer 1 1 1 3) dims555 d w u v =? 0
        then 0%nat else 1%nat.
Proof.
  apply (greedyMesh_exact_cover (singleVoxelBuffer 1 1 1 3) dims555);
    simpl; lia.
Defined.

(** X10.  The mesh is empty exactly when the grid has no boundary face: on
    padded dimensions of at least 3 the returned quad count is 0 if and only
    if every face of the grid has value 0, and then all four arrays are
    empty. *)
Theorem greedyMesh_empty_iff (voxels : list Z)
    (dims : GreedyMesher.PaddedChunkDims) :
  3 <= GreedyMesher.x dims ->
  3 <= GreedyMesher.y dims ->
  3 <= GreedyMesher.z dims ->
  exists payload,
    GreedyMesher.greedyMesh voxels dims = Some (Ok payload) /\
    (GreedyMesher.quadCount payload = 0
     <-> forall d w u v,
           faceIn dims d w u v -> faceValue voxels dims d w u v = 0) /\
    (GreedyMesher.quadCount payload = 0 -> payload = emptyMesh).
Proof.
  intros Hx Hy Hz.
  destruct (meshAxes_cover voxels dims Hx Hy Hz) as (quads & Hm & Hcover).
  exists (renderQuads quads). split; [now apply greedyMesh_renderQuads|].
  unfold renderQuads at 1 3; simpl. rewrite quadCount_emitQuads.
  split; [split|].
  - intros Hnone d w u v Hin.
    destruct quads; [|discriminate].
    pose proof (coverInvariant_end voxels dims [] d w u v Hcover Hin) as Hc.
    destruct (Z.eqb_spec (faceValue voxels dims d w u v) 0);
      [assumption|discriminate].
  - intros Hnone. destruct quads as [|q quads]; [reflexivity|].
    destruct Hcover as [Hall _]. apply Forall_inv in Hall.
    destruct (quadOnBoundary_face voxels dims q Hall) as [Hin Hne].
    now specialize (Hnone _ _ _ _ Hin).
  - intros Hzero. destruct quads; [reflexivity|discriminate].
Qed.

Lemma greedyMesh_empty_iff_witness :
  exists payload,
    GreedyMesher.greedyMesh (singleVoxelBuffer 1 1 1 3) dims555
    = Some (Ok payload) /\
    (GreedyMesher.quadCount payload = 0
     <-> forall d w u v,
           faceIn dims555 d w u v ->
           faceValue (singleVoxelBuffer 1 1 1 3) dims555 d w u v = 0) /\
    (GreedyMesher.quadCount payload = 0 -> payload = emptyMesh).
Proof.
  apply (greedyMesh_empty_iff (singleVoxelBuffer 1 1 1 3) dims555);
    simpl; lia.
Defined.

(** X11.  A buffer of air gives the empty mesh: if every byte of the buffer
    is 0, whatever its length, [greedyMesh] returns no quad and empty
    arrays. *)
Theorem greedyMesh_air (voxels : list Z)
    (dims : GreedyMesher.PaddedChunkDims) :
  3 <= GreedyMesher.x dims ->
  3 <= GreedyMesher.y dims ->
  3 <= GreedyMesher.z dims ->
  Forall (fun voxel => voxel = 0) voxels ->
  GreedyMesher.greedyMesh voxels dims = Some (Ok emptyMesh).
Proof.
  intros Hx Hy Hz Hair.
  destruct (meshAxes_cover voxels dims Hx Hy Hz) as (quads & Hm & Hcover).
  rewrite (greedyMesh_renderQuads voxels dims quads) by assumption.
  destruct quads as [|q quads]; [reflexivity|].
  destruct Hcover as [Hall _]. apply Forall_inv in Hall.
  destruct (quadOnBoundary_face voxels dims q Hall) as [_ Hne].
  now rewrite faceValue_air in Hne.
Qed.

Lemma greedyMesh_air_witness :
  GreedyMesher.greedyMesh (newArray 125) dims555 = Some (Ok emptyMesh).
Proof.
  apply (greedyMesh_air (newArray 125) dims555); try (simpl; lia).
  apply Forall_replicate. reflexivity.
Defined.



(** ** Destroyed voxels and the mesh worker *)

Section DestroyedFacts.

Import DestroyedVoxels.

(** What [addDestroyedVoxel] leaves in the index, in one expression. *)
Lemma addDestroyedVoxel_eq (index : DestroyedVoxelIndex) (x y z : Z) :
  addDestroyedVoxel index x y z
  = <[x := <[y := default ∅ (default ∅ (index !! x) !! y) ∪ {[z]}]>
             (default ∅ (index !! x))]> index.
Proof.
  unfold addDestroyedVoxel.
  destruct (index !! x) as [byY|] eqn:Hix; simpl.
  - destruct (byY !! y) as [byZ|] eqn:Hiy; simpl; [reflexivity|].
    now rewrite insert_insert_eq.
  - rewrite lookup_empty. simpl. now rewrite !insert_insert_eq.
Qed.

Lemma hasDestroyedVoxel_true (index : DestroyedVoxelIndex) (x y z : Z) :
  hasDestroyedVoxel index x y z = true
  <-> z ∈ default ∅ (default ∅ (index !! x) !! y).
Proof.
  unfold hasDestroyedVoxel.
  destruct (index !! x) as [byY|]; simpl.
  - destruct (byY !! y) as [byZ|]; simpl.
    + apply bool_decide_eq_true.
    + split; [discriminate|]. intros Hin. now apply not_elem_of_empty in Hin.
  - rewrite lookup_empty. simpl. split; [discriminate|].
    intros Hin. now apply not_elem_of_empty in Hin.
Qed.

Lemma hasDestroyedVoxel_addDestroyedVoxel (index : DestroyedVoxelIndex)
    (x y z x' y' z' : Z) :
  hasDestroyedVoxel (addDestroyedVoxel index x y z) x' y' z' = true
  <-> (x' = x /\ y' = y /\ z' = z)
      \/ hasDestroyedVoxel index x' y' z' = true.
Proof.
  rewrite !hasDestroyedVoxel_true, addDestroyedVoxel_eq.
  destruct (Z.eq_dec x' x) as [->|Hx].
  - rewrite lookup_insert_eq. simpl.
    destruct (Z.eq_dec y' y) as [->|Hy].
    + rewrite lookup_insert_eq. simpl.
      rewrite elem_of_union, elem_of_singleton. intuition congruence.
    + rewrite lookup_insert_ne by congruence. intuition congruence.
  - rewrite lookup_insert_ne by congruence. intuition congruence.
Qed.

(** X13.  The index of destroyed voxels is a set of voxels: a fresh or
    cleared index holds none, and after [addDestroyedVoxel] it holds the
    added voxel and what it held before, nothing else. *)
Theorem hasDestroyedVoxel_add (index : DestroyedVoxelIndex)
    (x y z x' y' z' : Z) :
  hasDestroyedVoxel createDestroyedVoxelIndex x' y' z' = false /\
  hasDestroyedVoxel (clearDestroyedVoxelIndex index) x' y' z' = false /\
  (hasDestroyedVoxel (addDestroyedVoxel index x y z) x' y' z' = true
   <-> (x' = x /\ y' = y /\ z' = z)
       \/ hasDestroyedVoxel index x' y' z' = true).
Proof.
  split; [reflexivity|]. split; [reflexivity|].
  apply hasDestroyedVoxel_addDestroyedVoxel.
Qed.

Lemma readAt_in_range {A : Type} (a : list A) (i : Z) :
  0 <= i < Z.of_nat (length a) -> exists value, readAt a i = Some value.
Proof.
  intros Hi. unfold readAt. destruct (Z.ltb_spec i 0); [lia|].
  apply lookup_lt_is_Some_2. lia.
Qed.

(** The loop of [applyDestroyedDelta] returns, and has added the complete
    triples of the delta. *)
Lemma applyDestroyedDelta_loop (index : DestroyedVoxelIndex)
    (delta : list Z) :
  exists index',
    Worker.applyDestroyedDelta index (Some delta) = Some index' /\
    forall x y z,
      hasDestroyedVoxel index' x y z = true
      <-> hasDestroyedVoxel index x y z = true
          \/ exists k, tripleAt delta k x y z.
Proof.
  unfold Worker.applyDestroyedDelta.
  destruct (Z.eqb_spec (Z.of_nat (length delta)) 0) as [Hempty|Hlen].
  - exists index. split; [reflexivity|].
    intros x y z. split; [now left|].
    intros [Hold|(k & Hk & Hlt & _)]; [assumption|lia].
  - destruct (while_terminates
                (fun st : Z * DestroyedVoxelIndex =>
                   Z.to_nat (Z.of_nat (length delta) - fst st))
                (fun st : Z * DestroyedVoxelIndex =>
                   (exists j, 0 <= j /\ fst st = 3 * j) /\
                   forall x y z,
                     hasDestroyedVoxel (snd st) x y z = true
                     <-> hasDestroyedVoxel index x y z = true
                         \/ exists k,
                              tripleAt delta k x y z /\ 3 * k < fst st)
                (fun '(i, _) => i + 2 <? Z.of_nat (length delta))
                (fun '(i, index0) =>
                   match
                     readAt delta i, readAt delta (i + 1),
                     readAt delta (i + 2)
                   with
                   | Some x, Some y, Some z =>
                       Some (i + 3, addDestroyedVoxel index0 x y z)
                   | _, _, _ => None
                   end))
      with (fuel := length delta) (s := (0, index))
      as ([i index'] & Hw & [(j & Hj & Hi) Hinv] & Hend).
    + intros [i index0] [(j & Hj & Hi) Hinv] Hcond.
      simpl in Hi, Hinv. apply Z.ltb_lt in Hcond.
      destruct (readAt_in_range delta i ltac:(lia)) as (x & Hx).
      destruct (readAt_in_range delta (i + 1) ltac:(lia)) as (y & Hy).
      destruct (readAt_in_range delta (i + 2) ltac:(lia)) as (z & Hz).
      rewrite Hx, Hy, Hz. eexists. split; [reflexivity|]. simpl.
      split; [|lia]. split; [exists (j + 1); lia|].
      intros x' y' z'.
      rewrite hasDestroyedVoxel_addDestroyedVoxel, Hinv.
      split.
      * intros [(-> & -> & ->)|[Hold|(k & Hk & Hlt)]].
        -- right. exists j. subst i. split; [|lia].
           unfold tripleAt. repeat split; try assumption; lia.
        -- now left.
        -- right. exists k. split; [assumption|lia].
      * intros [Hold|(k & Hk & Hlt)]; [right; now left|].
        destruct (Z.eq_dec k j) as [->|Hne].
        -- left. destruct Hk as (_ & _ & Hx' & Hy' & Hz'). subst i.
           rewrite Hx in Hx'. rewrite Hy in Hy'. rewrite Hz in Hz'.
           split; [|split]; congruence.
        -- right. right. exists k. split; [assumption|lia].
    + simpl. split; [exists 0; lia|].
      intros x y z. split; [now left|].
      intros [Hold|(k & (Hk & _) & Hlt)]; [assumption|lia].
    + simpl. lia.
    + rewrite Hw. exists index'. split; [reflexivity|].
      simpl in Hi, Hinv, Hend. apply Z.ltb_ge in Hend.
      intros x y z. rewrite Hinv. split.
      * intros [Hold|(k & Hk & _)]; [now left|right; now exists k].
      * intros [Hold|(k & Hk)]; [now left|]. right. exists k.
        split; [assumption|]. destruct Hk as (_ & Hlt & _). lia.
Qed.

(** X14.  [applyDestroyedDelta] adds to the index the voxels of the complete
    triples of the delta and nothing else: without a delta the index is left
    as it is, and with one the loop ends and the index then holds a voxel
    exactly if it held it before or the voxel is triple number [k] of the
    delta for some [k] with [3 k + 2] inside the array (one or two numbers
    left over at the end are ignored). *)
Theorem applyDestroyedDelta_spec (index : DestroyedVoxelIndex)
    (delta : list Z) :
  Worker.applyDestroyedDelta index None = Some index /\
  exists index',
    Worker.applyDestroyedDelta index (Some delta) = Some index' /\
    forall x y z,
      hasDestroyedVoxel index' x y z = true
      <-> hasDestroyedVoxel index x y z = true
          \/ exists k, tripleAt delta k x y z.
Proof.
  split; [reflexivity|]. apply applyDestroyedDelta_loop.
Qed.

End DestroyedFacts.

(** ** [meshChunk] and the message handler of the worker *)

Section WorkerFacts.

Import DestroyedVoxels.

Variable K : VoxelBuilder.ChunkConstants.
Variable getSurfaceProfile : string -> Z -> Z -> Terrain.SurfaceProfile.

Local Abbreviation paddedDims :=
  {| GreedyMesher.x := VoxelBuilder.CHUNK_SIZE_PADDED K;
     GreedyMesher.y := VoxelBuilder.CHUNK_HEIGHT_PADDED K;
     GreedyMesher.z := VoxelBuilder.CHUNK_SIZE_PADDED K |}.

(** What [meshChunk] returns on padded sizes of at least 3. *)
Lemma meshChunk_returns (seedStr : string) (cx cz : Z)
    (isDestroyed : option (Z -> Z -> Z -> bool)) :
  3 <= VoxelBuilder.CHUNK_SIZE_PADDED K ->
  3 <= VoxelBuilder.CHUNK_HEIGHT_PADDED K ->
  exists quads,
    Worker.meshChunk K getSurfaceProfile seedStr cx cz isDestroyed
    = Some (Ok {| Manager.resp_key :=
                    ChunkMath.chunkKey (Num.Int cx) (Num.Int cz);
                  Manager.resp_cx := Num.Int cx;
                  Manager.resp_cz := Num.Int cz;
                  Manager.resp_mesh := renderQuads quads;
                  Manager.resp_forceApply := None |}) /\
    GreedyMesher.greedyMesh
      (VoxelBuilder.buildChunkVoxelsWithOverrides K getSurfaceProfile
         seedStr cx cz isDestroyed) paddedDims
    = Some (Ok (renderQuads quads)) /\
    Forall (quadOnBoundary
              (VoxelBuilder.buildChunkVoxelsWithOverrides K
                 getSurfaceProfile seedStr cx cz isDestroyed) paddedDims)
           quads.
Proof.
  intros HS HH.
  destruct (meshAxes_cover
              (VoxelBuilder.buildChunkVoxelsWithOverrides K
                 getSurfaceProfile seedStr cx cz isDestroyed) paddedDims)
    as (quads & Hm & Hall & _); try assumption.
  exists quads.
  pose proof (greedyMesh_renderQuads
                (VoxelBuilder.buildChunkVoxelsWithOverrides K
                   getSurfaceProfile seedStr cx cz isDestroyed)
                paddedDims quads HS HH HS Hm) as Hmesh.
  split; [|split; assumption].
  unfold Worker.meshChunk. cbv zeta. now rewrite Hmesh.
Qed.

(** X15.  [meshChunk] throws exactly when a padded size of the chunk
    constants is below 3.  Otherwise it returns, for every seed, chunk and
    predicate, a payload that carries the chunk's coordinates and the key
    that [parseChunkKey] reads back to them, and whose mesh is the
    [greedyMesh] of the chunk's voxel buffer; as that buffer holds voxel ids
    only, every vertex is a corner of the chunk's grid, every normal a unit
    vector along an axis and every colour that of grass, dirt or stone as
    a [Float32Array] holds it, each component rounded to binary32. *)
Theorem meshChunk_spec (seedStr : string) (cx cz : Z)
    (isDestroyed : option (Z -> Z -> Z -> bool)) :
  ((exists message,
      Worker.meshChunk K getSurfaceProfile seedStr cx cz isDestroyed
      = Some (Throw message))
   <-> (VoxelBuilder.CHUNK_SIZE_PADDED K < 3
        \/ VoxelBuilder.CHUNK_HEIGHT_PADDED K < 3)) /\
  (3 <= VoxelBuilder.CHUNK_SIZE_PADDED K ->
   3 <= VoxelBuilder.CHUNK_HEIGHT_PADDED K ->
   exists payload,
     Worker.meshChunk K getSurfaceProfile seedStr cx cz isDestroyed
     = Some (Ok payload) /\
     Manager.resp_cx payload = Num.Int cx /\
     Manager.resp_cz payload = Num.Int cz /\
     Manager.resp_key payload
     = ChunkMath.chunkKey (Num.Int cx) (Num.Int cz) /\
     Manager.parseChunkKey (Manager.resp_key payload)
     = {| Manager.cx := Num.Int cx; Manager.cz := Num.Int cz |} /\
     GreedyMesher.greedyMesh
       (VoxelBuilder.buildChunkVoxelsWithOverrides K getSurfaceProfile
          seedStr cx cz isDestroyed) paddedDims
     = Some (Ok (Manager.resp_mesh payload)) /\
     Triples (gridCorner paddedDims)
       (GreedyMesher.positions (Manager.resp_mesh payload)) /\
     Triples axisUnit (GreedyMesher.normals (Manager.resp_mesh payload)) /\
     Triples paletteColor32
       (GreedyMesher.colors (Manager.resp_mesh payload))).
Proof.
  split.
  - unfold Worker.meshChunk, GreedyMesher.greedyMesh. cbv zeta.
    destruct (meshAxes_returns
                (VoxelBuilder.buildChunkVoxelsWithOverrides K
                   getSurfaceProfile seedStr cx cz isDestroyed) paddedDims)
      as (m & -> & _).
    cbn [GreedyMesher.x GreedyMesher.y GreedyMesher.z].
    destruct (Z.ltb_spec (VoxelBuilder.CHUNK_SIZE_PADDED K) 3);
      destruct (Z.ltb_spec (VoxelBuilder.CHUNK_HEIGHT_PADDED K) 3);
      cbn [orb];
      (split; [intros [message Hm]; try discriminate; lia
              |intros Hsmall; try lia; eauto]).
  - intros HS HH.
    destruct (meshChunk_returns seedStr cx cz isDestroyed HS HH)
      as (quads & Hr & Hmesh & Hall).
    eexists. split; [exact Hr|]. cbn [Manager.resp_cx Manager.resp_cz
      Manager.resp_key Manager.resp_mesh].
    split; [reflexivity|]. split; [reflexivity|]. split; [reflexivity|].
    split; [apply parseChunkKey_chunkKey|]. split; [assumption|].
    destruct (emitQuads_geometry _ _ quads Hall) as [Hpos Hnor].
    split; [assumption|]. split; [assumption|].
    apply Triples_toFloat32.
    apply (emitQuads_colors
             (VoxelBuilder.buildChunkVoxelsWithOverrides K
                getSurfaceProfile seedStr cx cz isDestroyed)
             paddedDims quads); [|assumption].
    apply buildChunkVoxels_cells.
Qed.

(** What one message does to the worker, on padded sizes of at least 3. *)
Lemma onmessage_returns (index : DestroyedVoxelIndex) (seedStr : string)
    (cx cz : Z) (destroyedDelta : option (list Z))
    (forceApply : option bool) :
  3 <= VoxelBuilder.CHUNK_SIZE_PADDED K ->
  3 <= VoxelBuilder.CHUNK_HEIGHT_PADDED K ->
  exists index' mesh,
    Worker.onmessage K getSurfaceProfile index seedStr cx cz destroyedDelta
      forceApply
    = Some (index',
            Ok {| Manager.resp_key :=
                    ChunkMath.chunkKey (Num.Int cx) (Num.Int cz);
                  Manager.resp_cx := Num.Int cx;
                  Manager.resp_cz := Num.Int cz;
                  Manager.resp_mesh := mesh;
                  Manager.resp_forceApply := forceApply |}) /\
    GreedyMesher.greedyMesh
      (VoxelBuilder.buildChunkVoxelsWithOverrides K getSurfaceProfile
         seedStr cx cz (Some (hasDestroyedVoxel index'))) paddedDims
    = Some (Ok mesh) /\
    forall x y z,
      hasDestroyedVoxel index' x y z = true
      <-> hasDestroyedVoxel index x y z = true
          \/ exists delta k,
               destroyedDelta = Some delta /\ tripleAt delta k x y z.
Proof.
  intros HS HH. unfold Worker.onmessage.
  assert (Hdelta :
            exists index',
              Worker.applyDestroyedDelta index destroyedDelta = Some index' /\
              forall x y z,
                hasDestroyedVoxel index' x y z = true
                <-> hasDestroyedVoxel index x y z = true
                    \/ exists delta k,
                         destroyedDelta = Some delta /\
                         tripleAt delta k x y z).
  { destruct destroyedDelta as [delta|].
    - destruct (applyDestroyedDelta_loop index delta) as (index' & Hr & Hi).
      exists index'. split; [assumption|].
      intros x y z. rewrite Hi. split.
      + intros [Hold|(k & Hk)]; [now left|right; now exists delta, k].
      + intros [Hold|(delta' & k & [= <-] & Hk)];
          [now left|right; now exists k].
    - exists index. split; [reflexivity|].
      intros x y z. split; [now left|].
      intros [Hold|(delta' & k & Hd & _)]; [assumption|discriminate]. }
  destruct Hdelta as (index' & -> & Hindex).
  destruct (meshChunk_returns seedStr cx cz
              (Some (hasDestroyedVoxel index')) HS HH)
    as (quads & -> & Hmesh & _).
  exists index', (renderQuads quads). cbn [Manager.resp_cx Manager.resp_cz
    Manager.resp_key Manager.resp_mesh].
  split; [reflexivity|]. split; assumption.
Qed.

(** X16.  One message to the worker.  On padded sizes of at least 3 the
    handler posts a payload for every request with integer chunk
    coordinates; the payload has the key and coordinates of the requested
    chunk and the [forceApply] of the request; afterwards the worker's index
    holds the voxels it held before and those of the complete triples of the
    request's delta; the mesh is that of the chunk's buffer under the new
    index, in which every destroyed voxel of the padded chunk, old or new,
    is air. *)
Theorem onmessage_spec (index : DestroyedVoxelIndex) (seedStr : string)
    (cx cz : Z) (destroyedDelta : option (list Z))
    (forceApply : option bool) :
  3 <= VoxelBuilder.CHUNK_SIZE_PADDED K ->
  3 <= VoxelBuilder.CHUNK_HEIGHT_PADDED K ->
  exists index' payload,
    Worker.onmessage K getSurfaceProfile index seedStr cx cz destroyedDelta
      forceApply
    = Some (index', Ok payload) /\
    Manager.resp_key payload
    = ChunkMath.chunkKey (Num.Int cx) (Num.Int cz) /\
    Manager.resp_cx payload = Num.Int cx /\
    Manager.resp_cz payload = Num.Int cz /\
    Manager.resp_forceApply payload = forceApply /\
    (forall x y z,
       hasDestroyedVoxel index' x y z = true
       <-> hasDestroyedVoxel index x y z = true
           \/ exists delta k,
                destroyedDelta = Some delta /\ tripleAt delta k x y z) /\
    GreedyMesher.greedyMesh
      (VoxelBuilder.buildChunkVoxelsWithOverrides K getSurfaceProfile
         seedStr cx cz (Some (hasDestroyedVoxel index'))) paddedDims
    = Some (Ok (Manager.resp_mesh payload)) /\
    forall px py pz,
      0 <= px < VoxelBuilder.CHUNK_SIZE_PADDED K ->
      0 <= py < VoxelBuilder.CHUNK_HEIGHT_PADDED K ->
      0 <= pz < VoxelBuilder.CHUNK_SIZE_PADDED K ->
      hasDestroyedVoxel index'
        (cx * VoxelBuilder.CHUNK_SIZE K + (px - 1)) (py - 1)
        (cz * VoxelBuilder.CHUNK_SIZE K + (pz - 1)) = true ->
      readAt
        (VoxelBuilder.buildChunkVoxelsWithOverrides K getSurfaceProfile
           seedStr cx cz (Some (hasDestroyedVoxel index')))
        (VoxelBuilder.indexOf K px py pz)
      = Some GreedyMesher.VOXEL_AIR.
Proof.
  intros HS HH.
  destruct (onmessage_returns index seedStr cx cz destroyedDelta forceApply
              HS HH)
    as (index' & mesh & Hr & Hmesh & Hindex).
  eexists index', _. split; [exact Hr|].
  cbn [Manager.resp_cx Manager.resp_cz Manager.resp_key Manager.resp_mesh
       Manager.resp_forceApply].
  do 4 (split; [reflexivity|]). split; [assumption|].
  split; [assumption|].
  intros px py pz Hpx Hpy Hpz Hdestroyed.
  rewrite paddedCell_value by assumption.
  unfold paddedCellValue. cbv zeta.
  cbn [VoxelBuilder.callIsDestroyed]. now rewrite Hdestroyed.
Qed.

End WorkerFacts.

Lemma sampleConstants_sizes :
  3 <= VoxelBuilder.CHUNK_SIZE_PADDED sampleConstants /\
  3 <= VoxelBuilder.CHUNK_HEIGHT_PADDED sampleConstants.
Proof. simpl. lia. Qed.

Lemma meshChunk_spec_witness :
  exists payload,
    Worker.meshChunk sampleConstants flatVillageWorld "demo" 2 (-1) None
    = Some (Ok payload) /\
    Manager.resp_cx payload = Num.Int 2 /\
    Manager.resp_cz payload = Num.Int (-1) /\
    Manager.resp_key payload
    = ChunkMath.chunkKey (Num.Int 2) (Num.Int (-1)) /\
    Manager.parseChunkKey (Manager.resp_key payload)
    = {| Manager.cx := Num.Int 2; Manager.cz := Num.Int (-1) |} /\
    GreedyMesher.greedyMesh
      (VoxelBuilder.buildChunkVoxelsWithOverrides sampleConstants
         flatVillageWorld "demo" 2 (-1) None)
      {| GreedyMesher.x := VoxelBuilder.CHUNK_SIZE_PADDED sampleConstants;
         GreedyMesher.y := VoxelBuilder.CHUNK_HEIGHT_PADDED sampleConstants;
         GreedyMesher.z := VoxelBuilder.CHUNK_SIZE_PADDED sampleConstants |}
    = Some (Ok (Manager.resp_mesh payload)) /\
    Triples (gridCorner
               {| GreedyMesher.x :=
                    VoxelBuilder.CHUNK_SIZE_PADDED sampleConstants;
                  GreedyMesher.y :=
                    VoxelBuilder.CHUNK_HEIGHT_PADDED sampleConstants;
                  GreedyMesher.z :=
                    VoxelBuilder.CHUNK_SIZE_PADDED sampleConstants |})
      (GreedyMesher.positions (Manager.resp_mesh payload)) /\
    Triples axisUnit (GreedyMesher.normals (Manager.resp_mesh payload)) /\
    Triples paletteColor32
      (GreedyMesher.colors (Manager.resp_mesh payload)).
Proof.
  exact (proj2 (meshChunk_spec sampleConstants flatVillageWorld "demo" 2 (-1)
                  None)
               (proj1 sampleConstants_sizes) (proj2 sampleConstants_sizes)).
Defined.

Lemma onmessage_spec_witness :
  exists index' payload,
    Worker.onmessage sampleConstants flatVillageWorld
      DestroyedVoxels.createDestroyedVoxelIndex "demo" 0 0
      (Some [3; 20; 5; 4; 20]) (Some true)
    = Some (index', Ok payload) /\
    Manager.resp_key payload = ChunkMath.chunkKey (Num.Int 0) (Num.Int 0) /\
    Manager.resp_forceApply payload = Some true /\
    DestroyedVoxels.hasDestroyedVoxel index' 3 20 5 = true /\
    readAt
      (VoxelBuilder.buildChunkVoxelsWithOverrides sampleConstants
         flatVillageWorld "demo" 0 0
         (Some (DestroyedVoxels.hasDestroyedVoxel index')))
      (VoxelBuilder.indexOf sampleConstants 4 21 6)
    = Some GreedyMesher.VOXEL_AIR.
Proof.
  destruct (onmessage_spec sampleConstants flatVillageWorld
              DestroyedVoxels.createDestroyedVoxelIndex "demo" 0 0
              (Some [3; 20; 5; 4; 20]) (Some true)
              (proj1 sampleConstants_sizes) (proj2 sampleConstants_sizes))
    as (index' & payload & Hr & Hkey & _ & _ & Hforce & Hindex & _ & Hair).
  assert (Hhas : DestroyedVoxels.hasDestroyedVoxel index' 3 20 5 = true).
  { apply Hindex. right. exists [3; 20; 5; 4; 20], 0.
    split; [reflexivity|]. unfold tripleAt.
    split; [lia|]. split; [simpl; lia|]. repeat split. }
  exists index', payload.
  split; [assumption|]. split; [assumption|]. split; [assumption|].
  split; [assumption|].
  apply Hair.
  - change (VoxelBuilder.CHUNK_SIZE_PADDED sampleConstants) with 18. lia.
  - change (VoxelBuilder.CHUNK_HEIGHT_PADDED sampleConstants) with 66. lia.
  - change (VoxelBuilder.CHUNK_SIZE_PADDED sampleConstants) with 18. lia.
  - exact Hhas.
Defined.

(** ** The keys that [computeNeededChunkKeys] returns *)

Lemma forRange_ext {S : Type} (lo n : Z) (body body' : Z -> S -> S) (s : S) :
  (forall i st, body i st = body' i st) ->
  forRange lo n body s = forRange lo n body' s.
Proof.
  intros Hext. unfold forRange. revert s.
  induction (seqZ lo n) as [|i l IH]; intros s; simpl; [reflexivity|].
  now rewrite Hext, IH.
Qed.

Lemma forRange_push {A : Type} (lo n : Z) (g : Z -> A) (acc : list A) :
  forRange lo n (fun i acc => acc ++ [g i]) acc
  = acc ++ List.map g (seqZ lo n).
Proof.
  unfold forRange. revert acc.
  induction (seqZ lo n) as [|i l IH]; intros acc; simpl.
  - now rewrite app_nil_r.
  - rewrite IH, <- app_assoc. reflexivity.
Qed.

Lemma forRange_push_all {A : Type} (lo n : Z) (h : Z -> list A)
    (acc : list A) :
  forRange lo n (fun i acc => acc ++ h i) acc
  = acc ++ flat_map h (seqZ lo n).
Proof.
  unfold forRange. revert acc.
  induction (seqZ lo n) as [|i l IH]; intros acc; simpl.
  - now rewrite app_nil_r.
  - rewrite IH, <- app_assoc. reflexivity.
Qed.

Section SortFacts.

Context {A B : Type}.

Lemma insertSorted_map (f : A -> B) (compare : B -> B -> num) (a : A)
    (l : list A) :
  Manager.insertSorted compare (f a) (List.map f l)
  = List.map f
      (Manager.insertSorted (fun x y => compare (f x) (f y)) a l).
Proof.
  induction l as [|b l IH]; cbn [Manager.insertSorted List.map];
    [reflexivity|].
  destruct (Num.ltb (Num.Int 0) (compare (f a) (f b)));
    cbn [List.map]; [now rewrite IH|reflexivity].
Qed.

Lemma sort_map (f : A -> B) (compare : B -> B -> num) (l : list A) :
  Manager.sort compare (List.map f l)
  = List.map f (Manager.sort (fun x y => compare (f x) (f y)) l).
Proof.
  unfold Manager.sort. induction l as [|a l IH]; simpl; [reflexivity|].
  now rewrite IH, insertSorted_map.
Qed.

Lemma length_insertSorted (compare : A -> A -> num) (a : A) (l : list A) :
  length (Manager.insertSorted compare a l) = S (length l).
Proof.
  induction l as [|b l IH]; cbn [Manager.insertSorted]; [reflexivity|].
  destruct (Num.ltb (Num.Int 0) (compare a b)); simpl; [now rewrite IH|].
  reflexivity.
Qed.

Lemma length_sort (compare : A -> A -> num) (l : list A) :
  length (Manager.sort compare l) = length l.
Proof.
  unfold Manager.sort. induction l as [|a l IH]; simpl; [reflexivity|].
  now rewrite length_insertSorted, IH.
Qed.

(** Insertion keeps a list sorted by a strict order that the comparator
    decides. *)
Lemma insertSorted_sorted (before : A -> A -> Prop)
    (compare : A -> A -> num) (a : A) (l : list A) :
  (forall x y z, before x y -> before y z -> before x z) ->
  (forall x y, Num.ltb (Num.Int 0) (compare x y) = true -> before y x) ->
  (forall x y, Num.ltb (Num.Int 0) (compare x y) = false ->
               x <> y -> before x y) ->
  ~ In a l ->
  StronglySorted before l ->
  StronglySorted before (Manager.insertSorted compare a l).
Proof.
  intros Htrans Hgt Hle Hnew Hsorted.
  induction Hsorted as [|b l Hsorted IH Hall];
    cbn [Manager.insertSorted].
  - constructor; constructor.
  - destruct (Num.ltb (Num.Int 0) (compare a b)) eqn:Hc.
    + constructor.
      * apply IH. intros Hin. apply Hnew. now right.
      * apply List.Forall_forall. intros x Hx.
        apply In_insertSorted in Hx as [->|Hx]; [now apply Hgt|].
        rewrite List.Forall_forall in Hall. now apply Hall.
    + assert (Hab : before a b).
      { apply Hle; [assumption|]. intros ->. apply Hnew. now left. }
      constructor; [now constructor|].
      constructor; [assumption|].
      apply List.Forall_forall. intros x Hx.
      rewrite List.Forall_forall in Hall.
      apply (Htrans a b x); [assumption|now apply Hall].
Qed.

Lemma sort_sorted (before : A -> A -> Prop) (compare : A -> A -> num)
    (l : list A) :
  (forall x y z, before x y -> before y z -> before x z) ->
  (forall x y, Num.ltb (Num.Int 0) (compare x y) = true -> before y x) ->
  (forall x y, Num.ltb (Num.Int 0) (compare x y) = false ->
               x <> y -> before x y) ->
  List.NoDup l ->
  StronglySorted before (Manager.sort compare l).
Proof.
  intros Htrans Hgt Hle Hnodup. unfold Manager.sort.
  induction Hnodup as [|a l Hnew Hnodup IH]; simpl; [constructor|].
  apply insertSorted_sorted; try assumption.
  intros Hin. apply Hnew. now apply (In_sort compare).
Qed.

Lemma sorted_strict_NoDup (before : A -> A -> Prop) (l : list A) :
  (forall a, ~ before a a) -> StronglySorted before l -> List.NoDup l.
Proof.
  intros Hirrefl Hsorted.
  induction Hsorted as [|a l _ IH Hall]; constructor; [|assumption].
  intros Hin. rewrite List.Forall_forall in Hall.
  exact (Hirrefl a (Hall a Hin)).
Qed.

End SortFacts.

Lemma nearerThan_trans (centerCx centerCz : Z) (a b c : Z * Z) :
  nearerThan centerCx centerCz a b -> nearerThan centerCx centerCz b c ->
  nearerThan centerCx centerCz a c.
Proof. unfold nearerThan. lia. Qed.

Lemma nearerThan_irrefl (centerCx centerCz : Z) (a : Z * Z) :
  ~ nearerThan centerCx centerCz a a.
Proof. unfold nearerThan. lia. Qed.

Lemma cellCompare_positive (centerCx centerCz : Z) (a b : Z * Z) :
  Num.ltb (Num.Int 0) (cellCompare centerCx centerCz a b) = true
  <-> nearerThan centerCx centerCz b a.
Proof.
  unfold cellCompare, Manager.compareCoords, Manager.chebyshevDistance,
    nearerThan, chebyshev, coordOf.
  cbn [Manager.cx Manager.cz Num.sub Num.neg Num.add Num.abs].
  replace (fst a + - centerCx) with (fst a - centerCx) by lia.
  replace (snd a + - centerCz) with (snd a - centerCz) by lia.
  replace (fst b + - centerCx) with (fst b - centerCx) by lia.
  replace (snd b + - centerCz) with (snd b - centerCz) by lia.
  assert (Hmax : forall p q,
             Num.max (Num.Int p) (Num.Int q) = Num.Int (Z.max p q)).
  { intros p q. unfold Num.max, Num.ltb.
    destruct (Z.ltb_spec p q); f_equal; lia. }
  rewrite !Hmax. cbn [Num.eqb Num.sub Num.neg Num.add].
  destruct (Z.eqb_spec (Z.max (Z.abs (fst a - centerCx))
                              (Z.abs (snd a - centerCz)))
                       (Z.max (Z.abs (fst b - centerCx))
                              (Z.abs (snd b - centerCz)))) as [Hd|Hd];
    cbn [negb Num.ltb].
  - destruct (Z.eqb_spec (snd a) (snd b)) as [Hz|Hz]; cbn [negb Num.ltb];
      rewrite Z.ltb_lt; lia.
  - rewrite Z.ltb_lt. lia.
Qed.

Lemma squareAround_In (centerCx centerCz radius : Z) (cell : Z * Z) :
  In cell (squareAround centerCx centerCz radius)
  <-> Z.abs (fst cell - centerCx) <= radius /\
      Z.abs (snd cell - centerCz) <= radius.
Proof.
  unfold squareAround. rewrite in_flat_map. split.
  - intros (dz & Hdz & Hin). apply in_map_iff in Hin as (dx & <- & Hdx).
    apply list_elem_of_In, elem_of_seqZ in Hdz.
    apply list_elem_of_In, elem_of_seqZ in Hdx. simpl. lia.
  - intros [Hx Hz]. exists (snd cell - centerCz). split.
    + apply list_elem_of_In, elem_of_seqZ. lia.
    + apply in_map_iff. exists (fst cell - centerCx). split.
      * destruct cell as [x z]. simpl. f_equal; lia.
      * apply list_elem_of_In, elem_of_seqZ. lia.
Qed.

Lemma NoDup_flat_map {A B : Type} (f : A -> list B) (l : list A) :
  (forall x, In x l -> List.NoDup (f x)) ->
  (forall x y b, In x l -> In y l -> In b (f x) -> In b (f y) -> x = y) ->
  List.NoDup l ->
  List.NoDup (flat_map f l).
Proof.
  intros Heach Hdisjoint Hnodup.
  induction Hnodup as [|a l Hnew Hnodup IH]; simpl; [constructor|].
  apply List.NoDup_app.
  - apply Heach. now left.
  - apply IH.
    + intros x Hx. apply Heach. now right.
    + intros x y b Hx Hy. apply Hdisjoint; now right.
  - intros b Hb Hin.
    apply in_flat_map in Hin as (y & Hy & Hby).
    assert (a = y) by (apply (Hdisjoint a y b); simpl; auto).
    subst y. contradiction.
Qed.

Lemma NoDup_seqZ_list (lo n : Z) : List.NoDup (seqZ lo n).
Proof. apply NoDup_ListNoDup, NoDup_seqZ. Qed.

Lemma squareAround_NoDup (centerCx centerCz radius : Z) :
  List.NoDup (squareAround centerCx centerCz radius).
Proof.
  unfold squareAround. apply NoDup_flat_map.
  - intros dz _. apply Finite.Injective_map_NoDup; [|apply NoDup_seqZ_list].
    intros dx dx' [= Heq]. lia.
  - intros dz dz' cell _ _ Hin Hin'.
    apply in_map_iff in Hin as (dx & <- & _).
    apply in_map_iff in Hin' as (dx' & [= _ Heq] & _). lia.
  - apply NoDup_seqZ_list.
Qed.

Lemma squareAround_length (centerCx centerCz radius : Z) :
  0 <= radius ->
  Z.of_nat (length (squareAround centerCx centerCz radius))
  = (2 * radius + 1) * (2 * radius + 1).
Proof.
  intros Hr. unfold squareAround.
  rewrite (flat_map_constant_length
             (c := Z.to_nat (2 * radius + 1))).
  - rewrite length_seqZ. nia.
  - intros dz _. rewrite length_map. apply length_seqZ.
Qed.

(** The two loops and the sort of [computeNeededChunkKeys]. *)
Lemma computeNeededChunkKeys_cells (centerCx centerCz : Z)
    (activeRadius : Q) :
  Manager.computeNeededChunkKeys centerCx centerCz activeRadius
  = List.map keyOf
      (Manager.sort (cellCompare centerCx centerCz)
         (squareAround centerCx centerCz
            (Manager.clampRadius activeRadius))).
Proof.
  unfold Manager.computeNeededChunkKeys. cbv zeta.
  set (radius := Manager.clampRadius activeRadius).
  rewrite (forRange_ext _ _ _
             (fun dz coords =>
                coords
                ++ List.map (fun dx => coordOf (centerCx + dx, centerCz + dz))
                            (seqZ (- radius) (2 * radius + 1)))).
  2:{ intros dz coords. apply forRange_push. }
  rewrite forRange_push_all. cbn [app].
  assert (Hmap : flat_map
                   (fun dz =>
                      List.map
                        (fun dx => coordOf (centerCx + dx, centerCz + dz))
                        (seqZ (- radius) (2 * radius + 1)))
                   (seqZ (- radius) (2 * radius + 1))
                 = List.map coordOf (squareAround centerCx centerCz radius)).
  { unfold squareAround.
    induction (seqZ (- radius) (2 * radius + 1)) as [|dz l IH] at 2 4;
      simpl; [reflexivity|].
    now rewrite IH, List.map_app, List.map_map. }
  rewrite Hmap, sort_map, List.map_map. reflexivity.
Qed.

(** X17.  [computeNeededChunkKeys] returns the keys of exactly the chunks
    within the clamped radius of the centre (Chebyshev distance), each once,
    [(2 r + 1)^2] keys in all, ordered by distance from the centre, then by
    z, then by x. *)
Theorem computeNeededChunkKeys_spec (centerCx centerCz : Z)
    (activeRadius : Q) :
  let radius := Manager.clampRadius activeRadius in
  exists cells,
    Manager.computeNeededChunkKeys centerCx centerCz activeRadius
    = List.map keyOf cells /\
    (forall cell,
       In cell cells <-> chebyshev centerCx centerCz cell <= radius) /\
    StronglySorted (nearerThan centerCx centerCz) cells /\
    List.NoDup
      (Manager.computeNeededChunkKeys centerCx centerCz activeRadius) /\
    Z.of_nat
      (length (Manager.computeNeededChunkKeys centerCx centerCz activeRadius))
    = (2 * radius + 1) * (2 * radius + 1).
Proof.
  intros radius.
  exists (Manager.sort (cellCompare centerCx centerCz)
            (squareAround centerCx centerCz radius)).
  assert (Hsorted :
            StronglySorted (nearerThan centerCx centerCz)
              (Manager.sort (cellCompare centerCx centerCz)
                 (squareAround centerCx centerCz radius))).
  { apply sort_sorted.
    - apply nearerThan_trans.
    - intros a b. apply cellCompare_positive.
    - intros a b Hc Hne.
      destruct a as [ax az], b as [bx bz].
      assert (Hnot : ~ nearerThan centerCx centerCz (bx, bz) (ax, az)).
      { intros Hn. apply cellCompare_positive in Hn. congruence. }
      unfold nearerThan, chebyshev in *. simpl in *.
      assert (ax <> bx \/ az <> bz)
        by (destruct (Z.eq_dec ax bx); [right; congruence|now left]).
      lia.
    - apply squareAround_NoDup. }
  split; [apply computeNeededChunkKeys_cells|].
  split; [|split; [assumption|split]].
  - intros cell. rewrite In_sort, squareAround_In.
    unfold chebyshev. lia.
  - rewrite computeNeededChunkKeys_cells.
    apply Finite.Injective_map_NoDup_in.
    + intros a b _ _ Heq. destruct a as [ax az], b as [bx bz].
      apply chunkKey_inj in Heq as [Hx Hz]. simpl in *. congruence.
    + apply (sorted_strict_NoDup (nearerThan centerCx centerCz));
        [apply nearerThan_irrefl|assumption].
  - rewrite computeNeededChunkKeys_cells, length_map, length_sort.
    apply squareAround_length. apply clampRadius_nonneg.
Qed.

(** ** The invariant of the chunk manager *)

Lemma tick_tickFrom (CHUNK_SIZE : Z) (p : Manager.ChunkManagerTickParams)
    (s : Manager.ChunkManager) :
  0 < CHUNK_SIZE ->
  Manager.tick CHUNK_SIZE p s
  = Ok (tickState (Manager.playerX p / CHUNK_SIZE)
          (Manager.playerZ p / CHUNK_SIZE) p s,
        tickResult (Manager.playerX p / CHUNK_SIZE)
          (Manager.playerZ p / CHUNK_SIZE) p s).
Proof.
  intros Hsize. symmetry. unfold Manager.tick.
  rewrite !worldToChunk_pos by assumption. reflexivity.
Qed.

Section MapFacts.

Context {V : Type}.
Implicit Types (m : JsMap.t V) (k : string) (v : V).

Lemma has_get m k : JsMap.has m k = true <-> exists v, JsMap.get m k = Some v.
Proof.
  unfold JsMap.has. destruct (JsMap.get m k) as [v|].
  - split; [eauto|reflexivity].
  - split; [discriminate|]. now intros [v Hv].
Qed.

Lemma has_false_get m k : JsMap.has m k = false <-> JsMap.get m k = None.
Proof.
  unfold JsMap.has. destruct (JsMap.get m k) as [v|];
    split; congruence.
Qed.

Lemma get_first m k v : JsMap.first m = Some (k, v) -> JsMap.get m k = Some v.
Proof.
  destruct m as [|[k' v'] rest]; [discriminate|].
  intros [= -> ->]. simpl. now rewrite String.eqb_refl.
Qed.

Lemma get_In m k v : JsMap.get m k = Some v -> In (k, v) m.
Proof.
  induction m as [|[k' v'] rest IH]; simpl; [discriminate|].
  destruct (String.eqb_spec k' k) as [->|Hne].
  - intros [= ->]. now left.
  - intros Hget. right. now apply IH.
Qed.

Lemma In_get m k v : uniqueKeys m -> In (k, v) m -> JsMap.get m k = Some v.
Proof.
  unfold uniqueKeys, JsMap.keys.
  induction m as [|[k' v'] rest IH]; simpl; [contradiction|].
  intros Hnodup. apply List.NoDup_cons_iff in Hnodup as [Hnew Hnodup].
  intros [[= -> ->]|Hin].
  - now rewrite String.eqb_refl.
  - destruct (String.eqb_spec k' k) as [->|Hne]; [|now apply IH].
    exfalso. apply Hnew. apply in_map_iff. now exists (k, v).
Qed.

Lemma subMap_refl m : subMap m m.
Proof. now intros k v. Qed.

Lemma subMap_trans m1 m2 m3 : subMap m1 m2 -> subMap m2 m3 -> subMap m1 m3.
Proof. intros H12 H23 k v Hk. now apply H23, H12. Qed.

Lemma subMap_has m' m k :
  subMap m' m -> JsMap.has m' k = true -> JsMap.has m k = true.
Proof.
  intros Hsub Hhas. apply has_get in Hhas as [v Hv].
  apply has_get. exists v. now apply Hsub.
Qed.

Lemma subMap_delete m k : subMap (JsMap.delete m k) m.
Proof.
  intros k' v Hget. destruct (String.eqb_spec k k') as [->|Hne].
  - now rewrite get_delete_eq in Hget.
  - now rewrite get_delete_ne in Hget.
Qed.

Lemma subMap_b2n m' m k :
  subMap m' m ->
  (Nat.b2n (JsMap.has m' k) <= Nat.b2n (JsMap.has m k))%nat.
Proof.
  intros Hsub. destruct (JsMap.has m' k) eqn:Hhas.
  - now rewrite (subMap_has m' m k Hsub Hhas).
  - simpl. lia.
Qed.

Section Prune.

Variables removeRadius centerCx centerCz : Z.

(** What [pruneOutsideRemoveRadius] leaves of a map. *)
Lemma prune_fold_subMap (keys : list string) m :
  subMap (foldl (Manager.pruneStep removeRadius centerCx centerCz) m keys) m.
Proof.
  revert m. induction keys as [|key keys IH]; intros m; simpl.
  - apply subMap_refl.
  - eapply subMap_trans; [apply IH|].
    unfold Manager.pruneStep.
    destruct (Manager.keyInRadius _ _ _ _);
      [apply subMap_refl|apply subMap_delete].
Qed.

Lemma prune_subMap m :
  subMap (Manager.pruneOutsideRemoveRadius removeRadius m centerCx centerCz)
         m.
Proof. apply prune_fold_subMap. Qed.

Lemma prune_keysWithin m :
  keysWithin centerCx centerCz removeRadius
    (Manager.pruneOutsideRemoveRadius removeRadius m centerCx centerCz).
Proof.
  intros key Hhas. unfold Manager.pruneOutsideRemoveRadius in Hhas.
  destruct (Manager.keyInRadius key centerCx centerCz removeRadius) eqn:Hin;
    [reflexivity|].
  assert (Hwas : JsMap.has m key = true)
    by (eapply subMap_has; [apply prune_fold_subMap|eassumption]).
  rewrite prune_has_removed in Hhas; [discriminate|assumption|].
  now apply has_In_keys.
Qed.

Lemma prune_keeps m key :
  Manager.keyInRadius key centerCx centerCz removeRadius = true ->
  JsMap.has
    (Manager.pruneOutsideRemoveRadius removeRadius m centerCx centerCz) key
  = JsMap.has m key.
Proof. intros Hin. now apply prune_has_kept. Qed.

Lemma prune_uniqueKeys m :
  uniqueKeys m ->
  uniqueKeys
    (Manager.pruneOutsideRemoveRadius removeRadius m centerCx centerCz).
Proof. apply prune_unique. Qed.

End Prune.

End MapFacts.

Lemma requestFor_settings (s s' : Manager.ChunkManager) (key : string)
    (request : Manager.MeshWorkerRequest) :
  sameSettings s s' -> requestFor s key request -> requestFor s' key request.
Proof.
  intros (_ & _ & Hstr & Hint) (cell & Hk & Hx & Hz & Hs & Hi & Hd & Hf).
  exists cell. rewrite Hstr, Hint. repeat split; assumption.
Qed.

Lemma sameSettings_refl (s : Manager.ChunkManager) : sameSettings s s.
Proof. repeat split. Qed.

Lemma sameSettings_trans (s1 s2 s3 : Manager.ChunkManager) :
  sameSettings s1 s2 -> sameSettings s2 s3 -> sameSettings s1 s3.
Proof.
  intros (Ha & Hr & Hs & Hi) (Ha' & Hr' & Hs' & Hi').
  repeat split; congruence.
Qed.

(** Taking entries out of the maps keeps the invariant. *)
Lemma shrink_invariant (s s' : Manager.ChunkManager) :
  managerInvariant s ->
  sameSettings s s' ->
  uniqueKeys (Manager.loaded s') -> uniqueKeys (Manager.inflight s') ->
  uniqueKeys (Manager.queued s') -> uniqueKeys (Manager.readyToApply s') ->
  subMap (Manager.loaded s') (Manager.loaded s) ->
  subMap (Manager.inflight s') (Manager.inflight s) ->
  subMap (Manager.queued s') (Manager.queued s) ->
  subMap (Manager.readyToApply s') (Manager.readyToApply s) ->
  managerInvariant s'.
Proof.
  intros (Hr & Hseed & _ & Hq & Hi & Hy & Hl & Hcount) Hsame Hul Hui Huq Huy
    Hsl Hsi Hsq Hsy.
  pose proof Hsame as (Ha' & Hr' & Hs' & Hi').
  split; [rewrite Ha', Hr'; assumption|].
  split; [intros seed Hs; rewrite Hi'; apply Hseed; congruence|].
  split; [repeat split; assumption|].
  split; [intros key request Hget;
          apply (requestFor_settings s); [assumption|]; apply Hq, Hsq, Hget|].
  split; [intros key request Hget;
          apply (requestFor_settings s); [assumption|]; apply Hi, Hsi, Hget|].
  split; [intros key response Hget; apply Hy, Hsy, Hget|].
  split; [intros key response Hget; apply Hl, Hsl, Hget|].
  intros key. specialize (Hcount key). unfold stageCount in *.
  pose proof (subMap_b2n _ _ key Hsl).
  pose proof (subMap_b2n _ _ key Hsi).
  pose proof (subMap_b2n _ _ key Hsq).
  pose proof (subMap_b2n _ _ key Hsy).
  lia.
Qed.

Lemma constructor_invariant (options : option Manager.Options)
    (s : Manager.ChunkManager) :
  Manager.constructor options = Ok s -> managerInvariant s.
Proof.
  unfold Manager.constructor. cbv zeta.
  destruct (Z.ltb_spec
              (Manager.clampRadius
                 (Manager.optionOr options Manager.opt_removeRadius
                    Manager.DEFAULT_REMOVE_RADIUS))
              (Manager.clampRadius
                 (Manager.optionOr options Manager.opt_activeRadius
                    Manager.DEFAULT_ACTIVE_RADIUS))) as [Hlt|Hge];
    [discriminate|].
  intros [= <-]. unfold managerInvariant; simpl.
  split; [split; [apply clampRadius_nonneg|assumption]|].
  split; [discriminate|].
  split; [repeat split; apply uniqueKeys_empty|].
  repeat (split; [discriminate|]). intros key. unfold stageCount; simpl. lia.
Qed.

Lemma reset_invariant (seed : string) (unloadKeys : list string)
    (s : Manager.ChunkManager) :
  managerInvariant s ->
  managerInvariant (fst (Manager.resetForSeedIfNeeded seed unloadKeys s)).
Proof.
  intros Hinv. unfold Manager.resetForSeedIfNeeded.
  destruct (Manager.sameSeed (Manager.seedStr s) seed); [assumption|].
  destruct Hinv as (Hr & _). unfold managerInvariant; simpl.
  split; [assumption|].
  split; [now intros seed' [= <-]|].
  split; [repeat split; apply uniqueKeys_empty|].
  repeat (split; [discriminate|]). intros key. unfold stageCount; simpl. lia.
Qed.

Lemma handleWorkerResponse_invariant (response : Manager.MeshWorkerResponse)
    (s : Manager.ChunkManager) :
  managerInvariant s ->
  managerInvariant (Manager.handleWorkerResponse response s).
Proof.
  intros Hinv. unfold Manager.handleWorkerResponse. cbv zeta.
  set (key := ChunkMath.chunkKey (Manager.resp_cx response)
                (Manager.resp_cz response)).
  destruct (JsMap.has (Manager.inflight s) key) eqn:Hhas; [|assumption].
  cbn [negb].
  destruct Hinv as (Hr & Hseed & (Hul & Hui & Huq & Huy) & Hq & Hi & Hy & Hl
                    & Hcount).
  unfold managerInvariant; simpl.
  split; [assumption|]. split; [assumption|].
  split; [repeat split; try assumption;
          [now apply uniqueKeys_delete|now apply uniqueKeys_set]|].
  split; [intros k r Hget; destruct (Hq k r Hget) as (cell & H);
          now exists cell|].
  split.
  { intros k r Hget. apply subMap_delete in Hget.
    destruct (Hi k r Hget) as (cell & H). now exists cell. }
  split.
  { intros k r Hget. destruct (String.eqb_spec key k) as [<-|Hne].
    - rewrite get_set_eq in Hget. injection Hget as <-.
      split; [|reflexivity].
      apply has_get in Hhas as [request Hrequest].
      destruct (Hi key request Hrequest) as (cell & Hk & _).
      now exists cell.
    - rewrite get_set_ne in Hget by assumption. now apply Hy. }
  split; [assumption|].
  intros k. specialize (Hcount k). unfold stageCount in *; simpl.
  destruct (String.eqb_spec key k) as [<-|Hne].
  - rewrite has_delete_eq, has_set_eq. rewrite Hhas in Hcount.
    destruct (JsMap.has (Manager.loaded s) key);
      destruct (JsMap.has (Manager.queued s) key);
      destruct (JsMap.has (Manager.readyToApply s) key); simpl in *; lia.
  - rewrite has_delete_ne, has_set_ne by assumption. exact Hcount.
Qed.

Lemma responses_invariant (responses : list Manager.MeshWorkerResponse)
    (s : Manager.ChunkManager) :
  managerInvariant s ->
  managerInvariant
    (foldl (fun s response => Manager.handleWorkerResponse response s)
           s responses).
Proof.
  revert s. induction responses as [|response responses IH]; intros s Hinv;
    simpl; [assumption|].
  apply IH. now apply handleWorkerResponse_invariant.
Qed.

Lemma tickResponses_invariant (p : Manager.ChunkManagerTickParams)
    (s : Manager.ChunkManager) :
  managerInvariant s -> managerInvariant (tickResponses p s).
Proof.
  intros Hinv. unfold tickResponses.
  apply responses_invariant. now apply reset_invariant.
Qed.

Lemma tickPrune_invariant (centerCx centerCz : Z)
    (s : Manager.ChunkManager) :
  managerInvariant s -> managerInvariant (tickPrune centerCx centerCz s).
Proof.
  intros Hinv.
  pose proof Hinv as (_ & _ & (Hul & Hui & Huq & Huy) & _).
  apply (shrink_invariant s); try assumption; unfold tickPrune; simpl.
  - repeat split.
  - now apply prune_uniqueKeys.
  - now apply prune_uniqueKeys.
  - now apply prune_uniqueKeys.
  - apply subMap_refl.
  - apply prune_subMap.
  - apply prune_subMap.
  - apply prune_subMap.
Qed.

Lemma unload_invariant (centerCx centerCz : Z) (unloadKeys : list string)
    (s : Manager.ChunkManager) :
  managerInvariant s ->
  managerInvariant
    (fst (Manager.unloadOutsideRemoveRadius centerCx centerCz unloadKeys s)).
Proof.
  intros Hinv.
  pose proof Hinv as (_ & _ & (Hul & Hui & Huq & Huy) & _).
  unfold Manager.unloadOutsideRemoveRadius. rewrite unload_fold.
  apply (shrink_invariant s); try assumption; simpl.
  - repeat split.
  - now apply prune_unique.
  - apply prune_fold_subMap.
  - apply subMap_refl.
  - apply subMap_refl.
  - apply subMap_refl.
Qed.

(** *** [refreshQueue] *)

Lemma contains_In (set : JsSet.StringSet) (k : string) :
  JsSet.contains set k = true <-> In k set.
Proof.
  unfold JsSet.contains. rewrite existsb_exists. split.
  - intros (k' & Hin & Heq). apply String.eqb_eq in Heq. now subst.
  - intros Hin. exists k. split; [assumption|apply String.eqb_refl].
Qed.

Lemma In_insert_fold (items : list string) (acc : JsSet.StringSet)
    (k : string) :
  In k (foldl JsSet.insert acc items) <-> In k acc \/ In k items.
Proof.
  revert acc. induction items as [|item items IH]; intros acc; simpl.
  - tauto.
  - rewrite IH. unfold JsSet.insert.
    destruct (JsSet.contains acc item) eqn:Hc.
    + apply contains_In in Hc. intuition congruence.
    + rewrite in_app_iff. simpl. tauto.
Qed.

Lemma In_ofList (items : list string) (k : string) :
  In k (JsSet.ofList items) <-> In k items.
Proof. unfold JsSet.ofList. rewrite In_insert_fold. simpl. tauto. Qed.

Lemma In_needed (centerCx centerCz : Z) (activeRadius : Q) (k : string) :
  In k (Manager.computeNeededChunkKeys centerCx centerCz activeRadius)
  <-> exists cell,
        k = keyOf cell /\
        chebyshev centerCx centerCz cell
        <= Manager.clampRadius activeRadius.
Proof.
  rewrite computeNeededChunkKeys_cells, in_map_iff. split.
  - intros (cell & <- & Hin). exists cell. split; [reflexivity|].
    apply In_sort, squareAround_In in Hin. unfold chebyshev. lia.
  - intros (cell & -> & Hd). exists cell. split; [reflexivity|].
    apply In_sort, squareAround_In. unfold chebyshev in Hd. lia.
Qed.

Section KeepFold.

Context {V : Type}.
Variable keep : string -> bool.

(** A loop over keys that deletes those not to keep. *)
Lemma keepFold_get (keys : list string) (m : JsMap.t V) (k : string) :
  JsMap.get
    (foldl (fun q key => if keep key then q else JsMap.delete q key) m keys)
    k
  = if keep k || negb (existsb (String.eqb k) keys) then JsMap.get m k
    else None.
Proof.
  revert m. induction keys as [|key keys IH]; intros m; simpl.
  - now rewrite orb_true_r.
  - rewrite IH. destruct (String.eqb_spec k key) as [->|Hne]; simpl.
    + destruct (keep key) eqn:Hkeep; simpl; [reflexivity|].
      rewrite get_delete_eq. now destruct (negb _).
    + destruct (keep key); [reflexivity|].
      rewrite get_delete_ne by congruence. reflexivity.
Qed.

Lemma keepFold_subMap (keys : list string) (m : JsMap.t V) :
  subMap
    (foldl (fun q key => if keep key then q else JsMap.delete q key) m keys)
    m.
Proof.
  intros k v. rewrite keepFold_get. now destruct (_ || _).
Qed.

Lemma keepFold_unique (keys : list string) (m : JsMap.t V) :
  uniqueKeys m ->
  uniqueKeys
    (foldl (fun q key => if keep key then q else JsMap.delete q key) m keys).
Proof.
  revert m. induction keys as [|key keys IH]; intros m Hm; simpl;
    [assumption|].
  apply IH. destruct (keep key); [assumption|now apply uniqueKeys_delete].
Qed.

(** Run over all the keys of the map, the loop leaves only keys to keep. *)
Lemma keepFold_kept (m : JsMap.t V) (k : string) :
  JsMap.has
    (foldl (fun q key => if keep key then q else JsMap.delete q key) m
           (JsMap.keys m)) k = true ->
  keep k = true /\ JsMap.has m k = true.
Proof.
  intros Hhas. apply has_get in Hhas as [v Hv].
  rewrite keepFold_get in Hv.
  destruct (keep k) eqn:Hkeep; simpl in Hv.
  - split; [reflexivity|]. apply has_get. eauto.
  - destruct (existsb (String.eqb k) (JsMap.keys m)) eqn:Hex;
      simpl in Hv; [discriminate|].
    exfalso.
    assert (Hin : In k (JsMap.keys m)) by (apply has_In_keys, has_get; eauto).
    assert (Htrue : existsb (String.eqb k) (JsMap.keys m) = true).
    { apply existsb_exists. exists k.
      split; [assumption|apply String.eqb_refl]. }
    congruence.
Qed.

End KeepFold.

Section AddFold.

Variables (loaded ready : JsMap.t Manager.MeshWorkerResponse)
          (inflight : JsMap.t Manager.MeshWorkerRequest)
          (make : string -> Manager.MeshWorkerRequest).

Local Abbreviation addStep :=
  (fun (queued' : JsMap.t Manager.MeshWorkerRequest) (key : string) =>
     if JsMap.has loaded key || JsMap.has inflight key
        || JsMap.has queued' key || JsMap.has ready key
     then queued'
     else JsMap.set queued' key (make key)).

Lemma addFold_subMap (keys : list string)
    (q : JsMap.t Manager.MeshWorkerRequest) :
  subMap q (foldl addStep q keys).
Proof.
  revert q. induction keys as [|key keys IH]; intros q; simpl.
  - apply subMap_refl.
  - eapply subMap_trans; [|apply IH].
    destruct (_ || _) eqn:Hany; [apply subMap_refl|].
    intros k v Hget.
    destruct (String.eqb_spec key k) as [<-|Hne].
    + apply orb_false_elim in Hany as [Hany _].
      apply orb_false_elim in Hany as [_ Hq].
      apply has_false_get in Hq. congruence.
    + now rewrite get_set_ne.
Qed.

Lemma addFold_unique (keys : list string)
    (q : JsMap.t Manager.MeshWorkerRequest) :
  uniqueKeys q -> uniqueKeys (foldl addStep q keys).
Proof.
  revert q. induction keys as [|key keys IH]; intros q Hq; simpl;
    [assumption|].
  apply IH. destruct (_ || _); [assumption|now apply uniqueKeys_set].
Qed.

(** An entry of the queue after the loop was there before or is a fresh
    request for a key that was in none of the maps. *)
Lemma addFold_get (keys : list string)
    (q : JsMap.t Manager.MeshWorkerRequest) (k : string)
    (request : Manager.MeshWorkerRequest) :
  JsMap.get (foldl addStep q keys) k = Some request ->
  JsMap.get q k = Some request \/
  (In k keys /\ request = make k /\
   JsMap.has loaded k = false /\ JsMap.has inflight k = false /\
   JsMap.has ready k = false /\ JsMap.has q k = false).
Proof.
  revert q. induction keys as [|key keys IH]; intros q; simpl;
    [now left|].
  intros Hget. apply IH in Hget.
  destruct (JsMap.has loaded key || JsMap.has inflight key
            || JsMap.has q key || JsMap.has ready key) eqn:Hany.
  - destruct Hget as [Hold|(Hin & Hrest)]; [now left|].
    right. split; [now right|assumption].
  - apply orb_false_elim in Hany as [Hany Hr].
    apply orb_false_elim in Hany as [Hany Hq].
    apply orb_false_elim in Hany as [Hl Hi].
    destruct (String.eqb_spec key k) as [<-|Hne].
    + right. split; [now left|].
      destruct Hget as [Hold|(_ & Hreq & _)].
      * rewrite get_set_eq in Hold. injection Hold as <-.
        repeat split; assumption.
      * repeat split; assumption.
    + destruct Hget as [Hold|(Hin & Hreq & Hl' & Hi' & Hr' & Hq')].
      * left. now rewrite get_set_ne in Hold.
      * right. split; [now right|].
        rewrite has_set_ne in Hq' by assumption.
        repeat split; assumption.
Qed.

(** After the loop every key it ran over is in one of the maps. *)
Lemma addFold_tracked (keys : list string)
    (q : JsMap.t Manager.MeshWorkerRequest) (k : string) :
  In k keys ->
  JsMap.has loaded k || JsMap.has inflight k
  || JsMap.has (foldl addStep q keys) k || JsMap.has ready k = true.
Proof.
  revert q. induction keys as [|key keys IH]; intros q; simpl;
    [contradiction|].
  intros [->|Hin]; [|now apply IH].
  destruct (JsMap.has loaded k) eqn:Hl; [reflexivity|].
  destruct (JsMap.has inflight k) eqn:Hi; [reflexivity|].
  destruct (JsMap.has ready k) eqn:Hr; [now rewrite orb_true_r|].
  simpl. rewrite orb_false_r.
  destruct (JsMap.has q k) eqn:Hq; simpl.
  - eapply subMap_has; [apply addFold_subMap|assumption].
  - eapply subMap_has; [apply addFold_subMap|apply has_set_eq].
Qed.

End AddFold.

Lemma foldl_step_ext {A B : Type} (f g : A -> B -> A) (l : list B) (a : A) :
  (forall a b, f a b = g a b) -> foldl f a l = foldl g a l.
Proof.
  intros Hext. revert a. induction l as [|b l IH]; intros a; simpl;
    [reflexivity|].
  now rewrite Hext, IH.
Qed.

Lemma refreshQueue_eq (centerCx centerCz : Z) (s : Manager.ChunkManager)
    (seed : string) (seedI : Z) :
  Manager.seedStr s = Some seed ->
  Manager.seedInt s = Some seedI ->
  Manager.refreshQueue centerCx centerCz s
  = Manager.with_queued
      (foldl
         (fun queued' key =>
            if JsMap.has (Manager.loaded s) key
               || JsMap.has (Manager.inflight s) key
               || JsMap.has queued' key
               || JsMap.has (Manager.readyToApply s) key
            then queued'
            else JsMap.set queued' key (freshRequest seed seedI key))
         (foldl
            (fun q key =>
               if JsSet.contains
                    (JsSet.ofList
                       (Manager.computeNeededChunkKeys centerCx centerCz
                          (inject_Z (Manager.activeRadius s)))) key
               then q else JsMap.delete q key)
            (Manager.queued s) (JsMap.keys (Manager.queued s)))
         (JsSet.ofList
            (Manager.computeNeededChunkKeys centerCx centerCz
               (inject_Z (Manager.activeRadius s)))))
      s.
Proof.
  intros Hs Hi. unfold Manager.refreshQueue. rewrite Hs, Hi. cbv zeta.
  f_equal. f_equal.
  apply foldl_step_ext. intros q key.
  now destruct (JsSet.contains _ key).
Qed.

Lemma clampRadius_inject (r : Z) :
  0 <= r -> Manager.clampRadius (inject_Z r) = r.
Proof. intros Hr. unfold Manager.clampRadius. rewrite Qfloor_Z. lia. Qed.

Lemma parseChunkKey_keyOf (cell : Z * Z) :
  Manager.parseChunkKey (keyOf cell) = coordOf cell.
Proof. apply parseChunkKey_chunkKey. Qed.

Lemma keyOf_inj (a b : Z * Z) : keyOf a = keyOf b -> a = b.
Proof.
  destruct a as [ax az], b as [bx bz]. unfold keyOf; simpl.
  intros Heq. apply chunkKey_inj in Heq as [-> ->]. reflexivity.
Qed.

Lemma keyInRadius_keyOf (cell : Z * Z) (centerCx centerCz radius : Z) :
  Manager.keyInRadius (keyOf cell) centerCx centerCz radius = true
  <-> chebyshev centerCx centerCz cell <= radius.
Proof.
  unfold keyOf. rewrite keyInRadius_chunkKey, Z.leb_le. reflexivity.
Qed.

Section RefreshQueue.

Variables centerCx centerCz : Z.
Variable s : Manager.ChunkManager.
Hypothesis Hinv : managerInvariant s.

Lemma refreshQueue_settings :
  sameSettings s (Manager.refreshQueue centerCx centerCz s) /\
  Manager.loaded (Manager.refreshQueue centerCx centerCz s)
  = Manager.loaded s /\
  Manager.inflight (Manager.refreshQueue centerCx centerCz s)
  = Manager.inflight s /\
  Manager.readyToApply (Manager.refreshQueue centerCx centerCz s)
  = Manager.readyToApply s.
Proof.
  unfold Manager.refreshQueue.
  destruct (Manager.seedStr s); [|repeat split].
  destruct (Manager.seedInt s); repeat split.
Qed.

(** After [refreshQueue] the queue holds only needed keys, and every needed
    key is in one of the maps. *)
Lemma refreshQueue_queued (seed : string) (k : string) :
  Manager.seedStr s = Some seed ->
  (JsMap.has (Manager.queued (Manager.refreshQueue centerCx centerCz s)) k
   = true ->
   In k (Manager.computeNeededChunkKeys centerCx centerCz
           (inject_Z (Manager.activeRadius s)))) /\
  (In k (Manager.computeNeededChunkKeys centerCx centerCz
           (inject_Z (Manager.activeRadius s))) ->
   tracked (Manager.refreshQueue centerCx centerCz s) k = true).
Proof.
  intros Hs.
  pose proof Hinv as (_ & Hseed & _).
  rewrite (refreshQueue_eq centerCx centerCz s seed (Seed.seedToInt seed))
    by auto.
  split.
  - cbn [Manager.queued Manager.with_queued]. intros Hhas.
    apply has_get in Hhas as [request Hget].
    apply addFold_get in Hget as [Hold|(Hin & _)].
    + assert (Hhas : JsMap.has
                       (foldl
                          (fun q key =>
                             if JsSet.contains
                                  (JsSet.ofList
                                     (Manager.computeNeededChunkKeys
                                        centerCx centerCz
                                        (inject_Z (Manager.activeRadius s))))
                                  key
                             then q else JsMap.delete q key)
                          (Manager.queued s) (JsMap.keys (Manager.queued s)))
                       k = true) by (apply has_get; eauto).
      apply keepFold_kept in Hhas as [Hkeep _].
      apply (proj1 (contains_In _ _)) in Hkeep.
      exact (proj1 (In_ofList _ _) Hkeep).
    + exact (proj1 (In_ofList _ _) Hin).
  - intros Hin. unfold tracked.
    cbn [Manager.queued Manager.loaded Manager.inflight Manager.readyToApply
         Manager.with_queued].
    apply addFold_tracked. exact (proj2 (In_ofList _ _) Hin).
Qed.

Lemma refreshQueue_invariant :
  managerInvariant (Manager.refreshQueue centerCx centerCz s).
Proof.
  pose proof Hinv as (Hr & Hseed & (Hul & Hui & Huq & Huy) & Hq & Hi & Hy
                      & Hl & Hcount).
  destruct (Manager.seedStr s) as [seed|] eqn:Hs.
  2:{ unfold Manager.refreshQueue. now rewrite Hs. }
  pose proof (Hseed seed eq_refl) as HseedInt.
  rewrite (refreshQueue_eq centerCx centerCz s seed (Seed.seedToInt seed))
    by assumption.
  set (needed := JsSet.ofList
                   (Manager.computeNeededChunkKeys centerCx centerCz
                      (inject_Z (Manager.activeRadius s)))).
  set (q1 := foldl (fun q key =>
                      if JsSet.contains needed key then q
                      else JsMap.delete q key)
                   (Manager.queued s) (JsMap.keys (Manager.queued s))).
  assert (Hsub1 : subMap q1 (Manager.queued s)) by apply keepFold_subMap.
  assert (Hu1 : uniqueKeys q1) by now apply keepFold_unique.
  assert (Hsame : sameSettings s
                    (Manager.with_queued
                       (foldl
                          (fun queued' key =>
                             if JsMap.has (Manager.loaded s) key
                                || JsMap.has (Manager.inflight s) key
                                || JsMap.has queued' key
                                || JsMap.has (Manager.readyToApply s) key
                             then queued'
                             else JsMap.set queued' key
                                    (freshRequest seed (Seed.seedToInt seed)
                                       key))
                          q1 needed) s)) by (repeat split).
  unfold managerInvariant.
  cbn [Manager.queued Manager.loaded Manager.inflight Manager.readyToApply
       Manager.activeRadius Manager.removeRadius Manager.seedStr
       Manager.seedInt Manager.with_queued].
  split; [assumption|].
  split; [intros seed' Hs'; rewrite Hs in Hs'; injection Hs' as <-;
          exact HseedInt|].
  split; [repeat split; try assumption; now apply addFold_unique|].
  split.
  { intros k request Hget.
    apply addFold_get in Hget as [Hold|(Hin & -> & _)].
    - apply (requestFor_settings s); [assumption|].
      apply Hq, Hsub1, Hold.
    - apply (proj1 (In_ofList _ _)) in Hin.
      apply (proj1 (In_needed _ _ _ _)) in Hin as (cell & -> & _).
      exists cell. unfold freshRequest. rewrite parseChunkKey_keyOf.
      cbn [Manager.req_cx Manager.req_cz Manager.req_seedStr
           Manager.req_seedInt Manager.req_destroyedDelta
           Manager.req_forceApply Manager.seedStr Manager.seedInt
           Manager.with_queued coordOf Manager.cx Manager.cz].
      repeat split; assumption. }
  split.
  { intros k request Hget.
    apply (requestFor_settings s); [assumption|]. now apply Hi. }
  split; [assumption|]. split; [assumption|].
  intros k. specialize (Hcount k). unfold stageCount in *.
  cbn [Manager.queued Manager.loaded Manager.inflight Manager.readyToApply
       Manager.with_queued].
  match goal with
  | |- context [JsMap.has (foldl ?f q1 needed) k] =>
      destruct (JsMap.has (foldl f q1 needed) k) eqn:Hhas
  end.
  - apply has_get in Hhas as [request Hget].
    apply addFold_get in Hget as [Hold|(_ & _ & -> & -> & -> & _)];
      [|simpl; lia].
    assert (Hwas : JsMap.has (Manager.queued s) k = true)
      by (apply has_get; eauto).
    rewrite Hwas in Hcount. exact Hcount.
  - simpl in *. lia.
Qed.

End RefreshQueue.

(** *** [dequeueRequest] *)

Lemma dequeueRequest_cases (s : Manager.ChunkManager) :
  (JsMap.first (Manager.queued s) = None /\
   Manager.dequeueRequest s = (s, None)) \/
  exists key request,
    JsMap.first (Manager.queued s) = Some (key, request) /\
    JsMap.get (Manager.queued s) key = Some request /\
    Manager.dequeueRequest s
    = (Manager.with_inflight
         (JsMap.set (Manager.inflight s) key request)
         (Manager.with_queued (JsMap.delete (Manager.queued s) key) s),
       Some request).
Proof.
  unfold Manager.dequeueRequest.
  destruct (JsMap.first (Manager.queued s)) as [[key request]|] eqn:Hfirst.
  - right. exists key, request.
    split; [reflexivity|]. split; [now apply get_first|reflexivity].
  - now left.
Qed.

Lemma dequeueRequest_invariant (s : Manager.ChunkManager) :
  managerInvariant s -> managerInvariant (fst (Manager.dequeueRequest s)).
Proof.
  intros Hinv.
  destruct (dequeueRequest_cases s)
    as [[_ ->]|(key & request & _ & Hget & ->)]; [assumption|].
  destruct Hinv as (Hr & Hseed & (Hul & Hui & Huq & Huy) & Hq & Hi & Hy & Hl
                    & Hcount).
  unfold managerInvariant; simpl.
  split; [assumption|]. split; [assumption|].
  split; [repeat split; try assumption;
          [now apply uniqueKeys_set|now apply uniqueKeys_delete]|].
  split.
  { intros k r Hk. apply subMap_delete in Hk.
    destruct (Hq k r Hk) as (cell & H). now exists cell. }
  split.
  { intros k r Hk. destruct (String.eqb_spec key k) as [<-|Hne].
    - rewrite get_set_eq in Hk. injection Hk as <-.
      destruct (Hq key request Hget) as (cell & H). now exists cell.
    - rewrite get_set_ne in Hk by assumption.
      destruct (Hi k r Hk) as (cell & H). now exists cell. }
  split; [assumption|]. split; [assumption|].
  intros k. specialize (Hcount k). unfold stageCount in *; simpl.
  destruct (String.eqb_spec key k) as [<-|Hne].
  - rewrite has_delete_eq, has_set_eq.
    assert (Hhas : JsMap.has (Manager.queued s) key = true)
      by (apply has_get; eauto).
    rewrite Hhas in Hcount.
    destruct (JsMap.has (Manager.loaded s) key);
      destruct (JsMap.has (Manager.inflight s) key);
      destruct (JsMap.has (Manager.readyToApply s) key); simpl in *; lia.
  - rewrite has_delete_ne, has_set_ne by assumption. exact Hcount.
Qed.

Lemma dequeueRequest_tracked (s : Manager.ChunkManager) (k : string) :
  tracked (fst (Manager.dequeueRequest s)) k = tracked s k.
Proof.
  destruct (dequeueRequest_cases s)
    as [[_ ->]|(key & request & _ & Hget & ->)]; [reflexivity|].
  unfold tracked; simpl.
  destruct (String.eqb_spec key k) as [<-|Hne].
  - rewrite has_delete_eq, has_set_eq.
    assert (Hhas : JsMap.has (Manager.queued s) key = true)
      by (apply has_get; eauto).
    rewrite Hhas. now rewrite !orb_true_r.
  - now rewrite has_delete_ne, has_set_ne by assumption.
Qed.

(** *** [dequeueApply] *)

Lemma keyInRadius_cell (key : string) (centerCx centerCz radius : Z) :
  Manager.keyInRadius key centerCx centerCz radius = true
  <-> exists cell,
        Manager.parseChunkKey key = coordOf cell /\
        chebyshev centerCx centerCz cell <= radius.
Proof.
  unfold Manager.keyInRadius. cbv zeta.
  destruct (Manager.parseChunkKey key) as [a b].
  cbn [Manager.cx Manager.cz]. split.
  - intros Hin.
    destruct a as [| |x|], b as [| |z|]; try discriminate Hin.
    exists (x, z). split; [reflexivity|].
    change (Manager.isInRadius (Manager.cx (coordOf (x, z)))
              (Manager.cz (coordOf (x, z))) (Num.Int centerCx)
              (Num.Int centerCz) (Num.Int radius) = true) in Hin.
    rewrite <- parseChunkKey_keyOf in Hin.
    now apply (keyInRadius_keyOf (x, z)).
  - intros ([x z] & [= -> ->] & Hd).
    change (Manager.isInRadius (Manager.cx (coordOf (x, z)))
              (Manager.cz (coordOf (x, z))) (Num.Int centerCx)
              (Num.Int centerCz) (Num.Int radius) = true).
    rewrite <- parseChunkKey_keyOf.
    now apply (keyInRadius_keyOf (x, z)).
Qed.

Lemma chebyshevDistance_cell (cell : Z * Z) (centerCx centerCz : Z) :
  Manager.chebyshevDistance (Num.Int (fst cell)) (Num.Int (snd cell))
    (Num.Int centerCx) (Num.Int centerCz)
  = Num.Int (chebyshev centerCx centerCz cell).
Proof.
  unfold Manager.chebyshevDistance, chebyshev.
  cbn [Num.sub Num.neg Num.add Num.abs].
  replace (fst cell + - centerCx) with (fst cell - centerCx) by lia.
  replace (snd cell + - centerCz) with (snd cell - centerCz) by lia.
  unfold Num.max, Num.ltb.
  destruct (Z.ltb_spec (Z.abs (fst cell - centerCx))
                       (Z.abs (snd cell - centerCz))); f_equal; lia.
Qed.

(** The test of [dequeueApply] for a better entry, on chunks. *)
Lemma better_nearerThan (centerCx centerCz : Z) (a b : Z * Z) :
  Num.ltb (Num.Int (chebyshev centerCx centerCz a))
          (Num.Int (chebyshev centerCx centerCz b))
  || (Num.eqb (Num.Int (chebyshev centerCx centerCz a))
              (Num.Int (chebyshev centerCx centerCz b))
      && (Num.ltb (Num.Int (snd a)) (Num.Int (snd b))
          || (Num.eqb (Num.Int (snd a)) (Num.Int (snd b))
              && Num.ltb (Num.Int (fst a)) (Num.Int (fst b)))))
  = true
  <-> nearerThan centerCx centerCz a b.
Proof.
  unfold nearerThan. cbn [Num.ltb Num.eqb].
  rewrite !orb_true_iff, !andb_true_iff, !orb_true_iff, !andb_true_iff,
    !Z.ltb_lt, !Z.eqb_eq.
  reflexivity.
Qed.

Lemma nearerThan_total (centerCx centerCz : Z) (a b : Z * Z) :
  a = b \/ nearerThan centerCx centerCz a b
  \/ nearerThan centerCx centerCz b a.
Proof.
  destruct a as [ax az], b as [bx bz]. unfold nearerThan; simpl.
  destruct (Z.eq_dec ax bx) as [->|Hx];
    destruct (Z.eq_dec az bz) as [->|Hz]; [now left|right..]; lia.
Qed.

Section ApplyLoop.

Variables removeRadius centerCx centerCz : Z.
Variable ready0 : JsMap.t Manager.MeshWorkerResponse.

Lemma applyStep_invariant
    (processed : list (string * Manager.MeshWorkerResponse))
    (entry : string * Manager.MeshWorkerResponse)
    (st : JsMap.t Manager.MeshWorkerResponse * Manager.Best) :
  applyLoopInvariant removeRadius centerCx centerCz ready0 processed st ->
  applyLoopInvariant removeRadius centerCx centerCz ready0
    (processed ++ [entry])
    (Manager.applyStep removeRadius centerCx centerCz st entry).
Proof.
  destruct st as [ready best], entry as [key response].
  intros [Hready Hbest]. cbn [fst snd] in Hready, Hbest.
  unfold Manager.applyStep. cbn [fst snd]. cbv zeta.
  change (Manager.isInRadius (Manager.cx (Manager.parseChunkKey key))
            (Manager.cz (Manager.parseChunkKey key)) (Num.Int centerCx)
            (Num.Int centerCz) (Num.Int removeRadius))
    with (Manager.keyInRadius key centerCx centerCz removeRadius).
  destruct (Manager.keyInRadius key centerCx centerCz removeRadius)
    eqn:Hin; cbn [negb].
  - (* within the radius *)
    destruct (proj1 (keyInRadius_cell _ _ _ _) Hin) as (cell & Hparse & Hd).
    rewrite Hparse. cbn [coordOf Manager.cx Manager.cz].
    rewrite chebyshevDistance_cell.
    assert (Hfold : ready
                    = foldl (fun q key0 =>
                               if Manager.keyInRadius key0 centerCx centerCz
                                    removeRadius
                               then q else JsMap.delete q key0)
                            ready0 (List.map fst (processed ++ [(key, response)]))).
    { rewrite List.map_app, foldl_app. simpl. now rewrite Hin. }
    destruct (Manager.bestKey best) as [bkey|] eqn:Hbk;
      destruct (Manager.bestResponse best) as [bresp|] eqn:Hbr;
      try contradiction.
    + destruct Hbest as (Hbin & bcell & Hbparse & Hbd & Hdist & Hcx & Hcz
                         & Hmin).
      rewrite Hdist, Hcx, Hcz.
      destruct (_ || _) eqn:Hbetter.
      * apply better_nearerThan in Hbetter.
        split; [exact Hfold|]. cbn [fst snd Manager.bestKey
          Manager.bestResponse Manager.bestDistance Manager.bestCx
          Manager.bestCz].
        split; [apply in_or_app; right; now left|].
        exists cell. repeat split; try assumption.
        intros key' response' cell' Hin' Hparse' Hd'.
        apply in_app_or in Hin' as [Hin'|[[= <- <-]|[]]].
        -- destruct (Hmin key' response' cell' Hin' Hparse' Hd')
             as [->|Hnear]; right; [assumption|].
           eapply nearerThan_trans; eassumption.
        -- left. rewrite Hparse in Hparse'.
           destruct cell, cell'. unfold coordOf in Hparse'; simpl in *.
           congruence.
      * split; [exact Hfold|]. cbn [fst snd]. rewrite Hbk, Hbr.
        split; [apply in_or_app; now left|].
        exists bcell. repeat split; try assumption.
        intros key' response' cell' Hin' Hparse' Hd'.
        apply in_app_or in Hin' as [Hin'|[[= <- <-]|[]]];
          [now apply (Hmin key' response')|].
        assert (cell' = cell).
        { rewrite Hparse in Hparse'.
          destruct cell, cell'. unfold coordOf in Hparse'; simpl in *.
          congruence. }
        subst cell'.
        destruct (nearerThan_total centerCx centerCz cell bcell)
          as [->|[Hnear|Hnear]]; [now left| |now right].
        apply better_nearerThan in Hnear. congruence.
    + destruct Hbest as [-> Hnone].
      cbn [Manager.noBest Manager.bestDistance Manager.bestCx Manager.bestCz
           Num.ltb orb].
      split; [exact Hfold|]. cbn [fst snd Manager.bestKey
        Manager.bestResponse Manager.bestDistance Manager.bestCx
        Manager.bestCz].
      split; [apply in_or_app; right; now left|].
      exists cell. repeat split; try assumption.
      intros key' response' cell' Hin' Hparse' Hd'.
      apply in_app_or in Hin' as [Hin'|[[= <- <-]|[]]].
      * assert (Manager.keyInRadius key' centerCx centerCz removeRadius
                = true) by (apply keyInRadius_cell; eauto).
        rewrite (Hnone key' response' Hin') in H. discriminate.
      * left. rewrite Hparse in Hparse'.
        destruct cell, cell'. unfold coordOf in Hparse'; simpl in *.
        congruence.
  - (* outside the radius *)
    split.
    + cbn [fst]. rewrite List.map_app, foldl_app. simpl.
      now rewrite Hin, Hready.
    + cbn [snd].
      destruct (Manager.bestKey best) as [bkey|] eqn:Hbk;
        destruct (Manager.bestResponse best) as [bresp|] eqn:Hbr;
        try contradiction.
      * destruct Hbest as (Hbin & bcell & Hbparse & Hbd & Hdist & Hcx & Hcz
                           & Hmin).
        split; [apply in_or_app; now left|].
        exists bcell. repeat split; try assumption.
        intros key' response' cell' Hin' Hparse' Hd'.
        apply in_app_or in Hin' as [Hin'|[[= <- <-]|[]]];
          [now apply (Hmin key' response')|].
        assert (Manager.keyInRadius key centerCx centerCz removeRadius
                = true) by (apply keyInRadius_cell; eauto).
        congruence.
      * destruct Hbest as [Hb Hnone]. split; [assumption|].
        intros key' response' Hin'.
        apply in_app_or in Hin' as [Hin'|[[= <- <-]|[]]];
          [now apply (Hnone key' response')|assumption].
Qed.

Lemma applyLoop_invariant
    (entries processed : list (string * Manager.MeshWorkerResponse))
    (st : JsMap.t Manager.MeshWorkerResponse * Manager.Best) :
  applyLoopInvariant removeRadius centerCx centerCz ready0 processed st ->
  applyLoopInvariant removeRadius centerCx centerCz ready0
    (processed ++ entries)
    (foldl (Manager.applyStep removeRadius centerCx centerCz) st entries).
Proof.
  revert processed st.
  induction entries as [|entry entries IH]; intros processed st Hinv; simpl.
  - now rewrite app_nil_r.
  - replace (processed ++ entry :: entries)
      with ((processed ++ [entry]) ++ entries)
      by (now rewrite <- app_assoc).
    apply IH. now apply applyStep_invariant.
Qed.

End ApplyLoop.

Lemma keyOf_nonempty (cell : Z * Z) : keyOf cell <> EmptyString.
Proof.
  intros Hempty.
  pose proof (parseChunkKey_keyOf cell) as Hparse.
  rewrite Hempty in Hparse. discriminate Hparse.
Qed.

Lemma coordOf_inj (a b : Z * Z) : coordOf a = coordOf b -> a = b.
Proof.
  destruct a, b. unfold coordOf; simpl. congruence.
Qed.

(** What [dequeueApply] does to a manager that satisfies the invariant:
    with no ready entry within [removeRadius] it only drops the ready
    entries, all of which are outside; otherwise it moves to [loaded] the
    ready entry within the radius that comes first in the order. *)
Lemma dequeueApply_cases (centerCx centerCz : Z) (s : Manager.ChunkManager) :
  managerInvariant s ->
  let pruned :=
    foldl (fun q key =>
             if Manager.keyInRadius key centerCx centerCz
                  (Manager.removeRadius s)
             then q else JsMap.delete q key)
          (Manager.readyToApply s) (JsMap.keys (Manager.readyToApply s)) in
  (Manager.dequeueApply centerCx centerCz s
   = (Manager.with_readyToApply pruned s, None) /\
   forall key response,
     JsMap.get (Manager.readyToApply s) key = Some response ->
     Manager.keyInRadius key centerCx centerCz (Manager.removeRadius s)
     = false) \/
  exists cell response,
    Manager.dequeueApply centerCx centerCz s
    = (Manager.with_loaded
         (JsMap.set (Manager.loaded s) (keyOf cell) response)
         (Manager.with_readyToApply (JsMap.delete pruned (keyOf cell)) s),
       Some response) /\
    JsMap.get (Manager.readyToApply s) (keyOf cell) = Some response /\
    chebyshev centerCx centerCz cell <= Manager.removeRadius s /\
    forall cell' response',
      JsMap.get (Manager.readyToApply s) (keyOf cell') = Some response' ->
      chebyshev centerCx centerCz cell' <= Manager.removeRadius s ->
      cell' = cell \/ nearerThan centerCx centerCz cell cell'.
Proof.
  intros Hinv pruned.
  pose proof Hinv as (_ & _ & (_ & _ & _ & Huy) & _ & _ & Hy & _).
  pose proof (applyLoop_invariant (Manager.removeRadius s) centerCx centerCz
                (Manager.readyToApply s) (Manager.readyToApply s) []
                (Manager.readyToApply s, Manager.noBest)) as Hloop.
  cbn [app] in Hloop.
  destruct Hloop as [Hready Hbest].
  { split; [reflexivity|]. cbn [snd Manager.noBest Manager.bestKey
      Manager.bestResponse]. split; [reflexivity|]. intros ? ? []. }
  unfold Manager.dequeueApply. cbv zeta.
  set (st := foldl (Manager.applyStep (Manager.removeRadius s) centerCx
                      centerCz)
                   (Manager.readyToApply s, Manager.noBest)
                   (Manager.readyToApply s)) in *.
  change (List.map fst (Manager.readyToApply s))
    with (JsMap.keys (Manager.readyToApply s)) in Hready.
  fold pruned in Hready. rewrite Hready.
  destruct (Manager.bestKey (snd st)) as [key|] eqn:Hbk;
    destruct (Manager.bestResponse (snd st)) as [response|] eqn:Hbr;
    try contradiction.
  - right.
    destruct Hbest as (Hin & cell & Hparse & Hd & _ & _ & _ & Hmin).
    pose proof (In_get _ _ _ Huy Hin) as Hget.
    destruct (Hy key response Hget) as [[cell0 ->] _].
    rewrite parseChunkKey_keyOf in Hparse. apply coordOf_inj in Hparse.
    subst cell0.
    exists cell, response.
    cbn [Manager.truthyKey].
    destruct (String.eqb_spec (keyOf cell) "") as [Hempty|_];
      [now apply keyOf_nonempty in Hempty|].
    split; [reflexivity|]. split; [assumption|]. split; [assumption|].
    intros cell' response' Hget' Hd'.
    apply (Hmin (keyOf cell') response' cell'); try assumption.
    + now apply get_In.
    + apply parseChunkKey_keyOf.
  - left. destruct Hbest as [_ Hnone]. cbn [Manager.truthyKey].
    split; [reflexivity|].
    intros key response Hget. apply (Hnone key response).
    now apply get_In.
Qed.

Lemma dequeueApply_invariant (centerCx centerCz : Z)
    (s : Manager.ChunkManager) :
  managerInvariant s ->
  managerInvariant (fst (Manager.dequeueApply centerCx centerCz s)).
Proof.
  intros Hinv.
  pose proof Hinv as (Hr & Hseed & (Hul & Hui & Huq & Huy) & Hq & Hi & Hy
                      & Hl & Hcount).
  destruct (dequeueApply_cases centerCx centerCz s Hinv)
    as [[-> _]|(cell & response & -> & Hget & Hd & _)]; cbn [fst].
  - apply (shrink_invariant s); try assumption; simpl;
      try apply subMap_refl.
    + repeat split.
    + now apply keepFold_unique.
    + apply keepFold_subMap.
  - set (pruned := foldl _ (Manager.readyToApply s) _).
    assert (Hsub : subMap pruned (Manager.readyToApply s))
      by apply keepFold_subMap.
    assert (Hup : uniqueKeys pruned) by now apply keepFold_unique.
    unfold managerInvariant; simpl.
    split; [assumption|]. split; [assumption|].
    split; [repeat split; try assumption;
            [now apply uniqueKeys_set|now apply uniqueKeys_delete]|].
    split; [intros k r Hk; destruct (Hq k r Hk) as (c & H); now exists c|].
    split; [intros k r Hk; destruct (Hi k r Hk) as (c & H); now exists c|].
    split; [intros k r Hk; apply subMap_delete in Hk; now apply Hy, Hsub|].
    split.
    { intros k r Hk. destruct (String.eqb_spec (keyOf cell) k) as [<-|Hne].
      - rewrite get_set_eq in Hk. injection Hk as <-. now apply Hy.
      - rewrite get_set_ne in Hk by assumption. now apply Hl. }
    intros k. specialize (Hcount k). unfold stageCount in *; simpl.
    destruct (String.eqb_spec (keyOf cell) k) as [<-|Hne].
    + rewrite has_delete_eq, has_set_eq.
      assert (Hhas : JsMap.has (Manager.readyToApply s) (keyOf cell) = true)
        by (apply has_get; eauto).
      rewrite Hhas in Hcount.
      destruct (JsMap.has (Manager.loaded s) (keyOf cell));
        destruct (JsMap.has (Manager.inflight s) (keyOf cell));
        destruct (JsMap.has (Manager.queued s) (keyOf cell));
        simpl in *; lia.
    + rewrite has_delete_ne, has_set_ne by assumption.
      pose proof (subMap_b2n _ _ k Hsub). lia.
Qed.

(** *** [tick] *)

Lemma tickState_invariant (centerCx centerCz : Z)
    (p : Manager.ChunkManagerTickParams) (s : Manager.ChunkManager) :
  managerInvariant s ->
  managerInvariant (tickState centerCx centerCz p s).
Proof.
  intros Hinv.
  unfold tickState, tickApplied, tickRequested, tickQueued, tickUnloaded.
  apply dequeueApply_invariant, dequeueRequest_invariant,
    refreshQueue_invariant, unload_invariant, tickPrune_invariant,
    tickResponses_invariant, Hinv.
Qed.

Lemma tick_invariant (CHUNK_SIZE : Z) (p : Manager.ChunkManagerTickParams)
    (s s' : Manager.ChunkManager) (t : Manager.ChunkManagerTickResult) :
  managerInvariant s ->
  Manager.tick CHUNK_SIZE p s = Ok (s', t) ->
  managerInvariant s'.
Proof.
  intros Hinv Htick.
  destruct (Z.lt_ge_cases 0 CHUNK_SIZE) as [Hsize|Hsize].
  - pose proof (tick_tickFrom CHUNK_SIZE p s Hsize) as Heq.
    assert (Hs' : s' = tickState (Manager.playerX p / CHUNK_SIZE)
                         (Manager.playerZ p / CHUNK_SIZE) p s)
      by congruence.
    rewrite Hs'. now apply tickState_invariant.
  - pose proof (tick_throws CHUNK_SIZE p s Hsize) as Heq. congruence.
Qed.

Lemma reachable_invariant (CHUNK_SIZE : Z) (s : Manager.ChunkManager) :
  reachable CHUNK_SIZE s -> managerInvariant s.
Proof.
  induction 1 as [options s Hnew|p s s' t _ IH Htick|response s _ IH].
  - now apply (constructor_invariant options).
  - now apply (tick_invariant CHUNK_SIZE p s s' t).
  - now apply handleWorkerResponse_invariant.
Qed.

(** ** The window of chunks that a tick leaves in the manager *)

Lemma keepFold_has_kept {V : Type} (keep : string -> bool)
    (keys : list string) (m : JsMap.t V) (k : string) :
  keep k = true ->
  JsMap.has
    (foldl (fun q key => if keep key then q else JsMap.delete q key) m keys)
    k
  = JsMap.has m k.
Proof.
  intros Hkeep. unfold JsMap.has. rewrite keepFold_get, Hkeep. reflexivity.
Qed.

Lemma keysWithin_subMap {V : Type} (centerCx centerCz radius : Z)
    (m' m : JsMap.t V) :
  subMap m' m ->
  keysWithin centerCx centerCz radius m ->
  keysWithin centerCx centerCz radius m'.
Proof.
  intros Hsub Hwithin key Hhas. apply Hwithin.
  now apply (subMap_has m' m).
Qed.

Lemma handleWorkerResponse_settings (response : Manager.MeshWorkerResponse)
    (s : Manager.ChunkManager) :
  sameSettings s (Manager.handleWorkerResponse response s).
Proof.
  unfold Manager.handleWorkerResponse. cbv zeta.
  destruct (negb _); repeat split.
Qed.

Lemma responses_settings (responses : list Manager.MeshWorkerResponse)
    (s : Manager.ChunkManager) :
  sameSettings s
    (foldl (fun s response => Manager.handleWorkerResponse response s)
           s responses).
Proof.
  revert s. induction responses as [|response responses IH]; intros s;
    simpl; [apply sameSettings_refl|].
  eapply sameSettings_trans; [apply handleWorkerResponse_settings|apply IH].
Qed.

Lemma tickResponses_settings (p : Manager.ChunkManagerTickParams)
    (s : Manager.ChunkManager) :
  Manager.activeRadius (tickResponses p s) = Manager.activeRadius s /\
  Manager.removeRadius (tickResponses p s) = Manager.removeRadius s /\
  Manager.seedStr (tickResponses p s) = Some (Manager.p_seedStr p).
Proof.
  unfold tickResponses.
  destruct (responses_settings
              (match Manager.workerResponses p with
               | Some responses => responses
               | None => []
               end)
              (fst (Manager.resetForSeedIfNeeded (Manager.p_seedStr p) [] s)))
    as (-> & -> & -> & _).
  unfold Manager.resetForSeedIfNeeded.
  destruct (Manager.sameSeed (Manager.seedStr s) (Manager.p_seedStr p))
    eqn:Hsame; simpl; [|repeat split].
  apply sameSeed_true in Hsame. repeat split. assumption.
Qed.

Section Window.

Variables centerCx centerCz : Z.

Lemma tickPrune_within (s : Manager.ChunkManager) :
  let s' := tickPrune centerCx centerCz s in
  sameSettings s s' /\
  Manager.loaded s' = Manager.loaded s /\
  keysWithin centerCx centerCz (Manager.removeRadius s)
    (Manager.inflight s') /\
  keysWithin centerCx centerCz (Manager.removeRadius s) (Manager.queued s') /\
  keysWithin centerCx centerCz (Manager.removeRadius s)
    (Manager.readyToApply s').
Proof.
  unfold tickPrune; simpl.
  split; [repeat split|]. split; [reflexivity|].
  repeat split; apply prune_keysWithin.
Qed.

Lemma unload_within (unloadKeys : list string) (s : Manager.ChunkManager) :
  let s' :=
    fst (Manager.unloadOutsideRemoveRadius centerCx centerCz unloadKeys s) in
  sameSettings s s' /\
  keysWithin centerCx centerCz (Manager.removeRadius s) (Manager.loaded s') /\
  Manager.inflight s' = Manager.inflight s /\
  Manager.queued s' = Manager.queued s /\
  Manager.readyToApply s' = Manager.readyToApply s.
Proof.
  unfold Manager.unloadOutsideRemoveRadius. rewrite unload_fold. simpl.
  split; [repeat split|]. split; [|repeat split].
  apply (prune_keysWithin (Manager.removeRadius s) centerCx centerCz
           (Manager.loaded s)).
Qed.

Lemma needed_within (s : Manager.ChunkManager) (k : string) :
  managerInvariant s ->
  In k (Manager.computeNeededChunkKeys centerCx centerCz
          (inject_Z (Manager.activeRadius s))) ->
  Manager.keyInRadius k centerCx centerCz (Manager.removeRadius s) = true.
Proof.
  intros (Hr & _) Hin.
  apply (proj1 (In_needed _ _ _ _)) in Hin as (cell & -> & Hd).
  rewrite clampRadius_inject in Hd by lia.
  apply keyInRadius_keyOf. lia.
Qed.

Lemma dequeueRequest_within (s : Manager.ChunkManager) :
  allWithin centerCx centerCz s ->
  allWithin centerCx centerCz (fst (Manager.dequeueRequest s)).
Proof.
  intros (Hl & Hi & Hq & Hy).
  destruct (dequeueRequest_cases s)
    as [[_ ->]|(key & request & _ & Hget & ->)];
    [repeat split; assumption|].
  unfold allWithin; simpl.
  split; [assumption|]. split; [|split; [|assumption]].
  - intros k Hhas. destruct (String.eqb_spec key k) as [<-|Hne].
    + apply Hq, has_get. eauto.
    + rewrite has_set_ne in Hhas by assumption. now apply Hi.
  - eapply keysWithin_subMap; [apply subMap_delete|assumption].
Qed.

Lemma dequeueApply_settings (s : Manager.ChunkManager) :
  managerInvariant s ->
  sameSettings s (fst (Manager.dequeueApply centerCx centerCz s)).
Proof.
  intros Hinv.
  destruct (dequeueApply_cases centerCx centerCz s Hinv)
    as [[-> _]|(cell & response & -> & _)]; repeat split.
Qed.

Lemma dequeueApply_within (s : Manager.ChunkManager) :
  managerInvariant s ->
  allWithin centerCx centerCz s ->
  allWithin centerCx centerCz (fst (Manager.dequeueApply centerCx centerCz s)).
Proof.
  intros Hinv (Hl & Hi & Hq & Hy).
  destruct (dequeueApply_cases centerCx centerCz s Hinv)
    as [[-> _]|(cell & response & -> & Hget & Hd & _)];
    unfold allWithin; simpl.
  - repeat split; try assumption.
    eapply keysWithin_subMap; [apply keepFold_subMap|assumption].
  - split; [|split; [assumption|split; [assumption|]]].
    + intros k Hhas. destruct (String.eqb_spec (keyOf cell) k) as [<-|Hne].
      * now apply keyInRadius_keyOf.
      * rewrite has_set_ne in Hhas by assumption. now apply Hl.
    + eapply keysWithin_subMap; [apply subMap_delete|].
      eapply keysWithin_subMap; [apply keepFold_subMap|assumption].
Qed.

Lemma dequeueApply_tracked (s : Manager.ChunkManager) (k : string) :
  managerInvariant s ->
  Manager.keyInRadius k centerCx centerCz (Manager.removeRadius s) = true ->
  tracked s k = true ->
  tracked (fst (Manager.dequeueApply centerCx centerCz s)) k = true.
Proof.
  intros Hinv Hin Htracked.
  destruct (dequeueApply_cases centerCx centerCz s Hinv)
    as [[-> _]|(cell & response & -> & Hget & Hd & _)];
    unfold tracked in *; simpl.
  - now rewrite (keepFold_has_kept
                   (fun key => Manager.keyInRadius key centerCx centerCz
                                 (Manager.removeRadius s))).
  - destruct (String.eqb_spec (keyOf cell) k) as [<-|Hne].
    + now rewrite has_set_eq.
    + rewrite has_set_ne, has_delete_ne by assumption.
      now rewrite (keepFold_has_kept
                     (fun key => Manager.keyInRadius key centerCx centerCz
                                   (Manager.removeRadius s))).
Qed.

(** The manager once [tick] has refreshed the queue. *)
Lemma tickQueued_facts (p : Manager.ChunkManagerTickParams)
    (s : Manager.ChunkManager) :
  managerInvariant s ->
  let s2 := tickQueued centerCx centerCz p s in
  managerInvariant s2 /\
  Manager.activeRadius s2 = Manager.activeRadius s /\
  Manager.removeRadius s2 = Manager.removeRadius s /\
  Manager.seedStr s2 = Some (Manager.p_seedStr p) /\
  allWithin centerCx centerCz s2 /\
  (forall k,
     In k (Manager.computeNeededChunkKeys centerCx centerCz
             (inject_Z (Manager.activeRadius s))) ->
     tracked s2 k = true) /\
  (forall k,
     JsMap.has (Manager.queued s2) k = true ->
     In k (Manager.computeNeededChunkKeys centerCx centerCz
             (inject_Z (Manager.activeRadius s)))).
Proof.
  intros Hinv s2. subst s2. unfold tickQueued, tickUnloaded.
  set (s0 := tickResponses p s).
  assert (Hinv0 : managerInvariant s0)
    by now apply tickResponses_invariant.
  destruct (tickResponses_settings p s) as (Ha0 & Hr0 & Hs0).
  fold s0 in Ha0, Hr0, Hs0.
  set (s1 := tickPrune centerCx centerCz s0).
  assert (Hinv1 : managerInvariant s1) by now apply tickPrune_invariant.
  destruct (tickPrune_within s0)
    as ((Ha1 & Hr1 & Hs1 & _) & _ & Hi1 & Hq1 & Hy1).
  fold s1 in Ha1, Hr1, Hs1, Hi1, Hq1, Hy1.
  set (sU := fst (Manager.unloadOutsideRemoveRadius centerCx centerCz _ s1)).
  assert (HinvU : managerInvariant sU) by now apply unload_invariant.
  destruct (unload_within
              (snd (Manager.resetForSeedIfNeeded (Manager.p_seedStr p) [] s))
              s1)
    as ((HaU & HrU & HsU & _) & HlU & HiU & HqU & HyU).
  fold sU in HaU, HrU, HsU, HlU, HiU, HqU, HyU.
  set (s2 := Manager.refreshQueue centerCx centerCz sU).
  assert (Hinv2 : managerInvariant s2) by now apply refreshQueue_invariant.
  destruct (refreshQueue_settings centerCx centerCz sU)
    as ((Ha2 & Hr2 & Hs2 & _) & Hl2 & Hi2 & Hy2).
  fold s2 in Ha2, Hr2, Hs2, Hl2, Hi2, Hy2.
  assert (HsU' : Manager.seedStr sU = Some (Manager.p_seedStr p))
    by congruence.
  assert (Hqueued : forall k,
             JsMap.has (Manager.queued s2) k = true ->
             In k (Manager.computeNeededChunkKeys centerCx centerCz
                     (inject_Z (Manager.activeRadius s)))).
  { intros k Hhas.
    pose proof (proj1 (refreshQueue_queued centerCx centerCz sU HinvU
                         (Manager.p_seedStr p) k HsU') Hhas) as Hin.
    now rewrite HaU, Ha1, Ha0 in Hin. }
  split; [assumption|]. split; [congruence|]. split; [congruence|].
  split; [congruence|]. split; [|split; [|assumption]].
  - unfold allWithin. rewrite Hr2, HrU, Hl2, Hi2, Hy2, HiU, HyU.
    split; [assumption|]. split; [assumption|]. split; [|assumption].
    intros k Hhas. rewrite Hr1, Hr0.
    apply (needed_within s); [assumption|]. now apply Hqueued.
  - intros k Hin.
    apply (proj2 (refreshQueue_queued centerCx centerCz sU HinvU
                    (Manager.p_seedStr p) k HsU')).
    now rewrite HaU, Ha1, Ha0.
Qed.

(** The manager once [tick] has taken a request from the queue. *)
Lemma tickRequested_facts (p : Manager.ChunkManagerTickParams)
    (s : Manager.ChunkManager) :
  managerInvariant s ->
  let s3 := fst (tickRequested centerCx centerCz p s) in
  managerInvariant s3 /\
  Manager.activeRadius s3 = Manager.activeRadius s /\
  Manager.removeRadius s3 = Manager.removeRadius s /\
  Manager.seedStr s3 = Some (Manager.p_seedStr p) /\
  allWithin centerCx centerCz s3 /\
  (forall k,
     In k (Manager.computeNeededChunkKeys centerCx centerCz
             (inject_Z (Manager.activeRadius s))) ->
     tracked s3 k = true).
Proof.
  intros Hinv s3. subst s3. unfold tickRequested.
  destruct (tickQueued_facts p s Hinv)
    as (Hinv2 & Ha2 & Hr2 & Hs2 & Hwithin2 & Htracked2 & _).
  set (s2 := tickQueued centerCx centerCz p s) in *.
  assert (Hset3 : sameSettings s2 (fst (Manager.dequeueRequest s2))).
  { destruct (dequeueRequest_cases s2)
      as [[_ ->]|(key & request & _ & _ & ->)]; repeat split. }
  destruct Hset3 as (Ha3 & Hr3 & Hs3 & _).
  split; [now apply dequeueRequest_invariant|].
  split; [congruence|]. split; [congruence|]. split; [congruence|].
  split; [now apply dequeueRequest_within|].
  intros k Hin. rewrite dequeueRequest_tracked. now apply Htracked2.
Qed.

(** The manager after a tick: the invariant holds, every key of the maps is
    within [removeRadius] of the centre, and every key within
    [activeRadius] is in one of the maps. *)
Lemma tickState_window (p : Manager.ChunkManagerTickParams)
    (s : Manager.ChunkManager) :
  managerInvariant s ->
  let s' := tickState centerCx centerCz p s in
  managerInvariant s' /\
  Manager.activeRadius s' = Manager.activeRadius s /\
  Manager.removeRadius s' = Manager.removeRadius s /\
  Manager.seedStr s' = Some (Manager.p_seedStr p) /\
  allWithin centerCx centerCz s' /\
  forall k,
    In k (Manager.computeNeededChunkKeys centerCx centerCz
            (inject_Z (Manager.activeRadius s))) ->
    tracked s' k = true.
Proof.
  intros Hinv s'.
  split; [now apply tickState_invariant|].
  subst s'. unfold tickState, tickApplied.
  destruct (tickRequested_facts p s Hinv)
    as (Hinv3 & Ha3 & Hr3 & Hs3 & Hwithin3 & Htracked3).
  set (s3 := fst (tickRequested centerCx centerCz p s)) in *.
  destruct (dequeueApply_settings s3 Hinv3) as (Ha4 & Hr4 & Hs4 & _).
  split; [congruence|]. split; [congruence|]. split; [congruence|].
  split; [now apply dequeueApply_within|].
  intros k Hin. apply dequeueApply_tracked; [assumption| |].
  - rewrite Hr3. apply (needed_within s); [assumption|exact Hin].
  - now apply Htracked3.
Qed.

End Window.

(** ** What a tick leaves and returns *)

Lemma tracked_canonical (s : Manager.ChunkManager) (key : string) :
  managerInvariant s -> tracked s key = true -> canonicalKey key.
Proof.
  intros (_ & _ & _ & Hq & Hi & Hy & Hl & _) Htracked.
  unfold tracked in Htracked.
  apply orb_true_iff in Htracked as [Htracked|Hhas].
  - apply orb_true_iff in Htracked as [Htracked|Hhas].
    + apply orb_true_iff in Htracked as [Hhas|Hhas].
      * apply has_get in Hhas as [response Hget].
        now destruct (Hl key response Hget).
      * apply has_get in Hhas as [request Hget].
        destruct (Hi key request Hget) as (cell & -> & _). now exists cell.
    + apply has_get in Hhas as [request Hget].
      destruct (Hq key request Hget) as (cell & -> & _). now exists cell.
  - apply has_get in Hhas as [response Hget].
    now destruct (Hy key response Hget).
Qed.

Lemma tracked_within (centerCx centerCz : Z) (s : Manager.ChunkManager)
    (key : string) :
  allWithin centerCx centerCz s ->
  tracked s key = true ->
  Manager.keyInRadius key centerCx centerCz (Manager.removeRadius s) = true.
Proof.
  intros (Hl & Hi & Hq & Hy) Htracked. unfold tracked in Htracked.
  apply orb_true_iff in Htracked as [Htracked|Hhas]; [|now apply Hy].
  apply orb_true_iff in Htracked as [Htracked|Hhas]; [|now apply Hq].
  apply orb_true_iff in Htracked as [Hhas|Hhas]; [now apply Hl|now apply Hi].
Qed.

Lemma trackedKeys_In (s : Manager.ChunkManager) (key : string) :
  In key (trackedKeys s) <-> tracked s key = true.
Proof.
  unfold trackedKeys, tracked.
  rewrite !in_app_iff, !orb_true_iff, <- !has_In_keys. tauto.
Qed.

Lemma trackedKeys_NoDup (s : Manager.ChunkManager) :
  managerInvariant s -> List.NoDup (trackedKeys s).
Proof.
  intros (_ & _ & (Hul & Hui & Huq & Huy) & _ & _ & _ & _ & Hcount).
  assert (Hone : forall key,
             (Nat.b2n (JsMap.has (Manager.loaded s) key)
              + Nat.b2n (JsMap.has (Manager.inflight s) key)
              + Nat.b2n (JsMap.has (Manager.queued s) key)
              + Nat.b2n (JsMap.has (Manager.readyToApply s) key) <= 1)%nat)
    by exact Hcount.
  assert (Hb : forall (V : Type) (m : JsMap.t V) key,
             In key (JsMap.keys m) -> Nat.b2n (JsMap.has m key) = 1%nat).
  { intros V m key Hin. apply has_In_keys in Hin. now rewrite Hin. }
  unfold trackedKeys.
  apply List.NoDup_app; [assumption| |].
  - apply List.NoDup_app; [assumption| |].
    + apply List.NoDup_app; [assumption|assumption|].
      intros key Hin Hin'. specialize (Hone key).
      rewrite (Hb _ _ _ Hin), (Hb _ _ _ Hin') in Hone. lia.
    + intros key Hin Hin'. specialize (Hone key).
      rewrite (Hb _ _ _ Hin) in Hone.
      apply in_app_or in Hin' as [Hin'|Hin'];
        rewrite (Hb _ _ _ Hin') in Hone; lia.
  - intros key Hin Hin'. specialize (Hone key).
    rewrite (Hb _ _ _ Hin) in Hone.
    apply in_app_or in Hin' as [Hin'|Hin'];
      [|apply in_app_or in Hin' as [Hin'|Hin']];
      rewrite (Hb _ _ _ Hin') in Hone; lia.
Qed.

Lemma trackedKeys_length (s : Manager.ChunkManager) :
  Z.of_nat (length (trackedKeys s))
  = Manager.st_loaded (Manager.getStats s)
    + Manager.st_queued (Manager.getStats s)
    + Manager.st_inflight (Manager.getStats s)
    + Manager.st_ready (Manager.getStats s).
Proof.
  unfold trackedKeys, Manager.getStats, JsMap.size, JsMap.keys; simpl.
  rewrite !length_app, !length_map. lia.
Qed.

(** X18.  Every manager made by the constructor with finite radii (or
    none) and then used through [tick] and [handleWorkerResponse] only keeps
    [0 <= activeRadius <= removeRadius]; holds every key in at most one of its
    four maps, and once there; keeps under each key of [queued] and
    [inflight] a request for the chunk of that key, with the seed of the
    manager, the seed's [seedToInt] and no delta; and keeps under each key
    of [readyToApply] and [loaded] a response whose coordinates print as
    that key. *)
Theorem reachable_stages (CHUNK_SIZE : Z) (s : Manager.ChunkManager) :
  reachable CHUNK_SIZE s ->
  0 <= Manager.activeRadius s <= Manager.removeRadius s /\
  (forall key, (stageCount s key <= 1)%nat) /\
  List.NoDup (trackedKeys s) /\
  (forall key request,
     JsMap.get (Manager.queued s) key = Some request \/
     JsMap.get (Manager.inflight s) key = Some request ->
     exists cell,
       key = keyOf cell /\
       Manager.req_cx request = Num.Int (fst cell) /\
       Manager.req_cz request = Num.Int (snd cell) /\
       Manager.seedStr s = Some (Manager.req_seedStr request) /\
       Manager.req_seedInt request
       = Seed.seedToInt (Manager.req_seedStr request) /\
       Manager.req_destroyedDelta request = None /\
       Manager.req_forceApply request = None) /\
  (forall key response,
     JsMap.get (Manager.readyToApply s) key = Some response \/
     JsMap.get (Manager.loaded s) key = Some response ->
     (exists cell, key = keyOf cell) /\
     key = ChunkMath.chunkKey (Manager.resp_cx response)
             (Manager.resp_cz response)).
Proof.
  intros Hreach. pose proof (reachable_invariant _ _ Hreach) as Hinv.
  pose proof (trackedKeys_NoDup s Hinv) as Hnodup.
  destruct Hinv as (Hr & Hseed & _ & Hq & Hi & Hy & Hl & Hcount).
  split; [assumption|]. split; [assumption|]. split; [assumption|].
  split.
  - intros key request Hget.
    assert (Hfor : requestFor s key request)
      by (destruct Hget; [now apply Hq|now apply Hi]).
    destruct Hfor as (cell & Hk & Hx & Hz & Hstr & Hint & Hd & Hf).
    exists cell. repeat split; try assumption.
    pose proof (Hseed _ Hstr). congruence.
  - intros key response [Hget|Hget]; [now apply Hy|now apply Hl].
Qed.

Lemma reachable_stages_witness :
  (stageCount managerWithOrigin "0,0" <= 1)%nat /\
  List.NoDup (trackedKeys managerWithOrigin).
Proof.
  destruct (reachable_stages 16 managerWithOrigin reachable_managerWithOrigin)
    as (_ & Hcount & Hnodup & _).
  split; [apply Hcount|exact Hnodup].
Defined.

(** X19.  The window of a tick.  After a tick of a manager that a program
    can hold, with centre chunk [(playerX / CHUNK_SIZE, playerZ /
    CHUNK_SIZE)] (floor division): every key in one of the four maps is the
    key of a chunk within [removeRadius] of the centre, and every chunk
    within [activeRadius] of the centre is in one of the four maps.  The
    radii stay as they were. *)
Theorem tick_window (CHUNK_SIZE : Z) (p : Manager.ChunkManagerTickParams)
    (s : Manager.ChunkManager) :
  0 < CHUNK_SIZE ->
  reachable CHUNK_SIZE s ->
  exists s' t,
    Manager.tick CHUNK_SIZE p s = Ok (s', t) /\
    Manager.activeRadius s' = Manager.activeRadius s /\
    Manager.removeRadius s' = Manager.removeRadius s /\
    (forall key,
       tracked s' key = true ->
       exists cell,
         key = keyOf cell /\
         chebyshev (Manager.playerX p / CHUNK_SIZE)
           (Manager.playerZ p / CHUNK_SIZE) cell
         <= Manager.removeRadius s) /\
    (forall cell,
       chebyshev (Manager.playerX p / CHUNK_SIZE)
         (Manager.playerZ p / CHUNK_SIZE) cell
       <= Manager.activeRadius s ->
       tracked s' (keyOf cell) = true).
Proof.
  intros Hsize Hreach.
  pose proof (reachable_invariant _ _ Hreach) as Hinv.
  eexists _, _. split; [now apply tick_tickFrom|].
  destruct (tickState_window (Manager.playerX p / CHUNK_SIZE)
              (Manager.playerZ p / CHUNK_SIZE) p s Hinv)
    as (Hinv' & Ha & Hr & _ & Hwithin & Hneeded).
  split; [assumption|]. split; [assumption|]. split.
  - intros key Htracked.
    destruct (tracked_canonical _ _ Hinv' Htracked) as [cell ->].
    exists cell. split; [reflexivity|].
    rewrite <- Hr. apply keyInRadius_keyOf.
    now apply tracked_within.
  - intros cell Hd. apply Hneeded. apply In_needed.
    exists cell. split; [reflexivity|].
    destruct Hinv as (Hradii & _).
    rewrite clampRadius_inject by lia. exact Hd.
Qed.

Lemma tick_window_witness :
  exists s' t,
    Manager.tick 16 (tickAt 40 (-3) "demo" None) managerWithOrigin
    = Ok (s', t) /\
    Manager.activeRadius s' = Manager.activeRadius managerWithOrigin /\
    Manager.removeRadius s' = Manager.removeRadius managerWithOrigin /\
    (forall key,
       tracked s' key = true ->
       exists cell,
         key = keyOf cell /\
         chebyshev (40 / 16) (-3 / 16) cell
         <= Manager.removeRadius managerWithOrigin) /\
    (forall cell,
       chebyshev (40 / 16) (-3 / 16) cell
       <= Manager.activeRadius managerWithOrigin ->
       tracked s' (keyOf cell) = true).
Proof.
  apply (tick_window 16 (tickAt 40 (-3) "demo" None) managerWithOrigin);
    [lia|exact reachable_managerWithOrigin].
Defined.

(** X20.  The manager is bounded.  After a tick of a manager that a program
    can hold, the numbers of loaded, queued, in-flight and ready chunks that
    [getStats] reports add up to at most [(2 * removeRadius + 1)^2],
    whatever was handed to the manager before. *)
Theorem tick_bounded (CHUNK_SIZE : Z) (p : Manager.ChunkManagerTickParams)
    (s : Manager.ChunkManager) :
  0 < CHUNK_SIZE ->
  reachable CHUNK_SIZE s ->
  exists s' t,
    Manager.tick CHUNK_SIZE p s = Ok (s', t) /\
    Manager.st_loaded (Manager.getStats s')
    + Manager.st_queued (Manager.getStats s')
    + Manager.st_inflight (Manager.getStats s')
    + Manager.st_ready (Manager.getStats s')
    <= (2 * Manager.removeRadius s + 1) * (2 * Manager.removeRadius s + 1).
Proof.
  intros Hsize Hreach.
  pose proof (reachable_invariant _ _ Hreach) as Hinv.
  eexists _, _. split; [now apply tick_tickFrom|].
  destruct (tickState_window (Manager.playerX p / CHUNK_SIZE)
              (Manager.playerZ p / CHUNK_SIZE) p s Hinv)
    as (Hinv' & _ & Hr & _ & Hwithin & _).
  set (s' := tickState _ _ p s) in *.
  rewrite <- trackedKeys_length.
  destruct Hinv as (Hradii & _).
  rewrite <- (squareAround_length (Manager.playerX p / CHUNK_SIZE)
                (Manager.playerZ p / CHUNK_SIZE) (Manager.removeRadius s))
    by lia.
  rewrite <- (length_map keyOf).
  apply inj_le. apply List.NoDup_incl_length.
  - now apply trackedKeys_NoDup.
  - intros key Hin. apply trackedKeys_In in Hin.
    destruct (tracked_canonical _ _ Hinv' Hin) as [cell ->].
    apply in_map. apply squareAround_In.
    assert (Hd : chebyshev (Manager.playerX p / CHUNK_SIZE)
                   (Manager.playerZ p / CHUNK_SIZE) cell
                 <= Manager.removeRadius s).
    { rewrite <- Hr. apply keyInRadius_keyOf. now apply tracked_within. }
    unfold chebyshev in Hd. lia.
Qed.

Lemma tick_bounded_witness :
  exists s' t,
    Manager.tick 16 (tickAt 40 (-3) "demo" None) managerWithOrigin
    = Ok (s', t) /\
    Manager.st_loaded (Manager.getStats s')
    + Manager.st_queued (Manager.getStats s')
    + Manager.st_inflight (Manager.getStats s')
    + Manager.st_ready (Manager.getStats s')
    <= (2 * Manager.removeRadius managerWithOrigin + 1)
       * (2 * Manager.removeRadius managerWithOrigin + 1).
Proof.
  apply (tick_bounded 16 (tickAt 40 (-3) "demo" None) managerWithOrigin);
    [lia|exact reachable_managerWithOrigin].
Defined.

Lemma dequeueApply_inflight (centerCx centerCz : Z)
    (s : Manager.ChunkManager) :
  managerInvariant s ->
  Manager.inflight (fst (Manager.dequeueApply centerCx centerCz s))
  = Manager.inflight s.
Proof.
  intros Hinv.
  destruct (dequeueApply_cases centerCx centerCz s Hinv)
    as [[-> _]|(cell & response & -> & _)]; reflexivity.
Qed.

(** The request of a tick. *)
Lemma tickRequested_request (centerCx centerCz : Z)
    (p : Manager.ChunkManagerTickParams) (s : Manager.ChunkManager)
    (request : Manager.MeshWorkerRequest) :
  managerInvariant s ->
  snd (tickRequested centerCx centerCz p s) = Some request ->
  exists cell,
    chebyshev centerCx centerCz cell <= Manager.activeRadius s /\
    Manager.req_cx request = Num.Int (fst cell) /\
    Manager.req_cz request = Num.Int (snd cell) /\
    Manager.req_seedStr request = Manager.p_seedStr p /\
    Manager.req_seedInt request = Seed.seedToInt (Manager.p_seedStr p) /\
    Manager.req_destroyedDelta request = None /\
    Manager.req_forceApply request = None /\
    JsMap.get (Manager.inflight (tickState centerCx centerCz p s))
      (keyOf cell) = Some request.
Proof.
  intros Hinv Hreq.
  destruct (tickQueued_facts centerCx centerCz p s Hinv)
    as (Hinv2 & Ha2 & _ & Hs2 & _ & _ & Hqueued).
  destruct (tickRequested_facts centerCx centerCz p s Hinv)
    as (Hinv3 & _).
  unfold tickState, tickApplied. rewrite dequeueApply_inflight by assumption.
  unfold tickRequested in *.
  set (s2 := tickQueued centerCx centerCz p s) in *.
  destruct (dequeueRequest_cases s2)
    as [[_ Heq]|(key & request' & _ & Hget & Heq)];
    rewrite Heq in Hreq |- *; [discriminate|].
  injection Hreq as ->.
  pose proof Hinv2 as (Hradii & Hseed & _ & Hq & _).
  destruct (Hq key request Hget)
    as (cell & -> & Hx & Hz & Hstr & Hint & Hd & Hf).
  rewrite Hs2 in Hstr. injection Hstr as Hstr.
  rewrite (Hseed _ Hs2) in Hint. injection Hint as Hint.
  exists cell.
  assert (Hin : In (keyOf cell)
                   (Manager.computeNeededChunkKeys centerCx centerCz
                      (inject_Z (Manager.activeRadius s))))
    by (apply Hqueued, has_get; eauto).
  apply (proj1 (In_needed _ _ _ _)) in Hin as (cell' & Hk & Hdist).
  apply keyOf_inj in Hk. subst cell'.
  pose proof Hinv as (Hradii0 & _).
  rewrite clampRadius_inject in Hdist by lia.
  split; [assumption|]. split; [assumption|]. split; [assumption|].
  split; [congruence|]. split; [congruence|].
  split; [assumption|]. split; [assumption|].
  cbn [fst Manager.inflight Manager.with_inflight]. apply get_set_eq.
Qed.

Section RequestRoundTrip.

Variable K : VoxelBuilder.ChunkConstants.
Variable getSurfaceProfile : string -> Z -> Z -> Terrain.SurfaceProfile.

(** X21.  A request and its answer.  When a tick of a manager that a program
    can hold returns a request, the request is for a chunk within
    [activeRadius] of the centre, carries the seed of the tick, that seed's
    [seedToInt] and no delta, and is in flight afterwards under the key of
    its chunk.  The worker (on padded sizes of at least 3) answers such a
    request with a payload, and [handleWorkerResponse] takes that payload:
    the chunk is then no longer in flight and the payload is ready to
    apply. *)
Theorem tick_request_roundtrip (CHUNK_SIZE : Z)
    (p : Manager.ChunkManagerTickParams) (s : Manager.ChunkManager)
    (index : DestroyedVoxels.DestroyedVoxelIndex) :
  0 < CHUNK_SIZE ->
  3 <= VoxelBuilder.CHUNK_SIZE_PADDED K ->
  3 <= VoxelBuilder.CHUNK_HEIGHT_PADDED K ->
  reachable CHUNK_SIZE s ->
  exists s' t,
    Manager.tick CHUNK_SIZE p s = Ok (s', t) /\
    forall request,
      Manager.request t = Some request ->
      exists cell,
        chebyshev (Manager.playerX p / CHUNK_SIZE)
          (Manager.playerZ p / CHUNK_SIZE) cell
        <= Manager.activeRadius s /\
        Manager.req_cx request = Num.Int (fst cell) /\
        Manager.req_cz request = Num.Int (snd cell) /\
        Manager.req_seedStr request = Manager.p_seedStr p /\
        Manager.req_seedInt request
        = Seed.seedToInt (Manager.p_seedStr p) /\
        Manager.req_destroyedDelta request = None /\
        JsMap.get (Manager.inflight s') (keyOf cell) = Some request /\
        exists index' response,
          Worker.onmessage K getSurfaceProfile index
            (Manager.req_seedStr request) (fst cell) (snd cell)
            (Manager.req_destroyedDelta request)
            (Manager.req_forceApply request)
          = Some (index', Ok response) /\
          JsMap.has
            (Manager.inflight (Manager.handleWorkerResponse response s'))
            (keyOf cell) = false /\
          JsMap.get
            (Manager.readyToApply (Manager.handleWorkerResponse response s'))
            (keyOf cell) = Some response.
Proof.
  intros Hsize HS HH Hreach.
  pose proof (reachable_invariant _ _ Hreach) as Hinv.
  eexists _, _. split; [now apply tick_tickFrom|].
  intros request Hreq. cbn [tickResult Manager.request] in Hreq.
  destruct (tickRequested_request _ _ p s request Hinv Hreq)
    as (cell & Hd & Hx & Hz & Hstr & Hint & Hdelta & Hforce & Hget).
  exists cell. do 6 (split; [assumption|]). split; [assumption|].
  destruct (onmessage_returns K getSurfaceProfile index
              (Manager.req_seedStr request) (fst cell) (snd cell)
              (Manager.req_destroyedDelta request)
              (Manager.req_forceApply request) HS HH)
    as (index' & mesh & Hr & _).
  eexists index', _. split; [exact Hr|].
  set (s' := tickState _ _ p s) in *.
  unfold Manager.handleWorkerResponse.
  cbn [Manager.resp_cx Manager.resp_cz]. cbv zeta.
  change (ChunkMath.chunkKey (Num.Int (fst cell)) (Num.Int (snd cell)))
    with (keyOf cell).
  assert (Hhas : JsMap.has (Manager.inflight s') (keyOf cell) = true)
    by (apply has_get; eauto).
  rewrite Hhas. cbn [negb Manager.inflight Manager.readyToApply
    Manager.with_inflight Manager.with_readyToApply].
  split; [apply has_delete_eq|apply get_set_eq].
Qed.

End RequestRoundTrip.

Lemma tick_request_roundtrip_witness :
  exists s' t,
    Manager.tick 16 (tickAt 40 (-3) "demo" None) managerWithOrigin
    = Ok (s', t) /\
    forall request,
      Manager.request t = Some request ->
      exists cell,
        chebyshev (40 / 16) (-3 / 16) cell
        <= Manager.activeRadius managerWithOrigin /\
        Manager.req_cx request = Num.Int (fst cell) /\
        Manager.req_cz request = Num.Int (snd cell) /\
        Manager.req_seedStr request = "demo" /\
        Manager.req_seedInt request = Seed.seedToInt "demo" /\
        Manager.req_destroyedDelta request = None /\
        JsMap.get (Manager.inflight s') (keyOf cell) = Some request /\
        exists index' response,
          Worker.onmessage sampleConstants flatVillageWorld
            DestroyedVoxels.createDestroyedVoxelIndex
            (Manager.req_seedStr request) (fst cell) (snd cell)
            (Manager.req_destroyedDelta request)
            (Manager.req_forceApply request)
          = Some (index', Ok response) /\
          JsMap.has
            (Manager.inflight (Manager.handleWorkerResponse response s'))
            (keyOf cell) = false /\
          JsMap.get
            (Manager.readyToApply (Manager.handleWorkerResponse response s'))
            (keyOf cell) = Some response.
Proof.
  exact (tick_request_roundtrip sampleConstants flatVillageWorld 16
           (tickAt 40 (-3) "demo" None) managerWithOrigin
           DestroyedVoxels.createDestroyedVoxelIndex
           ltac:(lia) (proj1 sampleConstants_sizes)
           (proj2 sampleConstants_sizes) reachable_managerWithOrigin).
Defined.

Lemma commaFree_toString (a : num) : commaFree (Num.toString a) = true.
Proof.
  destruct a as [| |z|]; try reflexivity. apply commaFree_toString_Int.
Qed.

Lemma toString_Int_inj (a : num) (z : Z) :
  Num.toString a = Num.toString (Num.Int z) -> a = Num.Int z.
Proof.
  intros Heq. apply (f_equal Num.ofString) in Heq.
  rewrite ofString_toString_Int in Heq.
  destruct a as [| |y|]; try discriminate Heq.
  now rewrite ofString_toString_Int in Heq.
Qed.

(** Only integer coordinates print as the key of a chunk. *)
Lemma chunkKey_keyOf (a b : num) (cell : Z * Z) :
  ChunkMath.chunkKey a b = keyOf cell ->
  a = Num.Int (fst cell) /\ b = Num.Int (snd cell).
Proof.
  intros Heq. apply (f_equal splitComma) in Heq.
  unfold keyOf, ChunkMath.chunkKey in Heq.
  rewrite !splitComma_app in Heq by apply commaFree_toString.
  rewrite !splitComma_commaFree in Heq by apply commaFree_toString.
  injection Heq as Ha Hb.
  split; now apply toString_Int_inj.
Qed.

(** The chunk that a tick applies. *)
Lemma tickApplied_nearest (centerCx centerCz : Z)
    (p : Manager.ChunkManagerTickParams) (s : Manager.ChunkManager) :
  managerInvariant s ->
  match snd (tickApplied centerCx centerCz p s) with
  | None => Manager.readyToApply (tickState centerCx centerCz p s) = []
  | Some response =>
      exists cell,
        Manager.resp_cx response = Num.Int (fst cell) /\
        Manager.resp_cz response = Num.Int (snd cell) /\
        chebyshev centerCx centerCz cell <= Manager.removeRadius s /\
        JsMap.get (Manager.loaded (tickState centerCx centerCz p s))
          (keyOf cell) = Some response /\
        forall cell' response',
          JsMap.get (Manager.readyToApply (tickState centerCx centerCz p s))
            (keyOf cell') = Some response' ->
          nearerThan centerCx centerCz cell cell'
  end.
Proof.
  intros Hinv. unfold tickState, tickApplied.
  destruct (tickRequested_facts centerCx centerCz p s Hinv)
    as (Hinv3 & _ & Hr3 & _ & (_ & _ & _ & Hready) & _).
  set (s3 := fst (tickRequested centerCx centerCz p s)) in *.
  pose proof Hinv3 as (_ & _ & _ & _ & _ & Hy & _).
  destruct (dequeueApply_cases centerCx centerCz s3 Hinv3)
    as [[-> Hnone]|(cell & response & -> & Hget & Hd & Hmin)];
    cbn [fst snd].
  - cbn [Manager.readyToApply Manager.with_readyToApply].
    destruct (Manager.readyToApply s3) as [|[key response] rest] eqn:Hr;
      [reflexivity|].
    exfalso.
    assert (Hget : JsMap.get ((key, response) :: rest) key = Some response).
    { simpl. now rewrite String.eqb_refl. }
    pose proof (Hnone key response Hget) as Hout.
    rewrite (Hready key) in Hout; [discriminate|].
    apply has_get. eauto.
  - exists cell.
    cbn [Manager.loaded Manager.readyToApply Manager.with_loaded
         Manager.with_readyToApply].
    destruct (Hy _ _ Hget) as [_ Hkey].
    assert (Hcoords : Manager.resp_cx response = Num.Int (fst cell)
                      /\ Manager.resp_cz response = Num.Int (snd cell))
      by (apply chunkKey_keyOf; now symmetry).
    split; [apply Hcoords|]. split; [apply Hcoords|].
    split; [now rewrite <- Hr3|]. split; [apply get_set_eq|].
    intros cell' response' Hget'.
    destruct (String.eqb_spec (keyOf cell) (keyOf cell')) as [Heq|Hne].
    + rewrite <- Heq, get_delete_eq in Hget'. discriminate.
    + rewrite get_delete_ne in Hget' by assumption.
      apply keepFold_subMap in Hget'.
      destruct (Hmin cell' response' Hget') as [->|Hnear];
        [|contradiction|assumption].
      apply keyInRadius_keyOf, Hready, has_get. eauto.
Qed.

(** X22.  Nearest first.  When a tick of a manager that a program can hold
    applies a response, the response is for a chunk within [removeRadius] of
    the centre, it is loaded afterwards, and every chunk that is still ready
    to apply after the tick comes after it in the order by distance from the
    centre, then z, then x.  When the tick applies nothing, nothing is ready
    to apply after it. *)
Theorem tick_apply_nearest (CHUNK_SIZE : Z)
    (p : Manager.ChunkManagerTickParams) (s : Manager.ChunkManager) :
  0 < CHUNK_SIZE ->
  reachable CHUNK_SIZE s ->
  exists s' t,
    Manager.tick CHUNK_SIZE p s = Ok (s', t) /\
    match Manager.apply t with
    | None => Manager.readyToApply s' = []
    | Some response =>
        exists cell,
          Manager.resp_cx response = Num.Int (fst cell) /\
          Manager.resp_cz response = Num.Int (snd cell) /\
          chebyshev (Manager.playerX p / CHUNK_SIZE)
            (Manager.playerZ p / CHUNK_SIZE) cell
          <= Manager.removeRadius s /\
          JsMap.get (Manager.loaded s') (keyOf cell) = Some response /\
          forall cell' response',
            JsMap.get (Manager.readyToApply s') (keyOf cell')
            = Some response' ->
            nearerThan (Manager.playerX p / CHUNK_SIZE)
              (Manager.playerZ p / CHUNK_SIZE) cell cell'
    end.
Proof.
  intros Hsize Hreach.
  pose proof (reachable_invariant _ _ Hreach) as Hinv.
  eexists _, _. split; [now apply tick_tickFrom|].
  cbn [tickResult Manager.apply].
  now apply tickApplied_nearest.
Qed.

Lemma tick_apply_nearest_witness :
  exists s' t,
    Manager.tick 16 (tickAt 0 0 "demo" (Some [makeResponse 0 0]))
      managerAwaitingOrigin
    = Ok (s', t) /\
    match Manager.apply t with
    | None => Manager.readyToApply s' = []
    | Some response =>
        exists cell,
          Manager.resp_cx response = Num.Int (fst cell) /\
          Manager.resp_cz response = Num.Int (snd cell) /\
          chebyshev (0 / 16) (0 / 16) cell
          <= Manager.removeRadius managerAwaitingOrigin /\
          JsMap.get (Manager.loaded s') (keyOf cell) = Some response /\
          forall cell' response',
            JsMap.get (Manager.readyToApply s') (keyOf cell')
            = Some response' ->
            nearerThan (0 / 16) (0 / 16) cell cell'
    end.
Proof.
  apply (tick_apply_nearest 16 (tickAt 0 0 "demo" (Some [makeResponse 0 0]))
           managerAwaitingOrigin); [lia|].
  apply reachable_managerAfter.
  apply (reachable_new 16 (Some {| Manager.opt_activeRadius := Some 0%Q;
                                   Manager.opt_removeRadius := Some 1%Q;
                                   Manager.opt_maxInflight := None |})).
  reflexivity.
Defined.

(** X23.  What a tick reports as unloaded.  After a tick of a manager that a
    program can hold, [unloadKeys] holds no key twice, and holds exactly the
    keys that were loaded before the tick and are not loaded after it. *)
Theorem tick_unloadKeys_exact (CHUNK_SIZE : Z)
    (p : Manager.ChunkManagerTickParams) (s : Manager.ChunkManager) :
  0 < CHUNK_SIZE ->
  reachable CHUNK_SIZE s ->
  exists s' t,
    Manager.tick CHUNK_SIZE p s = Ok (s', t) /\
    List.NoDup (Manager.unloadKeys t) /\
    forall key,
      In key (Manager.unloadKeys t)
      <-> JsMap.has (Manager.loaded s) key = true /\
          JsMap.has (Manager.loaded s') key = false.
Proof.
  intros Hsize Hreach.
  pose proof (reachable_uniqueKeys _ _ Hreach) as Hunique.
  destruct (tick_returns CHUNK_SIZE p s Hsize) as (s' & t & Htick).
  exists s', t. split; [assumption|].
  destruct (tick_loaded CHUNK_SIZE p s s' t Hsize Htick)
    as (Hr & _ & _ & Hkeys & Hloaded).
  destruct (Manager.sameSeed (Manager.seedStr s) (Manager.p_seedStr p))
    eqn:Hsame.
  - rewrite Hkeys. cbn [app]. split; [now apply List.NoDup_filter|].
    intros key. rewrite filter_In, negb_true_iff, <- has_In_keys. split.
    + intros [Hhas Hout]. split; [assumption|].
      assert (Hpruned :
                JsMap.has
                  (foldl (Manager.pruneStep (Manager.removeRadius s)
                            (Manager.playerX p / CHUNK_SIZE)
                            (Manager.playerZ p / CHUNK_SIZE))
                         (Manager.loaded s) (JsMap.keys (Manager.loaded s)))
                  key = false).
      { apply prune_has_removed; [assumption|]. now apply has_In_keys. }
      destruct Hloaded as [->|(key' & response & Hin' & ->)];
        [assumption|].
      rewrite has_set_ne; [assumption|]. intros ->. congruence.
    + intros [Hhas Hgone]. split; [assumption|].
      destruct (Manager.keyInRadius key (Manager.playerX p / CHUNK_SIZE)
                  (Manager.playerZ p / CHUNK_SIZE) (Manager.removeRadius s))
        eqn:Hin; [|reflexivity].
      assert (Hpruned :
                JsMap.has
                  (foldl (Manager.pruneStep (Manager.removeRadius s)
                            (Manager.playerX p / CHUNK_SIZE)
                            (Manager.playerZ p / CHUNK_SIZE))
                         (Manager.loaded s) (JsMap.keys (Manager.loaded s)))
                  key = true)
        by (rewrite prune_has_kept; assumption).
      destruct Hloaded as [Heq|(key' & response & Hin' & Heq)];
        rewrite Heq in Hgone; [congruence|].
      rewrite has_set_mono in Hgone; [discriminate|assumption].
  - destruct (tick_new_seed CHUNK_SIZE p s s' t Hsize Htick Hsame)
      as [Hempty Hall].
    rewrite Hall, Hempty. split; [exact Hunique|].
    intros key. rewrite <- has_In_keys. split; [now split|now intros []].
Qed.

Lemma tick_unloadKeys_exact_witness :
  exists s' t,
    Manager.tick 16 (tickAt 32 0 "demo" None) managerWithOrigin
    = Ok (s', t) /\
    List.NoDup (Manager.unloadKeys t) /\
    forall key,
      In key (Manager.unloadKeys t)
      <-> JsMap.has (Manager.loaded managerWithOrigin) key = true /\
          JsMap.has (Manager.loaded s') key = false.
Proof.
  apply (tick_unloadKeys_exact 16 (tickAt 32 0 "demo" None)
           managerWithOrigin);
    [lia|exact reachable_managerWithOrigin].
Defined.

(** ** What a mesh is read from *)

Lemma forRange_ext_in {S : Type} (lo n : Z) (body body' : Z -> S -> S)
    (s : S) :
  (forall i st, lo <= i < lo + n -> body i st = body' i st) ->
  forRange lo n body s = forRange lo n body' s.
Proof.
  intros Hext. unfold forRange.
  assert (Hin : forall i, i ∈ seqZ lo n -> lo <= i < lo + n).
  { intros i Hi. apply elem_of_seqZ in Hi. lia. }
  revert s Hin.
  induction (seqZ lo n) as [|i l IH]; intros s Hin; simpl; [reflexivity|].
  rewrite Hext by apply Hin, list_elem_of_here.
  apply IH. intros j Hj. now apply Hin, list_elem_of_further.
Qed.

Lemma forRangeM_ext_in {S : Type} (lo n : Z) (body body' : Z -> S -> option S)
    (s : S) :
  (forall i st, lo <= i < lo + n -> body i st = body' i st) ->
  forRangeM lo n body s = forRangeM lo n body' s.
Proof.
  intros Hext. unfold forRangeM.
  assert (Hin : forall i, i ∈ seqZ lo n -> lo <= i < lo + n).
  { intros i Hi. apply elem_of_seqZ in Hi. lia. }
  generalize (Some s). revert Hin.
  induction (seqZ lo n) as [|i l IH]; intros Hin acc; simpl; [reflexivity|].
  replace (match acc with Some a => body i a | None => None end)
    with (match acc with Some a => body' i a | None => None end).
  - apply IH. intros j Hj. now apply Hin, list_elem_of_further.
  - destruct acc; [|reflexivity]. symmetry. apply Hext, Hin, list_elem_of_here.
Qed.

Section MeshReads.

Import GreedyMesher.

Variables voxels voxels' : list Z.
Variable dims : PaddedChunkDims.

Hypothesis Hcells :
  forall px py pz,
    meshedCell dims px py pz ->
    readAt voxels (indexOfPadded px py pz dims)
    = readAt voxels' (indexOfPadded px py pz dims).

Lemma sample_meshedCell (lx ly lz : Z) :
  meshedCell dims (lx + 1) (ly + 1) (lz + 1) ->
  sample voxels dims lx ly lz = sample voxels' dims lx ly lz.
Proof.
  intros Hcell. unfold sample. cbv zeta.
  destruct ((lx + 1 <? 0) || (ly + 1 <? 0) || (lz + 1 <? 0)
            || (x dims <=? lx + 1) || (y dims <=? ly + 1)
            || (z dims <=? lz + 1)); [reflexivity|].
  now apply Hcells.
Qed.

Lemma fillMask_meshedCell (d w : Z) (mask : list Z) :
  0 <= d < 3 -> 0 <= w <= innerSize dims d ->
  fillMask voxels dims d w (innerSize dims (AXIS_U d))
    (innerSize dims (AXIS_V d)) mask
  = fillMask voxels' dims d w (innerSize dims (AXIS_U d))
      (innerSize dims (AXIS_V d)) mask.
Proof.
  intros Hd Hw. unfold fillMask. f_equal.
  apply forRange_ext_in; intros v st Hv.
  apply forRange_ext_in; intros u [maskIndex mask0] Hu.
  assert (Hcase : d = 0 \/ d = 1 \/ d = 2) by lia.
  destruct Hcase as [-> | [-> | ->]];
    unfold AXIS_U, AXIS_V, innerSize in Hv, Hu, Hw;
    cbn [Z.eqb Pos.eqb] in Hv, Hu, Hw |- *.
  - rewrite (sample_meshedCell (w - 1) u v), (sample_meshedCell w u v);
      [reflexivity| |]; unfold meshedCell; lia.
  - rewrite (sample_meshedCell v (w - 1) u), (sample_meshedCell v w u);
      [reflexivity| |]; unfold meshedCell; lia.
  - rewrite (sample_meshedCell u v (w - 1)), (sample_meshedCell u v w);
      [reflexivity| |]; unfold meshedCell; lia.
Qed.

Lemma meshAxes_meshedCell : meshAxes voxels dims = meshAxes voxels' dims.
Proof.
  unfold meshAxes. apply forRangeM_ext_in; intros d m Hd. cbv zeta.
  rewrite (forRangeM_ext_in 0 (innerSize dims d + 1) _
             (fun w '(mask, m0) =>
                mergeSlice d w (innerSize dims (AXIS_U d))
                  (innerSize dims (AXIS_V d))
                  (fillMask voxels' dims d w (innerSize dims (AXIS_U d))
                     (innerSize dims (AXIS_V d)) mask) m0));
    [reflexivity|].
  intros w [mask m0] Hw. rewrite fillMask_meshedCell by lia. reflexivity.
Qed.

End MeshReads.

Lemma greedyMesh_meshedCell (voxels voxels' : list Z)
    (dims : GreedyMesher.PaddedChunkDims) :
  (forall px py pz,
     meshedCell dims px py pz ->
     readAt voxels (GreedyMesher.indexOfPadded px py pz dims)
     = readAt voxels' (GreedyMesher.indexOfPadded px py pz dims)) ->
  GreedyMesher.greedyMesh voxels dims = GreedyMesher.greedyMesh voxels' dims.
Proof.
  intros Hcells. unfold GreedyMesher.greedyMesh.
  now rewrite (meshAxes_meshedCell voxels voxels' dims Hcells).
Qed.

(** X24.  [greedyMesh] reads the inner cells of the buffer and the six faces
    of the halo only: two buffers that agree (also in being too short) on
    every padded cell with at most one coordinate in the halo give the same
    result, whatever they hold on the edges and corners of the halo and
    beyond the cells. *)
Theorem greedyMesh_reads (voxels voxels' : list Z)
    (dims : GreedyMesher.PaddedChunkDims) :
  (forall px py pz,
     meshedCell dims px py pz ->
     readAt voxels (GreedyMesher.indexOfPadded px py pz dims)
     = readAt voxels' (GreedyMesher.indexOfPadded px py pz dims)) ->
  GreedyMesher.greedyMesh voxels dims = GreedyMesher.greedyMesh voxels' dims.
Proof.
  intros Hcells. apply greedyMesh_meshedCell.
  intros px py pz Hcell. apply Hcells, Hcell.
Qed.

(** Two buffers of 3 by 3 by 3 cells that differ in a corner of the halo. *)
Lemma greedyMesh_reads_witness :
  GreedyMesher.greedyMesh (writeAt (newArray 27) 0 1)
    {| GreedyMesher.x := 3; GreedyMesher.y := 3; GreedyMesher.z := 3 |}
  = GreedyMesher.greedyMesh (newArray 27)
      {| GreedyMesher.x := 3; GreedyMesher.y := 3; GreedyMesher.z := 3 |}.
Proof.
  apply (greedyMesh_reads (writeAt (newArray 27) 0 1) (newArray 27)
           {| GreedyMesher.x := 3; GreedyMesher.y := 3;
              GreedyMesher.z := 3 |}).
  intros px py pz (Hx & Hy & Hz & Hrim).
  cbn [GreedyMesher.x GreedyMesher.y GreedyMesher.z] in Hx, Hy, Hz, Hrim.
  apply readAt_writeAt_ne. unfold GreedyMesher.indexOfPadded.
  cbn [GreedyMesher.x GreedyMesher.y GreedyMesher.z]. lia.
Defined.

(** ** Shooting a voxel *)

Section ShootFacts.

Import DestroyedVoxels.

Variable K : VoxelBuilder.ChunkConstants.
Variable getSurfaceProfile : string -> Z -> Z -> Terrain.SurfaceProfile.
Variable seedStr : string.

Local Abbreviation size := (VoxelBuilder.CHUNK_SIZE K).

Local Abbreviation shootDims :=
  {| GreedyMesher.x := VoxelBuilder.CHUNK_SIZE_PADDED K;
     GreedyMesher.y := VoxelBuilder.CHUNK_HEIGHT_PADDED K;
     GreedyMesher.z := VoxelBuilder.CHUNK_SIZE_PADDED K |}.

Lemma indexOfPadded_indexOf (px py pz : Z) :
  GreedyMesher.indexOfPadded px py pz shootDims
  = VoxelBuilder.indexOf K px py pz.
Proof.
  unfold GreedyMesher.indexOfPadded, VoxelBuilder.indexOf,
    VoxelBuilder.PADDED_SLICE_AREA.
  cbn [GreedyMesher.x GreedyMesher.z]. ring.
Qed.

Lemma meshReadsColumn_cell (cx cz x z : Z) :
  meshReadsColumn K cx cz x z = true
  <-> (0 <= x - cx * size + 1 < VoxelBuilder.CHUNK_SIZE_PADDED K /\
       0 <= z - cz * size + 1 < VoxelBuilder.CHUNK_SIZE_PADDED K /\
       (0 < x - cx * size + 1 < VoxelBuilder.CHUNK_SIZE_PADDED K - 1 \/
        0 < z - cz * size + 1 < VoxelBuilder.CHUNK_SIZE_PADDED K - 1)).
Proof.
  unfold meshReadsColumn. cbv zeta.
  rewrite !Bool.andb_true_iff, Bool.orb_true_iff, !Bool.andb_true_iff,
    !Z.leb_le, !Z.ltb_lt.
  lia.
Qed.

(** The mesh of a chunk whose buffer does not hold the column of a voxel in
    a cell it is read from is the same with and without that voxel. *)
Lemma meshChunk_column (cx cz x y z : Z) (index : DestroyedVoxelIndex) :
  meshReadsColumn K cx cz x z = false ->
  Worker.meshChunk K getSurfaceProfile seedStr cx cz
    (Some (hasDestroyedVoxel (addDestroyedVoxel index x y z)))
  = Worker.meshChunk K getSurfaceProfile seedStr cx cz
      (Some (hasDestroyedVoxel index)).
Proof.
  intros Hreads. unfold Worker.meshChunk. cbv zeta.
  rewrite (greedyMesh_meshedCell
             (VoxelBuilder.buildChunkVoxelsWithOverrides K getSurfaceProfile
                seedStr cx cz
                (Some (hasDestroyedVoxel (addDestroyedVoxel index x y z))))
             (VoxelBuilder.buildChunkVoxelsWithOverrides K getSurfaceProfile
                seedStr cx cz (Some (hasDestroyedVoxel index)))
             shootDims); [reflexivity|].
  intros px py pz (Hx & Hy & Hz & Hrim).
  cbn [GreedyMesher.x GreedyMesher.y GreedyMesher.z] in Hx, Hy, Hz, Hrim.
  rewrite indexOfPadded_indexOf.
  rewrite !paddedCell_value by assumption.
  f_equal. unfold paddedCellValue, VoxelBuilder.callIsDestroyed. cbv zeta.
  destruct (hasDestroyedVoxel (addDestroyedVoxel index x y z)
              (cx * size + (px - 1)) (py - 1) (cz * size + (pz - 1)))
    eqn:Hnew;
    destruct (hasDestroyedVoxel index
                (cx * size + (px - 1)) (py - 1) (cz * size + (pz - 1)))
      eqn:Hold; try reflexivity; exfalso.
  - apply hasDestroyedVoxel_addDestroyedVoxel in Hnew.
    destruct Hnew as [(Hx' & Hy' & Hz')|Hnew]; [|congruence].
    assert (Htrue : meshReadsColumn K cx cz x z = true)
      by (apply meshReadsColumn_cell; lia).
    congruence.
  - assert (Htrue : hasDestroyedVoxel (addDestroyedVoxel index x y z)
                      (cx * size + (px - 1)) (py - 1) (cz * size + (pz - 1))
                    = true)
      by (apply hasDestroyedVoxel_addDestroyedVoxel; now right).
    congruence.
Qed.

(** X25.  Destroying a voxel changes the mesh of no chunk whose padded
    buffer does not hold the voxel's column [(x, z)] in a cell with at most
    one coordinate in the halo: for such a chunk [meshChunk] returns the same
    from an index with the voxel added as from the index without it. *)
Theorem meshChunk_unaffected (cx cz x y z : Z)
    (index : DestroyedVoxelIndex) :
  meshReadsColumn K cx cz x z = false ->
  Worker.meshChunk K getSurfaceProfile seedStr cx cz
    (Some (hasDestroyedVoxel (addDestroyedVoxel index x y z)))
  = Worker.meshChunk K getSurfaceProfile seedStr cx cz
      (Some (hasDestroyedVoxel index)).
Proof.
  intros Hreads. now apply meshChunk_column.
Qed.

(** Where the column of a voxel lies in the buffer of a chunk. *)
Lemma column_chunk (S c l c' p : Z) :
  0 < S -> 0 <= l < S ->
  c * S + l = c' * S + p - 1 -> 0 <= p < S + 2 ->
  (c' = c /\ p = l + 1) \/
  (c' = c + 1 /\ l = S - 1 /\ p = 0) \/
  (c' = c - 1 /\ l = 0 /\ p = S + 1).
Proof.
  intros HS Hl Heq Hp.
  assert (Hdiff : (c - c') * S = p - 1 - l) by lia.
  assert (Hk : -2 < c - c' < 2) by nia.
  assert (Hcase : c' = c \/ c' = c + 1 \/ c' = c - 1) by lia.
  destruct Hcase as [-> | [-> | ->]]; lia.
Qed.

Lemma meshReadsColumn_chunks (cx cz x z : Z) :
  2 <= size ->
  VoxelBuilder.CHUNK_SIZE_PADDED K = size + 2 ->
  meshReadsColumn K cx cz x z = true
  <-> (cx = x / size /\ cz = z / size) \/
      (cx = x / size - 1 /\ cz = z / size /\ x - x / size * size = 0) \/
      (cx = x / size + 1 /\ cz = z / size /\
       x - x / size * size = size - 1) \/
      (cx = x / size /\ cz = z / size - 1 /\ z - z / size * size = 0) \/
      (cx = x / size /\ cz = z / size + 1 /\
       z - z / size * size = size - 1).
Proof.
  intros Hsize Hpad. rewrite meshReadsColumn_cell, Hpad.
  pose proof (Z.div_mod x size ltac:(lia)) as Hx.
  pose proof (Z.mod_pos_bound x size ltac:(lia)) as Hxm.
  pose proof (Z.div_mod z size ltac:(lia)) as Hz.
  pose proof (Z.mod_pos_bound z size ltac:(lia)) as Hzm.
  set (cX := x / size) in *. set (cZ := z / size) in *.
  set (lX := x mod size) in *. set (lZ := z mod size) in *.
  clearbody cX cZ lX lZ.
  split.
  - intros (Hpx & Hpz & Hrim).
    destruct (column_chunk size cX lX cx (x - cx * size + 1))
      as [Hcx | [Hcx | Hcx]]; [lia|lia|lia|lia| | |];
      destruct (column_chunk size cZ lZ cz (z - cz * size + 1))
        as [Hcz | [Hcz | Hcz]]; try lia.
  - intros [Hc | [Hc | [Hc | [Hc | Hc]]]];
      destruct Hc as (-> & Hc); try destruct Hc as (-> & Hc); try subst cz;
      lia.
Qed.

(** The messages of a shot, case by case. *)
Lemma onShootVoxel_posted (index : DestroyedVoxelIndex) (x y z : Z) :
  2 <= size ->
  VoxelBuilder.CHUNK_SIZE_PADDED K = size + 2 ->
  hasDestroyedVoxel index x y z = false ->
  exists rest,
    Game.onShootVoxel K seedStr index x y z
    = (addDestroyedVoxel index x y z,
       Ok ({| Manager.req_seedStr := seedStr;
              Manager.req_seedInt := Seed.seedToInt seedStr;
              Manager.req_cx := Num.Int (x / size);
              Manager.req_cz := Num.Int (z / size);
              Manager.req_destroyedDelta :=
                Some [Seed.toInt32 x; Seed.toInt32 y; Seed.toInt32 z];
              Manager.req_forceApply := Some true |} :: rest)) /\
    (length rest <= 2)%nat /\
    List.Forall
      (fun request =>
         Manager.req_seedStr request = seedStr /\
         Manager.req_seedInt request = Seed.seedToInt seedStr /\
         Manager.req_destroyedDelta request = None /\
         Manager.req_forceApply request = Some true) rest /\
    List.Forall integerRequest rest /\
    forall cx cz,
      postedFor
        ({| Manager.req_seedStr := seedStr;
            Manager.req_seedInt := Seed.seedToInt seedStr;
            Manager.req_cx := Num.Int (x / size);
            Manager.req_cz := Num.Int (z / size);
            Manager.req_destroyedDelta :=
              Some [Seed.toInt32 x; Seed.toInt32 y; Seed.toInt32 z];
            Manager.req_forceApply := Some true |} :: rest) cx cz
      <-> meshReadsColumn K cx cz x z = true.
Proof.
  intros Hsize Hpad Hhas. unfold Game.onShootVoxel. rewrite Hhas.
  rewrite !worldToChunk_pos by lia.
  cbn [bind ChunkMath.chunk]. unfold Game.requestChunkRemesh.
  destruct (Z.eqb_spec (x - x / size * size) 0) as [Hx0|Hx0];
    [|destruct (Z.eqb_spec (x - x / size * size) (size - 1)) as [Hx1|Hx1]];
    (destruct (Z.eqb_spec (z - z / size * size) 0) as [Hz0|Hz0];
     [|destruct (Z.eqb_spec (z - z / size * size) (size - 1)) as [Hz1|Hz1]]);
    cbn [app]; eexists; (split; [reflexivity|]);
    (split; [simpl; lia|]);
    (split; [repeat constructor|]);
    (split;
     [repeat first
        [ apply List.Forall_nil
        | apply List.Forall_cons; [do 2 eexists; split; reflexivity|] ]|]);
    intros cx cz; rewrite (meshReadsColumn_chunks cx cz x z Hsize Hpad);
    unfold postedFor; (split;
    [ intros (request & Hin & Hcx & Hcz); simpl in Hin;
      repeat (destruct Hin as [<-|Hin]; [simpl in Hcx, Hcz|]);
      try contradiction;
      assert (Hcx' := f_equal (fun n => match n with
                                        | Num.Int k => k | _ => 0 end) Hcx);
      assert (Hcz' := f_equal (fun n => match n with
                                        | Num.Int k => k | _ => 0 end) Hcz);
      simpl in Hcx', Hcz'; lia
    | intros Hc;
      assert (Hpick : (cx = x / size /\ cz = z / size) \/
                      (cx = x / size - 1 /\ cz = z / size /\
                       x - x / size * size = 0) \/
                      (cx = x / size + 1 /\ cz = z / size /\
                       x - x / size * size = size - 1) \/
                      (cx = x / size /\ cz = z / size - 1 /\
                       z - z / size * size = 0) \/
                      (cx = x / size /\ cz = z / size + 1 /\
                       z - z / size * size = size - 1)) by exact Hc;
      clear Hc;
      destruct Hpick as [(-> & ->) | [(-> & -> & Hl) | [(-> & -> & Hl)
                        | [(-> & -> & Hl) | (-> & -> & Hl)]]]];
      try lia;
      first
        [ eexists; split; [left; reflexivity | split; reflexivity]
        | eexists; split; [right; left; reflexivity | split; reflexivity]
        | eexists; split;
          [right; right; left; reflexivity | split; reflexivity] ] ]).
Qed.


(** X27.  After [onShootVoxel] the voxel shot at is not solid for
    [isSolidAtVoxel], every other voxel is as solid as before, and a second
    shot at the same voxel changes nothing and posts nothing.  This holds
    for every [CHUNK_SIZE], also where [worldToChunk] throws. *)
Theorem onShootVoxel_solid (index : DestroyedVoxelIndex)
    (x y z ix iy iz : Z) :
  Game.isSolidAtVoxel getSurfaceProfile seedStr
    (fst (Game.onShootVoxel K seedStr index x y z)) ix iy iz
  = (if (ix =? x) && (iy =? y) && (iz =? z) then false
     else Game.isSolidAtVoxel getSurfaceProfile seedStr index ix iy iz) /\
  Game.onShootVoxel K seedStr
    (fst (Game.onShootVoxel K seedStr index x y z)) x y z
  = (fst (Game.onShootVoxel K seedStr index x y z), Ok []).
Proof.
  assert (Hfst : hasDestroyedVoxel
                   (fst (Game.onShootVoxel K seedStr index x y z)) x y z
                 = true).
  { unfold Game.onShootVoxel.
    destruct (hasDestroyedVoxel index x y z) eqn:Hhas; cbn [fst];
      [assumption|].
    apply hasDestroyedVoxel_addDestroyedVoxel. left. auto. }
  split.
  - unfold Game.isSolidAtVoxel.
    destruct ((ix =? x) && (iy =? y) && (iz =? z)) eqn:Hsame.
    + apply Bool.andb_true_iff in Hsame. destruct Hsame as [Hsame Hz].
      apply Bool.andb_true_iff in Hsame. destruct Hsame as [Hx Hy].
      apply Z.eqb_eq in Hx, Hy, Hz. subst ix iy iz.
      now rewrite Hfst.
    + assert (Hdiff : ~ (ix = x /\ iy = y /\ iz = z)).
      { intros (-> & -> & ->). rewrite !Z.eqb_refl in Hsame. discriminate. }
      replace (hasDestroyedVoxel
                 (fst (Game.onShootVoxel K seedStr index x y z)) ix iy iz)
        with (hasDestroyedVoxel index ix iy iz); [reflexivity|].
      unfold Game.onShootVoxel.
      destruct (hasDestroyedVoxel index x y z) eqn:Hhas; cbn [fst];
        [reflexivity|].
      destruct (hasDestroyedVoxel index ix iy iz) eqn:Hold;
        destruct (hasDestroyedVoxel (addDestroyedVoxel index x y z) ix iy iz)
          eqn:Hnew; try reflexivity; exfalso.
      * assert (Htrue : hasDestroyedVoxel (addDestroyedVoxel index x y z)
                          ix iy iz = true)
          by (apply hasDestroyedVoxel_addDestroyedVoxel; now right).
        congruence.
      * apply hasDestroyedVoxel_addDestroyedVoxel in Hnew.
        destruct Hnew as [Hnew|Hnew]; [contradiction|congruence].
  - unfold Game.onShootVoxel at 1. now rewrite Hfst.
Qed.

End ShootFacts.

(** The voxel (15, 20, 15) is in a corner of chunk (0, 0); the buffer of the
    diagonal neighbour (1, 1) holds it on an edge of the halo. *)
Lemma meshChunk_unaffected_witness :
  Worker.meshChunk sampleConstants flatVillageWorld "demo" 1 1
    (Some (DestroyedVoxels.hasDestroyedVoxel
             (DestroyedVoxels.addDestroyedVoxel
                DestroyedVoxels.createDestroyedVoxelIndex 15 20 15)))
  = Worker.meshChunk sampleConstants flatVillageWorld "demo" 1 1
      (Some (DestroyedVoxels.hasDestroyedVoxel
               DestroyedVoxels.createDestroyedVoxelIndex)).
Proof.
  apply (meshChunk_unaffected sampleConstants flatVillageWorld "demo"
           1 1 15 20 15 DestroyedVoxels.createDestroyedVoxelIndex).
  reflexivity.
Defined.

Lemma sampleConstants_shoot :
  2 <= VoxelBuilder.CHUNK_SIZE sampleConstants /\
  VoxelBuilder.CHUNK_SIZE_PADDED sampleConstants
  = VoxelBuilder.CHUNK_SIZE sampleConstants + 2.
Proof. split; [simpl; lia|reflexivity]. Qed.


(** ** Hexadecimal digits *)

Lemma littleValue_double (d : Hexadecimal.uint) :
  littleValue (Hexadecimal.Little.double d) = 2 * littleValue d /\
  littleValue (Hexadecimal.Little.succ_double d) = 2 * littleValue d + 1.
Proof.
  induction d as [|d [IH1 IH2]|d [IH1 IH2]|d [IH1 IH2]|d [IH1 IH2]
                  |d [IH1 IH2]|d [IH1 IH2]|d [IH1 IH2]|d [IH1 IH2]
                  |d [IH1 IH2]|d [IH1 IH2]|d [IH1 IH2]|d [IH1 IH2]
                  |d [IH1 IH2]|d [IH1 IH2]|d [IH1 IH2]|d [IH1 IH2]];
    cbn [Hexadecimal.Little.double Hexadecimal.Little.succ_double
         littleValue]; lia.
Qed.

Lemma littleValue_pos (p : positive) :
  littleValue (Pos.to_little_hex_uint p) = Z.pos p.
Proof.
  induction p as [p IH|p IH|]; cbn [Pos.to_little_hex_uint].
  - rewrite (proj2 (littleValue_double _)), IH. lia.
  - rewrite (proj1 (littleValue_double _)), IH. lia.
  - reflexivity.
Qed.

Lemma littleValue_nonneg (d : Hexadecimal.uint) : 0 <= littleValue d.
Proof. induction d; cbn [littleValue]; lia. Qed.

Lemma normalLittle_double (d : Hexadecimal.uint) :
  normalLittle d = true ->
  normalLittle (Hexadecimal.Little.double d) = true /\
  normalLittle (Hexadecimal.Little.succ_double d) = true.
Proof.
  induction d as [|d IH|d IH|d IH|d IH|d IH|d IH|d IH|d IH
                  |d IH|d IH|d IH|d IH|d IH|d IH|d IH|d IH];
    intros Hn; [discriminate| ..];
    destruct d; try (split; reflexivity); try discriminate;
    destruct (IH Hn) as [IH1 IH2]; split;
    try exact IH1; try exact IH2.
Qed.

Lemma normalLittle_pos (p : positive) :
  normalLittle (Pos.to_little_hex_uint p) = true.
Proof.
  induction p as [p IH|p IH|]; cbn [Pos.to_little_hex_uint].
  - apply normalLittle_double, IH.
  - apply normalLittle_double, IH.
  - reflexivity.
Qed.

Lemma normalLittle_bound (d : Hexadecimal.uint) :
  normalLittle d = true ->
  16 ^ Z.of_nat (Hexadecimal.nb_digits d) <= 16 * littleValue d.
Proof.
  induction d as [|d IH|d IH|d IH|d IH|d IH|d IH|d IH|d IH
                  |d IH|d IH|d IH|d IH|d IH|d IH|d IH|d IH];
    intros Hn; [discriminate| ..];
    cbn [Hexadecimal.nb_digits littleValue];
    rewrite Nat2Z.inj_succ, Z.pow_succ_r by lia;
    pose proof (littleValue_nonneg d) as Hd;
    assert (Hcase : d = Hexadecimal.Nil \/ normalLittle d = true)
      by (destruct d; [left; reflexivity | right; exact Hn ..]);
    (destruct Hcase as [-> | Hn'];
     [ try discriminate; cbn [Hexadecimal.nb_digits littleValue]; lia
     | specialize (IH Hn'); lia ]).
Qed.

Lemma nb_digits_to_hex (n : N) :
  (n < 16 ^ 8)%N -> (Hexadecimal.nb_digits (N.to_hex_uint n) <= 8)%nat.
Proof.
  intros Hn. destruct n as [|p]; [simpl; lia|].
  cbn [N.to_hex_uint]. unfold Pos.to_hex_uint.
  rewrite HexadecimalFacts.nb_digits_rev.
  pose proof (normalLittle_bound _ (normalLittle_pos p)) as Hb.
  rewrite littleValue_pos in Hb.
  assert (Hlt : 16 ^ Z.of_nat (Hexadecimal.nb_digits
                                 (Pos.to_little_hex_uint p)) < 16 ^ 9).
  { change (16 ^ 9) with (16 * 16 ^ 8).
    assert (Z.pos p < 16 ^ 8) by lia. lia. }
  apply Z.pow_lt_mono_r_iff in Hlt; lia.
Qed.

Lemma length_string_append (s1 s2 : string) :
  String.length (s1 +:+ s2) = (String.length s1 + String.length s2)%nat.
Proof. induction s1 as [|c s1 IH]; simpl; [reflexivity|]. now rewrite IH. Qed.

Lemma length_string_of_list_ascii (l : list ascii) :
  String.length (string_of_list_ascii l) = length l.
Proof. induction l as [|c l IH]; simpl; [reflexivity|]. now rewrite IH. Qed.

Lemma length_string_of_uint (d : Hexadecimal.uint) :
  String.length (HexadecimalString.NilEmpty.string_of_uint d)
  = Hexadecimal.nb_digits d.
Proof. induction d; simpl; congruence. Qed.

Lemma length_toHex32 (value : Z) :
  0 <= value < 2 ^ 32 -> String.length (WorldHash.toHex32 value) = 8%nat.
Proof.
  intros Hv. unfold WorldHash.toHex32, WorldHash.padStart.
  rewrite length_string_append, length_string_of_list_ascii,
    length_replicate.
  assert (Hn : (Z.to_N value < 16 ^ 8)%N).
  { change (16 ^ 8)%N with (Z.to_N (2 ^ 32)). apply Z2N.inj_lt; lia. }
  pose proof (nb_digits_to_hex _ Hn) as Hd.
  assert (Hlen : (String.length
                    (HexadecimalString.NilZero.string_of_uint
                       (N.to_hex_uint (Z.to_N value))) <= 8)%nat).
  { unfold HexadecimalString.NilZero.string_of_uint.
    destruct (N.to_hex_uint (Z.to_N value)) eqn:Hhex;
      [simpl; lia| rewrite length_string_of_uint; exact Hd ..]. }
  lia.
Qed.

(** ** The rolling hash *)

Lemma shru32_0_range (a : Z) : 0 <= WorldHash.shru32 a 0 < 2 ^ 32.
Proof.
  unfold WorldHash.shru32. rewrite Z.pow_0_r, Z.div_1_r.
  apply Z.mod_pos_bound. lia.
Qed.

(** What one round of [update] does to [h1] is a step of FNV-1a. *)
Lemma update_step_h1 (hash byte : Z) :
  0 <= byte < 256 ->
  WorldHash.shru32 (Seed.imul (WorldHash.xor32 hash byte) 0x01000193) 0
  = (Z.lxor hash byte * Seed.FNV_PRIME) mod 2 ^ 32.
Proof.
  intros Hbyte. unfold WorldHash.shru32, WorldHash.xor32.
  rewrite Z.pow_0_r, Z.div_1_r.
  rewrite (toInt32_small byte) by lia.
  change 0x01000193 with Seed.FNV_PRIME.
  rewrite (fnv_step_mod hash hash byte Hbyte eq_refl).
  apply Z.mod_mod. lia.
Qed.

Lemma update_h1 (bytes : list Z) (hash : WorldHash.RollingHash) :
  List.Forall (fun byte => 0 <= byte < 256) bytes ->
  WorldHash.h1 (WorldHash.update bytes hash)
  = foldl (fun hash byte => (Z.lxor hash byte * Seed.FNV_PRIME) mod 2 ^ 32)
      (WorldHash.h1 hash) bytes.
Proof.
  intros Hbytes. unfold WorldHash.update.
  pose (inv := fun (i : Z) (st : WorldHash.RollingHash) =>
          WorldHash.h1 st
          = foldl (fun hash byte =>
                     (Z.lxor hash byte * Seed.FNV_PRIME) mod 2 ^ 32)
              (WorldHash.h1 hash) (take (Z.to_nat i) bytes)).
  match goal with
  | |- WorldHash.h1 (forRange 0 ?n ?body ?s) = _ =>
      assert (Hall : inv (0 + n) (forRange 0 n body s))
  end.
  { apply (forRange_invariant inv); [lia|reflexivity|].
    intros i st Hi Hinv. unfold inv in *. cbn [WorldHash.h1].
    destruct (lookup_lt_is_Some_2 bytes (Z.to_nat i) ltac:(lia))
      as [byte Hbyte].
    assert (Hread : readAt bytes i = Some byte).
    { unfold readAt. destruct (Z.ltb_spec i 0); [lia|assumption]. }
    rewrite Hread.
    replace (Z.to_nat (i + 1)) with (S (Z.to_nat i)) by lia.
    rewrite (take_S_r _ _ _ Hbyte), foldl_snoc, <- Hinv.
    apply update_step_h1.
    exact (Forall_lookup_1 _ _ _ _ Hbytes Hbyte). }
  unfold inv in Hall. rewrite Hall. f_equal.
  apply firstn_all2. lia.
Qed.

Lemma update_range (bytes : list Z) (hash : WorldHash.RollingHash) :
  0 <= WorldHash.h1 hash < 2 ^ 32 /\ 0 <= WorldHash.h2 hash < 2 ^ 32 ->
  0 <= WorldHash.h1 (WorldHash.update bytes hash) < 2 ^ 32 /\
  0 <= WorldHash.h2 (WorldHash.update bytes hash) < 2 ^ 32.
Proof.
  intros Hrange. unfold WorldHash.update.
  apply (forRange_preserves
           (fun st => 0 <= WorldHash.h1 st < 2 ^ 32 /\
                      0 <= WorldHash.h2 st < 2 ^ 32)); [assumption|].
  intros i st _ _. cbn [WorldHash.h1 WorldHash.h2].
  split; apply shru32_0_range.
Qed.

(** ** Loops that fold over rows *)

Lemma forRange_map {A S : Type} (g : S -> A -> S) (row : Z -> A) (lo n : Z)
    (s : S) :
  forRange lo n (fun i st => g st (row i)) s
  = foldl g s (List.map row (seqZ lo n)).
Proof.
  unfold forRange. revert s.
  induction (seqZ lo n) as [|i l IH]; intros s; simpl; [reflexivity|].
  apply IH.
Qed.

Lemma forRange_flat_map {A S : Type} (g : S -> A -> S) (rows : Z -> list A)
    (lo n : Z) (s : S) :
  forRange lo n (fun i st => foldl g st (rows i)) s
  = foldl g s (flat_map rows (seqZ lo n)).
Proof.
  unfold forRange. revert s.
  induction (seqZ lo n) as [|i l IH]; intros s; simpl; [reflexivity|].
  rewrite foldl_app. apply IH.
Qed.

Lemma foldl_concat {A S : Type} (g : S -> A -> S) (rows : list (list A))
    (s : S) :
  foldl g s (concat rows) = foldl (fun st row => foldl g st row) s rows.
Proof.
  revert s. induction rows as [|row rows IH]; intros s; simpl;
    [reflexivity|].
  rewrite foldl_app. apply IH.
Qed.

(** ** The rows of a buffer *)

Lemma subarray_exact (a : list Z) (start n : Z) :
  0 <= start -> 0 <= n -> start + n <= Z.of_nat (length a) ->
  WorldHash.subarray a start (start + n)
  = take (Z.to_nat n) (drop (Z.to_nat start) a).
Proof.
  intros Hstart Hn Hend. unfold WorldHash.subarray. cbv zeta.
  destruct (Z.ltb_spec start 0); [lia|].
  destruct (Z.ltb_spec (start + n) 0); [lia|].
  rewrite !Z.min_l by lia. f_equal. lia.
Qed.

Lemma take_drop_cells (a : list Z) (start n : Z) (f : Z -> Z) :
  0 <= start ->
  (forall i, 0 <= i < n -> readAt a (start + i) = Some (f i)) ->
  take (Z.to_nat n) (drop (Z.to_nat start) a) = List.map f (seqZ 0 n).
Proof.
  intros Hstart Hcells. apply list_eq. intros k.
  destruct (decide (k < Z.to_nat n)%nat) as [Hk|Hk].
  - rewrite lookup_take_lt, lookup_drop by assumption.
    change (List.map f (seqZ 0 n)) with (f <$> seqZ 0 n).
    rewrite list_lookup_fmap, lookup_seqZ_lt by lia. cbn [fmap option_fmap option_map].
    specialize (Hcells (Z.of_nat k) ltac:(lia)).
    unfold readAt in Hcells.
    destruct (Z.ltb_spec (start + Z.of_nat k) 0); [lia|].
    replace (Z.to_nat (start + Z.of_nat k)) with (Z.to_nat start + k)%nat
      in Hcells by lia.
    exact Hcells.
  - rewrite lookup_take_ge by lia.
    symmetry. apply lookup_ge_None_2.
    rewrite length_map, length_seqZ. lia.
Qed.

Lemma flat_map_map {A B C : Type} (f : B -> list C) (h : A -> B)
    (l : list A) :
  flat_map f (List.map h l) = flat_map (fun x => f (h x)) l.
Proof. induction l as [|x l IH]; simpl; [reflexivity|]. now rewrite IH. Qed.

(** [radius] passes the test of [worldHash] when it is an integer that is
    not negative. *)
Lemma radius_accepted (radius : Q) (r : Z) :
  0 <= r -> radius == inject_Z r ->
  negb (Qeq_bool (inject_Z (Qfloor radius)) radius)
  || negb (Qle_bool 0 radius) = false /\
  Qfloor radius = r.
Proof.
  intros Hr Hradius.
  assert (Hfloor : Qfloor radius = r).
  { rewrite Hradius. apply Qfloor_Z. }
  split; [|assumption]. rewrite Hfloor.
  assert (Heq : Qeq_bool (inject_Z r) radius = true).
  { apply Qeq_bool_iff. now symmetry. }
  assert (Hle : Qle_bool 0 radius = true).
  { apply Qle_bool_iff. rewrite Hradius.
    change 0%Q with (inject_Z 0). now rewrite <- Zle_Qle. }
  now rewrite Heq, Hle.
Qed.

Lemma radius_rejected (radius : Q) :
  negb (Qeq_bool (inject_Z (Qfloor radius)) radius)
  || negb (Qle_bool 0 radius) = true ->
  ~ (exists r, 0 <= r /\ radius == inject_Z r).
Proof.
  intros Htest (r & Hr & Hradius).
  destruct (radius_accepted radius r Hr Hradius) as [Hfalse _].
  congruence.
Qed.

Lemma foldl_update_h1 (rows : list (list Z)) (hash : WorldHash.RollingHash) :
  List.Forall (List.Forall (fun byte => 0 <= byte < 256)) rows ->
  WorldHash.h1 (foldl (fun hash row => WorldHash.update row hash) hash rows)
  = foldl (fun hash byte => (Z.lxor hash byte * Seed.FNV_PRIME) mod 2 ^ 32)
      (WorldHash.h1 hash) (concat rows).
Proof.
  intros Hrows. revert hash.
  induction Hrows as [|row rows Hrow Hrows IH]; intros hash; simpl;
    [reflexivity|].
  rewrite foldl_app, IH. f_equal. now apply update_h1.
Qed.

Lemma foldl_update_range (rows : list (list Z))
    (hash : WorldHash.RollingHash) :
  0 <= WorldHash.h1 hash < 2 ^ 32 /\ 0 <= WorldHash.h2 hash < 2 ^ 32 ->
  0 <= WorldHash.h1
         (foldl (fun hash row => WorldHash.update row hash) hash rows)
    < 2 ^ 32 /\
  0 <= WorldHash.h2
         (foldl (fun hash row => WorldHash.update row hash) hash rows)
    < 2 ^ 32.
Proof.
  revert hash. induction rows as [|row rows IH]; intros hash Hrange; simpl;
    [assumption|].
  apply IH. now apply update_range.
Qed.

Lemma createRollingHash_range :
  0 <= WorldHash.h1 WorldHash.createRollingHash < 2 ^ 32 /\
  0 <= WorldHash.h2 WorldHash.createRollingHash < 2 ^ 32.
Proof. vm_compute. repeat split; discriminate. Qed.

Lemma worldRows_bytes (K : VoxelBuilder.ChunkConstants)
    (getSurfaceProfile : string -> Z -> Z -> Terrain.SurfaceProfile)
    (seedStr : string) (r : Z) :
  List.Forall (List.Forall (fun byte => 0 <= byte < 256))
    (worldRows K getSurfaceProfile seedStr r).
Proof.
  unfold worldRows.
  apply List.Forall_flat_map, List.Forall_forall. intros cz _.
  apply List.Forall_flat_map, List.Forall_forall. intros cx _.
  apply List.Forall_flat_map, List.Forall_forall. intros y _.
  apply List.Forall_map, List.Forall_forall. intros i _.
  unfold worldRow.
  apply List.Forall_map, List.Forall_forall. intros j _.
  destruct (Terrain.getVoxel _ _ _ _ _); simpl; lia.
Qed.

Section WorldHashFacts.

Import VoxelBuilder.

Variable K : ChunkConstants.
Variable getSurfaceProfile : string -> Z -> Z -> Terrain.SurfaceProfile.
Variable seedStr : string.

Hypothesis Hsize : CHUNK_SIZE K < CHUNK_SIZE_PADDED K.
Hypothesis Hheight : CHUNK_HEIGHT K < CHUNK_HEIGHT_PADDED K.

(** The row that the innermost loop of [worldHash] hashes. *)
Lemma subarray_row (cx cz py pz : Z) :
  1 <= py <= CHUNK_HEIGHT K -> 1 <= pz <= CHUNK_SIZE K ->
  WorldHash.subarray (buildChunkVoxels K getSurfaceProfile seedStr cx cz)
    (indexOf K 1 py pz) (indexOf K 1 py pz + CHUNK_SIZE K)
  = worldRow K getSurfaceProfile seedStr cx (py - 1)
      (cz * CHUNK_SIZE K + (pz - 1)).
Proof.
  intros Hpy Hpz. unfold buildChunkVoxels.
  pose proof (proj1 (buildChunkVoxels_cells K getSurfaceProfile seedStr None
                       cx cz)) as Hlen.
  pose proof (indexOf_range K 1 py pz ltac:(lia) ltac:(lia) ltac:(lia))
    as Hfirst.
  pose proof (indexOf_range K (CHUNK_SIZE K) py pz ltac:(lia) ltac:(lia)
                ltac:(lia)) as Hlast.
  assert (Hshift : forall i, indexOf K (1 + i) py pz = indexOf K 1 py pz + i)
    by (intros i; unfold indexOf; lia).
  assert (Hend : indexOf K 1 py pz + CHUNK_SIZE K
                 <= CHUNK_SIZE_PADDED K * CHUNK_HEIGHT_PADDED K
                    * CHUNK_SIZE_PADDED K).
  { specialize (Hshift (CHUNK_SIZE K - 1)).
    replace (1 + (CHUNK_SIZE K - 1)) with (CHUNK_SIZE K) in Hshift by lia.
    lia. }
  rewrite subarray_exact; [|lia|lia|rewrite Hlen; lia].
  unfold worldRow. apply take_drop_cells; [lia|].
  intros i Hi. rewrite <- Hshift.
  rewrite paddedCell_value by lia.
  unfold paddedCellValue. cbn [callIsDestroyed]. cbv zeta.
  do 3 f_equal; lia.
Qed.

(** The two inner loops of [worldHash] hash the rows of one chunk. *)
Lemma chunk_rows (cx cz : Z) (hash : WorldHash.RollingHash) :
  forRange 1 (CHUNK_HEIGHT K) (fun py hash =>
    forRange 1 (CHUNK_SIZE K) (fun pz hash =>
      let rowStart := indexOf K 1 py pz in
      let rowEnd := rowStart + CHUNK_SIZE K in
      WorldHash.update
        (WorldHash.subarray
           (buildChunkVoxels K getSurfaceProfile seedStr cx cz)
           rowStart rowEnd) hash)
      hash)
    hash
  = foldl (fun hash row => WorldHash.update row hash) hash
      (flat_map (fun y =>
         List.map (fun i =>
           worldRow K getSurfaceProfile seedStr cx y
             (cz * CHUNK_SIZE K + i))
           (seqZ 0 (CHUNK_SIZE K)))
         (seqZ 0 (CHUNK_HEIGHT K))).
Proof.
  transitivity
    (forRange 1 (CHUNK_HEIGHT K) (fun py hash =>
       foldl (fun hash row => WorldHash.update row hash) hash
         (List.map (fun i =>
            worldRow K getSurfaceProfile seedStr cx (py - 1)
              (cz * CHUNK_SIZE K + i))
            (seqZ 0 (CHUNK_SIZE K))))
       hash).
  - apply forRange_ext_in. intros py st Hpy.
    transitivity
      (forRange 1 (CHUNK_SIZE K) (fun pz hash =>
         WorldHash.update
           (worldRow K getSurfaceProfile seedStr cx (py - 1)
              (cz * CHUNK_SIZE K + (pz - 1))) hash) st).
    + apply forRange_ext_in. intros pz st' Hpz. cbv zeta.
      rewrite subarray_row by lia. reflexivity.
    + rewrite (forRange_map (fun hash row => WorldHash.update row hash)
                 (fun pz => worldRow K getSurfaceProfile seedStr cx (py - 1)
                              (cz * CHUNK_SIZE K + (pz - 1)))).
      f_equal.
      replace (seqZ 1 (CHUNK_SIZE K))
        with (List.map (Z.add 1) (seqZ 0 (CHUNK_SIZE K)))
        by exact (fmap_add_seqZ 1 0 (CHUNK_SIZE K)).
      rewrite List.map_map. apply List.map_ext. intros i.
      f_equal. lia.
  - rewrite (forRange_flat_map (fun hash row => WorldHash.update row hash)
               (fun py =>
                  List.map (fun i =>
                    worldRow K getSurfaceProfile seedStr cx (py - 1)
                      (cz * CHUNK_SIZE K + i))
                    (seqZ 0 (CHUNK_SIZE K)))).
    f_equal.
    replace (seqZ 1 (CHUNK_HEIGHT K))
      with (List.map (Z.add 1) (seqZ 0 (CHUNK_HEIGHT K)))
      by exact (fmap_add_seqZ 1 0 (CHUNK_HEIGHT K)).
    rewrite flat_map_map. apply List.flat_map_ext. intros y.
    apply List.map_ext. intros i. f_equal. lia.
Qed.

(** The four loops of [worldHash] hash the rows of the world. *)
Lemma worldHash_rows (r : Z) :
  forRange (- r) (2 * r + 1) (fun cz hash =>
    forRange (- r) (2 * r + 1) (fun cx hash =>
      let voxels := buildChunkVoxels K getSurfaceProfile seedStr cx cz in
      forRange 1 (CHUNK_HEIGHT K) (fun py hash =>
        forRange 1 (CHUNK_SIZE K) (fun pz hash =>
          let rowStart := indexOf K 1 py pz in
          let rowEnd := rowStart + CHUNK_SIZE K in
          WorldHash.update (WorldHash.subarray voxels rowStart rowEnd) hash)
          hash)
        hash)
      hash)
    WorldHash.createRollingHash
  = foldl (fun hash row => WorldHash.update row hash)
      WorldHash.createRollingHash
      (worldRows K getSurfaceProfile seedStr r).
Proof.
  unfold worldRows.
  rewrite <- (forRange_flat_map
                (fun hash row => WorldHash.update row hash)).
  apply forRange_ext. intros cz hash.
  rewrite <- (forRange_flat_map
                (fun hash row => WorldHash.update row hash)).
  apply forRange_ext. intros cx hash'. cbv zeta.
  apply chunk_rows.
Qed.

End WorldHashFacts.

(** X28.  [worldHash] throws if and only if [radius] is not an integer that
    is at least 0.  Otherwise, when the inner cells of a row fit into it
    ([CHUNK_SIZE < CHUNK_SIZE_PADDED], [CHUNK_HEIGHT < CHUNK_HEIGHT_PADDED]),
    it returns the digest of the rolling hash fed, row by row, with the
    voxels [getVoxel] gives for the columns of the chunks within [radius] of
    the origin and the heights from 0 to [CHUNK_HEIGHT - 1]: the halo of the
    buffers takes no part.  The first half of the digest is the FNV-1a hash
    of all those voxels in that order, the second accumulator stays below
    2^32, and the digest has 16 characters. *)
Theorem worldHash_spec (K : VoxelBuilder.ChunkConstants)
    (getSurfaceProfile : string -> Z -> Z -> Terrain.SurfaceProfile)
    (seedStr : string) (radius : Q) :
  (WorldHash.worldHash K getSurfaceProfile seedStr radius
   = Throw "radius must be a non-negative integer"
   <-> ~ (exists r, 0 <= r /\ radius == inject_Z r)) /\
  forall r,
    0 <= r -> radius == inject_Z r ->
    VoxelBuilder.CHUNK_SIZE K < VoxelBuilder.CHUNK_SIZE_PADDED K ->
    VoxelBuilder.CHUNK_HEIGHT K < VoxelBuilder.CHUNK_HEIGHT_PADDED K ->
    let hash :=
      foldl (fun hash row => WorldHash.update row hash)
        WorldHash.createRollingHash
        (worldRows K getSurfaceProfile seedStr r) in
    WorldHash.worldHash K getSurfaceProfile seedStr radius
    = Ok (WorldHash.toHex32 (WorldHash.h1 hash)
          +:+ WorldHash.toHex32 (WorldHash.h2 hash)) /\
    WorldHash.h1 hash
    = fnv1a32 (concat (worldRows K getSurfaceProfile seedStr r)) /\
    0 <= WorldHash.h2 hash < 2 ^ 32 /\
    String.length (WorldHash.toHex32 (WorldHash.h1 hash)
                   +:+ WorldHash.toHex32 (WorldHash.h2 hash)) = 16%nat.
Proof.
  split.
  - unfold WorldHash.worldHash.
    destruct (negb (Qeq_bool (inject_Z (Qfloor radius)) radius)
              || negb (Qle_bool 0 radius)) eqn:Htest.
    + split; [intros _; now apply radius_rejected|reflexivity].
    + split; [discriminate|]. intros Hnot. exfalso. apply Hnot.
      apply Bool.orb_false_iff in Htest. destruct Htest as [Heq Hle].
      apply Bool.negb_false_iff in Heq, Hle.
      apply Qeq_bool_iff in Heq. apply Qle_bool_iff in Hle.
      exists (Qfloor radius). split; [|now symmetry].
      rewrite Zle_Qle, Heq. exact Hle.
  - intros r Hr Hradius Hsize Hheight hash.
    destruct (radius_accepted radius r Hr Hradius) as [Htest Hfloor].
    pose proof (foldl_update_range
                  (worldRows K getSurfaceProfile seedStr r)
                  WorldHash.createRollingHash createRollingHash_range)
      as [Hh1 Hh2].
    fold hash in Hh1, Hh2.
    split; [|split; [|split]].
    + pose proof (worldHash_rows K getSurfaceProfile seedStr Hsize Hheight r)
        as Hrows.
      unfold WorldHash.worldHash. rewrite Htest, Hfloor.
      cbv zeta in Hrows |- *. rewrite Hrows. reflexivity.
    + unfold hash, fnv1a32.
      apply (foldl_update_h1 (worldRows K getSurfaceProfile seedStr r)
               WorldHash.createRollingHash).
      apply worldRows_bytes.
    + exact Hh2.
    + rewrite length_string_append, !length_toHex32 by assumption.
      reflexivity.
Qed.

Lemma worldHash_spec_witness :
  let hash :=
    foldl (fun hash row => WorldHash.update row hash)
      WorldHash.createRollingHash
      (worldRows sampleConstants flatVillageWorld "demo" 1) in
  WorldHash.worldHash sampleConstants flatVillageWorld "demo" 1
  = Ok (WorldHash.toHex32 (WorldHash.h1 hash)
        +:+ WorldHash.toHex32 (WorldHash.h2 hash)) /\
  WorldHash.h1 hash
  = fnv1a32 (concat (worldRows sampleConstants flatVillageWorld "demo" 1)) /\
  0 <= WorldHash.h2 hash < 2 ^ 32 /\
  String.length (WorldHash.toHex32 (WorldHash.h1 hash)
                 +:+ WorldHash.toHex32 (WorldHash.h2 hash)) = 16%nat.
Proof.
  apply (proj2 (worldHash_spec sampleConstants flatVillageWorld "demo" 1) 1).
  - lia.
  - reflexivity.
  - reflexivity.
  - reflexivity.
Defined.

(** ** The worker over a run of messages *)

Section RunFacts.

Import DestroyedVoxels.

Variable K : VoxelBuilder.ChunkConstants.
Variable getSurfaceProfile : string -> Z -> Z -> Terrain.SurfaceProfile.

Hypothesis HS : 3 <= VoxelBuilder.CHUNK_SIZE_PADDED K.
Hypothesis HH : 3 <= VoxelBuilder.CHUNK_HEIGHT_PADDED K.

Lemma applyDestroyedDelta_one (index : DestroyedVoxelIndex) (x y z : Z) :
  Worker.applyDestroyedDelta index (Some [x; y; z])
  = Some (addDestroyedVoxel index x y z).
Proof. reflexivity. Qed.

(** One message with integer chunk coordinates is answered. *)
Lemma onmessageRequest_returns (index : DestroyedVoxelIndex)
    (request : Manager.MeshWorkerRequest) :
  integerRequest request ->
  exists index' response,
    Worker.onmessageRequest K getSurfaceProfile index request
    = Some (index', response) /\
    Worker.applyDestroyedDelta index (Manager.req_destroyedDelta request)
    = Some index' /\
    answers K getSurfaceProfile (hasDestroyedVoxel index') request response /\
    forall x y z,
      hasDestroyedVoxel index' x y z = true
      <-> hasDestroyedVoxel index x y z = true
          \/ exists delta k,
               Manager.req_destroyedDelta request = Some delta /\
               tripleAt delta k x y z.
Proof.
  intros (cx & cz & Hcx & Hcz).
  destruct (onmessage_returns K getSurfaceProfile index
              (Manager.req_seedStr request) cx cz
              (Manager.req_destroyedDelta request)
              (Manager.req_forceApply request) HS HH)
    as (index' & mesh & Hr & Hmesh & Hindex).
  exists index'. eexists.
  split; [unfold Worker.onmessageRequest; rewrite Hcx, Hcz; exact Hr|].
  split.
  { unfold Worker.onmessage in Hr.
    destruct (Worker.applyDestroyedDelta index
                (Manager.req_destroyedDelta request)) as [index1|];
      [|discriminate].
    destruct (Worker.meshChunk K getSurfaceProfile
                (Manager.req_seedStr request) cx cz
                (Some (hasDestroyedVoxel index1))) as [[payload|message]|];
      congruence. }
  split; [|exact Hindex].
  exists cx, cz. eexists. split; [exact Hcx|]. split; [exact Hcz|].
  split; [reflexivity|]. cbn [Manager.resp_key Manager.resp_cx
                              Manager.resp_cz Manager.resp_forceApply
                              Manager.resp_mesh].
  repeat (split; [reflexivity|]). exact Hmesh.
Qed.

(** A run of messages is answered, and the index grows by the triples of
    the deltas. *)
Lemma handleAll_returns (requests : list Manager.MeshWorkerRequest) :
  forall index,
    List.Forall integerRequest requests ->
    exists index' responses,
      Worker.handleAll K getSurfaceProfile index requests
      = Some (index', responses) /\
      List.Forall2
        (fun request response =>
           exists during,
             answers K getSurfaceProfile (hasDestroyedVoxel during)
               request response /\
             (forall x y z,
                hasDestroyedVoxel index x y z = true ->
                hasDestroyedVoxel during x y z = true) /\
             (forall x y z,
                hasDestroyedVoxel during x y z = true ->
                hasDestroyedVoxel index' x y z = true))
        requests responses /\
      forall x y z,
        hasDestroyedVoxel index' x y z = true
        <-> hasDestroyedVoxel index x y z = true
            \/ exists request delta k,
                 In request requests /\
                 Manager.req_destroyedDelta request = Some delta /\
                 tripleAt delta k x y z.
Proof.
  induction requests as [|request requests IH]; intros index Hint.
  - exists index, []. split; [reflexivity|]. split; [constructor|].
    intros x y z. split; [now left|].
    intros [Hold|(request & _ & _ & [] & _)]. exact Hold.
  - apply List.Forall_cons_iff in Hint. destruct Hint as [Hrequest Hint].
    destruct (onmessageRequest_returns index request Hrequest)
      as (index1 & response & Hr & _ & Hanswer & Hindex1).
    destruct (IH index1 Hint) as (index' & responses & Hrun & Hall & Hindex').
    exists index', (response :: responses).
    split; [cbn [Worker.handleAll]; now rewrite Hr, Hrun|].
    split.
    + constructor.
      * exists index1. split; [exact Hanswer|]. split.
        -- intros x y z Hold. apply Hindex1. now left.
        -- intros x y z Hold. apply Hindex'. now left.
      * eapply List.Forall2_impl; [|exact Hall]. cbv beta.
        intros request' response' (during & Ha & Hlow & Hhigh).
        exists during. split; [exact Ha|]. split; [|exact Hhigh].
        intros x y z Hold. apply Hlow, Hindex1. now left.
    + intros x y z. rewrite Hindex', Hindex1. split.
      * intros [[Hold|(delta & k & Hdelta & Hk)]
               |(request' & delta & k & Hin & Hdelta & Hk)].
        -- now left.
        -- right. exists request, delta, k. split; [now left|]. now split.
        -- right. exists request', delta, k. split; [now right|]. now split.
      * intros [Hold|(request' & delta & k & [<-|Hin] & Hdelta & Hk)].
        -- left. now left.
        -- left. right. now exists delta, k.
        -- right. now exists request', delta, k.
Qed.

(** Messages without a delta leave the index as it is. *)
Lemma handleAll_no_delta (requests : list Manager.MeshWorkerRequest)
    (index : DestroyedVoxelIndex) :
  List.Forall integerRequest requests ->
  List.Forall (fun request => Manager.req_destroyedDelta request = None)
    requests ->
  exists responses,
    Worker.handleAll K getSurfaceProfile index requests
    = Some (index, responses) /\
    List.Forall2 (answers K getSurfaceProfile (hasDestroyedVoxel index))
      requests responses.
Proof.
  induction requests as [|request requests IH]; intros Hint Hnone.
  - exists []. split; [reflexivity|constructor].
  - apply List.Forall_cons_iff in Hint. destruct Hint as [Hrequest Hint].
    apply List.Forall_cons_iff in Hnone. destruct Hnone as [Hdelta Hnone].
    destruct (onmessageRequest_returns index request Hrequest)
      as (index1 & response & Hr & Happly & Hanswer & _).
    rewrite Hdelta in Happly. cbn [Worker.applyDestroyedDelta] in Happly.
    assert (index1 = index) by congruence. subst index1.
    destruct (IH Hint Hnone) as (responses & Hrun & Hall).
    exists (response :: responses).
    split; [cbn [Worker.handleAll]; now rewrite Hr, Hrun|].
    now constructor.
Qed.

End RunFacts.

(** X29.  The worker over any run of messages with integer chunk
    coordinates (padded sizes at least 3): every message is answered with a
    payload for its chunk that carries its [forceApply] and is meshed from
    an index between the one before the run and the one after it, and a
    voxel is in the index after the run if and only if it was in it before
    or is a complete triple of the delta of one of the messages.  So the
    index of the worker only grows: no message, whatever its seed, takes a
    voxel out of it. *)
Theorem handleAll_spec (K : VoxelBuilder.ChunkConstants)
    (getSurfaceProfile : string -> Z -> Z -> Terrain.SurfaceProfile)
    (index : DestroyedVoxels.DestroyedVoxelIndex)
    (requests : list Manager.MeshWorkerRequest) :
  3 <= VoxelBuilder.CHUNK_SIZE_PADDED K ->
  3 <= VoxelBuilder.CHUNK_HEIGHT_PADDED K ->
  List.Forall integerRequest requests ->
  exists index' responses,
    Worker.handleAll K getSurfaceProfile index requests
    = Some (index', responses) /\
    List.Forall2
      (fun request response =>
         exists during,
           answers K getSurfaceProfile
             (DestroyedVoxels.hasDestroyedVoxel during) request response /\
           (forall x y z,
              DestroyedVoxels.hasDestroyedVoxel index x y z = true ->
              DestroyedVoxels.hasDestroyedVoxel during x y z = true) /\
           (forall x y z,
              DestroyedVoxels.hasDestroyedVoxel during x y z = true ->
              DestroyedVoxels.hasDestroyedVoxel index' x y z = true))
      requests responses /\
    forall x y z,
      DestroyedVoxels.hasDestroyedVoxel index' x y z = true
      <-> DestroyedVoxels.hasDestroyedVoxel index x y z = true
          \/ exists request delta k,
               In request requests /\
               Manager.req_destroyedDelta request = Some delta /\
               tripleAt delta k x y z.
Proof.
  intros HS HH Hint.
  exact (handleAll_returns K getSurfaceProfile HS HH requests index Hint).
Qed.

(** X30.  A shot reaches the worker.  With [CHUNK_SIZE >= 2], a halo of one
    cell and a padded height of at least 3, the messages that [onShootVoxel]
    posts for a voxel that the game has not destroyed yet, handled by the
    worker in order from any index, leave the worker with exactly that index
    plus the voxel of the delta, which is the voxel shot at when its
    coordinates are signed 32-bit integers; every message is answered by a
    payload for its chunk with [forceApply = true], meshed from the buffer
    in which that voxel is destroyed. *)
Theorem shot_reaches_worker (K : VoxelBuilder.ChunkConstants)
    (getSurfaceProfile : string -> Z -> Z -> Terrain.SurfaceProfile)
    (seedStr : string)
    (gameIndex workerIndex : DestroyedVoxels.DestroyedVoxelIndex)
    (x y z : Z) :
  2 <= VoxelBuilder.CHUNK_SIZE K ->
  VoxelBuilder.CHUNK_SIZE_PADDED K = VoxelBuilder.CHUNK_SIZE K + 2 ->
  3 <= VoxelBuilder.CHUNK_HEIGHT_PADDED K ->
  DestroyedVoxels.hasDestroyedVoxel gameIndex x y z = false ->
  let workerIndex' :=
    DestroyedVoxels.addDestroyedVoxel workerIndex
      (Seed.toInt32 x) (Seed.toInt32 y) (Seed.toInt32 z) in
  exists posted responses,
    Game.onShootVoxel K seedStr gameIndex x y z
    = (DestroyedVoxels.addDestroyedVoxel gameIndex x y z, Ok posted) /\
    Worker.handleAll K getSurfaceProfile workerIndex posted
    = Some (workerIndex', responses) /\
    List.Forall2
      (answers K getSurfaceProfile
         (DestroyedVoxels.hasDestroyedVoxel workerIndex'))
      posted responses /\
    List.Forall
      (fun request =>
         Manager.req_seedStr request = seedStr /\
         Manager.req_forceApply request = Some true) posted /\
    (- 2 ^ 31 <= x < 2 ^ 31 -> - 2 ^ 31 <= y < 2 ^ 31 ->
     - 2 ^ 31 <= z < 2 ^ 31 ->
     workerIndex' = DestroyedVoxels.addDestroyedVoxel workerIndex x y z).
Proof.
  intros Hsize Hpad HH Hhas workerIndex'.
  assert (HS : 3 <= VoxelBuilder.CHUNK_SIZE_PADDED K) by lia.
  destruct (onShootVoxel_posted K seedStr gameIndex x y z Hsize Hpad Hhas)
    as (rest & Heq & _ & Hall & Hint & _).
  set (first := {| Manager.req_seedStr := seedStr;
                   Manager.req_seedInt := Seed.seedToInt seedStr;
                   Manager.req_cx := Num.Int (x / VoxelBuilder.CHUNK_SIZE K);
                   Manager.req_cz := Num.Int (z / VoxelBuilder.CHUNK_SIZE K);
                   Manager.req_destroyedDelta :=
                     Some [Seed.toInt32 x; Seed.toInt32 y; Seed.toInt32 z];
                   Manager.req_forceApply := Some true |}) in *.
  assert (Hfirst : integerRequest first) by (do 2 eexists; split; reflexivity).
  destruct (onmessageRequest_returns K getSurfaceProfile HS HH workerIndex
              first Hfirst)
    as (index1 & response & Hr & Happly & Hanswer & _).
  assert (Hindex1 : index1 = workerIndex').
  { cbn [first Manager.req_destroyedDelta] in Happly.
    rewrite applyDestroyedDelta_one in Happly.
    injection Happly as Happly. symmetry. exact Happly. }
  subst index1.
  destruct (handleAll_no_delta K getSurfaceProfile HS HH rest workerIndex'
              Hint)
    as (responses & Hrun & Hanswers).
  { apply (List.Forall_impl _ (P := fun request =>
             Manager.req_seedStr request = seedStr /\
             Manager.req_seedInt request = Seed.seedToInt seedStr /\
             Manager.req_destroyedDelta request = None /\
             Manager.req_forceApply request = Some true)); [|exact Hall].
    intros request (_ & _ & Hnone & _). exact Hnone. }
  exists (first :: rest), (response :: responses).
  split; [exact Heq|].
  split; [cbn [Worker.handleAll]; now rewrite Hr, Hrun|].
  split; [now constructor|].
  split.
  - constructor; [split; reflexivity|].
    apply (List.Forall_impl _ (P := fun request =>
             Manager.req_seedStr request = seedStr /\
             Manager.req_seedInt request = Seed.seedToInt seedStr /\
             Manager.req_destroyedDelta request = None /\
             Manager.req_forceApply request = Some true)); [|exact Hall].
    intros request (Hseed & _ & _ & Hforce). now split.
  - intros Hx Hy Hz. unfold workerIndex'.
    now rewrite !toInt32_small by assumption.
Qed.

(** One message with a delta of five numbers, of which the last two are not
    a triple, and one without a delta. *)
Lemma handleAll_spec_witness :
  exists index' responses,
    Worker.handleAll sampleConstants flatVillageWorld
      DestroyedVoxels.createDestroyedVoxelIndex
      [ {| Manager.req_seedStr := "demo";
           Manager.req_seedInt := Seed.seedToInt "demo";
           Manager.req_cx := Num.Int 0; Manager.req_cz := Num.Int 0;
           Manager.req_destroyedDelta := Some [3; 20; 5; 4; 20];
           Manager.req_forceApply := Some true |};
        {| Manager.req_seedStr := "other";
           Manager.req_seedInt := Seed.seedToInt "other";
           Manager.req_cx := Num.Int 1; Manager.req_cz := Num.Int 0;
           Manager.req_destroyedDelta := None;
           Manager.req_forceApply := None |} ]
    = Some (index', responses) /\
    length responses = 2%nat /\
    DestroyedVoxels.hasDestroyedVoxel index' 3 20 5 = true.
Proof.
  destruct (handleAll_spec sampleConstants flatVillageWorld
              DestroyedVoxels.createDestroyedVoxelIndex
              [ {| Manager.req_seedStr := "demo";
                   Manager.req_seedInt := Seed.seedToInt "demo";
                   Manager.req_cx := Num.Int 0; Manager.req_cz := Num.Int 0;
                   Manager.req_destroyedDelta := Some [3; 20; 5; 4; 20];
                   Manager.req_forceApply := Some true |};
                {| Manager.req_seedStr := "other";
                   Manager.req_seedInt := Seed.seedToInt "other";
                   Manager.req_cx := Num.Int 1; Manager.req_cz := Num.Int 0;
                   Manager.req_destroyedDelta := None;
                   Manager.req_forceApply := None |} ]
              (proj1 sampleConstants_sizes) (proj2 sampleConstants_sizes))
    as (index' & responses & Hrun & Hall & Hindex).
  { repeat constructor; do 2 eexists; split; reflexivity. }
  exists index', responses. split; [exact Hrun|]. split.
  - apply List.Forall2_length in Hall. simpl in Hall. now rewrite <- Hall.
  - apply Hindex. right. eexists. exists [3; 20; 5; 4; 20], 0.
    split; [left; reflexivity|]. split; [reflexivity|].
    unfold tripleAt. simpl. repeat split; lia.
Defined.

(** A shot at the voxel (16, 20, 5) in the sample world, the worker holding
    nothing yet. *)
Lemma shot_reaches_worker_witness :
  exists posted responses,
    Game.onShootVoxel sampleConstants "demo"
      DestroyedVoxels.createDestroyedVoxelIndex 16 20 5
    = (DestroyedVoxels.addDestroyedVoxel
         DestroyedVoxels.createDestroyedVoxelIndex 16 20 5, Ok posted) /\
    Worker.handleAll sampleConstants flatVillageWorld
      DestroyedVoxels.createDestroyedVoxelIndex posted
    = Some (DestroyedVoxels.addDestroyedVoxel
              DestroyedVoxels.createDestroyedVoxelIndex 16 20 5,
            responses) /\
    List.Forall2
      (answers sampleConstants flatVillageWorld
         (DestroyedVoxels.hasDestroyedVoxel
            (DestroyedVoxels.addDestroyedVoxel
               DestroyedVoxels.createDestroyedVoxelIndex 16 20 5)))
      posted responses.
Proof.
  destruct (shot_reaches_worker sampleConstants flatVillageWorld "demo"
              DestroyedVoxels.createDestroyedVoxelIndex
              DestroyedVoxels.createDestroyedVoxelIndex 16 20 5
              (proj1 sampleConstants_shoot) (proj2 sampleConstants_shoot)
              (proj2 sampleConstants_sizes) eq_refl)
    as (posted & responses & Hshot & Hrun & Hall & _).
  exists posted, responses. split; [exact Hshot|].
  split; [exact Hrun|exact Hall].
Defined.
